(** * VoidSpinner: the seeded generator, the economy formulas, the mutation
  engine and the request handlers, embedded from the TypeScript sources.

  Conventions of the embedding.
  - A JavaScript number that the program only ever uses as an integer
    (seeds, flux, levels, quantities, prices) is a [Z].  Integer products
    that can leave the 53-bit range of a double are rounded the way a double
    rounds them ([JS.to_double]).
  - A JavaScript number that carries a fraction (draws, rates, weights,
    stats) is a rational [Q].  Module [Rng] and the economy formulas compute
    on exact rationals.  Where the last bit of a double decides the answer
    (the rarity ladder, the weighted choice, [randomInt], the scaled
    affixes) the arithmetic is that of binary64: [F64.fl] rounds a rational
    to the nearest double, a decimal literal [c] of the source is the
    double [F64.fl c], and module [Rng64] is the generator class over these
    operations.  On the ranges the fragment generator draws from, the
    exact [randomInt] and the double one agree at every seed
    ([generator_randomInt]).
  - Infinities and NaN have no counterpart in [Z] and [Q].  A theorem about
    doubles states the bound under which none arises: a seed below [2^1010]
    in magnitude (the product [seed * 9301] stays finite), a total weight up
    to [F64.max_value].
  - Strings stay strings ([rarity], [type], ids); a JS object used as a
    dictionary is a [gmap string _]; arrays and database tables are lists.
    A [gmap] has own keys only: a theorem about a lookup by a caller's
    string excludes the names every object inherits ([JS.inherited]), under
    which the source finds a method of [Object.prototype].
  - Every source of non-determinism ([Date.now()], [Math.random()],
    [randomUUID()]) is an explicit argument.
  - A loop that the source runs until a condition holds takes a bound on the
    number of its rounds ([fuel]) and answers [None] when the bound is
    reached; that twelve rounds are always enough is a theorem. *)

From Stdlib Require Import ZArith Znumtheory QArith Qround Qminmax Qabs Qpower Lia Lqa.
From stdpp Require Import gmap strings list pretty.

Local Open Scope Z_scope.

(* ================================================================== *)
(** * JavaScript number primitives                                      *)
(* ================================================================== *)

Module JS.

(** The double nearest to the integer [z] (round to nearest, ties to
    even, 53 bits of precision).  Integers of magnitude up to [2^53] are
    their own double.  The exponent is not bounded: for a magnitude of
    [2^1024] and more the source has an infinity, which [Z] has not. *)
Definition to_double (z : Z) : Z :=
  let a := Z.abs z in
  let e := Z.log2 a + 1 - 53 in
  if e <=? 0 then z
  else
    let q := Z.shiftr a e in
    let r := a - Z.shiftl q e in
    let half := Z.shiftl 1 (e - 1) in
    let q' := if r <? half then q
              else if half <? r then q + 1
              else if Z.even q then q else q + 1 in
    Z.sgn z * Z.shiftl q' e.

(** [a % b] on integer-valued doubles: exact, sign of the dividend. *)
Definition rem (a b : Z) : Z := Z.rem a b.

(** [Math.floor], [Math.round] (halves go up), [Math.min], [Math.max]. *)
Definition floor (x : Q) : Z := Qfloor x.
Definition round (x : Q) : Z := Qfloor (x + (1 # 2)).
Definition min (x y : Q) : Q := Qmin x y.
Definition max (x y : Q) : Q := Qmax x y.

(** [x < y], [x <= y], [x > y] as tests. *)
Definition leb (x y : Q) : bool := Qle_bool x y.
Definition ltb (x y : Q) : bool := negb (Qle_bool y x).
Definition gtb (x y : Q) : bool := ltb y x.

(** [v || d] on an optional number: [undefined] and [0] are falsy. *)
Definition or_default (v : option Q) (d : Q) : Q :=
  match v with
  | Some x => if Qeq_bool x 0 then d else x
  | None => d
  end.

(** [v || d] on an optional integer. *)
Definition or_defaultZ (v : option Z) (d : Z) : Z :=
  match v with
  | Some x => if x =? 0 then d else x
  | None => d
  end.

(** The property names every object literal inherits from
    [Object.prototype]: [obj[name]] and [name in obj] find them although
    they are no keys of [obj]. *)
Definition inherited : list string :=
  ["constructor"; "hasOwnProperty"; "isPrototypeOf"; "propertyIsEnumerable";
   "toLocaleString"; "toString"; "valueOf"; "__proto__";
   "__defineGetter__"; "__defineSetter__"; "__lookupGetter__";
   "__lookupSetter__"]%string.

End JS.

(* ================================================================== *)
(** * Binary64 arithmetic on rationals                                  *)
(* ================================================================== *)

Module F64.
Local Open Scope Q_scope.

(** [2^k] *)
Definition pow2 (k : Z) : Q := Qpower 2 k.

(** [floor(log2 x)] of a positive [x]. *)
Definition ilog2 (x : Q) : Z :=
  let k := (Z.log2 (Qnum x) - Z.log2 (Z.pos (Qden x)))%Z in
  if Qle_bool (pow2 k) x then k else (k - 1)%Z.

(** The integer nearest to [x], the even one of two that are equally near. *)
Definition rne (x : Q) : Z :=
  let f := Qfloor x in
  match Qcompare (x - inject_Z f) (1 # 2) with
  | Lt => f
  | Gt => (f + 1)%Z
  | Eq => if Z.even f then f else (f + 1)%Z
  end.

(** The exponent of the last place of the doubles around [x]: 53 bits of
    precision, and no exponent below that of the subnormal numbers. *)
Definition ulp_exp (x : Q) : Z := Z.max (ilog2 (Qabs x) - 52) (-1074).

(** The double nearest to [x], ties to even.  A result above [max_value] in
    magnitude stands for an overflow, where the source has an infinity. *)
Definition fl (x : Q) : Q :=
  if Qeq_bool x 0 then 0
  else let e := ulp_exp x in inject_Z (rne (x / pow2 e)) * pow2 e.

(** [x + y], [x - y], [x * y] and [x / y] on doubles. *)
Definition add (x y : Q) : Q := fl (x + y).
Definition sub (x y : Q) : Q := fl (x - y).
Definition mul (x y : Q) : Q := fl (x * y).
Definition div (x y : Q) : Q := fl (x / y).

(** [Number.MAX_VALUE] *)
Definition max_value : Q := inject_Z (2 ^ 53 - 1) * pow2 971.

End F64.

(* ================================================================== *)
(** * lib/rng.ts and the copy of the class in server/gameLogic.ts       *)
(* ================================================================== *)

(** The class on exact rationals: [next()] is the quotient [seed / 233280]
    itself, and sums and products are not rounded.  Module [Rng64] below is
    the class in the arithmetic of doubles. *)

Module Rng.

Local Open Scope Q_scope.

(** [class VoidRNG { private seed: number }] *)
Record VoidRNG : Type := mkVoidRNG { seed : Z }.

(** [constructor(seed?: number) { this.seed = seed || Date.now(); }]
    [now] is the value [Date.now()] would return at the call. *)
Definition constructor (seed : option Z) (now : Z) : VoidRNG :=
  mkVoidRNG (JS.or_defaultZ seed now).

(** [this.seed = (this.seed * 9301 + 49297) % 233280;
     return this.seed / 233280;] *)
Definition next (g : VoidRNG) : Q * VoidRNG :=
  let s := JS.rem (JS.to_double (JS.to_double (seed g * 9301) + 49297)) 233280 in
  (s # 233280, mkVoidRNG s).

(** [return min + this.next() * (max - min);] *)
Definition random (min max : Q) (g : VoidRNG) : Q * VoidRNG :=
  let (r, g') := next g in
  (min + r * (max - min), g').

(** [return Math.floor(this.random(min, max + 1));] *)
Definition randomInt (min max : Q) (g : VoidRNG) : Z * VoidRNG :=
  let (r, g') := random min (max + 1) g in
  (JS.floor r, g').

(** [Array<{item: T, weight: number}>] *)
Record Weighted (T : Type) : Type := mkWeighted { item : T; weight : Q }.
Arguments mkWeighted {T} _ _.
Arguments item {T} _.
Arguments weight {T} _.

(** [items.reduce((sum, item) => sum + item.weight, 0)] *)
Definition totalWeight {T} (items : list (Weighted T)) : Q :=
  fold_left (fun sum it => sum + weight it) items 0.

(** The [for (const item of items)] loop of [weightedChoice]: the entry at
    which the loop returns, or [None] when it runs to the end. *)
Fixpoint walk {T} (randomValue currentWeight : Q) (items : list (Weighted T))
  : option (Weighted T) :=
  match items with
  | [] => None
  | it :: rest =>
      let currentWeight := currentWeight + weight it in
      if JS.leb randomValue currentWeight then Some it
      else walk randomValue currentWeight rest
  end.

(** The entry [weightedChoice] selects: the one the loop returns at, else
    [items[items.length - 1]] ([None] when that is [undefined]). *)
Definition weightedEntry {T} (items : list (Weighted T)) (g : VoidRNG)
  : option (Weighted T) * VoidRNG :=
  let (randomValue, g') := random 0 (totalWeight items) g in
  match walk randomValue 0 items with
  | Some it => (Some it, g')
  | None => (last items, g')
  end.

(** [weightedChoice]: the [.item] of the selected entry.  On an empty list
    the source throws on [undefined.item] after the draw: [None]. *)
Definition weightedChoice {T} (items : list (Weighted T)) (g : VoidRNG)
  : option T * VoidRNG :=
  let (e, g') := weightedEntry items g in
  (item <$> e, g').

(** [rollRarity(bonusChance: number = 0): string] *)
Definition rollRarity (bonusChance : Q) (g : VoidRNG) : string * VoidRNG :=
  let (roll, g') := next g in
  let adjustedRoll := JS.min (roll + bonusChance) 0.999999 in
  if JS.gtb adjustedRoll 0.999995 then ("void_touched"%string, g')
  else if JS.gtb adjustedRoll 0.9999 then ("mythic"%string, g')
  else if JS.gtb adjustedRoll 0.999 then ("legendary"%string, g')
  else if JS.gtb adjustedRoll 0.99 then ("epic"%string, g')
  else if JS.gtb adjustedRoll 0.95 then ("rare"%string, g')
  else if JS.gtb adjustedRoll 0.8 then ("uncommon"%string, g')
  else ("common"%string, g').

(** The first [n] values of [next()], in call order. *)
Fixpoint nexts (n : nat) (g : VoidRNG) : list Q :=
  match n with
  | O => []
  | S n' => let (r, g') := next g in r :: nexts n' g'
  end.

End Rng.

(* ================================================================== *)
(** * The same class in binary64 arithmetic                             *)
(* ================================================================== *)

Module Rng64.
Import Rng.

Local Open Scope Q_scope.

(** [this.seed = (this.seed * 9301 + 49297) % 233280;
     return this.seed / 233280;] *)
Definition next (g : VoidRNG) : Q * VoidRNG :=
  let s := JS.rem (JS.to_double (JS.to_double (seed g * 9301) + 49297)) 233280 in
  (F64.div (inject_Z s) 233280, mkVoidRNG s).

(** [return min + this.next() * (max - min);] *)
Definition random (min max : Q) (g : VoidRNG) : Q * VoidRNG :=
  let (r, g') := next g in
  (F64.add min (F64.mul r (F64.sub max min)), g').

(** [return Math.floor(this.random(min, max + 1));] *)
Definition randomInt (min max : Q) (g : VoidRNG) : Z * VoidRNG :=
  let (r, g') := random min (F64.add max 1) g in
  (JS.floor r, g').

(** [items.reduce((sum, item) => sum + item.weight, 0)] *)
Definition totalWeight {T} (items : list (Weighted T)) : Q :=
  fold_left (fun sum it => F64.add sum (weight it)) items 0.

(** The [for (const item of items)] loop of [weightedChoice]: the entry at
    which the loop returns, or [None] when it runs to the end. *)
Fixpoint walk {T} (randomValue currentWeight : Q) (items : list (Weighted T))
  : option (Weighted T) :=
  match items with
  | [] => None
  | it :: rest =>
      let currentWeight := F64.add currentWeight (weight it) in
      if JS.leb randomValue currentWeight then Some it
      else walk randomValue currentWeight rest
  end.

(** The entry [weightedChoice] selects: the one the loop returns at, else
    [items[items.length - 1]] ([None] when that is [undefined]). *)
Definition weightedEntry {T} (items : list (Weighted T)) (g : VoidRNG)
  : option (Weighted T) * VoidRNG :=
  let (randomValue, g') := random 0 (totalWeight items) g in
  match walk randomValue 0 items with
  | Some it => (Some it, g')
  | None => (last items, g')
  end.

(** [weightedChoice]: the [.item] of the selected entry.  On an empty list
    the source throws on [undefined.item] after the draw: [None]. *)
Definition weightedChoice {T} (items : list (Weighted T)) (g : VoidRNG)
  : option T * VoidRNG :=
  let (e, g') := weightedEntry items g in
  (item <$> e, g').

(** [rollRarity(bonusChance: number = 0): string] *)
Definition rollRarity (bonusChance : Q) (g : VoidRNG) : string * VoidRNG :=
  let (roll, g') := next g in
  let adjustedRoll := JS.min (F64.add roll bonusChance) (F64.fl 0.999999) in
  if JS.gtb adjustedRoll (F64.fl 0.999995) then ("void_touched"%string, g')
  else if JS.gtb adjustedRoll (F64.fl 0.9999) then ("mythic"%string, g')
  else if JS.gtb adjustedRoll (F64.fl 0.999) then ("legendary"%string, g')
  else if JS.gtb adjustedRoll (F64.fl 0.99) then ("epic"%string, g')
  else if JS.gtb adjustedRoll (F64.fl 0.95) then ("rare"%string, g')
  else if JS.gtb adjustedRoll (F64.fl 0.8) then ("uncommon"%string, g')
  else ("common"%string, g').

End Rng64.

(* ================================================================== *)
(** * shared/schema.ts: the rows of the three tables                    *)
(* ================================================================== *)

Module Schema.

(** [gameStates]; the two timestamps are bookkeeping outside the model. *)
Record GameState : Type := mkGameState {
  gs_id : string;
  userId : string;
  flux : Z;
  totalSpins : Z;
  deviceLevel : Z;
  spinSpeedLevel : Z;
  rarityOddsLevel : Z;
  fluxCostLevel : Z;
  mutationSlotsLevel : Z
}.

(** An element of [implicitMods]: [{name, value}]. *)
Record Mod : Type := mkMod { mod_name : string; mod_value : Q }.

(** An element of [affixes]: [{name, value, source}]. *)
Record Affix : Type := mkAffix {
  affix_name : string;
  affix_value : Q;
  affix_source : string
}.

(** [fragments]; [createdAt] is outside the model. *)
Record Fragment : Type := mkFragment {
  id : string;
  gameStateId : string;
  name : string;
  type : string;
  rarity : string;
  baseStats : gmap string Q;
  implicitMods : list Mod;
  affixes : list Affix;
  isCorrupted : bool;
  quantity : Z
}.

(** [marketplaceListings]; [priceHistory] and [updatedAt] are never read or
    written by the handlers and are outside the model. *)
Record MarketplaceListing : Type := mkListing {
  listing_id : string;
  fragmentType : string;
  listing_rarity : string;
  basePrice : Z;
  currentPrice : Z;
  demand : Q;
  supply : Z
}.

End Schema.

(* ================================================================== *)
(** * server/gameLogic.ts                                               *)
(* ================================================================== *)

Module GameLogic.
Import Schema.
Local Open Scope Q_scope.

(** [calculateShatterValue].  The three dictionaries of this file are read
    under a rarity or an upgrade type; the lookup is that of the source for
    every string outside [JS.inherited]. *)
Definition shatterMultipliers : gmap string Q :=
  list_to_map
    [("common", 1); ("uncommon", 3); ("rare", 8); ("epic", 20);
     ("legendary", 50); ("mythic", 125); ("void_touched", 300)]%string.

Definition calculateShatterValue (fragment : Fragment) : Z :=
  let baseValue := 5 in
  let multiplier := JS.or_default (shatterMultipliers !! rarity fragment) 1 in
  JS.floor (baseValue * multiplier * inject_Z (quantity fragment)).

(** [calculateDeviceUpgradeCost]: [Math.pow(1.5, n)] is the exact power,
    which is what a double holds for [n] up to 27 ([Ext.costIsDouble]). *)
Definition baseCosts : gmap string Q :=
  list_to_map
    [("spinSpeed", 500); ("rarityOdds", 1200); ("fluxCost", 800);
     ("mutationSlots", 2500)]%string.

Definition currentLevel (gameState : GameState) (upgradeType : string) : Z :=
  if decide (upgradeType = "spinSpeed"%string) then spinSpeedLevel gameState
  else if decide (upgradeType = "rarityOdds"%string) then rarityOddsLevel gameState
  else if decide (upgradeType = "fluxCost"%string) then fluxCostLevel gameState
  else if decide (upgradeType = "mutationSlots"%string) then mutationSlotsLevel gameState
  else 1%Z.

Definition calculateDeviceUpgradeCost (gameState : GameState) (upgradeType : string) : Z :=
  let baseCost := JS.or_default (baseCosts !! upgradeType) 500 in
  JS.floor (baseCost * Qpower 1.5 (currentLevel gameState upgradeType - 1)).

(** [getDeviceStats] (server) *)
Record DeviceStats : Type := mkDeviceStats {
  spinSpeed : Q;
  rarityBonus : Q;
  fluxCostReduction : Q;
  mutationSlots : Q
}.

Definition getDeviceStats (gameState : GameState) : DeviceStats :=
  {| spinSpeed := 1 + (inject_Z (spinSpeedLevel gameState) - 1) * 0.2;
     rarityBonus := (inject_Z (rarityOddsLevel gameState) - 1) * 0.0005;
     fluxCostReduction := (inject_Z (fluxCostLevel gameState) - 1) * 5;
     mutationSlots := 2 + inject_Z (mutationSlotsLevel gameState) |}.

(** [calculateMutationSuccessRate] *)
Definition raritySuccessRates : gmap string Q :=
  list_to_map
    [("common", 0.85); ("uncommon", 0.75); ("rare", 0.65); ("epic", 0.50);
     ("legendary", 0.35); ("mythic", 0.20); ("void_touched", 0.10)]%string.

Definition calculateMutationSuccessRate
    (baseFragment : Fragment) (components : list Fragment) (gameState : GameState) : Q :=
  let baseRate := JS.or_default (raritySuccessRates !! rarity baseFragment) 0.5 in
  let complexityPenalty := (inject_Z (Z.of_nat (length components)) - 1) * 0.1 in
  let baseRate := JS.max (baseRate - complexityPenalty) 0.05 in
  let deviceBonus := (inject_Z (mutationSlotsLevel gameState) - 1) * 0.05 in
  JS.min (baseRate + deviceBonus) 0.95.

(** [calculateMutationCost] *)
Definition costMultipliers : gmap string Q :=
  list_to_map
    [("common", 1); ("uncommon", 2); ("rare", 4); ("epic", 8);
     ("legendary", 16); ("mythic", 32); ("void_touched", 64)]%string.

Definition calculateMutationCost (baseFragment : Fragment) (components : list Fragment) : Z :=
  let baseCost := 100 in
  let totalCost := baseCost in
  let totalCost :=
    totalCost + baseCost * JS.or_default (costMultipliers !! rarity baseFragment) 1 in
  let totalCost :=
    fold_left
      (fun totalCost component =>
         totalCost + baseCost * 0.5 * JS.or_default (costMultipliers !! rarity component) 1)
      components totalCost in
  JS.floor totalCost.

(** [performMutation]: the statements of the [components.forEach] body. *)

(** [if (stat in m) m[stat] += Math.floor(value * 0.5)], for one key of the
    component's [baseStats]: [stat in m] is the test for an own key, as it
    is for every [stat] outside [JS.inherited]. *)
Definition enhanceStat (stat : string) (value : Q) (stats : gmap string Q)
  : gmap string Q :=
  match stats !! stat with
  | Some old => <[stat := old + inject_Z (JS.floor (value * 0.5))]> stats
  | None => stats
  end.

(** [Object.keys(component.baseStats).forEach(stat => ...)]: the keys are
    visited in the order [map_to_list] lists them; since a key only ever
    changes its own entry, the order does not show in the result. *)
Definition enhanceStats (componentStats stats : gmap string Q) : gmap string Q :=
  fold_left (fun stats kv => enhanceStat (fst kv) (snd kv) stats)
    (map_to_list componentStats) stats.

(** The object literal pushed in the component branch and in the modifier
    branch, for the component's [name] and one of its implicit mods. *)
Definition scaledAffix (componentName : string) (md : Mod) : Affix :=
  {| affix_name := componentName +:+ " - " +:+ mod_name md;
     affix_value := inject_Z (JS.floor (F64.mul (mod_value md) (F64.fl 0.7)));
     affix_source := "mutation" |}.

Definition plainAffix (componentName : string) (md : Mod) : Affix :=
  {| affix_name := componentName +:+ " - " +:+ mod_name md;
     affix_value := mod_value md;
     affix_source := "mutation" |}.

(** One [affixes.push({...})] of either branch. *)
Definition pushScaled (component : Fragment) (affixes : list Affix) (md : Mod)
    : list Affix :=
  affixes ++ [scaledAffix (name component) md].

Definition pushPlain (component : Fragment) (affixes : list Affix) (md : Mod)
    : list Affix :=
  affixes ++ [plainAffix (name component) md].

(** The body of [components.forEach(component => ...)], on the pair of
    containers it writes: the result's [baseStats] and [affixes]. *)
Definition applyComponent (acc : gmap string Q * list Affix) (component : Fragment)
  : gmap string Q * list Affix :=
  let (stats, affixes) := acc in
  if decide (type component = "component"%string) then
    (enhanceStats (baseStats component) stats,
     fold_left (pushScaled component) (implicitMods component) affixes)
  else if decide (type component = "modifier"%string) then
    (stats, fold_left (pushPlain component) (implicitMods component) affixes)
  else (stats, affixes).

Definition rarityOrder : list string :=
  ["common"; "uncommon"; "rare"; "epic"; "legendary"; "mythic"; "void_touched"]%string.

(** [rarityOrder.indexOf(r)]: [None] stands for [-1]. *)
Fixpoint indexOf (r : string) (l : list string) : option nat :=
  match l with
  | [] => None
  | x :: l' => if decide (x = r) then Some O else S <$> indexOf r l'
  end.

(** The rarity-upgrade block: the new [rarity] and [name], given the draw
    [mutationRng.random()]. *)
Definition evolve (draw : Q) (rarity name : string) : string * string :=
  if JS.ltb draw 0.1 then
    match indexOf rarity rarityOrder with
    | Some currentIndex =>
        if (currentIndex <? length rarityOrder - 1)%nat then
          (nth (currentIndex + 1) rarityOrder ""%string, "Evolved " +:+ name)
        else (rarity, name)
    | None => (rarity, name)
    end
  else (rarity, name).

(** [performMutation(baseFragment, components, gameState)].  [now] is the
    value [Date.now()] returns when [new VoidRNG()] is built. *)
Definition performMutation
    (baseFragment : Fragment) (components : list Fragment) (gameState : GameState)
    (now : Z) : Fragment :=
  let mutationRng := Rng.constructor None now in
  let (stats, affs) :=
    fold_left applyComponent components (baseStats baseFragment, affixes baseFragment) in
  let (draw, _) := Rng.random 0 1 mutationRng in
  let (rarity', name') :=
    evolve draw (rarity baseFragment) ("Mutated " +:+ name baseFragment) in
  {| id := "";
     gameStateId := gameStateId baseFragment;
     name := name';
     type := type baseFragment;
     rarity := rarity';
     baseStats := stats;
     implicitMods := implicitMods baseFragment;
     affixes := affs;
     isCorrupted := isCorrupted baseFragment;
     quantity := quantity baseFragment |}.

End GameLogic.

(* ================================================================== *)
(** * client/src/lib/gameLogic.ts                                       *)
(* ================================================================== *)

Module Client.
Import Schema.
Local Open Scope Q_scope.

(** [getDeviceStats] (client): the fourth field is [fluxCost]. *)
Record DeviceStats : Type := mkDeviceStats {
  spinSpeed : Q;
  rarityBonus : Q;
  fluxCost : Q;
  mutationSlots : Q
}.

Definition getDeviceStats (gameState : GameState) : DeviceStats :=
  {| spinSpeed := 1 + (inject_Z (spinSpeedLevel gameState) - 1) * 0.2;
     rarityBonus := (inject_Z (rarityOddsLevel gameState) - 1) * 0.05;
     fluxCost := JS.max (25 - (inject_Z (fluxCostLevel gameState) - 1) * 5) 5;
     mutationSlots := 2 + inject_Z (mutationSlotsLevel gameState) |}.

End Client.

(* ================================================================== *)
(** * server/storage.ts and server/routes.ts                            *)
(* ================================================================== *)

Module Routes.
Import Schema.

(** What the storage holds for one player: the game-state row, the
    [fragments] table and the [marketplaceListings] table. *)
Record World : Type := mkWorld {
  gameState : GameState;
  fragments : list Fragment;
  listings : list MarketplaceListing
}.

(** [Partial<GameState>] as the handlers build it. *)
Record GameStateUpdates : Type := mkUpdates {
  u_flux : option Z;
  u_totalSpins : option Z;
  u_spinSpeedLevel : option Z;
  u_rarityOddsLevel : option Z;
  u_fluxCostLevel : option Z;
  u_mutationSlotsLevel : option Z
}.

(** [{ ...gameState, ...updates }] *)
Definition applyUpdates (g : GameState) (u : GameStateUpdates) : GameState :=
  {| gs_id := gs_id g;
     userId := userId g;
     flux := default (flux g) (u_flux u);
     totalSpins := default (totalSpins g) (u_totalSpins u);
     deviceLevel := deviceLevel g;
     spinSpeedLevel := default (spinSpeedLevel g) (u_spinSpeedLevel u);
     rarityOddsLevel := default (rarityOddsLevel g) (u_rarityOddsLevel u);
     fluxCostLevel := default (fluxCostLevel g) (u_fluxCostLevel u);
     mutationSlotsLevel := default (mutationSlotsLevel g) (u_mutationSlotsLevel u) |}.

(** [storage.updateGameState(userId, updates)] *)
Definition updateGameState (u : GameStateUpdates) (w : World) : World :=
  mkWorld (applyUpdates (gameState w) u) (fragments w) (listings w).

(** [storage.getFragments(gameStateId)] *)
Definition getFragments (gid : string) (w : World) : list Fragment :=
  filter (fun f => gameStateId f = gid) (fragments w).

(** [fragments.find(f => f.id === fragmentId)] *)
Definition findFragment (fragmentId : string) (l : list Fragment) : option Fragment :=
  List.find (fun f => bool_decide (id f = fragmentId)) l.

(** [storage.deleteFragment(fragmentId)] *)
Definition deleteFragment (fragmentId : string) (w : World) : World :=
  mkWorld (gameState w) (filter (fun f => id f <> fragmentId) (fragments w)) (listings w).

(** [storage.createFragment(insertFragment)]: the row gets the id the
    storage allocates ([newId]) and is added to the table. *)
Definition createFragment (insertFragment : Fragment) (newId : string) (w : World)
  : Fragment * World :=
  let fragment :=
    {| id := newId;
       gameStateId := gameStateId insertFragment;
       name := name insertFragment;
       type := type insertFragment;
       rarity := rarity insertFragment;
       baseStats := baseStats insertFragment;
       implicitMods := implicitMods insertFragment;
       affixes := affixes insertFragment;
       isCorrupted := isCorrupted insertFragment;
       quantity := quantity insertFragment |} in
  (fragment, mkWorld (gameState w) (fragments w ++ [fragment]) (listings w)).

(** [storage.updateMarketplaceListing(fragmentType, rarity, updates)] with
    the three fields the sell handler passes. *)
Definition updateMarketplaceListing
    (fragmentType rarity : string) (newSupply : Z) (newDemand : Q) (newPrice : Z)
    (w : World) : World :=
  let key := fragmentType +:+ "-" +:+ rarity in
  mkWorld (gameState w) (fragments w)
    (map (fun l =>
            if decide (listing_id l = key) then
              {| listing_id := listing_id l;
                 fragmentType := Schema.fragmentType l;
                 listing_rarity := listing_rarity l;
                 basePrice := basePrice l;
                 currentPrice := newPrice;
                 demand := newDemand;
                 supply := newSupply |}
            else l)
       (listings w)).

(** What a handler sends back. *)
Inductive Response : Type :=
| Error (status : Z) (message : string)
| SpinOk (fragment : Fragment) (fluxSpent : Z)
| ShatterOk (fluxGained : Z)
| SellOk (fluxGained : Z)
| UpgradeOk (updated : GameState)
| MutateOk (success : bool) (resultFragment : option Fragment)
           (consumedFragments : list string) (fluxCost successRate : Z).

(** The part of [generateFragment]'s result the spin handler reads. *)
Record FragmentDraft : Type := mkDraft {
  draft_name : string;
  draft_type : string;
  draft_rarity : string;
  draft_baseStats : gmap string Q;
  draft_implicitMods : list Mod
}.

(** [POST /api/spin].  [fragment] is what [generateFragment(gameState)]
    returns at this call, [newId] the id the storage allocates. *)
Definition spin (fragment : FragmentDraft) (newId : string) (w : World)
  : World * Response :=
  let gameState := gameState w in
  let spinCost := Z.max (25 - (fluxCostLevel gameState - 1) * 5) 5 in
  if bool_decide (flux gameState < spinCost) then (w, Error 400 "Insufficient flux")
  else
    let (createdFragment, w) :=
      createFragment
        {| id := "";
           gameStateId := gs_id gameState;
           name := draft_name fragment;
           type := draft_type fragment;
           rarity := draft_rarity fragment;
           baseStats := draft_baseStats fragment;
           implicitMods := draft_implicitMods fragment;
           affixes := [];
           isCorrupted := false;
           quantity := 1 |} newId w in
    let w :=
      updateGameState
        {| u_flux := Some (flux gameState - spinCost);
           u_totalSpins := Some (totalSpins gameState + 1);
           u_spinSpeedLevel := None; u_rarityOddsLevel := None;
           u_fluxCostLevel := None; u_mutationSlotsLevel := None |} w in
    (w, SpinOk createdFragment spinCost).

(** [POST /api/fragments/:id/shatter] *)
Definition shatter (paramId : string) (w : World) : World * Response :=
  let gameState := gameState w in
  let fragments := getFragments (gs_id gameState) w in
  match findFragment paramId fragments with
  | None => (w, Error 404 "Fragment not found")
  | Some fragment =>
      let fluxGained := GameLogic.calculateShatterValue fragment in
      let w :=
        updateGameState
          {| u_flux := Some (flux gameState + fluxGained);
             u_totalSpins := None; u_spinSpeedLevel := None;
             u_rarityOddsLevel := None; u_fluxCostLevel := None;
             u_mutationSlotsLevel := None |} w in
      let w := deleteFragment (id fragment) w in
      (w, ShatterOk fluxGained)
  end.

(** [POST /api/sell] *)
Definition sell (fragmentId : string) (w : World) : World * Response :=
  if bool_decide (fragmentId = ""%string) then (w, Error 400 "Missing fragmentId")
  else
    let gameState := gameState w in
    let fragments := getFragments (gs_id gameState) w in
    match findFragment fragmentId fragments with
    | None => (w, Error 404 "Fragment not found")
    | Some fragment =>
        let listingId := type fragment +:+ "-" +:+ rarity fragment in
        let listing := List.find (fun l => bool_decide (listing_id l = listingId)) (listings w) in
        let basePrice := match listing with Some l => currentPrice l | None => 10 end in
        let quantity := quantity fragment in
        let price := Z.max 1 (JS.round (inject_Z basePrice * inject_Z quantity)) in
        let w :=
          updateGameState
            {| u_flux := Some (flux gameState + price);
               u_totalSpins := None; u_spinSpeedLevel := None;
               u_rarityOddsLevel := None; u_fluxCostLevel := None;
               u_mutationSlotsLevel := None |} w in
        let w := deleteFragment (id fragment) w in
        let w :=
          match listing with
          | Some l =>
              let newSupply := Z.max 0 (supply l - 1) in
              let newDemand := JS.min 3 (demand l + 0.01)%Q in
              let newPrice :=
                Z.max 1 (JS.round (inject_Z (currentPrice l) * (1 + 0.01 * (1 - newDemand)))%Q) in
              updateMarketplaceListing (Schema.fragmentType l) (listing_rarity l)
                newSupply newDemand newPrice w
          | None => w
          end in
        (w, SellOk price)
    end.

(** [POST /api/upgrade/:type] *)
Definition upgrade (upgradeType : string) (w : World) : World * Response :=
  let gameState := gameState w in
  let cost := GameLogic.calculateDeviceUpgradeCost gameState upgradeType in
  if bool_decide (flux gameState < cost) then (w, Error 400 "Insufficient flux")
  else
    let updates :=
      {| u_flux := Some (flux gameState - cost);
         u_totalSpins := None; u_spinSpeedLevel := None;
         u_rarityOddsLevel := None; u_fluxCostLevel := None;
         u_mutationSlotsLevel := None |} in
    let updates : option GameStateUpdates :=
      if decide (upgradeType = "spinSpeed"%string) then
        Some (mkUpdates (u_flux updates) None (Some (spinSpeedLevel gameState + 1)) None None None)
      else if decide (upgradeType = "rarityOdds"%string) then
        Some (mkUpdates (u_flux updates) None None (Some (rarityOddsLevel gameState + 1)) None None)
      else if decide (upgradeType = "fluxCost"%string) then
        Some (mkUpdates (u_flux updates) None None None (Some (fluxCostLevel gameState + 1)) None)
      else if decide (upgradeType = "mutationSlots"%string) then
        Some (mkUpdates (u_flux updates) None None None None (Some (mutationSlotsLevel gameState + 1)))
      else None in
    match updates with
    | None => (w, Error 400 "Invalid upgrade type")
    | Some updates =>
        let w := updateGameState updates w in
        (w, UpgradeOk (Routes.gameState w))
    end.

(** [interface MutationRequest] *)
Record MutationRequest : Type := mkRequest {
  baseFragmentId : string;
  componentFragmentIds : list string
}.

(** [POST /api/mutate].  [mutationRng] is the value of [Math.random()],
    [now] the clock read inside [performMutation], [newId] the id the
    storage allocates for the result. *)
Definition mutate (req : MutationRequest) (mutationRng : Q) (now : Z) (newId : string)
    (w : World) : World * Response :=
  let gameState := gameState w in
  let baseFragmentId := baseFragmentId req in
  let componentFragmentIds := componentFragmentIds req in
  if bool_decide (baseFragmentId = ""%string) || bool_decide (length componentFragmentIds = 0%nat)
  then (w, Error 400 "Invalid mutation request")
  else
    let fragments := getFragments (gs_id gameState) w in
    match findFragment baseFragmentId fragments with
    | None => (w, Error 404 "Base fragment not found")
    | Some baseFragment =>
        if bool_decide (type baseFragment <> "base_item"%string)
        then (w, Error 400 "Base fragment must be a base item")
        else
          let componentFragments :=
            omap (fun id => findFragment id fragments) componentFragmentIds in
          if bool_decide (length componentFragments <> length componentFragmentIds)
          then (w, Error 404 "One or more component fragments not found")
          else
            let invalidComponents :=
              filter (fun f => type f <> "component"%string /\ type f <> "modifier"%string)
                componentFragments in
            if bool_decide (0 < length invalidComponents)%nat
            then (w, Error 400 "Components must be of type 'component' or 'modifier'")
            else
              let maxSlots := 2 + mutationSlotsLevel gameState in
              if bool_decide (maxSlots < Z.of_nat (length componentFragments))
              then (w, Error 400 ("Too many components. Maximum is " +:+ pretty maxSlots))
              else
                let fluxCost := GameLogic.calculateMutationCost baseFragment componentFragments in
                let successRate :=
                  GameLogic.calculateMutationSuccessRate baseFragment componentFragments gameState in
                if bool_decide (flux gameState < fluxCost)
                then (w, Error 400 "Insufficient flux")
                else
                  let success := JS.ltb mutationRng successRate in
                  let w :=
                    updateGameState
                      {| u_flux := Some (flux gameState - fluxCost);
                         u_totalSpins := None; u_spinSpeedLevel := None;
                         u_rarityOddsLevel := None; u_fluxCostLevel := None;
                         u_mutationSlotsLevel := None |} w in
                  let consumedFragmentIds := baseFragmentId :: componentFragmentIds in
                  let w := fold_left (fun w fragmentId => deleteFragment fragmentId w)
                             consumedFragmentIds w in
                  if success then
                    let mutatedFragment :=
                      GameLogic.performMutation baseFragment componentFragments gameState now in
                    let (createdFragment, w) :=
                      createFragment
                        {| id := "";
                           gameStateId := gs_id gameState;
                           name := name mutatedFragment;
                           type := type mutatedFragment;
                           rarity := rarity mutatedFragment;
                           baseStats := baseStats mutatedFragment;
                           implicitMods := implicitMods mutatedFragment;
                           affixes := affixes mutatedFragment;
                           isCorrupted := isCorrupted mutatedFragment;
                           quantity := quantity mutatedFragment |} newId w in
                    (w, MutateOk true (Some createdFragment) consumedFragmentIds fluxCost
                          (JS.round (successRate * 100)))
                  else
                    (w, MutateOk false None consumedFragmentIds fluxCost
                          (JS.round (successRate * 100)))
    end.

(** A freshly created game state ([GET /api/gamestate] on first access)
    with the marketplace as it stands and no fragment yet. *)
Definition freshWorld (gsId user : string) (market : list MarketplaceListing) : World :=
  {| gameState :=
       {| gs_id := gsId; userId := user; flux := 1000; totalSpins := 0;
          deviceLevel := 1; spinSpeedLevel := 1; rarityOddsLevel := 1;
          fluxCostLevel := 1; mutationSlotsLevel := 1 |};
     fragments := [];
     listings := market |}.

(** One handled request. *)
Inductive step (w : World) : World -> Prop :=
| step_spin fragment newId : step w (fst (spin fragment newId w))
| step_shatter paramId : step w (fst (shatter paramId w))
| step_sell fragmentId : step w (fst (sell fragmentId w))
| step_upgrade upgradeType : step w (fst (upgrade upgradeType w))
| step_mutate req mutationRng now newId :
    step w (fst (mutate req mutationRng now newId w)).

(** The worlds a player can reach from a fresh game state. *)
Inductive reachable : World -> Prop :=
| reachable_fresh gsId user market : reachable (freshWorld gsId user market)
| reachable_step w w' : reachable w -> step w w' -> reachable w'.

End Routes.

(* ================================================================== *)
(** * performMutation on the object heap                                *)
(* ================================================================== *)

(** [performMutation] receives references to objects that other code still
    holds.  Here it runs on a heap of objects: a fragment object refers to its
    [baseStats] object and to its two arrays, an array refers to its element
    objects.  Allocation appends to the heap; a reference is an index. *)

Module Heap.
Import Schema.

Definition loc : Type := nat.

(** A fragment object: scalars by value, containers by reference. *)
Record FragmentObj : Type := mkFragmentObj {
  o_id : string;
  o_gameStateId : string;
  o_name : string;
  o_type : string;
  o_rarity : string;
  o_baseStats : loc;
  o_implicitMods : loc;
  o_affixes : loc;
  o_isCorrupted : bool;
  o_quantity : Z
}.

Inductive Obj : Type :=
| OFragment (o : FragmentObj)
| OStats (stats : gmap string Q)
| OArray (elems : list loc)
| OMod (md : Mod)
| OAffix (a : Affix).

(** Computations on the heap that may get stuck (a reference to the wrong
    kind of object). *)
Definition M (A : Type) : Type := list Obj -> option (A * list Obj).

Definition ret {A} (a : A) : M A := fun h => Some (a, h).

Definition bind {A B} (m : M A) (k : A -> M B) : M B :=
  fun h => match m h with
           | Some (a, h') => k a h'
           | None => None
           end.

Notation "'do' x <- m ; k" := (bind m (fun x => k))
  (at level 10, x name, m at level 100, k at level 200).
Notation "m ;; k" := (bind m (fun _ => k))
  (at level 100, k at level 200, right associativity).

(** A new object. *)
Definition alloc (o : Obj) : M loc := fun h => Some (length h, h ++ [o]).

(** The object behind a reference. *)
Definition load (l : loc) : M Obj := fun h => (fun o => (o, h)) <$> h !! l.

(** Overwriting the object behind a reference. *)
Definition store (l : loc) (o : Obj) : M unit :=
  fun h => if decide (l < length h)%nat then Some (tt, <[l := o]> h) else None.

Definition loadFragment (l : loc) : M FragmentObj :=
  do o <- load l; match o with OFragment f => ret f | _ => fun _ => None end.

Definition loadStats (l : loc) : M (gmap string Q) :=
  do o <- load l; match o with OStats m => ret m | _ => fun _ => None end.

Definition loadArray (l : loc) : M (list loc) :=
  do o <- load l; match o with OArray e => ret e | _ => fun _ => None end.

Definition loadMod (l : loc) : M Mod :=
  do o <- load l; match o with OMod md => ret md | _ => fun _ => None end.

(** [arr.forEach(x => body(x))] *)
Fixpoint forEach {A} (body : A -> M unit) (arr : list A) : M unit :=
  match arr with
| [] => ret tt
| x :: rest => body x ;; forEach body rest
  end.

(** [affixes.push({ name: ..., value: ..., source: 'mutation' })] for one
    implicit mod: a new affix object, appended to the array behind
    [affixes]. *)
Definition push (literal : Mod -> Affix) (affixes : loc) (mdRef : loc) : M unit :=
  do md <- loadMod mdRef;
  do a <- alloc (OAffix (literal md));
  do elems <- loadArray affixes;
  store affixes (OArray (elems ++ [a])).

(** [if (stat in m.baseStats) m.baseStats[stat] += Math.floor(value * 0.5)]
    for one key of the component's [baseStats], on the object behind
    [mutatedFragment.baseStats]. *)
Definition enhance (stats : loc) (kv : string * Q) : M unit :=
  do current <- loadStats stats;
  match current !! fst kv with
  | Some old =>
      store stats
        (OStats (<[fst kv := (old + inject_Z (JS.floor (snd kv * 0.5)))%Q]> current))
  | None => ret tt
  end.

(** The body of [components.forEach(component => ...)].  [stats] and
    [affixes] are the objects behind [mutatedFragment.baseStats] and
    [mutatedFragment.affixes]. *)
Definition applyComponent (stats affixes : loc) (component : loc) : M unit :=
  do c <- loadFragment component;
  if decide (o_type c = "component"%string) then
    do componentStats <- loadStats (o_baseStats c);
    forEach (enhance stats) (map_to_list componentStats) ;;
    do mods <- loadArray (o_implicitMods c);
    forEach (push (GameLogic.scaledAffix (o_name c)) affixes) mods
  else if decide (o_type c = "modifier"%string) then
    do mods <- loadArray (o_implicitMods c);
    forEach (push (GameLogic.plainAffix (o_name c)) affixes) mods
  else ret tt.

Definition setRarity (r : string) (o : FragmentObj) : FragmentObj :=
  {| o_id := o_id o; o_gameStateId := o_gameStateId o; o_name := o_name o;
     o_type := o_type o; o_rarity := r; o_baseStats := o_baseStats o;
     o_implicitMods := o_implicitMods o; o_affixes := o_affixes o;
     o_isCorrupted := o_isCorrupted o; o_quantity := o_quantity o |}.

Definition setName (n : string) (o : FragmentObj) : FragmentObj :=
  {| o_id := o_id o; o_gameStateId := o_gameStateId o; o_name := n;
     o_type := o_type o; o_rarity := o_rarity o; o_baseStats := o_baseStats o;
     o_implicitMods := o_implicitMods o; o_affixes := o_affixes o;
     o_isCorrupted := o_isCorrupted o; o_quantity := o_quantity o |}.

(** The rarity-upgrade block, on the object behind [mutatedFragment]. *)
Definition evolve (draw : Q) (mutatedFragment : loc) : M unit :=
  if JS.ltb draw 0.1 then
    do m <- loadFragment mutatedFragment;
    match GameLogic.indexOf (o_rarity m) GameLogic.rarityOrder with
    | Some currentIndex =>
        if (currentIndex <? length GameLogic.rarityOrder - 1)%nat then
          store mutatedFragment
            (OFragment (setRarity (nth (currentIndex + 1) GameLogic.rarityOrder ""%string) m)) ;;
          do m <- loadFragment mutatedFragment;
          store mutatedFragment (OFragment (setName ("Evolved " +:+ o_name m) m))
        else ret tt
    | None => ret tt
    end
  else ret tt.

(** [performMutation(baseFragment, components, gameState)] on references. *)
Definition performMutation
      (baseFragment : loc) (components : list loc) (gameState : GameState) (now : Z)
    : M loc :=
  let mutationRng := Rng.constructor None now in
  do b <- loadFragment baseFragment;
  do oldAffixes <- loadArray (o_affixes b);
  do affixes <- alloc (OArray oldAffixes);
  do oldStats <- loadStats (o_baseStats b);
  do stats <- alloc (OStats oldStats);
  do oldMods <- loadArray (o_implicitMods b);
  do mods <- alloc (OArray oldMods);
  do mutatedFragment <-
    alloc (OFragment
             {| o_id := ""; o_gameStateId := o_gameStateId b;
                o_name := "Mutated " +:+ o_name b;
                o_type := o_type b; o_rarity := o_rarity b;
                o_baseStats := stats; o_implicitMods := mods; o_affixes := affixes;
                o_isCorrupted := o_isCorrupted b; o_quantity := o_quantity b |});
  forEach (applyComponent stats affixes) components ;;
  let (draw, _) := Rng.random 0 1 mutationRng in
  evolve draw mutatedFragment ;;
  ret mutatedFragment.

(** Reading a fragment object back as a value. *)
Definition readMod (h : list Obj) (l : loc) : option Mod :=
  match h !! l with Some (OMod md) => Some md | _ => None end.

Definition readAffix (h : list Obj) (l : loc) : option Affix :=
  match h !! l with Some (OAffix a) => Some a | _ => None end.

Definition readArray (h : list Obj) (l : loc) : option (list loc) :=
  match h !! l with Some (OArray e) => Some e | _ => None end.

Definition readStats (h : list Obj) (l : loc) : option (gmap string Q) :=
  match h !! l with Some (OStats m) => Some m | _ => None end.

Definition readFragment (h : list Obj) (l : loc) : option Fragment :=
  match h !! l with
| Some (OFragment o) =>
      stats ← readStats h (o_baseStats o);
      modRefs ← readArray h (o_implicitMods o);
      mods ← mapM (readMod h) modRefs;
      affixRefs ← readArray h (o_affixes o);
      affs ← mapM (readAffix h) affixRefs;
      Some {| id := o_id o; gameStateId := o_gameStateId o; name := o_name o;
              type := o_type o; rarity := o_rarity o; baseStats := stats;
              implicitMods := mods; affixes := affs;
              isCorrupted := o_isCorrupted o; quantity := o_quantity o |}
| _ => None
  end.

(** Every object that exists in [h] is the same in [h']. *)
Definition preserved (h h' : list Obj) : Prop :=
  forall l, (l < length h)%nat -> h' !! l = h !! l.

(** The fragment value of an object [o] whose containers hold [stats],
    [mods] and [affs]. *)
Definition valueOf (o : FragmentObj) (stats : gmap string Q) (mods : list Mod)
    (affs : list Affix) : Fragment :=
  {| id := o_id o; gameStateId := o_gameStateId o; name := o_name o;
     type := o_type o; rarity := o_rarity o; baseStats := stats;
     implicitMods := mods; affixes := affs;
     isCorrupted := o_isCorrupted o; quantity := o_quantity o |}.

(** The references in [refs] hold the mods [mds] (the affixes [affs]). *)
Definition holdsMods (h : list Obj) (refs : list loc) (mds : list Mod) : Prop :=
  Forall2 (fun r md => h !! r = Some (OMod md)) refs mds.

Definition holdsAffixes (h : list Obj) (refs : list loc) (affs : list Affix) : Prop :=
  Forall2 (fun r a => h !! r = Some (OAffix a)) refs affs.

(** The object [o] behind [l], with its arrays [modRefs] and [affixRefs],
    represents the fragment value [f]. *)
Definition represents (h : list Obj) (l : loc) (o : FragmentObj)
    (modRefs affixRefs : list loc) (f : Fragment) : Prop :=
  h !! l = Some (OFragment o) /\
  h !! o_baseStats o = Some (OStats (baseStats f)) /\
  h !! o_implicitMods o = Some (OArray modRefs) /\
  holdsMods h modRefs (implicitMods f) /\
  h !! o_affixes o = Some (OArray affixRefs) /\
  holdsAffixes h affixRefs (affixes f) /\
  f = valueOf o (baseStats f) (implicitMods f) (affixes f).

(** The state of the [components.forEach] loop: away from the two containers
    [affixes] and [stats] of the result the heap is still the heap [h1] the
    loop started from, [stats] holds the map [m], and [affixes] holds
    references to the affix values [affs]. *)
Definition loopInv (h1 : list Obj) (affixes stats : loc) (h : list Obj)
    (m : gmap string Q) (affs : list Affix) : Prop :=
  (forall l, (l < length h1)%nat -> l <> affixes -> l <> stats -> h !! l = h1 !! l) /\
  h !! stats = Some (OStats m) /\
  exists refs, h !! affixes = Some (OArray refs) /\ holdsAffixes h refs affs.

(** A small heap: a sword with one affix from an earlier mutation, and a
    component with one implicit mod. *)
Definition sampleHeap : list Obj :=
  [ OFragment {| o_id := "f-1"; o_gameStateId := "gs-1"; o_name := "Mutated Sword";
                 o_type := "base_item"; o_rarity := "common";
                 o_baseStats := 1%nat; o_implicitMods := 2%nat; o_affixes := 4%nat;
                 o_isCorrupted := false; o_quantity := 1 |};
    OStats (<["power" := 30%Q]> (<["enhancement" := 2%Q]> ∅));
    OArray [3%nat];
    OMod (mkMod "Increased Damage" 12);
    OArray [5%nat];
    OAffix (mkAffix "Essence of Haste - Increased Speed" 9 "mutation");
    OFragment {| o_id := "f-2"; o_gameStateId := "gs-1"; o_name := "Void Iron";
                 o_type := "component"; o_rarity := "common";
                 o_baseStats := 7%nat; o_implicitMods := 8%nat; o_affixes := 10%nat;
                 o_isCorrupted := false; o_quantity := 1 |};
    OStats (<["enhancement" := 11%Q]> ∅);
    OArray [9%nat];
    OMod (mkMod "Void Affinity" 20);
    OArray [] ].

(** The values the two fragment objects of [sampleHeap] stand for. *)
Definition sampleBase : Fragment :=
  {| id := "f-1"; gameStateId := "gs-1"; name := "Mutated Sword";
     type := "base_item"; rarity := "common";
     baseStats := <["power" := 30%Q]> (<["enhancement" := 2%Q]> ∅);
     implicitMods := [mkMod "Increased Damage" 12];
     affixes := [mkAffix "Essence of Haste - Increased Speed" 9 "mutation"];
     isCorrupted := false; quantity := 1 |}.

Definition sampleComponent : Fragment :=
  {| id := "f-2"; gameStateId := "gs-1"; name := "Void Iron";
     type := "component"; rarity := "common";
     baseStats := <["enhancement" := 11%Q]> ∅;
     implicitMods := [mkMod "Void Affinity" 20];
     affixes := [];
     isCorrupted := false; quantity := 1 |}.

End Heap.

(* ================================================================== *)
(** * Vocabulary of the statements                                      *)
(* ================================================================== *)

Module Spec.
Import Rng.
Local Open Scope Q_scope.

(** The value the ladder is applied to: the double sum of the draw and the
    bonus, clamped to the double 0.999999. *)
Definition adjustedRoll (bonusChance : Q) (g : VoidRNG) : Q :=
  Qmin (F64.add (fst (Rng64.next g)) bonusChance) (F64.fl 0.999999).

(** Properties of a weight list. *)
Definition nonNegative {T} (items : list (Weighted T)) : Prop :=
  Forall (fun it => 0 <= weight it) items.
Definition allZero {T} (items : list (Weighted T)) : Prop :=
  Forall (fun it => weight it == 0) items.
Definition somePositive {T} (items : list (Weighted T)) : Prop :=
  Exists (fun it => 0 < weight it) items.

(** The target [randomValue] drawn by [weightedChoice]. *)
Definition target {T} (items : list (Weighted T)) (g : VoidRNG) : Q :=
  fst (Rng64.random 0 (Rng64.totalWeight items) g).

(** The running total of the loop of [weightedChoice], and of its [reduce],
    from [cur] on. *)
Definition runningTotal {T} (cur : Q) (items : list (Weighted T)) : Q :=
  fold_left (fun sum it => F64.add sum (weight it)) items cur.

(** The selection rule as the specification words it: on a non-empty list
of non-negative weights (with a finite total, from a seed whose products are
finite) the selected entry has positive weight whenever some weight is
positive, and is the last entry when all weights are zero. *)
Definition weightedChoice_as_specified : Prop :=
  forall (T : Type) (items : list (Weighted T)) (g : VoidRNG) (it : Weighted T),
    items <> [] ->
    nonNegative items ->
    Rng64.totalWeight items <= F64.max_value ->
    (Z.abs (seed g) < 2 ^ 1010)%Z ->
    fst (Rng64.weightedEntry items g) = Some it ->
    (somePositive items -> 0 < weight it) /\
    (allZero items -> last items = Some it).


(** The three derived device statistics as the specification gives them. *)
Definition spinSpeedFormula (g : Schema.GameState) : Q :=
  1 + (inject_Z (Schema.spinSpeedLevel g) - 1) * 0.2.
Definition rarityBonusFormula (g : Schema.GameState) : Q :=
  (inject_Z (Schema.rarityOddsLevel g) - 1) * 0.0005.
Definition mutationSlotsFormula (g : Schema.GameState) : Q :=
  2 + inject_Z (Schema.mutationSlotsLevel g).

(** [Math.floor(value * 0.7)]: the floor of the double product of [value]
    and the double 0.7, which lies just below seven tenths. *)
Definition scaled (value : Q) : Z := Qfloor (F64.fl (value * F64.fl 0.7)).

(** The affix a mutation derives from one implicit mod of a component:
scaled by 0.7 and floored for a [component], unscaled for a [modifier]. *)
Definition affixOf (component : Schema.Fragment) (md : Schema.Mod) : Schema.Affix :=
  {| Schema.affix_name := Schema.name component +:+ " - " +:+ Schema.mod_name md;
     Schema.affix_value :=
       if decide (Schema.type component = "component"%string)
       then inject_Z (scaled (Schema.mod_value md))
       else Schema.mod_value md;
     Schema.affix_source := "mutation" |}.

(** All derived affixes: components in input order, mods in their order. *)
Definition mutationAffixes (components : list Schema.Fragment) : list Schema.Affix :=
  flat_map (fun c => map (affixOf c) (Schema.implicitMods c)) components.

(** The total implicit-mod count of the components. *)
Definition modCount (components : list Schema.Fragment) : nat :=
  fold_right (fun c n => (length (Schema.implicitMods c) + n)%nat) O components.

(** A fragment the mutation handler accepts as a component. *)
Definition isComponent (f : Schema.Fragment) : Prop :=
  Schema.type f = "component"%string \/ Schema.type f = "modifier"%string.

(** The affix property as the specification words it: the result's affixes
are exactly the derived ones, as many as the components have implicit mods. *)
Definition mutation_affixes_as_specified : Prop :=
  forall (baseFragment : Schema.Fragment) (components : list Schema.Fragment)
         (gameState : Schema.GameState) (now : Z),
    Schema.type baseFragment = "base_item"%string ->
    components <> [] ->
    Forall isComponent components ->
    length (Schema.affixes (GameLogic.performMutation baseFragment components gameState now))
      = modCount components /\
    Schema.affixes (GameLogic.performMutation baseFragment components gameState now)
      = mutationAffixes components.

(** The state invariant of the data model: flux is never negative and the
four upgrade levels are at least 1. *)
Definition invariant (g : Schema.GameState) : Prop :=
  (0 <= Schema.flux g)%Z /\
  (1 <= Schema.spinSpeedLevel g)%Z /\
  (1 <= Schema.rarityOddsLevel g)%Z /\
  (1 <= Schema.fluxCostLevel g)%Z /\
  (1 <= Schema.mutationSlotsLevel g)%Z.

(** No stored fragment has a negative quantity. *)
Definition quantitiesOk (w : Routes.World) : Prop :=
  Forall (fun f => (0 <= Schema.quantity f)%Z) (Routes.fragments w).

(** The fragments a mutation request names, as the handler resolves them. *)
Definition resolve (ids : list string) (w : Routes.World) : list Schema.Fragment :=
  omap (fun i => Routes.findFragment i
                   (Routes.getFragments (Schema.gs_id (Routes.gameState w)) w)) ids.

(** A mutation request passes all preconditions, with [baseFragment] and
[components] the fragments it names. *)
Definition accepted (req : Routes.MutationRequest) (w : Routes.World)
    (baseFragment : Schema.Fragment) (components : list Schema.Fragment) : Prop :=
  Routes.baseFragmentId req <> ""%string /\
  Routes.componentFragmentIds req <> [] /\
  Routes.findFragment (Routes.baseFragmentId req)
    (Routes.getFragments (Schema.gs_id (Routes.gameState w)) w) = Some baseFragment /\
  Schema.type baseFragment = "base_item"%string /\
  components = resolve (Routes.componentFragmentIds req) w /\
  length components = length (Routes.componentFragmentIds req) /\
  Forall isComponent components /\
  (Z.of_nat (length components) <= 2 + Schema.mutationSlotsLevel (Routes.gameState w))%Z /\
  (GameLogic.calculateMutationCost baseFragment components
     <= Schema.flux (Routes.gameState w))%Z.

(** A mutation request violates one of the four preconditions. *)
Definition violates (req : Routes.MutationRequest) (w : Routes.World) : Prop :=
  let found i :=
    Routes.findFragment i (Routes.getFragments (Schema.gs_id (Routes.gameState w)) w) in
  (exists b, found (Routes.baseFragmentId req) = Some b /\
             Schema.type b <> "base_item"%string) \/
  (exists i c, In i (Routes.componentFragmentIds req) /\ found i = Some c /\
               ~ isComponent c) \/
  (2 + Schema.mutationSlotsLevel (Routes.gameState w)
     < Z.of_nat (length (Routes.componentFragmentIds req)))%Z \/
  (exists b, found (Routes.baseFragmentId req) = Some b /\
             length (resolve (Routes.componentFragmentIds req) w)
               = length (Routes.componentFragmentIds req) /\
             (Schema.flux (Routes.gameState w)
                < GameLogic.calculateMutationCost b
                    (resolve (Routes.componentFragmentIds req) w))%Z).

(** The ids a mutation consumes. *)
Definition consumedIds (req : Routes.MutationRequest) : list string :=
  Routes.baseFragmentId req :: Routes.componentFragmentIds req.

(** The game state with [cost] debited from flux and nothing else changed. *)
Definition debit (cost : Z) (g : Schema.GameState) : Schema.GameState :=
  {| Schema.gs_id := Schema.gs_id g;
     Schema.userId := Schema.userId g;
     Schema.flux := Schema.flux g - cost;
     Schema.totalSpins := Schema.totalSpins g;
     Schema.deviceLevel := Schema.deviceLevel g;
     Schema.spinSpeedLevel := Schema.spinSpeedLevel g;
     Schema.rarityOddsLevel := Schema.rarityOddsLevel g;
     Schema.fluxCostLevel := Schema.fluxCostLevel g;
     Schema.mutationSlotsLevel := Schema.mutationSlotsLevel g |}.

(** The fragment table without the rows whose id is in [ids]. *)
Definition without (ids : list string) (l : list Schema.Fragment) : list Schema.Fragment :=
  filter (fun f => Schema.id f ∉ ids) l.

(** The world after the unconditional effects of an accepted mutation: the
cost debited, the named fragments gone. *)
Definition consumed (req : Routes.MutationRequest) (w : Routes.World)
    (baseFragment : Schema.Fragment) (components : list Schema.Fragment) : Routes.World :=
  {| Routes.gameState :=
       debit (GameLogic.calculateMutationCost baseFragment components) (Routes.gameState w);
     Routes.fragments := without (consumedIds req) (Routes.fragments w);
     Routes.listings := Routes.listings w |}.

(** The row an accepted request creates when its draw succeeds: the result of
[performMutation] under the id the storage allocates. *)
Definition createdBy (baseFragment : Schema.Fragment) (components : list Schema.Fragment)
    (g : Schema.GameState) (now : Z) (newId : string) : Schema.Fragment :=
  let m := GameLogic.performMutation baseFragment components g now in
  {| Schema.id := newId;
     Schema.gameStateId := Schema.gs_id g;
     Schema.name := Schema.name m;
     Schema.type := Schema.type m;
     Schema.rarity := Schema.rarity m;
     Schema.baseStats := Schema.baseStats m;
     Schema.implicitMods := Schema.implicitMods m;
     Schema.affixes := Schema.affixes m;
     Schema.isCorrupted := Schema.isCorrupted m;
     Schema.quantity := Schema.quantity m |}.

End Spec.

(* ================================================================== *)
(** * Sample data                                                       *)
(* ================================================================== *)

Module Sample.
Import Schema.
Local Open Scope Q_scope.

(** A player at the starting levels with 1000 flux. *)
Definition player : GameState :=
  {| gs_id := "gs-1"; userId := "u-1"; flux := 1000; totalSpins := 0;
     deviceLevel := 1; spinSpeedLevel := 1; rarityOddsLevel := 1;
     fluxCostLevel := 1; mutationSlotsLevel := 1 |}.

(** The same player after one rarity-odds upgrade. *)
Definition playerOdds2 : GameState :=
  {| gs_id := "gs-1"; userId := "u-1"; flux := 1000; totalSpins := 0;
     deviceLevel := 1; spinSpeedLevel := 1; rarityOddsLevel := 2;
     fluxCostLevel := 1; mutationSlotsLevel := 1 |}.

(** A common sword as the generator makes it. *)
Definition sword : Fragment :=
  {| id := "f-1"; gameStateId := "gs-1"; name := "Sword"; type := "base_item";
     rarity := "common";
     baseStats := <["power" := 30]> (<["defense" := 10]> (<["speed" := 4]> ∅));
     implicitMods := [mkMod "Increased Damage" 12];
     affixes := []; isCorrupted := false; quantity := 1 |}.

(** An uncommon component with two implicit mods. *)
Definition voidIron : Fragment :=
  {| id := "f-2"; gameStateId := "gs-1"; name := "Enhanced Void Iron"; type := "component";
     rarity := "uncommon";
     baseStats := <["enhancement" := 16.5]> ∅;
     implicitMods := [mkMod "Void Affinity" 11; mkMod "Spin Speed Bonus" 25];
     affixes := []; isCorrupted := false; quantity := 1 |}.

(** A common modifier with one implicit mod. *)
Definition essence : Fragment :=
  {| id := "f-3"; gameStateId := "gs-1"; name := "Essence of Haste"; type := "modifier";
     rarity := "common";
     baseStats := <["modifier" := 7]> ∅;
     implicitMods := [mkMod "Increased Speed" 9];
     affixes := []; isCorrupted := false; quantity := 1 |}.

(** A blueprint. *)
Definition blueprint : Fragment :=
  {| id := "f-4"; gameStateId := "gs-1"; name := "Mysterious Blueprint"; type := "blueprint";
     rarity := "common";
     baseStats := ∅;
     implicitMods := [mkMod "Mutation Catalyst" 5];
     affixes := []; isCorrupted := false; quantity := 1 |}.

(** The sword after a first successful mutation with the modifier: a base
item again, now carrying one affix. *)
Definition mutatedSword : Fragment :=
  GameLogic.performMutation sword [essence] player 1700000000000.

(** The player's world with the four fragments above and an empty market. *)
Definition world : Routes.World :=
  {| Routes.gameState := player;
     Routes.fragments := [sword; voidIron; essence; blueprint];
     Routes.listings := [] |}.

(** Sword with the component and the modifier: an acceptable request. *)
Definition goodRequest : Routes.MutationRequest :=
  {| Routes.baseFragmentId := "f-1"; Routes.componentFragmentIds := ["f-2"; "f-3"] |}.

(** Sword with the blueprint: a component of the wrong type. *)
Definition badRequest : Routes.MutationRequest :=
  {| Routes.baseFragmentId := "f-1"; Routes.componentFragmentIds := ["f-4"] |}.

(** The weight list of the specification's example: [{A,1},{B,1},{B,1}]. *)
Definition weights : list (Rng.Weighted string) :=
  [Rng.mkWeighted "A"%string 1; Rng.mkWeighted "B"%string 1;
   Rng.mkWeighted "B"%string 1].

(** What the generator returns for a common sword. *)
Definition draft : Routes.FragmentDraft :=
  {| Routes.draft_name := "Sword"; Routes.draft_type := "base_item";
     Routes.draft_rarity := "common";
     Routes.draft_baseStats := <["power" := 30]> (<["defense" := 10]> (<["speed" := 4]> ∅));
     Routes.draft_implicitMods := [mkMod "Increased Damage" 12] |}.

(** A fresh world, then one spin, then the new fragment shattered. *)
Definition afterSpinAndShatter : Routes.World :=
  fst (Routes.shatter "f-1"
         (fst (Routes.spin draft "f-1" (Routes.freshWorld "gs-1" "u-1" [])))).

End Sample.

(* ================================================================== *)
(** * The fragment generator: the rest of lib/rng.ts and generateFragment *)
(* ================================================================== *)

Module FragmentGenerator.
Import Schema Rng.
Local Open Scope Q_scope.

(** [generateBaseStats] *)
Definition multipliers : gmap string Q :=
  list_to_map
    [("common", 1); ("uncommon", 1.5); ("rare", 2.5); ("epic", 4);
     ("legendary", 7); ("mythic", 12); ("void_touched", 20)]%string.

Definition generateBaseStats (rarity type : string) (g : VoidRNG)
  : gmap string Q * VoidRNG :=
  let baseMultiplier := JS.or_default (multipliers !! rarity) 1 in
  if decide (type = "base_item"%string) then
    let (power, g) := randomInt 10 50 g in
    let (defense, g) := randomInt 5 25 g in
    let (speed, g) := randomInt 1 10 g in
    (<["speed"%string := inject_Z speed * baseMultiplier]>
       (<["defense"%string := inject_Z defense * baseMultiplier]>
          (<["power"%string := inject_Z power * baseMultiplier]> ∅)), g)
  else if decide (type = "component"%string) then
    let (enhancement, g) := randomInt 5 20 g in
    (<["enhancement"%string := inject_Z enhancement * baseMultiplier]> ∅, g)
  else if decide (type = "modifier"%string) then
    let (modifier, g) := randomInt 1 15 g in
    (<["modifier"%string := inject_Z modifier * baseMultiplier]> ∅, g)
  else (∅, g).

(** [generateImplicitMods] *)
Definition rarityModCounts : gmap string (Q * Q) :=
  list_to_map
    [("common", (1, 1)); ("uncommon", (1, 2)); ("rare", (2, 2)); ("epic", (2, 3));
     ("legendary", (3, 3)); ("mythic", (3, 4)); ("void_touched", (4, 4))]%string.

Definition possibleMods : list string :=
  ["Increased Damage"; "Increased Defense"; "Increased Speed"; "Flux Regeneration";
   "Spin Speed Bonus"; "Critical Strike Chance"; "Elemental Resistance";
   "Void Affinity"; "Mutation Catalyst"; "Shattering Efficiency"]%string.

(** [pool[index]] for a drawn index: [None] is [undefined]. *)
Definition at_index (pool : list string) (index : Z) : option string :=
  if (index <? 0)%Z then None else pool !! Z.to_nat index.

(** The [do { modName = possibleMods[randomInt(0, length - 1)] }
    while (selectedMods.has(modName))] loop, run for at most [fuel] rounds.
    [None] stands for a loop that is still running when the fuel is spent, and
    for an [undefined] name (an index outside the pool), which the [Mod]
    record cannot hold. *)
Fixpoint pickMod (fuel : nat) (selectedMods : gset string) (g : VoidRNG)
  : option (string * VoidRNG) :=
  match fuel with
  | O => None
  | S fuel =>
      let (index, g) :=
        randomInt 0 (inject_Z (Z.of_nat (length possibleMods)) - 1) g in
      match at_index possibleMods index with
      | None => None
      | Some modName =>
          if decide (modName ∈ selectedMods) then pickMod fuel selectedMods g
          else Some (modName, g)
      end
  end.

(** [rarity === 'void_touched' ? 3 : rarity === 'mythic' ? 2 : 1] *)
Definition valueScale (rarity : string) : Z :=
  if decide (rarity = "void_touched"%string) then 3
  else if decide (rarity = "mythic"%string) then 2
  else 1.

(** The [for (let i = 0; i < modCount; i++)] loop, [n] rounds to go. *)
Fixpoint modsLoop (fuel n : nat) (rarity : string) (mods : list Mod)
    (selectedMods : gset string) (g : VoidRNG) : option (list Mod * VoidRNG) :=
  match n with
  | O => Some (mods, g)
  | S n =>
      match pickMod fuel selectedMods g with
      | None => None
      | Some (modName, g) =>
          let selectedMods := {[ modName ]} ∪ selectedMods in
          let (roll, g) := randomInt 5 25 g in
          let value := (roll * valueScale rarity)%Z in
          modsLoop fuel n rarity (mods ++ [mkMod modName (inject_Z value)]) selectedMods g
      end
  end.

Definition generateImplicitMods (fuel : nat) (rarity : string) (g : VoidRNG)
  : option (list Mod * VoidRNG) :=
  let (modCount, g) :=
    randomInt (JS.or_default (fst <$> rarityModCounts !! rarity) 1)
              (JS.or_default (snd <$> rarityModCounts !! rarity) 1) g in
  modsLoop fuel (Z.to_nat modCount) rarity [] ∅ g.

(** The name tables of gameLogic.ts. *)
Definition baseItemNames : list string :=
  ["Gauntlets"; "Helmet"; "Chestplate"; "Boots"; "Sword"; "Shield"; "Staff";
   "Bow"; "Ring"; "Amulet"]%string.

Definition componentNames : list string :=
  ["Void Iron"; "Crystal Shard"; "Essence Core"; "Flux Coil"; "Astral Fragment";
   "Quantum Dust"]%string.

Definition modifierNames : list string :=
  ["Essence of Haste"; "Soul of Power"; "Spirit of Defense"; "Echo of Speed";
   "Whisper of Void"]%string.

Definition rarityPrefixes : gmap string string :=
  list_to_map
    [("common", ""); ("uncommon", "Enhanced"); ("rare", "Superior");
     ("epic", "Masterwork"); ("legendary", "Ancient"); ("mythic", "Primordial");
     ("void_touched", "Void-Touched")]%string.

Definition typeWeights : list (Weighted string) :=
  [mkWeighted "base_item"%string 30; mkWeighted "component"%string 40;
   mkWeighted "modifier"%string 25; mkWeighted "blueprint"%string 5].

(** [Omit<Fragment, 'id' | 'gameStateId' | 'createdAt'>] *)
Record Generated : Type := mkGenerated {
  g_name : string;
  g_type : string;
  g_rarity : string;
  g_baseStats : gmap string Q;
  g_implicitMods : list Mod;
  g_affixes : list Affix;
  g_isCorrupted : bool;
  g_quantity : Z
}.

(** The [switch (fragmentType)] that draws the base name. *)
Definition drawBaseName (fragmentType : string) (g : VoidRNG)
  : option string * VoidRNG :=
  let pick (pool : list string) :=
    let (index, g) := randomInt 0 (inject_Z (Z.of_nat (length pool)) - 1) g in
    (at_index pool index, g) in
  if decide (fragmentType = "base_item"%string) then pick baseItemNames
  else if decide (fragmentType = "component"%string) then pick componentNames
  else if decide (fragmentType = "modifier"%string) then pick modifierNames
  else (Some "Mysterious Blueprint"%string, g).

(** [prefix ? `${prefix} ${baseName}` : baseName] *)
Definition displayName (rarity baseName : string) : string :=
  match rarityPrefixes !! rarity with
  | Some prefix =>
      if decide (prefix = ""%string) then baseName else prefix +:+ " " +:+ baseName
  | None => baseName
  end.

(** [generateFragment(gameState)], on the generator it is given; [fuel]
    bounds each rejection loop of [generateImplicitMods]. *)
Definition generateFragment (fuel : nat) (gameState : GameState) (g : VoidRNG)
  : option (Generated * VoidRNG) :=
  let (fragmentType, g) := weightedChoice typeWeights g in
  match fragmentType with
  | None => None
  | Some fragmentType =>
      let rarityBonus := (inject_Z (rarityOddsLevel gameState) - 1) * 0.0005 in
      let (rarity, g) := rollRarity rarityBonus g in
      let (baseStats, g) := generateBaseStats rarity fragmentType g in
      match generateImplicitMods fuel rarity g with
      | None => None
      | Some (implicitMods, g) =>
          let (baseName, g) := drawBaseName fragmentType g in
          match baseName with
          | None => None
          | Some baseName =>
              Some ({| g_name := displayName rarity baseName;
                       g_type := fragmentType;
                       g_rarity := rarity;
                       g_baseStats := baseStats;
                       g_implicitMods := implicitMods;
                       g_affixes := [];
                       g_isCorrupted := false;
                       g_quantity := 1 |}, g)
          end
      end
  end.

(** What the spin handler reads of a generated fragment. *)
Definition toDraft (f : Generated) : Routes.FragmentDraft :=
  {| Routes.draft_name := g_name f;
     Routes.draft_type := g_type f;
     Routes.draft_rarity := g_rarity f;
     Routes.draft_baseStats := g_baseStats f;
     Routes.draft_implicitMods := g_implicitMods f |}.

(** [POST /api/spin] with the module-level generator [rng] as part of the
    state: the handler of [Routes.spin], fed by [generateFragment].  The
    fragment is generated only after the flux check has passed. *)
Definition spin (fuel : nat) (newId : string) (w : Routes.World) (rng : VoidRNG)
  : option (Routes.World * Routes.Response * VoidRNG) :=
  let gameState := Routes.gameState w in
  let spinCost := Z.max (25 - (fluxCostLevel gameState - 1) * 5) 5 in
  if bool_decide (flux gameState < spinCost)%Z
  then Some (w, Routes.Error 400 "Insufficient flux", rng)
  else
    match generateFragment fuel gameState rng with
    | None => None
    | Some (fragment, rng) =>
        Some (Routes.spin (toDraft fragment) newId w, rng)
    end.

End FragmentGenerator.

(* ================================================================== *)
(** * server/storage.ts: the marketplace as the storage sets it up       *)
(* ================================================================== *)

Module Market.
Import Schema.
Local Open Scope Q_scope.

(** An element of [baseListings]. *)
Record BaseListing : Type := mkBaseListing {
  b_fragmentType : string;
  b_rarity : string;
  b_basePrice : Z;
  b_demand : Q
}.

Definition baseListings : list BaseListing :=
  [mkBaseListing "component" "common" 10 1.0;
   mkBaseListing "component" "uncommon" 50 1.1;
   mkBaseListing "component" "rare" 200 1.2;
   mkBaseListing "component" "epic" 800 1.5;
   mkBaseListing "component" "legendary" 3000 2.0;
   mkBaseListing "modifier" "common" 15 0.9;
   mkBaseListing "modifier" "uncommon" 75 1.0;
   mkBaseListing "modifier" "rare" 300 1.3;
   mkBaseListing "modifier" "epic" 1200 1.8;
   mkBaseListing "base_item" "rare" 500 1.1;
   mkBaseListing "base_item" "epic" 2000 1.4].

(** The row stored for one element of [baseListings]. *)
Definition initialListing (listing : BaseListing) : MarketplaceListing :=
  {| listing_id := b_fragmentType listing +:+ "-" +:+ b_rarity listing;
     fragmentType := b_fragmentType listing;
     listing_rarity := b_rarity listing;
     basePrice := b_basePrice listing;
     currentPrice := b_basePrice listing;
     demand := b_demand listing;
     supply := 100 |}.

(** [initializeMarketplace()]: the table after the [forEach], in insertion
    order (the ids are pairwise different, so no row replaces another). *)
Definition initializeMarketplace : list MarketplaceListing :=
  map initialListing baseListings.

End Market.

(* ================================================================== *)
(** * The client's controls: VoidspinnerDevice, DeviceUpgrades,          *)
(** * CraftingSystem                                                     *)
(* ================================================================== *)

Module Controls.
Import Schema.

(** [const canSpin = gameState.flux >= deviceStats.fluxCost && !isSpinning;] *)
Definition canSpin (gameState : GameState) (isSpinning : bool) : bool :=
  JS.leb (Client.fluxCost (Client.getDeviceStats gameState)) (inject_Z (flux gameState))
  && negb isSpinning.

(** [const canAfford = gameState.flux >= upgrade.cost;] with
    [cost: calculateDeviceUpgradeCost(gameState, type)]; the client's copy of
    that function has the text of the server's. *)
Definition canAfford (gameState : GameState) (upgradeType : string) : bool :=
  bool_decide (GameLogic.calculateDeviceUpgradeCost gameState upgradeType
               <= flux gameState).

(** [const maxSlots = 2 + gameState.mutationSlotsLevel;] *)
Definition maxSlots (gameState : GameState) : Z := 2 + mutationSlotsLevel gameState.

(** [baseFragment && baseFragment.type === 'base_item' &&
     componentFragments.length > 0] *)
Definition canMutate (baseFragment : option Fragment) (componentFragments : list Fragment)
  : bool :=
  match baseFragment with
  | Some b => bool_decide (type b = "base_item"%string)
              && bool_decide (0 < length componentFragments)%nat
  | None => false
  end.

(** [canMutate ? 100 + (rarity === 'rare' ? 400 : rarity === 'uncommon' ? 200
     : 100) + componentFragments.length * 50 : 0] *)
Definition estimatedCost (baseFragment : option Fragment) (componentFragments : list Fragment)
  : Z :=
  match baseFragment with
  | Some b =>
      if canMutate baseFragment componentFragments then
        100 + (if decide (rarity b = "rare"%string) then 400
               else if decide (rarity b = "uncommon"%string) then 200 else 100)
        + Z.of_nat (length componentFragments) * 50
      else 0
  | None => 0
  end.

(** [canMutate ? Math.max(85 - (rarity === 'rare' ? 20 : rarity === 'uncommon'
     ? 10 : 0) - (componentFragments.length - 1) * 10, 5) : 0] *)
Definition estimatedSuccessRate (baseFragment : option Fragment)
    (componentFragments : list Fragment) : Z :=
  match baseFragment with
  | Some b =>
      if canMutate baseFragment componentFragments then
        Z.max (85 - (if decide (rarity b = "rare"%string) then 20
                     else if decide (rarity b = "uncommon"%string) then 10 else 0)
               - (Z.of_nat (length componentFragments) - 1) * 10) 5
      else 0
  | None => 0
  end.

(** [disabled={!canMutate || mutateMutation.isPending ||
     gameState.flux < estimatedCost}] *)
Definition mutateDisabled (gameState : GameState) (baseFragment : option Fragment)
    (componentFragments : list Fragment) (isPending : bool) : bool :=
  negb (canMutate baseFragment componentFragments) || isPending
  || bool_decide (flux gameState < estimatedCost baseFragment componentFragments).

End Controls.

(* ================================================================== *)
(** * Vocabulary of the further properties                              *)
(* ================================================================== *)

Module Ext.
Import Schema.

(** The position of a rarity in the ascending order of the seven tiers. *)
Definition tier (rarity : string) : option nat :=
  GameLogic.indexOf rarity GameLogic.rarityOrder.

(** One step of the generator on a seed that is already in [0, 233280). *)
Definition stepZ (s : Z) : Z := (s * 9301 + 49297) mod 233280.

(** The index [randomInt(0, 9)] returns when the call leaves the seed [s]:
    [floor(10 * s / 233280)], found by comparisons. *)
Definition decile (s : Z) : Z :=
  if s <? 116640 then
    if s <? 46656 then (if s <? 23328 then 0 else 1)
    else if s <? 69984 then 2 else if s <? 93312 then 3 else 4
  else
    if s <? 163296 then (if s <? 139968 then 5 else 6)
    else if s <? 186624 then 7 else if s <? 209952 then 8 else 9.

(** The [k] successive seeds from [s] on. *)
Fixpoint orbit (k : nat) (s : Z) : list Z :=
  match k with
  | O => []
  | S k => s :: orbit k (stepZ s)
  end.

(** [a, 9301 a, 9301^2 a, ...] modulo 233280. *)
Fixpoint powers (k : nat) (a : Z) : list Z :=
  match k with
  | O => []
  | S k => a :: powers k ((a * 9301) mod 233280)
  end.

(** [u + a] modulo 233280, for [u] and [a] below 233280. *)
Definition bump (a u : Z) : Z :=
  let v := u + a in if v <? 233280 then v else v - 233280.

Fixpoint bumps (A U : list Z) : list Z :=
  match A, U with
  | a :: A, u :: U => bump a u :: bumps A U
  | _, _ => []
  end.

Fixpoint listed (x : Z) (l : list Z) : bool :=
  match l with
  | [] => false
  | y :: l => (x =? y) || listed x l
  end.

(** [l] holds [need] values that differ from one another and from [seen]. *)
Fixpoint distinct (l seen : list Z) (need : nat) : bool :=
  match need with
  | O => true
  | S n =>
      match l with
      | [] => false
      | x :: l =>
          if listed x seen then distinct l seen need else distinct l (x :: seen) n
      end
  end.

(** Twelve successive seeds, given as [U], show four different indices. *)
Definition varied (U : list Z) : bool := distinct (map decile U) [] 4.

(** [varied] checked for the seeds 0, 1, ..., [n - 1] in turn; the twelve
    seeds that follow [s + 1] are obtained from those that follow [s] by
    adding the powers of 9301. *)
Definition sweep (n : N) : list Z * bool :=
  let A := powers 12 1 in
  N.iter n (fun p => (bumps A (fst p), snd p && varied (fst p))) (orbit 12 0, true).


(** [Math.floor(lo + (s / 233280) * (hi + 1 - lo))] in doubles: the answer of
    [randomInt(lo, hi)] when the call leaves the seed [s]. *)
Definition draw64 (lo hi s : Z) : Z :=
  JS.floor (F64.add (inject_Z lo)
              (F64.mul (F64.div (inject_Z s) 233280)
                 (F64.sub (F64.add (inject_Z hi) 1) (inject_Z lo)))).

(** The ranges of the integer draws of the generator: the base stats, the
    modifier counts, the modifier values, and the indices into the pool of
    modifier names and into the three name tables. *)
Definition generatorDraws : list (Z * Z) :=
  [(10, 50); (5, 25); (1, 10); (5, 20); (1, 15);
   (1, 1); (1, 2); (2, 2); (2, 3); (3, 3); (3, 4); (4, 4);
   (0, 9); (0, 5); (0, 4)].

(** The seeds at which [s * (hi + 1 - lo) / 233280] is an integer are the
    multiples of [233280 / gcd]; at each of them the double draw is compared
    with the exact one. *)
Definition boundaryOk (range : Z * Z) : bool :=
  let (lo, hi) := range in
  let n := hi + 1 - lo in
  let gd := Z.gcd n 233280 in
  let m := 233280 / gd in
  forallb (fun j => draw64 lo hi (Z.of_nat j * m)
                    =? lo + Z.of_nat j * m * n / 233280)
    (seq 0 (Z.to_nat gd)).

(** [Math.max(25 - (fluxCostLevel - 1) * 5, 5)], the price of a spin. *)
Definition spinCost (gameState : GameState) : Z :=
  Z.max (25 - (fluxCostLevel gameState - 1) * 5) 5.

(** The four fragment types [generateFragment] draws from. *)
Definition fragmentTypes : list string :=
  ["base_item"; "component"; "modifier"; "blueprint"]%string.

(** The keys of the base stats of a fragment of a type. *)
Definition statKeys (type : string) : gset string :=
  if decide (type = "base_item"%string)
  then {[ "power"%string; "defense"%string; "speed"%string ]}
  else if decide (type = "component"%string) then {[ "enhancement"%string ]}
  else if decide (type = "modifier"%string) then {[ "modifier"%string ]}
  else ∅.

(** The bounds of the integer draw behind each base stat. *)
Definition statRange (key : string) : Z * Z :=
  if decide (key = "power"%string) then (10, 50)
  else if decide (key = "defense"%string) then (5, 25)
  else if decide (key = "speed"%string) then (1, 10)
  else if decide (key = "enhancement"%string) then (5, 20)
  else (1, 15).

(** A stat that is an integer of the range of its key, times [multiplier]. *)
Definition statOk (multiplier : Q) (key : string) (value : Q) : Prop :=
  exists draw : Z,
    (value = inject_Z draw * multiplier)%Q /\
    (fst (statRange key) <= draw <= snd (statRange key)).

(** A table over the seven rarities, written out tier by tier, with
    [other] for every other string. *)
Definition byRarity {A} (common uncommon rare epic legendary mythic void_touched other : A)
    (rarity : string) : A :=
  if decide (rarity = "common"%string) then common
  else if decide (rarity = "uncommon"%string) then uncommon
  else if decide (rarity = "rare"%string) then rare
  else if decide (rarity = "epic"%string) then epic
  else if decide (rarity = "legendary"%string) then legendary
  else if decide (rarity = "mythic"%string) then mythic
  else if decide (rarity = "void_touched"%string) then void_touched
  else other.

(** The factor of the base stats of a rarity. *)
Definition statMultiplier (rarity : string) : Q :=
  byRarity 1%Q 1.5%Q 2.5%Q 4%Q 7%Q 12%Q 20%Q 1%Q rarity.

(** The least and the greatest number of implicit modifiers of a rarity. *)
Definition modCounts (rarity : string) : Z * Z :=
  byRarity (1, 1) (1, 2) (2, 2) (2, 3) (3, 3) (3, 4) (4, 4) (1, 1) rarity.

(** The factor of the value of an implicit modifier: 3 for void_touched, 2
    for mythic, 1 for every other rarity. *)
Definition modScale (rarity : string) : Z :=
  byRarity 1 1 1 1 1 2 3 1 rarity.

(** An implicit modifier as [generateImplicitMods] builds them for a rarity:
    a name of the pool, and an integer value between 5 and 25 times the scale
    of the rarity. *)
Definition implicitModOk (rarity : string) (m : Mod) : Prop :=
  mod_name m ∈ FragmentGenerator.possibleMods /\
  exists value : Z,
    mod_value m = inject_Z value /\
    (5 * modScale rarity <= value <= 25 * modScale rarity).

(** The four upgrade tracks. *)
Definition upgradeTypes : list string :=
  ["spinSpeed"; "rarityOdds"; "fluxCost"; "mutationSlots"]%string.

(** The weight of a rarity in the shatter value: 1, 3, 8, 20, 50, 125 and
    300 for the seven tiers, and 1 for any other rarity. *)
Definition shatterWeight (rarity : string) : Z :=
  byRarity 1 3 8 20 50 125 300 1 rarity.

(** The weight of a rarity in the mutation cost: 1, 2, 4, 8, 16, 32 and 64
    for the seven tiers, and 1 for any other rarity. *)
Definition costWeight (rarity : string) : Z :=
  byRarity 1 2 4 8 16 32 64 1 rarity.

(** The base cost of an upgrade track: 500, 1200, 800 and 2500 for the four
    tracks, and 500 for any other string. *)
Definition trackCost (upgradeType : string) : Z :=
  if decide (upgradeType = "spinSpeed"%string) then 500
  else if decide (upgradeType = "rarityOdds"%string) then 1200
  else if decide (upgradeType = "fluxCost"%string) then 800
  else if decide (upgradeType = "mutationSlots"%string) then 2500
  else 500.

(** The power [1.5^k] and its product with the base cost of a track are
    doubles: [Math.pow] and the multiplication round nothing. *)
Definition costIsDouble (upgradeType : string) (k : Z) : bool :=
  Qeq_bool (F64.fl (Qpower 1.5 k)) (Qpower 1.5 k) &&
  Qeq_bool (F64.mul (inject_Z (trackCost upgradeType)) (F64.fl (Qpower 1.5 k)))
           (inject_Z (trackCost upgradeType) * Qpower 1.5 k).

Definition sumZ (l : list Z) : Z := fold_right Z.add 0 l.

(** A marketplace row the sell handler keeps sound: its id is the key the
    handler looks it up by, the price is at least 1, the supply between 0 and
    the initial 100, the demand above 0 and at most 3. *)
Definition listingOk (l : MarketplaceListing) : Prop :=
  listing_id l = (fragmentType l +:+ "-" +:+ listing_rarity l)%string /\
  1 <= currentPrice l /\
  (0 <= supply l <= 100) /\
  (0 < demand l <= 3)%Q.

(** A sound marketplace: sound rows under pairwise different ids. *)
Definition marketOk (w : Routes.World) : Prop :=
  Forall listingOk (Routes.listings w) /\
  NoDup (listing_id <$> Routes.listings w).

(** What a row can become through sales: it stays the row of its fragment
    type and rarity with its base price, the supply does not rise and the
    demand does not fall. *)
Definition marketMoves (before after : MarketplaceListing) : Prop :=
  listing_id after = listing_id before /\
  fragmentType after = fragmentType before /\
  listing_rarity after = listing_rarity before /\
  basePrice after = basePrice before /\
  supply after <= supply before /\
  (demand before <= demand after)%Q.

(** A sale moves the price of a row against its new demand: not up when the
    demand is 1 or more, not down when it is 1 or less. *)
Definition priceFollowsDemand (before after : MarketplaceListing) : Prop :=
  ((1 <= demand after)%Q -> currentPrice after <= currentPrice before) /\
  ((demand after <= 1)%Q -> currentPrice before <= currentPrice after).

(** A stored fragment as the handlers create them: owned by the game state,
    quantity 1, not corrupted. *)
Definition fragmentOk (gameState : GameState) (f : Fragment) : Prop :=
  gameStateId f = gs_id gameState /\ quantity f = 1 /\ isCorrupted f = false.

Definition fragmentsOk (w : Routes.World) : Prop :=
  Forall (fragmentOk (Routes.gameState w)) (Routes.fragments w).

(** The worlds a sequence of handled requests leads to from [w0]. *)
Inductive played (w0 : Routes.World) : Routes.World -> Prop :=
| played_start : played w0 w0
| played_step w w' : played w0 w -> Routes.step w w' -> played w0 w'.

End Ext.

(* ================================================================== *)
(** * Further sample worlds                                             *)
(* ================================================================== *)

Module Scenes.
Import Schema.

(** The sample player, holding the void iron, before the marketplace as the
    storage sets it up. *)
Definition stall : Routes.World :=
  {| Routes.gameState := Sample.player;
     Routes.fragments := [Sample.voidIron];
     Routes.listings := Market.initializeMarketplace |}.

(** A second game state whose storage also holds the sample sword, a row of
    the first game state. *)
Definition visitor : Routes.World :=
  {| Routes.gameState :=
       {| gs_id := "gs-2"; userId := "u-2"; flux := 1000; totalSpins := 0;
          deviceLevel := 1; spinSpeedLevel := 1; rarityOddsLevel := 1;
          fluxCostLevel := 1; mutationSlotsLevel := 1 |};
     Routes.fragments := [Sample.sword];
     Routes.listings := [] |}.

(** A fresh game state on the initial marketplace, one spin, then the new
    fragment sold. *)
Definition afterSpinAndSell : Routes.World :=
  fst (Routes.sell "f-1"
         (fst (Routes.spin Sample.draft "f-1"
                 (Routes.freshWorld "gs-1" "u-1" Market.initializeMarketplace)))).

End Scenes.

(* ================================================================== *)
(** * Properties of the number primitives                               *)
(* ================================================================== *)

Section JSFacts.
Local Open Scope Q_scope.

Lemma leb_spec (x y : Q) : JS.leb x y = true <-> x <= y.
Proof. apply Qle_bool_iff. Qed.

Lemma ltb_spec (x y : Q) : JS.ltb x y = true <-> x < y.
Proof.
  unfold JS.ltb. rewrite negb_true_iff, <- not_true_iff_false, Qle_bool_iff.
  split; [apply Qnot_le_lt | apply Qlt_not_le].
Qed.

Lemma ltb_false (x y : Q) : JS.ltb x y = false <-> y <= x.
Proof.
  unfold JS.ltb. rewrite negb_false_iff. apply Qle_bool_iff.
Qed.

Lemma gtb_spec (x y : Q) : JS.gtb x y = true <-> y < x.
Proof. apply ltb_spec. Qed.

Lemma gtb_false (x y : Q) : JS.gtb x y = false <-> x <= y.
Proof. apply ltb_false. Qed.

Lemma to_double_exact (z : Z) :
  (Z.abs z < 2 ^ 53)%Z -> JS.to_double z = z.
Proof.
  intros Hz. unfold JS.to_double.
  destruct (Z.eq_dec z 0%Z) as [-> | Hnz]; [reflexivity |].
  assert (Z.log2 (Z.abs z) < 53)%Z by (apply Z.log2_lt_pow2; lia).
  destruct (Z.leb_spec (Z.log2 (Z.abs z) + 1 - 53) 0%Z); [reflexivity | lia].
Qed.

(** Above [2^53] only every second integer is a double; ties go to the even
    mantissa. *)
Example to_double_ties :
  JS.to_double 9007199254740992 = 9007199254740992%Z /\
  JS.to_double 9007199254740993 = 9007199254740992%Z /\
  JS.to_double 9007199254740995 = 9007199254740996%Z /\
  JS.to_double (-9007199254740995) = (-9007199254740996)%Z.
Proof. repeat split. Qed.

End JSFacts.

(* ================================================================== *)
(** * Rounding to a double                                              *)
(* ================================================================== *)

Section Doubles.
Import F64.
Local Open Scope Q_scope.

Lemma pow2_pos (k : Z) : 0 < pow2 k.
Proof. apply Qpower_0_lt. reflexivity. Qed.

Lemma pow2_plus (a b : Z) : pow2 (a + b) == pow2 a * pow2 b.
Proof. apply Qpower_plus. discriminate. Qed.

Lemma pow2_succ (a : Z) : pow2 (a + 1) == 2 * pow2 a.
Proof. rewrite pow2_plus. change (pow2 1) with 2. ring. Qed.

Lemma pow2_le (a b : Z) : (a <= b)%Z -> pow2 a <= pow2 b.
Proof. intros H. apply Qpower_le_compat_l; [exact H | discriminate]. Qed.

Lemma pow2_lt (a b : Z) : (a < b)%Z -> pow2 a < pow2 b.
Proof. intros H. apply Qpower_lt_compat_l; [exact H | reflexivity]. Qed.

Lemma pow2_lt_inv (a b : Z) : pow2 a < pow2 b -> (a < b)%Z.
Proof. intros H. apply (Qpower_lt_compat_l_inv 2); [exact H | reflexivity]. Qed.

Lemma pow2_Z (k : Z) : (0 <= k)%Z -> pow2 k == inject_Z (2 ^ k).
Proof. intros H. unfold pow2. now rewrite Zpower_Qpower. Qed.

Lemma ilog2_spec (x : Q) : 0 < x -> pow2 (ilog2 x) <= x /\ x < pow2 (ilog2 x + 1).
Proof.
  intros Hx. unfold ilog2.
  destruct x as [n d]. cbn [Qnum Qden].
  assert (Hn : (0 < n)%Z) by (unfold Qlt in Hx; cbn in Hx; lia).
  pose proof (Z.log2_spec n Hn) as [Ha1 Ha2].
  pose proof (Z.log2_spec (Z.pos d) (Pos2Z.is_pos d)) as [Hb1 Hb2].
  pose proof (Z.log2_nonneg n) as Ha0. pose proof (Z.log2_nonneg (Z.pos d)) as Hb0.
  set (a := Z.log2 n) in *. set (b := Z.log2 (Z.pos d)) in *.
  assert (HN : pow2 a <= inject_Z n /\ inject_Z n < 2 * pow2 a).
  { rewrite <- pow2_succ, !pow2_Z by lia. rewrite <- Zle_Qle, <- Zlt_Qlt.
    unfold Z.succ in Ha2. lia. }
  assert (HD : pow2 b <= inject_Z (Z.pos d) /\ inject_Z (Z.pos d) < 2 * pow2 b).
  { rewrite <- pow2_succ, !pow2_Z by lia. rewrite <- Zle_Qle, <- Zlt_Qlt.
    unfold Z.succ in Hb2. lia. }
  assert (Hk : pow2 (a - b) * pow2 b == pow2 a).
  { rewrite <- pow2_plus. now replace (a - b + b)%Z with a by lia. }
  assert (Hxd : (n # d) * inject_Z (Z.pos d) == inject_Z n).
  { unfold Qeq, Qmult, inject_Z. cbn. lia. }
  pose proof (pow2_pos (a - b)) as Hp. pose proof (pow2_pos b) as Hpb.
  set (x := n # d) in *. set (N := inject_Z n) in *. set (D := inject_Z (Z.pos d)) in *.
  set (P := pow2 (a - b)) in *. set (Pb := pow2 b) in *. set (Pa := pow2 a) in *.
  destruct (Qle_bool P x) eqn:E.
  - apply Qle_bool_iff in E. split; [exact E |].
    rewrite pow2_succ. fold P. nra.
  - assert (E' : x < P).
    { apply Qnot_le_lt. intros H. apply Qle_bool_iff in H. congruence. }
    replace (a - b - 1 + 1)%Z with (a - b)%Z by lia. fold P. split; [| exact E'].
    assert (H2 : 2 * pow2 (a - b - 1) == P).
    { rewrite <- pow2_succ. unfold P. now replace (a - b - 1 + 1)%Z with (a - b)%Z by lia. }
    set (P' := pow2 (a - b - 1)) in *. nra.
Qed.

Lemma ilog2_unique (x : Q) (k : Z) :
  pow2 k <= x -> x < pow2 (k + 1) -> ilog2 x = k.
Proof.
  intros H1 H2.
  assert (Hx : 0 < x) by (pose proof (pow2_pos k); lra).
  destruct (ilog2_spec x Hx) as [S1 S2].
  assert (ilog2 x < k + 1)%Z by (apply pow2_lt_inv; lra).
  assert (k < ilog2 x + 1)%Z by (apply pow2_lt_inv; lra).
  lia.
Qed.

Lemma ilog2_comp (x y : Q) : 0 < x -> x == y -> ilog2 x = ilog2 y.
Proof.
  intros Hx Heq. destruct (ilog2_spec x Hx) as [S1 S2].
  symmetry. apply ilog2_unique; rewrite <- Heq; assumption.
Qed.

Lemma ilog2_le (x y : Q) : 0 < x -> x <= y -> (ilog2 x <= ilog2 y)%Z.
Proof.
  intros Hx Hxy.
  destruct (ilog2_spec x Hx) as [S1 _].
  destruct (ilog2_spec y ltac:(lra)) as [_ T2].
  assert (ilog2 x < ilog2 y + 1)%Z by (apply pow2_lt_inv; lra). lia.
Qed.

Lemma rne_cases (x : Q) :
  (rne x = Qfloor x /\ x - inject_Z (Qfloor x) <= 1 # 2) \/
  (rne x = (Qfloor x + 1)%Z /\ (1 # 2) <= x - inject_Z (Qfloor x)).
Proof.
  unfold rne.
  destruct (Qcompare_spec (x - inject_Z (Qfloor x)) (1 # 2)) as [E | E | E].
  - destruct (Z.even (Qfloor x)); [left | right]; (split; [reflexivity | lra]).
  - left. split; [reflexivity | lra].
  - right. split; [reflexivity | lra].
Qed.

Lemma rne_Z (z : Z) : rne (inject_Z z) = z.
Proof.
  unfold rne. rewrite Qfloor_Z.
  assert (E : Qcompare (inject_Z z - inject_Z z) (1 # 2) = Lt).
  { apply (proj1 (Qlt_alt _ _)). generalize (inject_Z z). intros q. lra. }
  now rewrite E.
Qed.

Lemma rne_comp (x y : Q) : x == y -> rne x = rne y.
Proof.
  intros H. unfold rne. rewrite (Qfloor_comp _ _ H).
  assert (E : Qcompare (x - inject_Z (Qfloor y)) (1 # 2)
              = Qcompare (y - inject_Z (Qfloor y)) (1 # 2)).
  { apply Qcompare_comp; [now rewrite H | reflexivity]. }
  now rewrite E.
Qed.

Lemma rne_le (x y : Q) : x <= y -> (rne x <= rne y)%Z.
Proof.
  intros Hxy. pose proof (Qfloor_resp_le _ _ Hxy) as Hf.
  destruct (Z.eq_dec (Qfloor x) (Qfloor y)) as [Heq | Hne].
  - unfold rne. rewrite Heq.
    set (f := Qfloor y).
    assert (Hr : x - inject_Z f <= y - inject_Z f) by lra.
    destruct (Qcompare_spec (x - inject_Z f) (1 # 2)) as [Ex | Ex | Ex];
      destruct (Qcompare_spec (y - inject_Z f) (1 # 2)) as [Ey | Ey | Ey];
      try (exfalso; lra); destruct (Z.even f); lia.
  - destruct (rne_cases x) as [[-> _] | [-> _]];
      destruct (rne_cases y) as [[-> _] | [-> _]]; lia.
Qed.

Lemma ulp_exp_spec (x : Q) :
  0 < x ->
  (-1074 <= ulp_exp x)%Z /\
  x < pow2 (ulp_exp x + 53) /\
  ((-1074 < ulp_exp x)%Z -> pow2 (ulp_exp x + 52) <= x).
Proof.
  intros Hx. unfold ulp_exp.
  assert (Ha : ilog2 (Qabs x) = ilog2 x).
  { symmetry. apply ilog2_comp; [exact Hx |]. symmetry. apply Qabs_pos. lra. }
  rewrite Ha. destruct (ilog2_spec x Hx) as [S1 S2].
  split; [lia |]. split.
  - eapply Qlt_le_trans; [exact S2 |]. apply pow2_le. lia.
  - intros H. replace (Z.max (ilog2 x - 52) (-1074) + 52)%Z with (ilog2 x) by lia.
    exact S1.
Qed.

Lemma ulp_exp_le (x y : Q) : 0 < x -> x <= y -> (ulp_exp x <= ulp_exp y)%Z.
Proof.
  intros Hx Hxy. unfold ulp_exp.
  assert (Hl : (ilog2 (Qabs x) <= ilog2 (Qabs y))%Z).
  { apply ilog2_le.
    - rewrite Qabs_pos by lra. exact Hx.
    - rewrite !Qabs_pos by lra. exact Hxy. }
  lia.
Qed.

Lemma fl_pos_eq (x : Q) :
  0 < x -> fl x = inject_Z (rne (x / pow2 (ulp_exp x))) * pow2 (ulp_exp x).
Proof.
  intros Hx. unfold fl.
  destruct (Qeq_bool x 0) eqn:E; [| reflexivity].
  apply Qeq_bool_iff in E. lra.
Qed.

Lemma fl_zero (x : Q) : x == 0 -> fl x = 0.
Proof. intros H. unfold fl. apply Qeq_bool_iff in H. now rewrite H. Qed.

Lemma div_pow2_le (x y : Q) (e : Z) : x <= y -> x / pow2 e <= y / pow2 e.
Proof.
  intros H. pose proof (pow2_pos e) as Hp.
  unfold Qdiv. apply Qmult_le_compat_r; [exact H |].
  apply Qlt_le_weak, Qinv_lt_0_compat, Hp.
Qed.

Lemma div_pow2 (x : Q) (e : Z) : x / pow2 e * pow2 e == x.
Proof. pose proof (pow2_pos e). field. lra. Qed.

Lemma mantissa_bounds (x : Q) :
  0 < x ->
  (0 <= rne (x / pow2 (ulp_exp x)) <= 2 ^ 53)%Z /\
  ((-1074 < ulp_exp x)%Z -> (2 ^ 52 <= rne (x / pow2 (ulp_exp x)))%Z).
Proof.
  intros Hx. destruct (ulp_exp_spec x Hx) as (_ & Hhi & Hlo).
  set (e := ulp_exp x) in *. pose proof (pow2_pos e) as Hp.
  split; [split |].
  - rewrite <- (rne_Z 0). apply rne_le. change (inject_Z 0) with 0.
    apply Qle_shift_div_l; [exact Hp | lra].
  - rewrite <- (rne_Z (2 ^ 53)). apply rne_le.
    apply Qle_shift_div_r; [exact Hp |].
    rewrite <- pow2_Z by lia. rewrite <- pow2_plus.
    replace (53 + e)%Z with (e + 53)%Z by lia. lra.
  - intros He. specialize (Hlo He).
    rewrite <- (rne_Z (2 ^ 52)). apply rne_le.
    apply Qle_shift_div_l; [exact Hp |].
    rewrite <- pow2_Z by lia. rewrite <- pow2_plus.
    replace (52 + e)%Z with (e + 52)%Z by lia. exact Hlo.
Qed.

Lemma fl_nonneg (x : Q) : 0 <= x -> 0 <= fl x.
Proof.
  intros Hx. destruct (Qeq_dec x 0) as [H0 | H0]; [rewrite (fl_zero _ H0); lra |].
  assert (Hpos : 0 < x) by (destruct (Qlt_le_dec 0 x); [assumption | exfalso; apply H0; lra]).
  rewrite (fl_pos_eq _ Hpos).
  destruct (mantissa_bounds x Hpos) as [[Hm _] _].
  pose proof (pow2_pos (ulp_exp x)).
  rewrite (Zle_Qle 0) in Hm. change (inject_Z 0) with 0 in Hm.
  apply Qmult_le_0_compat; [exact Hm | lra].
Qed.

Lemma fl_nonpos (x : Q) : x <= 0 -> fl x <= 0.
Proof.
  intros Hx. unfold fl. destruct (Qeq_bool x 0); [lra |].
  pose proof (pow2_pos (ulp_exp x)) as Hp.
  assert (Hm : (rne (x / pow2 (ulp_exp x)) <= 0)%Z).
  { rewrite <- (rne_Z 0). apply rne_le. change (inject_Z 0) with 0.
    apply Qle_shift_div_r; [exact Hp | lra]. }
  rewrite (Zle_Qle _ 0) in Hm. change (inject_Z 0) with 0 in Hm.
  generalize dependent (inject_Z (rne (x / pow2 (ulp_exp x)))). intros m Hm. nra.
Qed.

Lemma fl_comp (x y : Q) : x == y -> fl x == fl y.
Proof.
  intros H. unfold fl.
  destruct (Qeq_bool x 0) eqn:Ex.
  - apply Qeq_bool_iff in Ex.
    assert (Ey : Qeq_bool y 0 = true) by (apply Qeq_bool_iff; lra).
    now rewrite Ey.
  - assert (Ey : Qeq_bool y 0 = false).
    { apply not_true_iff_false. intros Ey. apply Qeq_bool_iff in Ey.
      apply not_true_iff_false in Ex. apply Ex. apply Qeq_bool_iff. lra. }
    rewrite Ey.
    assert (Hx0 : ~ x == 0).
    { intros H0. apply not_true_iff_false in Ex. apply Ex. now apply Qeq_bool_iff. }
    assert (Hu : ulp_exp x = ulp_exp y).
    { unfold ulp_exp. f_equal. f_equal. apply ilog2_comp.
      - destruct (Qlt_le_dec 0 (Qabs x)) as [Hl | Hl]; [exact Hl | exfalso].
        pose proof (Qabs_nonneg x). apply Hx0.
        assert (Ha : Qabs x == 0) by lra.
        pose proof (Qle_Qabs x). pose proof (Qle_Qabs (- x)).
        rewrite Qabs_opp in *. lra.
      - now rewrite H. }
    rewrite Hu. rewrite (rne_comp (x / pow2 (ulp_exp y)) (y / pow2 (ulp_exp y))) by (now rewrite H).
    reflexivity.
Qed.

(** A double written as mantissa times power of two is its own rounding. *)
Lemma fl_dyadic (m e : Z) :
  (0 <= m <= 2 ^ 53)%Z -> (-1074 <= e)%Z ->
  fl (inject_Z m * pow2 e) == inject_Z m * pow2 e.
Proof.
  assert (Hmain : forall m e : Z, (0 < m < 2 ^ 53)%Z -> (-1074 <= e)%Z ->
                    fl (inject_Z m * pow2 e) == inject_Z m * pow2 e).
  { clear m e. intros m e Hm He.
    pose proof (pow2_pos e) as Hp.
    assert (Hm1 : 1 <= inject_Z m) by (rewrite <- (Zle_Qle 1); lia).
    assert (Hm2 : inject_Z m < inject_Z (2 ^ 53)) by (rewrite <- Zlt_Qlt; lia).
    set (x := inject_Z m * pow2 e).
    assert (Hx : 0 < x) by (unfold x; nra).
    rewrite (fl_pos_eq _ Hx).
    destruct (ulp_exp_spec x Hx) as (He1 & _ & Hlo).
    assert (Hle : (ulp_exp x <= e)%Z).
    { destruct (Z_le_gt_dec (ulp_exp x) e) as [H | H]; [exact H | exfalso].
      specialize (Hlo ltac:(lia)).
      assert (Hlt : x < pow2 (e + 53)).
      { unfold x. rewrite pow2_plus, (pow2_Z 53) by lia. nra. }
      assert (ulp_exp x + 52 < e + 53)%Z by (apply pow2_lt_inv; lra). lia. }
    set (e' := ulp_exp x) in *.
    assert (Hq : x / pow2 e' == inject_Z (m * 2 ^ (e - e'))).
    { unfold x. rewrite inject_Z_mult, <- pow2_Z by lia.
      replace e with ((e - e') + e')%Z at 1 by lia. rewrite pow2_plus.
      pose proof (pow2_pos e'). field. lra. }
    rewrite (rne_comp _ _ Hq), rne_Z, <- Hq. apply div_pow2. }
  intros Hm He.
  destruct (Z.eq_dec m 0%Z) as [-> | Hm0].
  { rewrite fl_zero; [ring | ring]. }
  destruct (Z.eq_dec m (2 ^ 53)%Z) as [-> | Hm53].
  - assert (Heq : inject_Z (2 ^ 53) * pow2 e == inject_Z (2 ^ 52) * pow2 (e + 1)).
    { rewrite pow2_succ. change (inject_Z (2 ^ 53)) with (2 * inject_Z (2 ^ 52)). ring. }
    specialize (Hmain (2 ^ 52)%Z (e + 1)%Z ltac:(lia) ltac:(lia)).
    eapply Qeq_trans; [apply (fl_comp _ _ Heq) |].
    eapply Qeq_trans; [exact Hmain |]. symmetry. exact Heq.
  - apply Hmain; lia.
Qed.

Lemma fl_idem (x : Q) : 0 <= x -> fl (fl x) == fl x.
Proof.
  intros Hx. destruct (Qeq_dec x 0) as [H0 | H0].
  { rewrite (fl_zero _ H0). reflexivity. }
  assert (Hpos : 0 < x) by (destruct (Qlt_le_dec 0 x); [assumption | exfalso; apply H0; lra]).
  rewrite (fl_pos_eq _ Hpos).
  destruct (mantissa_bounds x Hpos) as [Hm _].
  destruct (ulp_exp_spec x Hpos) as (He & _).
  now apply fl_dyadic.
Qed.

Lemma fl_le (x y : Q) : 0 <= x -> x <= y -> fl x <= fl y.
Proof.
  intros Hx Hxy. destruct (Qeq_dec x 0) as [H0 | H0].
  { rewrite (fl_zero _ H0). apply fl_nonneg. lra. }
  assert (Hpos : 0 < x) by (destruct (Qlt_le_dec 0 x); [assumption | exfalso; apply H0; lra]).
  assert (Hposy : 0 < y) by lra.
  rewrite (fl_pos_eq _ Hpos), (fl_pos_eq _ Hposy).
  pose proof (ulp_exp_le x y Hpos Hxy) as He.
  destruct (mantissa_bounds x Hpos) as [[_ Hmx] _].
  destruct (mantissa_bounds y Hposy) as [_ Hmy].
  destruct (ulp_exp_spec x Hpos) as (Hex & _).
  set (ex := ulp_exp x) in *. set (ey := ulp_exp y) in *.
  pose proof (pow2_pos ex) as Hpx. pose proof (pow2_pos ey) as Hpy.
  destruct (Z.eq_dec ex ey) as [Heq | Hne].
  - rewrite Heq. pose proof (rne_le _ _ (div_pow2_le x y ey Hxy)) as Hr.
    rewrite Zle_Qle in Hr. nra.
  - assert (Hlt : (ex + 53 <= ey + 52)%Z) by lia.
    specialize (Hmy ltac:(lia)).
    rewrite Zle_Qle in Hmx, Hmy.
    pose proof (pow2_le _ _ Hlt) as Hp.
    rewrite !pow2_plus, (pow2_Z 53), (pow2_Z 52) in Hp by lia.
    nra.
Qed.

(** A double that bounds [x] from above bounds the rounding of [x]. *)
Lemma fl_below (x d : Q) : 0 <= x -> x <= d -> fl d == d -> fl x <= d.
Proof. intros Hx Hxd Hd. rewrite <- Hd. now apply fl_le. Qed.

End Doubles.

(** The doubles the source writes as 0.1 and 0.7, and a sum and a product
    that differ from the exact ones in the last place. *)
Example fl_literals :
  (F64.fl 0.1 == 3602879701896397 # 36028797018963968)%Q /\
  (F64.fl 0.7 == 3152519739159347 # 4503599627370496)%Q /\
  (F64.fl 0.7 < 0.7)%Q /\
  (F64.add (F64.fl 0.1) (F64.fl 0.2) == F64.fl 0.3 + F64.pow2 (-54))%Q /\
  (F64.mul 90 (F64.fl 0.7) == 63 - F64.pow2 (-47))%Q.
Proof. vm_compute. repeat split. Qed.

(** The smallest double, halved, rounds to 0; beyond [2^53] only every
    second integer is a double. *)
Example fl_edges :
  (F64.fl (F64.pow2 (-1074)) == F64.pow2 (-1074))%Q /\
  (F64.mul (F64.pow2 (-1074)) (1 # 2) == 0)%Q /\
  (F64.fl (inject_Z (2 ^ 53 + 1)) == inject_Z (2 ^ 53))%Q /\
  (F64.fl (inject_Z (2 ^ 53 + 3)) == inject_Z (2 ^ 53 + 4))%Q /\
  (F64.fl F64.max_value == F64.max_value)%Q.
Proof. vm_compute. repeat split. Qed.

(* ================================================================== *)
(** * The generator                                                     *)
(* ================================================================== *)

Section Generator.
Import Rng.
Local Open Scope Q_scope.

(** The first draw from seed 1. *)
Example next_from_1 : next (mkVoidRNG 1) = (58598 # 233280, mkVoidRNG 58598).
Proof. reflexivity. Qed.

(** A clock-sized seed: [seed * 9301] is past [2^53], and the draw is the one
    double arithmetic gives (9296), not the exact integer one (9297). *)
Example next_from_clock :
  next (mkVoidRNG 1700000000000) = (9296 # 233280, mkVoidRNG 9296) /\
  ((1700000000000 * 9301 + 49297) mod 233280 = 9297)%Z.
Proof. split; reflexivity. Qed.

(** After one call the seed is the remainder of a division by 233280. *)
Lemma next_seed_range (g : VoidRNG) :
  (-233280 < seed (snd (next g)) < 233280)%Z.
Proof.
  unfold next, JS.rem. cbn [snd seed].
  set (x := JS.to_double _).
  pose proof (Z.rem_bound_abs x 233280). 
  assert (Z.abs (Z.rem x 233280) < 233280)%Z.
  { destruct (Z.eq_dec x 0%Z) as [-> | ]; [reflexivity |].
    destruct (Z.le_gt_cases 0%Z x).
    - pose proof (Z.rem_bound_pos x 233280). lia.
    - pose proof (Z.rem_bound_neg_pos x 233280). lia. }
  lia.
Qed.

(** Every draw is below 1. *)
Lemma next_lt_1 (g : VoidRNG) : fst (next g) < 1.
Proof.
  pose proof (next_seed_range g) as H. unfold next in *. cbn [fst snd seed] in *.
  unfold Qlt. cbn. lia.
Qed.

(** A seed other than 0 is kept by the constructor, whatever the clock. *)
Lemma constructor_seeded (s now : Z) :
  s <> 0%Z -> constructor (Some s) now = mkVoidRNG s.
Proof.
  intros Hs. unfold constructor, JS.or_defaultZ.
  destruct (Z.eqb_spec s 0); [contradiction | reflexivity].
Qed.

(** Two generators built from one non-zero seed agree on every prefix of
    their [next()] sequences and on every distribution call. *)
Lemma seeded_sequences_agree (s now1 now2 : Z) (n : nat) :
  s <> 0%Z ->
  nexts n (constructor (Some s) now1) = nexts n (constructor (Some s) now2).
Proof. intros Hs. now rewrite !constructor_seeded. Qed.

Lemma seeded_calls_agree (s now1 now2 : Z) :
  s <> 0%Z ->
  (forall a b, random a b (constructor (Some s) now1) = random a b (constructor (Some s) now2)) /\
  (forall a b, randomInt a b (constructor (Some s) now1) = randomInt a b (constructor (Some s) now2)) /\
  (forall T (l : list (Weighted T)),
      weightedChoice l (constructor (Some s) now1) = weightedChoice l (constructor (Some s) now2)) /\
  (forall b, rollRarity b (constructor (Some s) now1) = rollRarity b (constructor (Some s) now2)).
Proof. intros Hs. now rewrite !constructor_seeded. Qed.

(** C1 (fails at seed 0).  The constructor reads [seed || Date.now()], and
    0 is falsy: [new VoidRNG(0)] is seeded from the clock like
    [new VoidRNG()], so two generators built with the explicit seed 0 one
    millisecond apart already differ in their first [next()]. *)
Theorem C1_seed_zero_reads_clock :
  (forall now, constructor (Some 0%Z) now = constructor None now) /\
  nexts 1 (constructor (Some 0%Z) 1700000000000) = [9296 # 233280] /\
  nexts 1 (constructor (Some 0%Z) 1700000000001) = [18596 # 233280] /\
  nexts 1 (constructor (Some 0%Z) 1700000000000)
    <> nexts 1 (constructor (Some 0%Z) 1700000000001).
Proof.
  split; [reflexivity |].
  split; [vm_compute; reflexivity |].
  split; [vm_compute; reflexivity |].
  vm_compute. discriminate.
Qed.

End Generator.

(* ================================================================== *)
(** * rollRarity                                                        *)
(* ================================================================== *)

Section RollRarity.
Import Rng Spec.
Local Open Scope Q_scope.

Ltac ladder_step :=
  match goal with
  | |- context [JS.gtb ?a ?t] =>
      let E := fresh "E" in
      destruct (JS.gtb a t) eqn:E;
      [apply gtb_spec in E | apply gtb_false in E]
  end.

(** The seven doubles of the ladder, in ascending order. *)
Lemma ladder_thresholds :
  F64.fl 0.8 < F64.fl 0.95 /\ F64.fl 0.95 < F64.fl 0.99 /\
  F64.fl 0.99 < F64.fl 0.999 /\ F64.fl 0.999 < F64.fl 0.9999 /\
  F64.fl 0.9999 < F64.fl 0.999995 /\ F64.fl 0.999995 < F64.fl 0.999999.
Proof. vm_compute. repeat split. Qed.

(** C6.  [rollRarity] advances the generator by exactly one [next()], never
    looks at more than [min(roll + bonusChance, 0.999999)], the sum being
    that of doubles, and sends that value through the strict ladder of the
    doubles 0.999995, 0.9999, 0.999, 0.99, 0.95 and 0.8: each tier is the
    half-open interval above its threshold, so a value equal to a threshold
    lands in the tier below; the answer is one of the seven tiers. *)
Theorem C6_rollRarity_ladder (bonusChance : Q) (g : VoidRNG) :
  (Z.abs (seed g) < 2 ^ 1010)%Z ->
  snd (Rng64.rollRarity bonusChance g) = snd (Rng64.next g) /\
  adjustedRoll bonusChance g
    = Qmin (F64.add (fst (Rng64.next g)) bonusChance) (F64.fl 0.999999) /\
  adjustedRoll bonusChance g <= F64.fl 0.999999 /\
  (F64.fl 0.999995 < adjustedRoll bonusChance g
     <-> fst (Rng64.rollRarity bonusChance g) = "void_touched"%string) /\
  (F64.fl 0.9999 < adjustedRoll bonusChance g <= F64.fl 0.999995
     <-> fst (Rng64.rollRarity bonusChance g) = "mythic"%string) /\
  (F64.fl 0.999 < adjustedRoll bonusChance g <= F64.fl 0.9999
     <-> fst (Rng64.rollRarity bonusChance g) = "legendary"%string) /\
  (F64.fl 0.99 < adjustedRoll bonusChance g <= F64.fl 0.999
     <-> fst (Rng64.rollRarity bonusChance g) = "epic"%string) /\
  (F64.fl 0.95 < adjustedRoll bonusChance g <= F64.fl 0.99
     <-> fst (Rng64.rollRarity bonusChance g) = "rare"%string) /\
  (F64.fl 0.8 < adjustedRoll bonusChance g <= F64.fl 0.95
     <-> fst (Rng64.rollRarity bonusChance g) = "uncommon"%string) /\
  (adjustedRoll bonusChance g <= F64.fl 0.8
     <-> fst (Rng64.rollRarity bonusChance g) = "common"%string) /\
  In (fst (Rng64.rollRarity bonusChance g)) GameLogic.rarityOrder.
Proof.
  intros _.
  unfold Rng64.rollRarity, adjustedRoll, JS.min.
  destruct (Rng64.next g) as [roll g'] eqn:Hnext. cbn [fst snd].
  destruct ladder_thresholds as (T1 & T2 & T3 & T4 & T5 & T6).
  generalize dependent (F64.fl 0.8). intros t1.
  generalize dependent (F64.fl 0.95). intros t2.
  generalize dependent (F64.fl 0.99). intros t3.
  generalize dependent (F64.fl 0.999). intros t4.
  generalize dependent (F64.fl 0.9999). intros t5.
  generalize dependent (F64.fl 0.999995). intros t6.
  generalize dependent (F64.fl 0.999999). intros t7.
  intros T6 T5 T4 T3 T2 T1.
  set (a := Qmin (F64.add roll bonusChance) t7).
  assert (Ha : a <= t7) by apply Q.le_min_r.
  repeat ladder_step; cbn [fst snd];
    (split; [reflexivity |]); (split; [reflexivity |]); (split; [exact Ha |]);
    repeat split; intros; try discriminate; try lra;
    cbn; tauto.
Qed.

(** The draw that is exactly 0.8 falls in the tier below the threshold.
    With the bonus 0.199995 the exact sum is the threshold 0.999995, but the
    sum of the doubles lies above the double 0.999995: the answer is the top
    tier.  Likewise the draw 0.925 with the bonus 0.025 of rarity-odds
    level 51 gives a sum above the double 0.95. *)
Example rollRarity_at_threshold :
  fst (Rng64.next (mkVoidRNG 209267)) == F64.fl 0.8 /\
  fst (Rng64.rollRarity 0 (mkVoidRNG 209267)) = "common"%string /\
  fst (Rng64.rollRarity (F64.fl 0.199995) (mkVoidRNG 209267)) = "void_touched"%string /\
  fst (Rng64.rollRarity (F64.fl 0.2) (mkVoidRNG 209267)) = "void_touched"%string /\
  fst (Rng64.next (mkVoidRNG 121787)) == F64.fl 0.925 /\
  fst (Rng64.rollRarity (F64.mul 50 (F64.fl 0.0005)) (mkVoidRNG 121787)) = "rare"%string.
Proof. vm_compute. repeat split. Qed.

End RollRarity.

(** C6 from seed 1 with the bonus of rarity-odds level 2. *)
Lemma C6_rollRarity_ladder_witness :
  snd (Rng64.rollRarity (F64.fl 0.0005) (Rng.mkVoidRNG 1)) = snd (Rng64.next (Rng.mkVoidRNG 1)) /\
  Spec.adjustedRoll (F64.fl 0.0005) (Rng.mkVoidRNG 1)
    = Qmin (F64.add (fst (Rng64.next (Rng.mkVoidRNG 1))) (F64.fl 0.0005)) (F64.fl 0.999999) /\
  (Spec.adjustedRoll (F64.fl 0.0005) (Rng.mkVoidRNG 1) <= F64.fl 0.999999)%Q /\
  ((F64.fl 0.999995 < Spec.adjustedRoll (F64.fl 0.0005) (Rng.mkVoidRNG 1))%Q
     <-> fst (Rng64.rollRarity (F64.fl 0.0005) (Rng.mkVoidRNG 1)) = "void_touched"%string) /\
  ((F64.fl 0.9999 < Spec.adjustedRoll (F64.fl 0.0005) (Rng.mkVoidRNG 1) <= F64.fl 0.999995)%Q
     <-> fst (Rng64.rollRarity (F64.fl 0.0005) (Rng.mkVoidRNG 1)) = "mythic"%string) /\
  ((F64.fl 0.999 < Spec.adjustedRoll (F64.fl 0.0005) (Rng.mkVoidRNG 1) <= F64.fl 0.9999)%Q
     <-> fst (Rng64.rollRarity (F64.fl 0.0005) (Rng.mkVoidRNG 1)) = "legendary"%string) /\
  ((F64.fl 0.99 < Spec.adjustedRoll (F64.fl 0.0005) (Rng.mkVoidRNG 1) <= F64.fl 0.999)%Q
     <-> fst (Rng64.rollRarity (F64.fl 0.0005) (Rng.mkVoidRNG 1)) = "epic"%string) /\
  ((F64.fl 0.95 < Spec.adjustedRoll (F64.fl 0.0005) (Rng.mkVoidRNG 1) <= F64.fl 0.99)%Q
     <-> fst (Rng64.rollRarity (F64.fl 0.0005) (Rng.mkVoidRNG 1)) = "rare"%string) /\
  ((F64.fl 0.8 < Spec.adjustedRoll (F64.fl 0.0005) (Rng.mkVoidRNG 1) <= F64.fl 0.95)%Q
     <-> fst (Rng64.rollRarity (F64.fl 0.0005) (Rng.mkVoidRNG 1)) = "uncommon"%string) /\
  ((Spec.adjustedRoll (F64.fl 0.0005) (Rng.mkVoidRNG 1) <= F64.fl 0.8)%Q
     <-> fst (Rng64.rollRarity (F64.fl 0.0005) (Rng.mkVoidRNG 1)) = "common"%string) /\
  In (fst (Rng64.rollRarity (F64.fl 0.0005) (Rng.mkVoidRNG 1))) GameLogic.rarityOrder.
Proof.
  apply (C6_rollRarity_ladder (F64.fl 0.0005) (Rng.mkVoidRNG 1)).
  vm_compute. reflexivity.
Defined.

(* ================================================================== *)
(** * weightedChoice                                                    *)
(* ================================================================== *)

Section WeightedChoice.
Import Rng Spec.
Local Open Scope Q_scope.
Context {T : Type}.

Implicit Types (items : list (Weighted T)) (it : Weighted T).

Lemma add_ge (cur w : Q) :
  0 <= cur -> F64.fl cur == cur -> 0 <= w ->
  cur <= F64.add cur w /\ F64.fl (F64.add cur w) == F64.add cur w.
Proof.
  intros Hc Hd Hw. unfold F64.add. split.
  - rewrite <- Hd at 1. apply fl_le; lra.
  - apply fl_idem. lra.
Qed.

Lemma add_zero (cur w : Q) : F64.fl cur == cur -> w == 0 -> F64.add cur w == cur.
Proof.
  intros Hd Hw. unfold F64.add. rewrite <- Hd at 2. apply fl_comp. lra.
Qed.

Lemma runningTotal_ge items :
  nonNegative items ->
  forall cur, 0 <= cur -> F64.fl cur == cur ->
    cur <= runningTotal cur items /\ F64.fl (runningTotal cur items) == runningTotal cur items.
Proof.
  induction 1 as [| x rest Hx _ IH]; intros cur Hc Hd; cbn [runningTotal fold_left].
  - split; [lra | exact Hd].
  - destruct (add_ge cur (weight x) Hc Hd Hx) as [Hge Hd'].
    destruct (IH (F64.add cur (weight x)) ltac:(lra) Hd') as [H1 H2].
    split; [| exact H2]. unfold runningTotal in H1. lra.
Qed.

Lemma runningTotal_zero items :
  allZero items ->
  forall cur, F64.fl cur == cur -> runningTotal cur items == cur.
Proof.
  induction 1 as [| x rest Hx _ IH]; intros cur Hd; cbn [runningTotal fold_left].
  - reflexivity.
  - pose proof (add_zero cur (weight x) Hd Hx) as Hz.
    assert (Hd' : F64.fl (F64.add cur (weight x)) == F64.add cur (weight x)).
    { rewrite (fl_comp _ _ Hz), Hz. exact Hd. }
    specialize (IH _ Hd'). unfold runningTotal in IH. rewrite IH. exact Hz.
Qed.

Lemma fl_0 : F64.fl 0 == 0.
Proof. reflexivity. Qed.

Lemma totalWeight_double items :
  nonNegative items ->
  0 <= Rng64.totalWeight items /\
  F64.fl (Rng64.totalWeight items) == Rng64.totalWeight items.
Proof.
  intros Hnn. destruct (runningTotal_ge items Hnn 0 ltac:(lra) fl_0) as [H1 H2].
  split; assumption.
Qed.

(** The loop stops at the first entry when the target is not positive. *)
Lemma walk_first (r : Q) it items :
  r <= 0 -> 0 <= weight it -> Rng64.walk r 0 (it :: items) = Some it.
Proof.
  intros Hr Hw. cbn [Rng64.walk].
  destruct (JS.leb r (F64.add 0 (weight it))) eqn:E; [reflexivity |].
  apply not_true_iff_false in E. rewrite leb_spec in E.
  exfalso. apply E. unfold F64.add.
  pose proof (fl_nonneg (0 + weight it) ltac:(lra)). lra.
Qed.

(** Past a running total below the target, the loop can only stop at an
    entry of positive weight: a zero weight leaves the total as it is. *)
Lemma walk_positive (r : Q) items :
  nonNegative items ->
  forall cur it, 0 <= cur -> F64.fl cur == cur -> cur < r ->
                 Rng64.walk r cur items = Some it -> 0 < weight it.
Proof.
  induction 1 as [| x rest Hx _ IH]; intros cur it Hc Hd Hcur Hwalk; [discriminate |].
  cbn [Rng64.walk] in Hwalk.
  destruct (add_ge cur (weight x) Hc Hd Hx) as [Hge Hd'].
  destruct (JS.leb r (F64.add cur (weight x))) eqn:E.
  - apply leb_spec in E. injection Hwalk as <-.
    destruct (Qlt_le_dec 0 (weight x)) as [Hpos | Hneg]; [exact Hpos | exfalso].
    assert (Hz : weight x == 0) by lra.
    pose proof (add_zero cur (weight x) Hd Hz). lra.
  - apply not_true_iff_false in E. rewrite leb_spec in E.
    apply (IH (F64.add cur (weight x))); [lra | exact Hd' | lra | exact Hwalk].
Qed.

(** A target within the total is always met inside the list. *)
Lemma walk_finds (r : Q) items :
  forall cur, items <> [] -> r <= runningTotal cur items ->
              is_Some (Rng64.walk r cur items).
Proof.
  induction items as [| x rest IH]; intros cur Hne Hr; [contradiction |].
  cbn [Rng64.walk].
  destruct (JS.leb r (F64.add cur (weight x))) eqn:E; [eauto |].
  apply not_true_iff_false in E. rewrite leb_spec in E.
  cbn [runningTotal fold_left] in Hr.
  destruct rest as [| y rest'].
  - cbn [fold_left] in Hr. contradiction.
  - apply IH; [discriminate | exact Hr].
Qed.

(** The draw of the double generator: a number of [-1, 1] with the sign of
    the seed the call leaves. *)
Lemma next64_range (g : VoidRNG) :
  fst (Rng64.next g) <= 1 /\
  ((0 <= seed (snd (Rng64.next g)))%Z -> 0 <= fst (Rng64.next g)) /\
  ((seed (snd (Rng64.next g)) <= 0)%Z -> fst (Rng64.next g) <= 0).
Proof.
  pose proof (next_seed_range g) as Hs.
  unfold Rng64.next, next in *. cbn [fst snd seed] in *.
  set (s := JS.rem _ 233280) in *. unfold F64.div.
  assert (Hq : forall z : Z, inject_Z z / 233280 == inject_Z z * (1 # 233280)).
  { intros z. field. }
  assert (Hneg : (s <= 0)%Z -> F64.fl (inject_Z s / 233280) <= 0).
  { intros H. apply fl_nonpos. rewrite Hq. rewrite (Zle_Qle s 0) in H.
    change (inject_Z 0) with 0 in H. lra. }
  assert (Hpos : (0 <= s)%Z -> 0 <= F64.fl (inject_Z s / 233280) <= 1).
  { intros H.
    assert (H0 : 0 <= inject_Z s / 233280).
    { rewrite Hq. rewrite (Zle_Qle 0 s) in H. change (inject_Z 0) with 0 in H. lra. }
    split; [now apply fl_nonneg |].
    assert (H1 : inject_Z s <= inject_Z 233280) by (rewrite <- Zle_Qle; lia).
    change (inject_Z 233280) with 233280 in H1.
    apply Qle_trans with (F64.fl 1); [| now vm_compute].
    apply fl_le; [exact H0 |]. rewrite Hq. lra. }
  split; [| split].
  - destruct (Z.le_gt_cases 0 s) as [H | H]; [apply Hpos, H |].
    specialize (Hneg ltac:(lia)). lra.
  - intros H. apply Hpos, H.
  - exact Hneg.
Qed.

Lemma target_eq items g :
  target items g
  = F64.add 0 (F64.mul (fst (Rng64.next g)) (F64.sub (Rng64.totalWeight items) 0)).
Proof.
  unfold target, Rng64.random. now destruct (Rng64.next g).
Qed.

(** The target never exceeds the total; it is 0 when the draw is 0 and when
    the total is 0. *)
Lemma target_range items g :
  nonNegative items ->
  target items g <= Rng64.totalWeight items /\
  (fst (Rng64.next g) == 0 \/ Rng64.totalWeight items == 0 -> target items g == 0).
Proof.
  intros Hnn. rewrite target_eq.
  destruct (totalWeight_double items Hnn) as [Ht Hd].
  destruct (next64_range g) as (Hr1 & Hr0 & Hrneg).
  generalize dependent (fst (Rng64.next g)). intros r Hr1 Hr0 Hrneg.
  generalize dependent (Rng64.totalWeight items). intros t Ht Hd.
  unfold F64.add, F64.mul, F64.sub.
  assert (HT : F64.fl (t - 0) == t) by (rewrite <- Hd at 2; apply fl_comp; lra).
  set (T' := F64.fl (t - 0)) in *.
  split.
  - destruct (Z.le_gt_cases 0 (seed (snd (Rng64.next g)))) as [Hs | Hs].
    + specialize (Hr0 Hs).
      assert (Hp : 0 <= F64.fl (r * T')) by (apply fl_nonneg; nra).
      assert (Hp' : F64.fl (r * T') <= t).
      { rewrite <- Hd. apply fl_le; nra. }
      rewrite <- Hd. apply fl_le; lra.
    + specialize (Hrneg ltac:(lia)).
      assert (Hp : F64.fl (r * T') <= 0) by (apply fl_nonpos; nra).
      pose proof (fl_nonpos (0 + F64.fl (r * T')) ltac:(lra)). lra.
  - intros Hz.
    assert (Hp : r * T' == 0) by (destruct Hz as [Hz | Hz]; nra).
    assert (Hq : F64.fl (r * T') == 0) by (rewrite (fl_comp _ _ Hp); reflexivity).
    assert (Hs : 0 + F64.fl (r * T') == 0) by lra.
    rewrite (fl_comp _ _ Hs). reflexivity.
Qed.

Lemma weightedEntry_walk items g :
  fst (Rng64.weightedEntry items g) =
    match Rng64.walk (target items g) 0 items with
    | Some it => Some it
    | None => last items
    end.
Proof.
  unfold Rng64.weightedEntry, target.
  destruct (Rng64.random 0 (Rng64.totalWeight items) g) as [r g']. cbn [fst].
  now destruct (Rng64.walk r 0 items).
Qed.

(** C8 (amended).  On a non-empty list of non-negative weights with a finite
    total, [weightedChoice] always selects an entry of the list, reached by
    the loop, and
    - when the target [randomValue] is positive, the selected entry has
      positive weight;
    - when the target is 0 or less, it is the first entry, whatever its
      weight; that is the case when the draw is 0 and when all weights
      are 0. *)
Theorem C8_weightedChoice_selection items g :
  items <> [] ->
  nonNegative items ->
  Rng64.totalWeight items <= F64.max_value ->
  (Z.abs (seed g) < 2 ^ 1010)%Z ->
  exists it,
    fst (Rng64.weightedEntry items g) = Some it /\
    fst (Rng64.weightedChoice items g) = Some (item it) /\
    Rng64.walk (target items g) 0 items = Some it /\
    (0 < target items g -> 0 < weight it) /\
    (target items g <= 0 -> head items = Some it) /\
    (fst (Rng64.next g) == 0 \/ allZero items -> head items = Some it).
Proof.
  intros Hne Hnn _ _.
  assert (Hchoice : fst (Rng64.weightedChoice items g)
                    = item <$> fst (Rng64.weightedEntry items g)).
  { unfold Rng64.weightedChoice. now destruct (Rng64.weightedEntry items g). }
  rewrite Hchoice, weightedEntry_walk.
  destruct (target_range items g Hnn) as [Hle Hzero].
  destruct (walk_finds (target items g) items 0 Hne Hle) as [it Hit].
  exists it. rewrite Hit.
  assert (Hfirst : target items g <= 0 -> head items = Some it).
  { intros Hz. destruct items as [| x rest]; [contradiction |].
    cbn [head]. rewrite <- Hit. symmetry. apply walk_first; [exact Hz |].
    now inversion Hnn. }
  repeat split.
  - intros Hpos. apply (walk_positive (target items g) items Hnn 0 it); auto.
    + lra.
    + reflexivity.
  - exact Hfirst.
  - intros Hz. apply Hfirst.
    assert (Ht : target items g == 0); [| lra].
    apply Hzero. destruct Hz as [Hz | Hz]; [now left | right].
    apply (runningTotal_zero items Hz 0). reflexivity.
Qed.

End WeightedChoice.

(** C8 (amended) at the specification's example list, from seed 1. *)
Lemma C8_weightedChoice_selection_witness :
  exists it,
    fst (Rng64.weightedEntry Sample.weights (Rng.mkVoidRNG 1)) = Some it /\
    fst (Rng64.weightedChoice Sample.weights (Rng.mkVoidRNG 1)) = Some (Rng.item it) /\
    Rng64.walk (Spec.target Sample.weights (Rng.mkVoidRNG 1)) 0 Sample.weights = Some it /\
    ((0 < Spec.target Sample.weights (Rng.mkVoidRNG 1))%Q -> (0 < Rng.weight it)%Q) /\
    ((Spec.target Sample.weights (Rng.mkVoidRNG 1) <= 0)%Q ->
     head Sample.weights = Some it) /\
    ((fst (Rng64.next (Rng.mkVoidRNG 1)) == 0)%Q \/ Spec.allZero Sample.weights ->
     head Sample.weights = Some it).
Proof.
  apply (C8_weightedChoice_selection Sample.weights (Rng.mkVoidRNG 1)).
  - discriminate.
  - repeat constructor; cbn; discriminate.
  - vm_compute. discriminate.
  - vm_compute. reflexivity.
Defined.

(** C8 fails as specified.  With weights [A:0, B:1] and the state whose next
  draw is 0, the zero-weight entry [A] is selected although [B] has positive
  weight; with weights [A:0, B:0] the first entry [A] is selected, not the
  last. *)
Lemma C8_weightedChoice_counterexample : ~ Spec.weightedChoice_as_specified.
Proof.
  intros H.
  destruct (H string [Rng.mkWeighted "A"%string 0%Q; Rng.mkWeighted "B"%string 1%Q]
              (Rng.mkVoidRNG 22643) (Rng.mkWeighted "A"%string 0%Q))
    as [Hpos _].
  - discriminate.
  - repeat constructor; cbn; discriminate.
  - vm_compute. discriminate.
  - vm_compute. reflexivity.
  - vm_compute. reflexivity.
  - assert (Hlt : (0 < Rng.weight (Rng.mkWeighted "A"%string 0%Q))%Q).
    { apply Hpos. apply Exists_cons_tl, Exists_cons_hd. reflexivity. }
    cbn in Hlt. discriminate Hlt.
Qed.

Example weightedChoice_all_zero_returns_first :
  fst (Rng64.weightedChoice [Rng.mkWeighted "A"%string 0%Q; Rng.mkWeighted "B"%string 0%Q]
         (Rng.mkVoidRNG 1)) = Some "A"%string.
Proof. vm_compute. reflexivity. Qed.

Example weightedChoice_zero_draw :
  (fst (Rng64.next (Rng.mkVoidRNG 22643)) == 0)%Q /\
  fst (Rng64.weightedChoice [Rng.mkWeighted "A"%string 0%Q; Rng.mkWeighted "B"%string 1%Q]
         (Rng.mkVoidRNG 22643)) = Some "A"%string.
Proof. vm_compute. split; reflexivity. Qed.

(** A positive draw does not protect a zero-weight entry either: against
    the smallest double as the only positive weight, the product of the draw
    from seed 1 (about 0.25) and the total rounds to 0, and the first entry
    [A] is selected. *)
Example weightedChoice_underflow :
  (0 < fst (Rng64.next (Rng.mkVoidRNG 1)))%Q /\
  (Spec.target [Rng.mkWeighted "A"%string 0%Q;
                Rng.mkWeighted "B"%string (F64.pow2 (-1074))] (Rng.mkVoidRNG 1) == 0)%Q /\
  fst (Rng64.weightedChoice [Rng.mkWeighted "A"%string 0%Q;
                             Rng.mkWeighted "B"%string (F64.pow2 (-1074))]
         (Rng.mkVoidRNG 1)) = Some "A"%string.
Proof. vm_compute. repeat split. Qed.

(* ================================================================== *)
(** * The economy formulas                                              *)
(* ================================================================== *)

Section Formulas.
Import Schema GameLogic Spec.
Local Open Scope Q_scope.

(** The base rates, tier by tier in ascending rarity: 0.85 down to 0.10. *)
Lemma raritySuccessRates_table :
  map (fun r => raritySuccessRates !! r) rarityOrder =
    [Some 0.85; Some 0.75; Some 0.65; Some 0.50; Some 0.35; Some 0.20; Some 0.10].
Proof. reflexivity. Qed.



(** C9, server side: the three statistics follow the specified formulas. *)
Lemma server_getDeviceStats (gameState : GameState) :
  spinSpeed (getDeviceStats gameState) == spinSpeedFormula gameState /\
  rarityBonus (getDeviceStats gameState) == rarityBonusFormula gameState /\
  mutationSlots (getDeviceStats gameState) == mutationSlotsFormula gameState.
Proof. repeat split; reflexivity. Qed.

(** C9, client side: [spinSpeed] and [mutationSlots] follow the formulas;
    [rarityBonus] is computed with the factor 0.05, a hundred times the
    specified one. *)
Lemma client_getDeviceStats (gameState : GameState) :
  Client.spinSpeed (Client.getDeviceStats gameState) == spinSpeedFormula gameState /\
  Client.mutationSlots (Client.getDeviceStats gameState) == mutationSlotsFormula gameState /\
  Client.rarityBonus (Client.getDeviceStats gameState) == 100 * rarityBonusFormula gameState.
Proof.
  repeat split; try reflexivity.
  unfold Client.getDeviceStats, rarityBonusFormula. cbn [Client.rarityBonus]. lra.
Qed.

(** C9 (fails for the client).  At rarity-odds level 2 the server reports the
    specified bonus 0.0005, the same bonus [generateFragment] applies, while
    the client's [getDeviceStats] reports 0.05; the two agree at level 1
    only. *)
Theorem C9_client_rarityBonus_differs :
  rarityBonus (getDeviceStats Sample.playerOdds2) == 0.0005 /\
  rarityBonusFormula Sample.playerOdds2 == 0.0005 /\
  Client.rarityBonus (Client.getDeviceStats Sample.playerOdds2) == 0.05 /\
  ~ Client.rarityBonus (Client.getDeviceStats Sample.playerOdds2)
      == rarityBonusFormula Sample.playerOdds2 /\
  (forall gameState,
      Client.rarityBonus (Client.getDeviceStats gameState) == rarityBonusFormula gameState
      <-> rarityOddsLevel gameState = 1%Z).
Proof.
  split; [reflexivity |]. split; [reflexivity |]. split; [reflexivity |].
  split; [discriminate |].
  intros gameState. destruct (client_getDeviceStats gameState) as (_ & _ & H).
  rewrite H. unfold rarityBonusFormula.
  split.
  - intros Heq.
    assert (Hq : inject_Z (rarityOddsLevel gameState) == 1) by lra.
    change 1 with (inject_Z 1) in Hq.
    apply (inject_Z_injective (rarityOddsLevel gameState) 1%Z). exact Hq.
  - intros ->. reflexivity.
Qed.

End Formulas.


(* ================================================================== *)
(** * performMutation: the affixes of the result                        *)
(* ================================================================== *)

Section MutationAffixes.
Import Schema GameLogic Spec.
Local Open Scope Q_scope.

Lemma pushScaled_fold (component : Fragment) (mods : list Mod) :
  forall affs,
    type component = "component"%string ->
    fold_left (pushScaled component) mods affs = affs ++ map (affixOf component) mods.
Proof.
  intros affs Hty. revert affs.
  induction mods as [| md mods IH]; intros affs; cbn [fold_left map].
  - now rewrite app_nil_r.
  - rewrite IH. unfold pushScaled at 1, scaledAffix, affixOf at 2, JS.floor.
    destruct (decide (type component = "component"%string)); [| contradiction].
    now rewrite <- app_assoc.
Qed.

Lemma pushPlain_fold (component : Fragment) (mods : list Mod) :
  forall affs,
    type component <> "component"%string ->
    fold_left (pushPlain component) mods affs = affs ++ map (affixOf component) mods.
Proof.
  intros affs Hty. revert affs.
  induction mods as [| md mods IH]; intros affs; cbn [fold_left map].
  - now rewrite app_nil_r.
  - rewrite IH. unfold pushPlain at 1, plainAffix, affixOf at 2.
    destruct (decide (type component = "component"%string)); [contradiction |].
    now rewrite <- app_assoc.
Qed.

Lemma applyComponent_affixes (stats : gmap string Q) (affs : list Affix) (c : Fragment) :
  isComponent c ->
  snd (applyComponent (stats, affs) c) = affs ++ map (affixOf c) (implicitMods c).
Proof.
  intros Hc. unfold applyComponent.
  destruct (decide (type c = "component"%string)) as [Hty | Hty]; cbn [snd].
  - now apply pushScaled_fold.
  - destruct (decide (type c = "modifier"%string)) as [Hty' | Hty']; cbn [snd].
    + now apply pushPlain_fold.
    + destruct Hc; contradiction.
Qed.

Lemma forEach_affixes (components : list Fragment) :
  forall stats affs,
    Forall isComponent components ->
    snd (fold_left applyComponent components (stats, affs))
      = affs ++ mutationAffixes components.
Proof.
  induction components as [| c cs IH]; intros stats affs Hall; cbn [fold_left].
  - cbn. now rewrite app_nil_r.
  - inversion Hall as [| ? ? Hc Hcs]; subst.
    destruct (applyComponent (stats, affs) c) as [stats' affs'] eqn:E.
    rewrite IH by assumption.
    pose proof (applyComponent_affixes stats affs c Hc) as H.
    rewrite E in H. cbn [snd] in H. rewrite H.
    unfold mutationAffixes. cbn [flat_map]. now rewrite <- app_assoc.
Qed.

Lemma performMutation_affixes
    (baseFragment : Fragment) (components : list Fragment) (gameState : GameState) (now : Z) :
  affixes (performMutation baseFragment components gameState now)
    = snd (fold_left applyComponent components (baseStats baseFragment, affixes baseFragment)).
Proof.
  unfold performMutation.
  destruct (fold_left applyComponent components _) as [stats affs].
  destruct (Rng.random 0 1 _) as [draw g].
  now destruct (evolve draw _ _).
Qed.

Lemma mutationAffixes_length (components : list Fragment) :
  length (mutationAffixes components) = modCount components.
Proof.
  induction components as [| c cs IH]; [reflexivity |].
  unfold mutationAffixes in *. cbn [flat_map modCount fold_right].
  rewrite length_app, length_map, IH. reflexivity.
Qed.

(** [Math.floor(value * 0.7)] at some values: the double 0.7 lies below
    seven tenths, so that a multiple of ten can lose one to the floor. *)
Example scaled_values :
  scaled 10 = 7%Z /\ scaled 25 = 17%Z /\ scaled 70 = 49%Z /\
  scaled 90 = 62%Z /\ Qfloor (90 * 0.7) = 63%Z /\
  scaled 170 = 118%Z /\ scaled 180 = 125%Z /\
  affix_value (scaledAffix "Enhanced Void Iron" (mkMod "Void Affinity" 90))
    = inject_Z 62.
Proof. vm_compute. repeat split. Qed.

(** C7 (amended).  For components of type [component] or [modifier], the
    result's affixes are the base fragment's own affixes followed by one affix
    per implicit mod, components in input order and mods in their order; the
    value is [Math.floor(value * 0.7)], the floor of the double product, for
    a [component] and the value itself for a [modifier], each with source
    "mutation"; their number is the base's affix count plus the total mod
    count, and equals the total mod count when the base carries no affix. *)
Theorem C7_mutation_affixes
    (baseFragment : Fragment) (components : list Fragment) (gameState : GameState) (now : Z) :
  Forall isComponent components ->
  affixes (performMutation baseFragment components gameState now)
    = affixes baseFragment ++ mutationAffixes components /\
  length (affixes (performMutation baseFragment components gameState now))
    = (length (affixes baseFragment) + modCount components)%nat /\
  Forall (fun a => affix_source a = "mutation"%string) (mutationAffixes components) /\
  (affixes baseFragment = [] ->
   affixes (performMutation baseFragment components gameState now)
     = mutationAffixes components /\
   length (affixes (performMutation baseFragment components gameState now))
     = modCount components).
Proof.
  intros Hall.
  assert (Heq : affixes (performMutation baseFragment components gameState now)
                = affixes baseFragment ++ mutationAffixes components).
  { rewrite performMutation_affixes. now apply forEach_affixes. }
  split; [exact Heq |].
  split; [rewrite Heq, length_app, mutationAffixes_length; reflexivity |].
  split.
  - unfold mutationAffixes. apply Forall_forall. intros a Ha.
    apply list_elem_of_In, in_flat_map in Ha. destruct Ha as (c & _ & Ha).
    apply in_map_iff in Ha. destruct Ha as (md & <- & _). reflexivity.
  - intros Hnil. rewrite Heq, Hnil. cbn [app].
    split; [reflexivity | apply mutationAffixes_length].
Qed.

End MutationAffixes.

(** C7 (amended) at the sample sword with a component and a modifier. *)
Lemma C7_mutation_affixes_witness :
  Schema.affixes
      (GameLogic.performMutation Sample.sword [Sample.voidIron; Sample.essence]
         Sample.player 1700000000000)
    = Schema.affixes Sample.sword ++ Spec.mutationAffixes [Sample.voidIron; Sample.essence] /\
  length (Schema.affixes
            (GameLogic.performMutation Sample.sword [Sample.voidIron; Sample.essence]
               Sample.player 1700000000000))
    = (length (Schema.affixes Sample.sword)
       + Spec.modCount [Sample.voidIron; Sample.essence])%nat /\
  Forall (fun a => Schema.affix_source a = "mutation"%string)
    (Spec.mutationAffixes [Sample.voidIron; Sample.essence]) /\
  (Schema.affixes Sample.sword = [] ->
   Schema.affixes
       (GameLogic.performMutation Sample.sword [Sample.voidIron; Sample.essence]
          Sample.player 1700000000000)
     = Spec.mutationAffixes [Sample.voidIron; Sample.essence] /\
   length (Schema.affixes
             (GameLogic.performMutation Sample.sword [Sample.voidIron; Sample.essence]
                Sample.player 1700000000000))
     = Spec.modCount [Sample.voidIron; Sample.essence]).
Proof.
  apply (C7_mutation_affixes Sample.sword [Sample.voidIron; Sample.essence]
           Sample.player 1700000000000).
  constructor; [left; reflexivity |].
  constructor; [right; reflexivity |].
  constructor.
Defined.

(** The affixes of that result, spelled out. *)
Example mutation_affixes_sample :
  Schema.affixes
      (GameLogic.performMutation Sample.sword [Sample.voidIron; Sample.essence]
         Sample.player 1700000000000)
  = [ Schema.mkAffix "Enhanced Void Iron - Void Affinity" (inject_Z 7) "mutation";
      Schema.mkAffix "Enhanced Void Iron - Spin Speed Bonus" (inject_Z 17) "mutation";
      Schema.mkAffix "Essence of Haste - Increased Speed" 9%Q "mutation" ].
Proof. vm_compute. reflexivity. Qed.

(** C7 fails as specified.  The result of a first mutation is a base item
    carrying one affix; used as the base of a second mutation with one
    single-mod modifier, it yields two affixes, not one. *)
Lemma C7_mutation_affixes_counterexample : ~ Spec.mutation_affixes_as_specified.
Proof.
  intros H.
  destruct (H Sample.mutatedSword [Sample.essence] Sample.player 1700000000001)
    as [Hlen _].
  - reflexivity.
  - discriminate.
  - constructor; [right; reflexivity | constructor].
  - vm_compute in Hlen. discriminate Hlen.
Qed.

(* ================================================================== *)
(** * The mutation handler                                              *)
(* ================================================================== *)

Section MutateHandler.
Import Schema Routes Spec.

Lemma without_nil (l : list Fragment) : without [] l = l.
Proof.
  unfold without. induction l as [| f l IH]; [reflexivity |].
  rewrite filter_cons_True by apply not_elem_of_nil. now rewrite IH.
Qed.

Lemma without_cons (a : string) (ids : list string) (l : list Fragment) :
  without ids (filter (fun f => id f <> a) l) = without (a :: ids) l.
Proof.
  unfold without. induction l as [| f l IH]; [reflexivity |].
  destruct (decide (id f = a)) as [Ha | Ha].
  - rewrite (filter_cons_False (fun f => id f <> a)) by (intros H; exact (H Ha)).
    rewrite (filter_cons_False (fun f => id f ∉ a :: ids)); [exact IH |].
    rewrite Ha. intros H. apply H. left.
  - rewrite (filter_cons_True (fun f => id f <> a)) by exact Ha.
    destruct (decide (id f ∈ ids)) as [Hin | Hin].
    + rewrite !filter_cons_False; [exact IH | | tauto].
      intros H. apply H. now right.
    + rewrite !filter_cons_True; [now rewrite IH | | exact Hin].
      intros H. apply elem_of_cons in H. tauto.
Qed.

(** Deleting a list of ids one by one removes exactly the rows with one of
    those ids. *)
Lemma deleteFragment_fold (ids : list string) :
  forall w,
    fold_left (fun w fragmentId => deleteFragment fragmentId w) ids w
    = mkWorld (gameState w) (without ids (fragments w)) (listings w).
Proof.
  induction ids as [| a ids IH]; intros w; cbn [fold_left].
  - rewrite without_nil. now destruct w.
  - rewrite IH. unfold deleteFragment. cbn [gameState fragments listings].
    now rewrite without_cons.
Qed.

Lemma without_spec (ids : list string) (l : list Fragment) (f : Fragment) :
  f ∈ without ids l <-> f ∈ l /\ id f ∉ ids.
Proof. unfold without. rewrite list_elem_of_filter. tauto. Qed.

(** What the handler does with an accepted request. *)
Lemma mutate_accepted
    (req : MutationRequest) (mutationRng : Q) (now : Z) (newId : string) (w : World)
    (baseFragment : Fragment) (components : list Fragment) :
  accepted req w baseFragment components ->
  let cost := GameLogic.calculateMutationCost baseFragment components in
  let rate := GameLogic.calculateMutationSuccessRate baseFragment components (gameState w) in
  mutate req mutationRng now newId w =
    if JS.ltb mutationRng rate then
      (mkWorld (debit cost (gameState w))
         (without (consumedIds req) (fragments w)
            ++ [createdBy baseFragment components (gameState w) now newId])
         (listings w),
       MutateOk true (Some (createdBy baseFragment components (gameState w) now newId))
         (consumedIds req) cost (JS.round (rate * 100)))
    else
      (consumed req w baseFragment components,
       MutateOk false None (consumedIds req) cost (JS.round (rate * 100))).
Proof.
  intros (Hb & Hc & Hfind & Hty & Hres & Hlen & Hall & Hslots & Hflux) cost rate.
  unfold resolve in Hres. subst components. unfold mutate.
  rewrite (bool_decide_eq_false_2 _ Hb).
  rewrite bool_decide_eq_false_2 by (destruct (componentFragmentIds req); [contradiction | discriminate]).
  cbn [orb]. rewrite Hfind.
  rewrite bool_decide_eq_false_2 by tauto.
  rewrite bool_decide_eq_false_2 by (rewrite Hlen; tauto).
  rewrite bool_decide_eq_false_2.
  2:{ intros Hpos.
      destruct (filter _ _) as [| c l] eqn:Hf; [cbn in Hpos; lia |].
      assert (Hin : c ∈ c :: l) by left.
      rewrite <- Hf in Hin. apply list_elem_of_filter in Hin.
      destruct Hin as [[H1 H2] Hin].
      rewrite Forall_forall in Hall. destruct (Hall _ Hin); contradiction. }
  rewrite bool_decide_eq_false_2 by lia.
  rewrite bool_decide_eq_false_2 by (fold cost; lia).
  fold cost. fold rate.
  rewrite deleteFragment_fold.
  destruct (JS.ltb mutationRng rate); reflexivity.
Qed.

(** Every request is either rejected with the world untouched, or accepted. *)
Lemma mutate_cases
    (req : MutationRequest) (mutationRng : Q) (now : Z) (newId : string) (w : World) :
  (fst (mutate req mutationRng now newId w) = w /\
   exists status message,
     snd (mutate req mutationRng now newId w) = Error status message /\
     (400 <= status)%Z) \/
  (exists baseFragment components, accepted req w baseFragment components).
Proof.
  unfold mutate. cbv zeta.
  destruct (bool_decide (baseFragmentId req = ""%string)) eqn:E1;
    [left; cbn; eauto 6 with lia |].
  destruct (bool_decide (length (componentFragmentIds req) = 0%nat)) eqn:E2;
    [left; cbn; eauto 6 with lia |].
  cbn [orb].
  destruct (findFragment _ _) as [b |] eqn:Hfind; [| left; cbn; eauto 6 with lia].
  destruct (bool_decide (type b <> "base_item"%string)) eqn:E3;
    [left; cbn; eauto 6 with lia |].
  destruct (bool_decide (length (omap _ _) <> length _)) eqn:E4;
    [left; cbn; eauto 6 with lia |].
  destruct (bool_decide (0 < length (filter _ _))%nat) eqn:E5;
    [left; cbn; eauto 6 with lia |].
  destruct (bool_decide (_ < Z.of_nat _)%Z) eqn:E6;
    [left; cbn; eauto 6 with lia |].
  destruct (bool_decide (flux _ < _)%Z) eqn:E7;
    [left; cbn; eauto 6 with lia |].
  right. exists b, (resolve (componentFragmentIds req) w).
  apply bool_decide_eq_false in E1, E2, E3, E4, E5, E6, E7.
  unfold accepted, resolve.
  set (cs := omap _ _) in *.
  assert (Hne : componentFragmentIds req <> []).
  { intros Hnil. rewrite Hnil in E2. now apply E2. }
  assert (Hty : type b = "base_item"%string).
  { destruct (decide (type b = "base_item"%string)); tauto. }
  assert (Hall : Forall isComponent cs).
  { apply Forall_forall. intros c Hc. unfold isComponent.
    destruct (decide (type c = "component"%string)) as [| H1]; [tauto |].
    destruct (decide (type c = "modifier"%string)) as [| H2]; [tauto |].
    exfalso. apply E5.
    assert (Hin : c ∈ filter (fun f => type f <> "component"%string /\
                                       type f <> "modifier"%string) cs).
    { apply list_elem_of_filter. tauto. }
    destruct (filter _ cs); [inversion Hin | cbn; lia]. }
  repeat split; try assumption; lia.
Qed.

(** C3.  For a request that passes all preconditions, whatever the draw: the
    game state afterwards is the old one with the full cost debited from flux,
    the marketplace is untouched, and no row with the id of the base or of a
    listed component is left.  When the draw fails the world is exactly the
    old one with the debit and those deletions, and the response carries no
    result fragment; when it succeeds the only further change is the one new
    row. *)
Theorem C3_mutation_consumes
    (req : MutationRequest) (mutationRng : Q) (now : Z) (newId : string) (w : World)
    (baseFragment : Fragment) (components : list Fragment) :
  accepted req w baseFragment components ->
  newId ∉ consumedIds req ->
  gameState (fst (mutate req mutationRng now newId w))
    = debit (GameLogic.calculateMutationCost baseFragment components) (gameState w) /\
  flux (gameState (fst (mutate req mutationRng now newId w)))
    = (flux (gameState w) - GameLogic.calculateMutationCost baseFragment components)%Z /\
  listings (fst (mutate req mutationRng now newId w)) = listings w /\
  (forall f, f ∈ fragments (fst (mutate req mutationRng now newId w)) ->
             id f ∉ consumedIds req) /\
  (JS.ltb mutationRng
     (GameLogic.calculateMutationSuccessRate baseFragment components (gameState w)) = false ->
   fst (mutate req mutationRng now newId w) = consumed req w baseFragment components /\
   exists rate,
     snd (mutate req mutationRng now newId w)
       = MutateOk false None (consumedIds req)
           (GameLogic.calculateMutationCost baseFragment components) rate) /\
  (JS.ltb mutationRng
     (GameLogic.calculateMutationSuccessRate baseFragment components (gameState w)) = true ->
   fragments (fst (mutate req mutationRng now newId w))
     = fragments (consumed req w baseFragment components)
         ++ [createdBy baseFragment components (gameState w) now newId] /\
   exists rate,
     snd (mutate req mutationRng now newId w)
       = MutateOk true (Some (createdBy baseFragment components (gameState w) now newId))
           (consumedIds req)
           (GameLogic.calculateMutationCost baseFragment components) rate).
Proof.
  intros Hacc Hfresh.
  rewrite (mutate_accepted req mutationRng now newId w _ _ Hacc).
  destruct (JS.ltb mutationRng _) eqn:Hdraw; cbn [fst snd gameState listings fragments consumed].
  - repeat split; try discriminate; eauto.
    intros f Hf. apply elem_of_app in Hf. destruct Hf as [Hf | Hf].
    + now apply without_spec in Hf.
    + apply list_elem_of_singleton in Hf. subst f. exact Hfresh.
  - repeat split; try discriminate; eauto.
    intros f Hf. now apply without_spec in Hf.
Qed.

(** C4.  A request that violates a precondition (base not a [base_item], a
    listed component that is neither [component] nor [modifier], more
    components than [2 + mutationSlotsLevel], or flux below the cost) gets an
    error response and leaves the world as it was: flux, fragments and
    marketplace unchanged. *)
Theorem C4_mutation_rejected
    (req : MutationRequest) (mutationRng : Q) (now : Z) (newId : string) (w : World) :
  violates req w ->
  fst (mutate req mutationRng now newId w) = w /\
  exists status message,
    snd (mutate req mutationRng now newId w) = Error status message /\
    (400 <= status)%Z.
Proof.
  intros Hviol.
  destruct (mutate_cases req mutationRng now newId w) as [Hrej | (b & cs & Hacc)];
    [exact Hrej | exfalso].
  destruct Hacc as (_ & _ & Hfind & Hty & Hres & Hlen & Hall & Hslots & Hflux).
  destruct Hviol as [(b' & Hb' & Hty') | [(i & c & Hi & Hc & Hnot) | [Hmany | (b' & Hb' & _ & Hpoor)]]].
  - rewrite Hfind in Hb'. injection Hb' as <-. contradiction.
  - apply Hnot. rewrite Forall_forall in Hall. apply Hall.
    rewrite Hres. unfold resolve. apply list_elem_of_omap.
    exists i. split; [now apply list_elem_of_In | exact Hc].
  - lia.
  - rewrite Hfind in Hb'. injection Hb' as <-. rewrite <- Hres in Hpoor. lia.
Qed.

(** Whatever the request, a response other than an error means the request
    was accepted; an error means nothing changed. *)
Lemma mutate_error_unchanged
    (req : MutationRequest) (mutationRng : Q) (now : Z) (newId : string) (w : World)
    (status : Z) (message : string) :
  snd (mutate req mutationRng now newId w) = Error status message ->
  fst (mutate req mutationRng now newId w) = w.
Proof.
  intros Herr.
  destruct (mutate_cases req mutationRng now newId w) as [[Hrej _] | (b & cs & Hacc)];
    [exact Hrej |].
  rewrite (mutate_accepted req mutationRng now newId w _ _ Hacc) in Herr.
  destruct (JS.ltb _ _); discriminate Herr.
Qed.

End MutateHandler.

Lemma sample_accepted :
  Spec.accepted Sample.goodRequest Sample.world Sample.sword [Sample.voidIron; Sample.essence].
Proof.
  unfold Spec.accepted.
  split; [discriminate |]. split; [discriminate |].
  split; [reflexivity |]. split; [reflexivity |].
  split; [reflexivity |]. split; [reflexivity |].
  split; [constructor; [left; reflexivity |]; constructor; [right; reflexivity |]; constructor |].
  split; [vm_compute; discriminate |].
  vm_compute; discriminate.
Defined.

(** C3 at the sample request with a failing draw (0.99) and with a passing
    draw (0). *)
Lemma C3_mutation_consumes_witness :
  Schema.flux (Routes.gameState
     (fst (Routes.mutate Sample.goodRequest 0.99 1700000000000 "f-9" Sample.world)))
    = (1000 - 350)%Z /\
  Routes.fragments
     (fst (Routes.mutate Sample.goodRequest 0.99 1700000000000 "f-9" Sample.world))
    = [Sample.blueprint].
Proof.
  pose proof (C3_mutation_consumes Sample.goodRequest 0.99 1700000000000 "f-9" Sample.world
                Sample.sword [Sample.voidIron; Sample.essence] sample_accepted) as H.
  destruct H as (_ & Hflux & _ & _ & Hfail & _).
  - vm_compute. intros H. repeat (apply elem_of_cons in H; destruct H as [H | H]; [discriminate H |]).
    inversion H.
  - split.
    + rewrite Hflux. reflexivity.
    + destruct Hfail as [-> _]; reflexivity.
Defined.

(** C4 at the sample request that lists the blueprint. *)
Lemma C4_mutation_rejected_witness :
  fst (Routes.mutate Sample.badRequest 0 1700000000000 "f-9" Sample.world) = Sample.world /\
  exists status message,
    snd (Routes.mutate Sample.badRequest 0 1700000000000 "f-9" Sample.world)
      = Routes.Error status message /\ (400 <= status)%Z.
Proof.
  apply (C4_mutation_rejected Sample.badRequest 0 1700000000000 "f-9" Sample.world).
  right; left. exists "f-4"%string, Sample.blueprint.
  split; [left; reflexivity |]. split; [reflexivity |].
  intros [H | H]; discriminate H.
Defined.

(* ================================================================== *)
(** * The state invariant along every run                               *)
(* ================================================================== *)

Section Invariant.
Import Schema Routes Spec.

Ltac state_fields :=
  unfold invariant, consumed, debit, deleteFragment, updateGameState, updateMarketplaceListing,
    applyUpdates, createFragment;
  cbn [gameState fragments listings flux spinSpeedLevel rarityOddsLevel fluxCostLevel
       mutationSlotsLevel default u_flux u_totalSpins u_spinSpeedLevel u_rarityOddsLevel
       u_fluxCostLevel u_mutationSlotsLevel fst snd from_option];
  unfold Datatypes.id;
  (split; [| split; [| split; [| split]]]); try assumption; try lia.

Lemma shatterMultiplier_pos (r : string) :
  (0 < JS.or_default (GameLogic.shatterMultipliers !! r) 1)%Q.
Proof.
  unfold JS.or_default.
  destruct (GameLogic.shatterMultipliers !! r) as [q |] eqn:E; [| reflexivity].
  unfold GameLogic.shatterMultipliers in E.
  apply elem_of_list_to_map_2 in E.
  repeat (apply elem_of_cons in E; destruct E as [E | E];
          [injection E as -> ->; reflexivity |]).
  inversion E.
Qed.

(** Shattering never takes flux away. *)
Lemma calculateShatterValue_nonneg (f : Fragment) :
  0 <= quantity f -> 0 <= GameLogic.calculateShatterValue f.
Proof.
  intros Hq. unfold GameLogic.calculateShatterValue, JS.floor.
  change 0 with (Qfloor 0). apply Qfloor_resp_le.
  pose proof (shatterMultiplier_pos (rarity f)).
  assert (0 <= inject_Z (quantity f))%Q by (now rewrite <- (Zle_Qle 0)).
  nra.
Qed.

Lemma findFragment_Some (i : string) (l : list Fragment) (f : Fragment) :
  findFragment i l = Some f -> f ∈ l /\ id f = i.
Proof.
  unfold findFragment. intros H. apply find_some in H. destruct H as [Hin Hid].
  split; [now apply list_elem_of_In | now apply bool_decide_eq_true in Hid].
Qed.

Lemma getFragments_stored (gid : string) (w : World) (f : Fragment) :
  f ∈ getFragments gid w -> f ∈ fragments w.
Proof. unfold getFragments. rewrite list_elem_of_filter. tauto. Qed.

Lemma found_quantity (i : string) (w : World) (f : Fragment) :
  quantitiesOk w ->
  findFragment i (getFragments (gs_id (gameState w)) w) = Some f ->
  0 <= quantity f.
Proof.
  intros Hq Hf. apply findFragment_Some in Hf. destruct Hf as [Hin _].
  apply getFragments_stored in Hin.
  unfold quantitiesOk in Hq. rewrite Forall_forall in Hq. now apply Hq.
Qed.

Lemma quantities_filter (P : Fragment -> Prop) `{forall f, Decision (P f)}
    (l : list Fragment) :
  Forall (fun f => 0 <= quantity f) l -> Forall (fun f => 0 <= quantity f) (filter P l).
Proof.
  rewrite !Forall_forall. intros Hl f Hf.
  apply list_elem_of_filter in Hf. now apply Hl.
Qed.

Lemma deleteFragment_quantities (i : string) (w : World) :
  quantitiesOk w -> quantitiesOk (deleteFragment i w).
Proof.
  unfold quantitiesOk, deleteFragment. cbn [fragments].
  rewrite !Forall_forall. intros H f Hf.
  apply list_elem_of_filter in Hf. now apply H.
Qed.

Lemma spin_preserves (fragment : FragmentDraft) (newId : string) (w : World) :
  invariant (gameState w) /\ quantitiesOk w ->
  invariant (gameState (fst (spin fragment newId w))) /\
  quantitiesOk (fst (spin fragment newId w)).
Proof.
  intros [(Hf & H1 & H2 & H3 & H4) Hq]. unfold spin.
  destruct (bool_decide _) eqn:E; cbn [fst].
  - repeat split; assumption.
  - apply bool_decide_eq_false in E.
    split; [state_fields |].
    unfold quantitiesOk, updateGameState, createFragment. cbn [fragments fst snd].
    apply Forall_app. split; [exact Hq |]. constructor; [| constructor].
    cbn [quantity]. lia.
Qed.

Lemma shatter_preserves (paramId : string) (w : World) :
  invariant (gameState w) /\ quantitiesOk w ->
  invariant (gameState (fst (shatter paramId w))) /\
  quantitiesOk (fst (shatter paramId w)).
Proof.
  intros [(Hf & H1 & H2 & H3 & H4) Hq]. unfold shatter.
  destruct (findFragment _ _) as [f |] eqn:Hfind; cbn [fst].
  - pose proof (calculateShatterValue_nonneg f (found_quantity _ _ _ Hq Hfind)).
    split.
    + state_fields.
    + apply deleteFragment_quantities. exact Hq.
  - repeat split; assumption.
Qed.

Lemma sell_preserves (fragmentId : string) (w : World) :
  invariant (gameState w) /\ quantitiesOk w ->
  invariant (gameState (fst (sell fragmentId w))) /\
  quantitiesOk (fst (sell fragmentId w)).
Proof.
  intros [(Hf & H1 & H2 & H3 & H4) Hq]. unfold sell.
  destruct (bool_decide _); cbn [fst]; [repeat split; assumption |].
  destruct (findFragment _ _) as [f |] eqn:Hfind; cbn [fst];
    [| repeat split; assumption].
  destruct (List.find _ (listings w)) as [l |]; cbn [fst].
  - split.
    + state_fields.
    + unfold quantitiesOk, updateMarketplaceListing, deleteFragment, updateGameState.
      cbn [fragments]. apply quantities_filter. exact Hq.
  - split.
    + state_fields.
    + unfold quantitiesOk, deleteFragment, updateGameState.
      cbn [fragments]. apply quantities_filter. exact Hq.
Qed.

Lemma upgrade_preserves (upgradeType : string) (w : World) :
  invariant (gameState w) /\ quantitiesOk w ->
  invariant (gameState (fst (upgrade upgradeType w))) /\
  quantitiesOk (fst (upgrade upgradeType w)).
Proof.
  intros [(Hf & H1 & H2 & H3 & H4) Hq]. unfold upgrade.
  destruct (bool_decide _) eqn:E; cbn [fst]; [repeat split; assumption |].
  apply bool_decide_eq_false in E.
  repeat (destruct (decide _); [split; [state_fields | exact Hq] |]).
  cbn [fst]. repeat split; assumption.
Qed.

Lemma mutate_preserves
    (req : MutationRequest) (mutationRng : Q) (now : Z) (newId : string) (w : World) :
  invariant (gameState w) /\ quantitiesOk w ->
  invariant (gameState (fst (mutate req mutationRng now newId w))) /\
  quantitiesOk (fst (mutate req mutationRng now newId w)).
Proof.
  intros [(Hf & H1 & H2 & H3 & H4) Hq].
  destruct (mutate_cases req mutationRng now newId w) as [[-> _] | (b & cs & Hacc)];
    [repeat split; assumption |].
  rewrite (mutate_accepted req mutationRng now newId w _ _ Hacc).
  pose proof Hacc as (_ & _ & Hfind & _ & _ & _ & _ & _ & Hflux).
  assert (Hrest : Forall (fun f => 0 <= quantity f) (without (consumedIds req) (fragments w))).
  { unfold quantitiesOk in Hq. rewrite Forall_forall in Hq. apply Forall_forall.
    intros f Hin. apply without_spec in Hin. now apply Hq. }
  destruct (JS.ltb _ _); cbn [fst].
  - split.
    + state_fields.
    + unfold quantitiesOk. cbn [fragments].
      apply Forall_app. split; [exact Hrest |].
      constructor; [| constructor].
      unfold createdBy, GameLogic.performMutation. cbn [quantity].
      destruct (fold_left _ _ _), (Rng.random _ _ _), (GameLogic.evolve _ _ _).
      cbn [quantity]. exact (found_quantity _ _ _ Hq Hfind).
  - split.
    + state_fields.
    + exact Hrest.
Qed.

Lemma step_preserves (w w' : World) :
  step w w' ->
  invariant (gameState w) /\ quantitiesOk w ->
  invariant (gameState w') /\ quantitiesOk w'.
Proof.
  intros [fragment newId | paramId | fragmentId | upgradeType | req mutationRng now newId].
  - apply spin_preserves.
  - apply shatter_preserves.
  - apply sell_preserves.
  - apply upgrade_preserves.
  - apply mutate_preserves.
Qed.

Lemma reachable_stable (w : World) :
  reachable w -> invariant (gameState w) /\ quantitiesOk w.
Proof.
  induction 1 as [gsId user market | w w' _ IH Hstep].
  - split; [unfold invariant; cbn; lia | constructor].
  - exact (step_preserves w w' Hstep IH).
Qed.

(** C2.  In every world reachable from a fresh game state by spin, shatter,
    sell, upgrade and mutate requests, flux is non-negative and the four
    upgrade levels are at least 1. *)
Theorem C2_invariant_reachable (w : World) :
  reachable w ->
  0 <= flux (gameState w) /\
  1 <= spinSpeedLevel (gameState w) /\
  1 <= rarityOddsLevel (gameState w) /\
  1 <= fluxCostLevel (gameState w) /\
  1 <= mutationSlotsLevel (gameState w).
Proof. intros H. exact (proj1 (reachable_stable w H)). Qed.

End Invariant.

(** C2 at the world reached by one spin and one shatter: 1000 - 25 + 5. *)
Lemma C2_invariant_reachable_witness :
  0 <= Schema.flux (Routes.gameState Sample.afterSpinAndShatter) /\
  1 <= Schema.spinSpeedLevel (Routes.gameState Sample.afterSpinAndShatter) /\
  1 <= Schema.rarityOddsLevel (Routes.gameState Sample.afterSpinAndShatter) /\
  1 <= Schema.fluxCostLevel (Routes.gameState Sample.afterSpinAndShatter) /\
  1 <= Schema.mutationSlotsLevel (Routes.gameState Sample.afterSpinAndShatter).
Proof.
  apply (C2_invariant_reachable Sample.afterSpinAndShatter).
  unfold Sample.afterSpinAndShatter.
  eapply Routes.reachable_step; [| apply Routes.step_shatter].
  eapply Routes.reachable_step; [| apply Routes.step_spin].
  apply Routes.reachable_fresh.
Defined.

Example afterSpinAndShatter_flux :
  Schema.flux (Routes.gameState Sample.afterSpinAndShatter) = 980.
Proof. reflexivity. Qed.

(* ================================================================== *)
(** * performMutation leaves its arguments alone                        *)
(* ================================================================== *)

Section HeapBasics.
Import Schema Heap.

Lemma run_alloc {B} (o : Obj) (k : loc -> M B) (h : list Obj) :
  bind (alloc o) k h = k (length h) (h ++ [o]).
Proof. reflexivity. Qed.

Lemma run_store {B} (l : loc) (o : Obj) (k : unit -> M B) (h : list Obj) :
  (l < length h)%nat -> bind (store l o) k h = k tt (<[l := o]> h).
Proof.
  intros Hl. unfold bind, store. now destruct (decide (l < length h)%nat).
Qed.

Lemma run_loadFragment {B} (l : loc) (o : FragmentObj) (k : FragmentObj -> M B)
    (h : list Obj) :
  h !! l = Some (OFragment o) -> bind (loadFragment l) k h = k o h.
Proof. intros H. cbv [bind loadFragment load]. now rewrite H. Qed.

Lemma run_loadStats {B} (l : loc) (m : gmap string Q) (k : gmap string Q -> M B)
    (h : list Obj) :
  h !! l = Some (OStats m) -> bind (loadStats l) k h = k m h.
Proof. intros H. cbv [bind loadStats load]. now rewrite H. Qed.

Lemma run_loadArray {B} (l : loc) (e : list loc) (k : list loc -> M B) (h : list Obj) :
  h !! l = Some (OArray e) -> bind (loadArray l) k h = k e h.
Proof. intros H. cbv [bind loadArray load]. now rewrite H. Qed.

Lemma run_loadMod {B} (l : loc) (md : Mod) (k : Mod -> M B) (h : list Obj) :
  h !! l = Some (OMod md) -> bind (loadMod l) k h = k md h.
Proof. intros H. cbv [bind loadMod load]. now rewrite H. Qed.

Lemma run_bind_Some {A B} (m : M A) (k : A -> M B) (h h' : list Obj) (a : A) :
  m h = Some (a, h') -> bind m k h = k a h'.
Proof. intros H. unfold bind. now rewrite H. Qed.

Lemma preserved_lookup (h h' : list Obj) (l : loc) (o : Obj) :
  preserved h h' -> h !! l = Some o -> h' !! l = Some o.
Proof.
  intros Hp Hl. rewrite Hp; [exact Hl |]. now apply lookup_lt_Some in Hl.
Qed.

Lemma preserved_refl (h : list Obj) : preserved h h.
Proof. now intros l _. Qed.

Lemma holdsMods_preserved (h h' : list Obj) (refs : list loc) (mds : list Mod) :
  preserved h h' -> holdsMods h refs mds -> holdsMods h' refs mds.
Proof.
  intros Hp H. unfold holdsMods in *.
  induction H; constructor; eauto using preserved_lookup.
Qed.

Lemma holdsAffixes_preserved (h h' : list Obj) (refs : list loc) (affs : list Affix) :
  preserved h h' -> holdsAffixes h refs affs -> holdsAffixes h' refs affs.
Proof.
  intros Hp H. unfold holdsAffixes in *.
  induction H; constructor; eauto using preserved_lookup.
Qed.

Lemma holdsMods_read (h : list Obj) (refs : list loc) (mds : list Mod) :
  holdsMods h refs mds <-> mapM (readMod h) refs = Some mds.
Proof.
  rewrite mapM_Some. unfold holdsMods, readMod.
  split; intros H; induction H as [| r md refs mds Hr _ IH]; constructor; try exact IH.
  - now rewrite Hr.
  - destruct (h !! r) as [[] |]; congruence.
Qed.

Lemma holdsAffixes_read (h : list Obj) (refs : list loc) (affs : list Affix) :
  holdsAffixes h refs affs <-> mapM (readAffix h) refs = Some affs.
Proof.
  rewrite mapM_Some. unfold holdsAffixes, readAffix.
  split; intros H; induction H as [| r a refs affs Hr _ IH]; constructor; try exact IH.
  - now rewrite Hr.
  - destruct (h !! r) as [[] |]; congruence.
Qed.

(** [readFragment] succeeds exactly on represented fragments. *)
Lemma readFragment_represents (h : list Obj) (l : loc) (f : Fragment) :
  readFragment h l = Some f <->
  exists o modRefs affixRefs, represents h l o modRefs affixRefs f.
Proof.
  unfold readFragment, represents, readStats, readArray. split.
  - intros H.
    destruct (h !! l) as [[o | | | |] |] eqn:Hl; try discriminate.
    destruct (h !! o_baseStats o) as [[| stats | | |] |] eqn:Hs; try discriminate.
    cbn in H.
    destruct (h !! o_implicitMods o) as [[| | modRefs | |] |] eqn:Hm; try discriminate.
    cbn in H.
    destruct (mapM (readMod h) modRefs) as [mods |] eqn:Hmods; try discriminate.
    cbn in H.
    destruct (h !! o_affixes o) as [[| | affixRefs | |] |] eqn:Ha; try discriminate.
    cbn in H.
    destruct (mapM (readAffix h) affixRefs) as [affs |] eqn:Haffs; try discriminate.
    cbn in H. injection H as <-.
    exists o, modRefs, affixRefs. cbn.
    apply holdsMods_read in Hmods. apply holdsAffixes_read in Haffs.
    repeat split; assumption.
  - intros (o & modRefs & affixRefs & Hl & Hs & Hm & Hmods & Ha & Haffs & Hf).
    apply holdsMods_read in Hmods. apply holdsAffixes_read in Haffs.
    rewrite Hl, Hs. cbn. rewrite Hm. cbn. rewrite Hmods. cbn.
    rewrite Ha. cbn. rewrite Haffs. cbn. now rewrite Hf.
Qed.

Lemma represents_preserved (h h' : list Obj) (l : loc) (o : FragmentObj)
    (modRefs affixRefs : list loc) (f : Fragment) :
  preserved h h' ->
  represents h l o modRefs affixRefs f -> represents h' l o modRefs affixRefs f.
Proof.
  intros Hp (Hl & Hs & Hm & Hmods & Ha & Haffs & Hf).
  repeat split;
    eauto using preserved_lookup, holdsMods_preserved, holdsAffixes_preserved.
Qed.

(** A fragment that can be read from [h] reads the same from any heap that
    preserves [h]. *)
Lemma readFragment_preserved (h h' : list Obj) (l : loc) (f : Fragment) :
  preserved h h' -> readFragment h l = Some f -> readFragment h' l = Some f.
Proof.
  intros Hp H. apply readFragment_represents in H.
  destruct H as (o & modRefs & affixRefs & H).
  apply readFragment_represents. eauto using represents_preserved.
Qed.

Lemma mapM_readFragment_preserved (h h' : list Obj) (ls : list loc) (fs : list Fragment) :
  preserved h h' ->
  mapM (readFragment h) ls = Some fs -> mapM (readFragment h') ls = Some fs.
Proof.
  intros Hp. rewrite !mapM_Some. intros H.
  induction H; constructor; eauto using readFragment_preserved.
Qed.

End HeapBasics.

Section HeapLoop.
Import Schema Heap.

(** [h0] is the heap at the call, [h1] the heap when the loop starts;
    [affixes] and [stats] were allocated in between. *)
Variables (h0 h1 : list Obj) (affixes stats : loc).
Hypothesis kept : preserved h0 h1.
Hypothesis distinct : affixes <> stats.
Hypothesis affixes_fresh : (length h0 <= affixes)%nat.
Hypothesis stats_fresh : (length h0 <= stats)%nat.

Lemma loopInv_start (m : gmap string Q) (refs : list loc) (affs : list Affix) :
  h1 !! stats = Some (OStats m) ->
  h1 !! affixes = Some (OArray refs) ->
  holdsAffixes h1 refs affs ->
  loopInv h1 affixes stats h1 m affs.
Proof. intros Hs Ha Hr. split; [reflexivity | eauto]. Qed.

(** During the loop every object of [h0] is where it was. *)
Lemma loopInv_old (h : list Obj) (m : gmap string Q) (affs : list Affix)
    (l : loc) (o : Obj) :
  loopInv h1 affixes stats h m affs -> h0 !! l = Some o -> h !! l = Some o.
Proof.
  intros (Hoff & _) Hl.
  pose proof (lookup_lt_Some _ _ _ Hl) as Hlt.
  pose proof (preserved_lookup _ _ _ _ kept Hl) as Hl1.
  rewrite Hoff; [exact Hl1 | now apply lookup_lt_Some in Hl1 | lia | lia].
Qed.

Lemma loopInv_preserved (h : list Obj) (m : gmap string Q) (affs : list Affix) :
  loopInv h1 affixes stats h m affs -> preserved h0 h.
Proof.
  intros Hinv l Hl.
  destruct (h0 !! l) as [o |] eqn:E.
  - eauto using loopInv_old.
  - apply lookup_ge_None in E. lia.
Qed.

(** One [push]: a new affix object, and [affixes] one reference longer. *)
Lemma push_run (literal : Mod -> Affix) (h : list Obj) (m : gmap string Q)
    (affs : list Affix) (mr : loc) (md : Mod) :
  loopInv h1 affixes stats h m affs ->
  h0 !! mr = Some (OMod md) ->
  exists h',
    push literal affixes mr h = Some (tt, h') /\
    loopInv h1 affixes stats h' m (affs ++ [literal md]).
Proof.
  intros Hinv Hmr.
  pose proof (loopInv_old _ _ _ _ _ Hinv Hmr) as Hmr'.
  destruct Hinv as (Hoff & Hstats & refs & Harr & Hrefs).
  assert (Hlt : (affixes < length h)%nat) by (now apply lookup_lt_Some in Harr).
  assert (Hlt' : (stats < length h)%nat) by (now apply lookup_lt_Some in Hstats).
  exists (<[affixes := OArray (refs ++ [length h])]> (h ++ [OAffix (literal md)])).
  split.
  - unfold push.
    rewrite (run_loadMod _ _ _ _ Hmr'), run_alloc.
    rewrite (run_loadArray affixes refs) by (now rewrite lookup_app_l).
    unfold store. rewrite length_app. cbn [length].
    destruct (decide (affixes < length h + 1)%nat); [reflexivity | lia].
  - split; [| split].
    + intros l Hl Ha Hs.
      rewrite list_lookup_insert_ne by congruence.
      rewrite <- (Hoff l Hl Ha Hs). apply lookup_app_l.
      destruct (h !! l) eqn:E; [now apply lookup_lt_Some in E |].
      rewrite (Hoff l Hl Ha Hs) in E. apply lookup_ge_None in E. lia.
    + rewrite list_lookup_insert_ne by congruence.
      now rewrite lookup_app_l.
    + exists (refs ++ [length h]). split.
      * apply list_lookup_insert_eq. rewrite length_app. lia.
      * unfold holdsAffixes in *. apply Forall2_app.
        -- eapply Forall2_impl; [exact Hrefs |]. intros r a Hr. cbn in Hr.
           rewrite list_lookup_insert_ne by congruence.
           rewrite lookup_app_l; [exact Hr | now apply lookup_lt_Some in Hr].
        -- constructor; [| constructor].
           rewrite list_lookup_insert_ne by lia.
           now rewrite lookup_app_r, Nat.sub_diag.
Qed.

(** The [implicitMods.forEach] loop of either branch. *)
Lemma pushes_run (literal : Mod -> Affix) (mrs : list loc) (mds : list Mod) :
  holdsMods h0 mrs mds ->
  forall h m affs,
    loopInv h1 affixes stats h m affs ->
    exists h',
      forEach (push literal affixes) mrs h = Some (tt, h') /\
      loopInv h1 affixes stats h' m (affs ++ map literal mds).
Proof.
  unfold holdsMods.
  induction 1 as [| mr md mrs mds Hmr _ IH]; intros h m affs Hinv.
  - exists h. cbn [forEach map]. rewrite app_nil_r. split; [reflexivity | exact Hinv].
  - destruct (push_run literal h m affs mr md Hinv Hmr) as (h' & Hrun & Hinv').
    destruct (IH h' m _ Hinv') as (h'' & Hrun' & Hinv'').
    exists h''. cbn [forEach map].
    rewrite (run_bind_Some _ _ _ _ _ Hrun), Hrun'.
    split; [reflexivity |]. now rewrite <- app_assoc in Hinv''.
Qed.

Lemma fold_push (literal : Mod -> Affix) (mds : list Mod) :
  forall affs,
    fold_left (fun acc md => acc ++ [literal md]) mds affs = affs ++ map literal mds.
Proof.
  induction mds as [| md mds IH]; intros affs; cbn [fold_left map].
  - now rewrite app_nil_r.
  - now rewrite IH, <- app_assoc.
Qed.

(** One key of the [Object.keys] loop: at most one store, to [stats]. *)
Lemma enhance_run (h : list Obj) (m : gmap string Q) (affs : list Affix)
    (kv : string * Q) :
  loopInv h1 affixes stats h m affs ->
  exists h',
    enhance stats kv h = Some (tt, h') /\
    loopInv h1 affixes stats h' (GameLogic.enhanceStat (fst kv) (snd kv) m) affs.
Proof.
  intros Hinv. pose proof Hinv as (Hoff & Hstats & refs & Harr & Hrefs).
  assert (Hlt : (stats < length h)%nat) by (now apply lookup_lt_Some in Hstats).
  unfold enhance, GameLogic.enhanceStat.
  rewrite (run_loadStats _ _ _ _ Hstats).
  destruct (m !! fst kv) as [old |]; [| exists h; split; [reflexivity | exact Hinv]].
  eexists. split.
  - unfold store. destruct (decide (stats < length h)%nat); [reflexivity | contradiction].
  - split; [| split].
    + intros l Hl Ha Hs. rewrite list_lookup_insert_ne by congruence. now apply Hoff.
    + now apply list_lookup_insert_eq.
    + exists refs. split.
      * now rewrite list_lookup_insert_ne.
      * unfold holdsAffixes in *. eapply Forall2_impl; [exact Hrefs |].
        intros r a Hr. cbv beta in Hr. rewrite list_lookup_insert_ne; [exact Hr |].
        intros E. rewrite <- E in Hr.
        assert (X : Some (OStats m) = Some (OAffix a)).
        { transitivity (h !! stats); [symmetry; exact Hstats | exact Hr]. }
        discriminate X.
Qed.

(** The whole [Object.keys] loop. *)
Lemma enhances_run (kvs : list (string * Q)) :
  forall h m affs,
    loopInv h1 affixes stats h m affs ->
    exists h',
      forEach (enhance stats) kvs h = Some (tt, h') /\
      loopInv h1 affixes stats h'
        (fold_left (fun stats kv => GameLogic.enhanceStat (fst kv) (snd kv) stats) kvs m)
        affs.
Proof.
  induction kvs as [| kv kvs IH]; intros h m affs Hinv.
  - exists h. split; [reflexivity | exact Hinv].
  - destruct (enhance_run h m affs kv Hinv) as (h' & Hrun & Hinv').
    destruct (IH h' _ affs Hinv') as (h'' & Hrun' & Hinv'').
    exists h''. cbn [forEach fold_left].
    rewrite (run_bind_Some _ _ _ _ _ Hrun), Hrun'.
    split; [reflexivity | exact Hinv''].
Qed.

(** One iteration of [components.forEach]: the heap computation ends, and the
    two containers then hold what the value-level iteration computes. *)
Lemma applyComponent_run (lc : loc) (c : Fragment) (h : list Obj)
    (m : gmap string Q) (affs : list Affix) :
  readFragment h0 lc = Some c ->
  loopInv h1 affixes stats h m affs ->
  exists h',
    Heap.applyComponent stats affixes lc h = Some (tt, h') /\
    loopInv h1 affixes stats h'
      (fst (GameLogic.applyComponent (m, affs) c))
      (snd (GameLogic.applyComponent (m, affs) c)).
Proof.
  intros Hc Hinv.
  apply readFragment_represents in Hc.
  destruct Hc as (o & modRefs & affixRefs & Hl & Hs & Hm & Hmods & Ha & Haffs & Hval).
  assert (Hty : type c = o_type o) by (rewrite Hval; reflexivity).
  assert (Hnm : name c = o_name o) by (rewrite Hval; reflexivity).
  unfold Heap.applyComponent, GameLogic.applyComponent.
  rewrite (run_loadFragment _ _ _ _ (loopInv_old _ _ _ _ _ Hinv Hl)).
  rewrite <- Hty, <- Hnm.
  destruct (decide (type c = "component"%string)) as [Hcomp | Hcomp].
  - rewrite (run_loadStats _ _ _ _ (loopInv_old _ _ _ _ _ Hinv Hs)).
    destruct (enhances_run (map_to_list (baseStats c)) h m affs Hinv)
      as (h' & Hkeys & Hinv').
    rewrite (run_bind_Some _ _ _ _ _ Hkeys).
    rewrite (run_loadArray _ _ _ _ (loopInv_old _ _ _ _ _ Hinv' Hm)).
    destruct (pushes_run (GameLogic.scaledAffix (name c)) modRefs _ Hmods h' _ affs Hinv')
      as (h'' & Hrun & Hinv'').
    exists h''. split; [exact Hrun |]. cbn [fst snd].
    unfold GameLogic.pushScaled. rewrite fold_push. exact Hinv''.
  - destruct (decide (type c = "modifier"%string)) as [Hmod | Hmod].
    + rewrite (run_loadArray _ _ _ _ (loopInv_old _ _ _ _ _ Hinv Hm)).
      destruct (pushes_run (GameLogic.plainAffix (name c)) modRefs _ Hmods h m affs Hinv)
        as (h'' & Hrun & Hinv'').
      exists h''. split; [exact Hrun |]. cbn [fst snd].
      unfold GameLogic.pushPlain. now rewrite fold_push.
    + exists h. split; [reflexivity | exact Hinv].
Qed.

(** The whole [components.forEach] loop. *)
Lemma components_run (lcs : list loc) (cs : list Fragment) :
  Forall2 (fun l c => readFragment h0 l = Some c) lcs cs ->
  forall h m affs,
    loopInv h1 affixes stats h m affs ->
    exists h',
      forEach (Heap.applyComponent stats affixes) lcs h = Some (tt, h') /\
      loopInv h1 affixes stats h'
        (fst (fold_left GameLogic.applyComponent cs (m, affs)))
        (snd (fold_left GameLogic.applyComponent cs (m, affs))).
Proof.
  induction 1 as [| lc c lcs cs Hc _ IH]; intros h m affs Hinv.
  - exists h. split; [reflexivity | exact Hinv].
  - destruct (applyComponent_run lc c h m affs Hc Hinv) as (h' & Hrun & Hinv').
    destruct (IH h' _ _ Hinv') as (h'' & Hrun' & Hinv'').
    exists h''. cbn [forEach fold_left].
    rewrite (run_bind_Some _ _ _ _ _ Hrun), Hrun'.
    split; [reflexivity |].
    now destruct (GameLogic.applyComponent (m, affs) c).
Qed.

End HeapLoop.

Section HeapResult.
Import Schema Heap.

Lemma setName_setRarity_id (o : FragmentObj) :
  setName (o_name o) (setRarity (o_rarity o) o) = o.
Proof. now destruct o. Qed.

(** The rarity-upgrade block writes the result object only, and leaves in it
    the rarity and name the value-level block computes. *)
Lemma evolve_run (draw : Q) (lf : loc) (h : list Obj) (o : FragmentObj) :
  h !! lf = Some (OFragment o) ->
  exists h',
    Heap.evolve draw lf h = Some (tt, h') /\
    (forall l, l <> lf -> h' !! l = h !! l) /\
    h' !! lf =
      Some (OFragment
              (setName (snd (GameLogic.evolve draw (o_rarity o) (o_name o)))
                 (setRarity (fst (GameLogic.evolve draw (o_rarity o) (o_name o))) o))).
Proof.
  intros Hlf.
  assert (Hlt : (lf < length h)%nat) by (now apply lookup_lt_Some in Hlf).
  assert (Hsame : exists h', ret tt h = Some (tt, h') /\
                    (forall l, l <> lf -> h' !! l = h !! l) /\
                    h' !! lf = Some (OFragment (setName (o_name o) (setRarity (o_rarity o) o)))).
  { exists h. rewrite setName_setRarity_id. auto. }
  unfold Heap.evolve, GameLogic.evolve.
  destruct (JS.ltb draw 0.1); [| exact Hsame].
  rewrite (run_loadFragment _ _ _ _ Hlf).
  destruct (GameLogic.indexOf (o_rarity o) GameLogic.rarityOrder) as [i |];
    [| exact Hsame].
  destruct (i <? length GameLogic.rarityOrder - 1)%nat; [| exact Hsame].
  cbn [fst snd].
  set (r := nth (i + 1) GameLogic.rarityOrder ""%string).
  rewrite run_store by exact Hlt.
  rewrite (run_loadFragment lf (setRarity r o))
    by (now apply list_lookup_insert_eq).
  unfold store. rewrite length_insert.
  destruct (decide (lf < length h)%nat) as [_ | Hge]; [| contradiction].
  eexists. split; [reflexivity |]. split.
  - intros l Hl. now rewrite !list_lookup_insert_ne by congruence.
  - rewrite list_lookup_insert_eq by (now rewrite length_insert). reflexivity.
Qed.

Lemma lookup_snoc (h : list Obj) (o : Obj) : (h ++ [o]) !! length h = Some o.
Proof. now rewrite lookup_app_r, Nat.sub_diag. Qed.

Lemma preserved_snoc (h0 h : list Obj) (o : Obj) :
  preserved h0 h -> preserved h0 (h ++ [o]).
Proof.
  intros Hp l Hl. rewrite <- (Hp l Hl). apply lookup_app_l.
  destruct (h !! l) eqn:E; [now apply lookup_lt_Some in E |].
  rewrite (Hp l Hl) in E. apply lookup_ge_None in E. lia.
Qed.

(** C10.  Run on references to a base fragment and to components that read
    as the values [b] and [cs], [performMutation] returns; every object that
    existed before the call is unchanged afterwards, so the base and the
    components read as before; the result object and its [baseStats],
    [implicitMods] and [affixes] containers are new objects; and the result
    reads as the value-level [performMutation b cs]. *)
Theorem C10_performMutation_frame
    (h : list Obj) (baseFragment : loc) (components : list loc)
    (b : Fragment) (cs : list Fragment) (gameState : GameState) (now : Z) :
  readFragment h baseFragment = Some b ->
  mapM (readFragment h) components = Some cs ->
  exists result h',
    Heap.performMutation baseFragment components gameState now h = Some (result, h') /\
    preserved h h' /\
    readFragment h' baseFragment = Some b /\
    mapM (readFragment h') components = Some cs /\
    (exists o, h' !! result = Some (OFragment o) /\
               (length h <= result)%nat /\
               (length h <= o_baseStats o)%nat /\
               (length h <= o_implicitMods o)%nat /\
               (length h <= o_affixes o)%nat) /\
    readFragment h' result = Some (GameLogic.performMutation b cs gameState now).
Proof.
  intros Hb Hcs.
  pose proof Hb as Hb'. apply readFragment_represents in Hb'.
  destruct Hb' as (bo & modRefs & affixRefs & Hl & Hs & Hm & Hmods & Ha & Haffs & Hval).
  pose proof Hcs as Hcs'. apply mapM_Some in Hcs'.
  set (la := length h).
  set (ha := h ++ [OArray affixRefs]).
  set (ls := length ha).
  set (hs := ha ++ [OStats (baseStats b)]).
  set (lm := length hs).
  set (hm := hs ++ [OArray modRefs]).
  set (lf := length hm).
  set (mo := {| o_id := ""; o_gameStateId := o_gameStateId bo;
                o_name := "Mutated " +:+ o_name bo;
                o_type := o_type bo; o_rarity := o_rarity bo;
                o_baseStats := ls; o_implicitMods := lm; o_affixes := la;
                o_isCorrupted := o_isCorrupted bo; o_quantity := o_quantity bo |}).
  set (h1 := hm ++ [OFragment mo]).
  assert (Hlen : ls = S la /\ lm = S (S la) /\ lf = S (S (S la)) /\
                 length h1 = S (S (S (S la)))).
  { unfold ls, lm, lf, h1, hm, hs, ha, la. rewrite !length_app. cbn. lia. }
  destruct Hlen as (Els & Elm & Elf & Eh1).
  assert (Hkept : preserved h h1).
  { unfold h1, hm, hs, ha. repeat apply preserved_snoc. apply preserved_refl. }
  assert (H1a : h1 !! la = Some (OArray affixRefs)).
  { unfold h1, hm, hs. rewrite !lookup_app_l by (rewrite ?length_app; cbn; lia).
    apply lookup_snoc. }
  assert (H1s : h1 !! ls = Some (OStats (baseStats b))).
  { unfold h1, hm. rewrite !lookup_app_l by (rewrite ?length_app; cbn; lia).
    apply lookup_snoc. }
  assert (H1m : h1 !! lm = Some (OArray modRefs)).
  { unfold h1. rewrite !lookup_app_l by (rewrite ?length_app; cbn; lia).
    apply lookup_snoc. }
  assert (H1f : h1 !! lf = Some (OFragment mo)) by apply lookup_snoc.
  assert (Hstart : loopInv h1 la ls h1 (baseStats b) (affixes b)).
  { apply (loopInv_start h1 la ls (baseStats b) affixRefs (affixes b) H1s H1a).
    eapply holdsAffixes_preserved; eassumption. }
  destruct (components_run h h1 la ls Hkept ltac:(lia) ltac:(lia) ltac:(lia)
              components cs Hcs' h1 _ _ Hstart) as (h2 & Hloop & Hinv).
  pose proof (loopInv_preserved h h1 la ls Hkept ltac:(lia) ltac:(lia) ltac:(lia) _ _ _ Hinv)
    as Hp2.
  destruct Hinv as (Hoff & H2s & refs & H2a & H2refs).
  assert (H2f : h2 !! lf = Some (OFragment mo)) by (rewrite Hoff; [exact H1f | lia | lia | lia]).
  assert (H2m : h2 !! lm = Some (OArray modRefs)) by (rewrite Hoff; [exact H1m | lia | lia | lia]).
  destruct (Rng.random 0 1 (Rng.constructor None now)) as [draw g] eqn:Hdraw.
  destruct (evolve_run draw lf h2 mo H2f) as (h3 & Hev & Hoth & H3f).
  assert (Hp3 : preserved h h3).
  { intros l Hlt. rewrite Hoth by (fold la in Hlt; lia). now apply Hp2. }
  exists lf, h3.
  split; [| split; [exact Hp3 | split; [| split; [| split]]]].
  - unfold Heap.performMutation.
    rewrite (run_loadFragment _ _ _ _ Hl), (run_loadArray _ _ _ _ Ha), run_alloc.
    fold ha.
    rewrite (run_loadStats (o_baseStats bo) (baseStats b))
      by (unfold ha; rewrite lookup_app_l; [exact Hs | now apply lookup_lt_Some in Hs]).
    rewrite run_alloc. fold la ls hs.
    rewrite (run_loadArray (o_implicitMods bo) modRefs)
      by (unfold hs, ha; rewrite !lookup_app_l;
          [exact Hm | now apply lookup_lt_Some in Hm
           | rewrite length_app; apply lookup_lt_Some in Hm; lia]).
    rewrite !run_alloc. fold lm hm lf. fold mo. fold h1.
    rewrite (run_bind_Some _ _ _ _ _ Hloop), Hdraw.
    now rewrite (run_bind_Some _ _ _ _ _ Hev).
  - eauto using readFragment_preserved.
  - eauto using mapM_readFragment_preserved.
  - eexists. split; [exact H3f |]. cbn. fold la. lia.
  - apply readFragment_represents.
    exists (setName (snd (GameLogic.evolve draw (o_rarity mo) (o_name mo)))
              (setRarity (fst (GameLogic.evolve draw (o_rarity mo) (o_name mo))) mo)),
           modRefs, refs.
    assert (Hres : GameLogic.performMutation b cs gameState now
                   = valueOf (setName (snd (GameLogic.evolve draw (o_rarity mo) (o_name mo)))
                               (setRarity (fst (GameLogic.evolve draw (o_rarity mo) (o_name mo))) mo))
                       (fst (fold_left GameLogic.applyComponent cs (baseStats b, affixes b)))
                       (implicitMods b)
                       (snd (fold_left GameLogic.applyComponent cs (baseStats b, affixes b)))).
    { unfold GameLogic.performMutation. rewrite Hdraw.
      destruct (fold_left GameLogic.applyComponent cs _) as [m' affs'].
      assert (Er : o_rarity mo = rarity b) by (rewrite Hval; reflexivity).
      assert (En : o_name mo = ("Mutated " +:+ name b)%string) by (rewrite Hval; reflexivity).
      rewrite Er, En.
      destruct (GameLogic.evolve draw (rarity b) ("Mutated " +:+ name b)) as [r' n'].
      unfold valueOf. cbn. rewrite Hval. reflexivity. }
    rewrite Hres. unfold represents. cbn.
    split; [exact H3f |].
    split; [rewrite Hoth by lia; exact H2s |].
    split; [rewrite Hoth by lia; exact H2m |].
    split; [eapply holdsMods_preserved; eassumption |].
    split; [rewrite Hoth by lia; exact H2a |].
    split; [| reflexivity].
    unfold holdsAffixes in *. eapply Forall2_impl; [exact H2refs |].
    intros r a Hr. cbv beta in Hr. rewrite Hoth; [exact Hr |].
    intros E.
    assert (X : Some (OAffix a) = Some (OFragment mo)).
    { transitivity (h2 !! r); [symmetry; exact Hr | rewrite E; exact H2f]. }
    discriminate X.
Qed.

End HeapResult.

(** C10 on the sample heap: the sword object at reference 0 mutated with the
    component object at reference 6. *)
Lemma C10_performMutation_frame_witness :
  exists result h',
    Heap.performMutation 0%nat [6%nat] Sample.player 1700000000000 Heap.sampleHeap
      = Some (result, h') /\
    Heap.preserved Heap.sampleHeap h' /\
    Heap.readFragment h' 0%nat = Some Heap.sampleBase /\
    mapM (Heap.readFragment h') [6%nat] = Some [Heap.sampleComponent] /\
    (exists o, h' !! result = Some (Heap.OFragment o) /\
               (length Heap.sampleHeap <= result)%nat /\
               (length Heap.sampleHeap <= Heap.o_baseStats o)%nat /\
               (length Heap.sampleHeap <= Heap.o_implicitMods o)%nat /\
               (length Heap.sampleHeap <= Heap.o_affixes o)%nat) /\
    Heap.readFragment h' result
      = Some (GameLogic.performMutation Heap.sampleBase [Heap.sampleComponent]
                Sample.player 1700000000000).
Proof.
  apply (C10_performMutation_frame Heap.sampleHeap 0%nat [6%nat]
           Heap.sampleBase [Heap.sampleComponent] Sample.player 1700000000000).
  - vm_compute. reflexivity.
  - vm_compute. reflexivity.
Defined.

(** The same run, computed: the result is the new object 14 of a heap grown
    from 11 to 16 objects, carrying the old affix and the new one; the stat
    the component shares with the base went from 2 to 2 + floor(11 * 0.5). *)
Example performMutation_on_sampleHeap :
  match Heap.performMutation 0%nat [6%nat] Sample.player 1700000000000 Heap.sampleHeap with
  | Some (result, h') =>
      result = 14%nat /\ length h' = 16%nat /\
      firstn 11 h' = Heap.sampleHeap /\
      (Schema.affixes <$> Heap.readFragment h' result)
        = Some [Schema.mkAffix "Essence of Haste - Increased Speed" 9 "mutation";
                Schema.mkAffix "Void Iron - Void Affinity" (inject_Z 14) "mutation"] /\
      (Heap.readFragment h' result ≫= fun f => Schema.baseStats f !! "enhancement"%string)
        = Some (2 + inject_Z 5)%Q
  | None => False
  end.
Proof. vm_compute. repeat split. Qed.

(* ================================================================== *)
(** * Ranges of the distribution utilities                              *)
(* ================================================================== *)

Section Ranges.
Import Rng.
Local Open Scope Q_scope.

Lemma to_double_nonneg (z : Z) : (0 <= z)%Z -> (0 <= JS.to_double z)%Z.
Proof.
  intros Hz. unfold JS.to_double.
  destruct (Z.log2 (Z.abs z) + 1 - 53 <=? 0)%Z; [exact Hz |].
  set (e := (Z.log2 (Z.abs z) + 1 - 53)%Z).
  set (q := Z.shiftr (Z.abs z) e).
  assert (Hq : (0 <= q)%Z) by (apply Z.shiftr_nonneg; lia).
  apply Z.mul_nonneg_nonneg; [lia |].
  apply Z.shiftl_nonneg.
  destruct (_ <? _)%Z; [exact Hq |].
  destruct (_ <? _)%Z; [lia |].
  destruct (Z.even q); lia.
Qed.

Lemma next_bounds (g : VoidRNG) :
  (0 <= seed g)%Z ->
  0 <= fst (next g) /\ fst (next g) < 1 /\
  (0 <= seed (snd (next g)) < 233280)%Z.
Proof.
  intros Hs. pose proof (next_lt_1 g) as Hlt.
  assert (Hr : (0 <= seed (snd (next g)) < 233280)%Z).
  { unfold next, JS.rem. cbn [snd seed]. apply Z.rem_bound_pos; [| lia].
    apply to_double_nonneg.
    pose proof (to_double_nonneg (seed g * 9301) ltac:(lia)). lia. }
  split; [| split; [exact Hlt | exact Hr]].
  unfold next in *. cbn [fst snd seed] in *. unfold Qle. cbn. lia.
Qed.

Lemma random_next (lo hi : Q) (g : VoidRNG) :
  random lo hi g = (lo + fst (next g) * (hi - lo), snd (next g)).
Proof. unfold random. now destruct (next g). Qed.

Lemma randomInt_next (lo hi : Q) (g : VoidRNG) :
  randomInt lo hi g
  = (Qfloor (lo + fst (next g) * (hi + 1 - lo)), snd (next g)).
Proof. unfold randomInt. rewrite random_next. reflexivity. Qed.

Lemma randomInt_bounds (lo hi : Z) (g : VoidRNG) :
  (0 <= seed g)%Z ->
  (lo <= hi)%Z ->
  (lo <= fst (randomInt (inject_Z lo) (inject_Z hi) g) <= hi)%Z /\
  snd (randomInt (inject_Z lo) (inject_Z hi) g) = snd (next g) /\
  inject_Z lo <= fst (random (inject_Z lo) (inject_Z hi) g) /\
  ((lo < hi)%Z -> fst (random (inject_Z lo) (inject_Z hi) g) < inject_Z hi).
Proof.
  intros Hs Hle.
  destruct (next_bounds g Hs) as (H0 & H1 & _).
  rewrite randomInt_next, random_next. cbn [fst snd].
  set (x := fst (next g)) in *.
  assert (Hq : inject_Z lo <= inject_Z hi) by (now rewrite <- Zle_Qle).
  set (r := inject_Z lo + x * (inject_Z hi + 1 - inject_Z lo)).
  assert (Hr : inject_Z lo <= r /\ r < inject_Z (hi + 1)).
  { unfold r. rewrite inject_Z_plus. change (inject_Z 1) with 1. split; nra. }
  destruct Hr as [Hr1 Hr2].
  pose proof (Qfloor_le r) as Hf1. pose proof (Qlt_floor r) as Hf2.
  split; [split |].
  - assert (H : inject_Z lo < inject_Z (Qfloor r + 1)) by lra.
    rewrite <- Zlt_Qlt in H. lia.
  - assert (H : inject_Z (Qfloor r) < inject_Z (hi + 1)) by lra.
    rewrite <- Zlt_Qlt in H. lia.
  - split; [reflexivity |]. split; [nra |].
    intros Hlt. assert (inject_Z lo < inject_Z hi) by (now rewrite <- Zlt_Qlt). nra.
Qed.

End Ranges.

(* ================================================================== *)
(** * weightedChoice and rollRarity: helper facts                       *)
(* ================================================================== *)

Section Choices.
Import Rng.
Local Open Scope Q_scope.

Lemma walk_elem {T} (r : Q) (items : list (Weighted T)) :
  forall cur it, walk r cur items = Some it -> it ∈ items.
Proof.
  induction items as [| x rest IH]; intros cur it H; [discriminate |].
  cbn [walk] in H. destruct (JS.leb r (cur + weight x)).
  - injection H as <-. left.
  - right. eauto.
Qed.

Lemma last_elem {T} (l : list T) (x : T) : last l = Some x -> x ∈ l.
Proof.
  induction l as [| y [| z l] IH]; intros H; [discriminate | |].
  - injection H as <-. left.
  - right. apply IH. exact H.
Qed.

Lemma last_cons_Some {T} (l : list T) (x : T) : last (x :: l) <> None.
Proof.
  revert x. induction l as [| y l IH]; intros x; [discriminate |]. exact (IH y).
Qed.

Lemma weightedChoice_cases {T} (items : list (Weighted T)) (g : VoidRNG) :
  (fst (weightedChoice items g) = None <-> items = []) /\
  (forall x, fst (weightedChoice items g) = Some x ->
             exists it, it ∈ items /\ item it = x) /\
  snd (weightedChoice items g) = snd (next g).
Proof.
  unfold weightedChoice, weightedEntry. rewrite random_next.
  set (r := 0 + fst (next g) * (totalWeight items - 0)).
  destruct (walk r 0 items) as [it |] eqn:Hw; cbn [fst snd].
  - apply walk_elem in Hw. split; [| split; [| reflexivity]].
    + split; [discriminate | intros ->; inversion Hw].
    + intros x Hx. injection Hx as <-. eauto.
  - split; [| split; [| reflexivity]].
    + destruct items as [| x rest]; [tauto |].
      split; [| discriminate]. intros H. exfalso.
      destruct (last (x :: rest)) eqn:E; [discriminate H |].
      exact (last_cons_Some _ _ E).
    + intros x Hx. destruct (last items) as [it |] eqn:E; [| discriminate Hx].
      injection Hx as <-. apply last_elem in E. eauto.
Qed.

Ltac rung :=
  match goal with
  | |- context [JS.gtb ?a ?t] =>
      let E := fresh "E" in
      destruct (JS.gtb a t) eqn:E;
      [apply gtb_spec in E | apply gtb_false in E]
  end.

(** X1.  A larger bonus never lowers the tier [rollRarity] answers from a given
    generator state: rarity-odds upgrades cannot hurt a roll. *)
Theorem rollRarity_monotone (bonus1 bonus2 : Q) (g : VoidRNG) :
  bonus1 <= bonus2 ->
  exists t1 t2,
    Ext.tier (fst (rollRarity bonus1 g)) = Some t1 /\
    Ext.tier (fst (rollRarity bonus2 g)) = Some t2 /\
    (t1 <= t2)%nat.
Proof.
  intros Hb. unfold rollRarity, JS.min.
  destruct (next g) as [roll g'].
  assert (Ha : Qmin (roll + bonus1) 0.999999 <= Qmin (roll + bonus2) 0.999999).
  { apply Q.min_le_compat_r. lra. }
  set (a1 := Qmin (roll + bonus1) 0.999999) in *.
  set (a2 := Qmin (roll + bonus2) 0.999999) in *.
  repeat rung; cbn [fst];
    first [ exfalso; lra
          | do 2 eexists; split; [reflexivity | split; [reflexivity | lia]] ].
Qed.

End Choices.

(** X1 at seed 209267, whose draw is 0.8: bonus 0 and
    bonus 0.2. *)
Lemma rollRarity_monotone_witness :
  exists t1 t2,
    Ext.tier (fst (Rng.rollRarity 0 (Rng.mkVoidRNG 209267))) = Some t1 /\
    Ext.tier (fst (Rng.rollRarity 0.2 (Rng.mkVoidRNG 209267))) = Some t2 /\
    (t1 <= t2)%nat.
Proof. apply (rollRarity_monotone 0 0.2 (Rng.mkVoidRNG 209267)). discriminate. Defined.

(* ================================================================== *)
(** * Twelve successive draws of an index show four different ones    *)
(* ================================================================== *)

Section Sweep.
Import Rng Ext.

Lemma next_step (g : VoidRNG) :
  0 <= seed g < 233280 -> seed (snd (next g)) = stepZ (seed g).
Proof.
  intros Hs. unfold next, stepZ, JS.rem. cbn [snd seed].
  rewrite (to_double_exact (seed g * 9301)) by lia.
  rewrite to_double_exact by lia.
  apply Z.rem_mod_nonneg; lia.
Qed.

Lemma randomInt_closed (lo hi : Z) (g : VoidRNG) :
  randomInt (inject_Z lo) (inject_Z hi) g
  = (lo + seed (snd (next g)) * (hi + 1 - lo) / 233280, snd (next g)).
Proof.
  rewrite randomInt_next. f_equal.
  unfold next. cbn [fst snd seed].
  set (s := JS.rem _ _).
  transitivity (Qfloor ((lo * 233280 + s * (hi + 1 - lo)) # 233280)).
  - apply Qfloor_comp. unfold Qeq, inject_Z. cbn. lia.
  - unfold Qfloor. rewrite Z.div_add_l by lia. reflexivity.
Qed.

Lemma decile_div (s : Z) : 0 <= s < 233280 -> decile s = s * 10 / 233280.
Proof.
  intros Hs. unfold decile.
  repeat match goal with
         | |- context [?a <? ?b] => destruct (Z.ltb_spec a b); cbv iota
         end;
    match goal with
    | |- ?k = _ => apply (Z.div_unique _ _ k (s * 10 - 233280 * k)); lia
    end.
Qed.

Lemma decile_range (s : Z) : 0 <= decile s <= 9.
Proof.
  unfold decile.
  repeat match goal with
         | |- context [?a <? ?b] => destruct (Z.ltb_spec a b); cbv iota
         end; lia.
Qed.

Lemma bump_mod (a u : Z) :
  0 <= a < 233280 -> 0 <= u < 233280 -> bump a u = (u + a) mod 233280.
Proof.
  intros Ha Hu. unfold bump. cbv zeta.
  destruct (Z.ltb_spec (u + a) 233280).
  - symmetry. apply Z.mod_small. lia.
  - apply (Z.mod_unique _ _ 1); lia.
Qed.

Lemma stepZ_range (s : Z) : 0 <= stepZ s < 233280.
Proof. unfold stepZ. apply Z.mod_pos_bound. lia. Qed.

Lemma stepZ_add (a u : Z) :
  (stepZ u + (a * 9301) mod 233280) mod 233280 = stepZ ((u + a) mod 233280).
Proof.
  unfold stepZ.
  rewrite <- Z.add_mod by lia.
  rewrite (Z.add_mod ((u + a) mod 233280 * 9301)) by lia.
  rewrite Z.mul_mod_idemp_l by lia.
  rewrite <- Z.add_mod by lia.
  f_equal. lia.
Qed.

Lemma bumps_orbit (k : nat) :
  forall a u, 0 <= a < 233280 -> 0 <= u < 233280 ->
  bumps (powers k a) (orbit k u) = orbit k ((u + a) mod 233280).
Proof.
  induction k as [| k IH]; intros a u Ha Hu; [reflexivity |].
  cbn [powers orbit bumps]. rewrite bump_mod by assumption. f_equal.
  rewrite IH.
  - now rewrite stepZ_add.
  - apply Z.mod_pos_bound. lia.
  - apply stepZ_range.
Qed.

Lemma sweep_spec (n : N) :
  fst (sweep n) = orbit 12 (Z.of_N n mod 233280) /\
  (snd (sweep n) = true ->
   forall s, 0 <= s < Z.of_N n -> varied (orbit 12 (s mod 233280)) = true).
Proof.
  induction n as [| n [IH1 IH2]] using N.peano_ind.
  - split; [reflexivity | intros _ s Hs; lia].
  - unfold sweep in *. cbv zeta in *. rewrite N.iter_succ. cbn [fst snd].
    rewrite IH1. split.
    + rewrite bumps_orbit; [| lia | apply Z.mod_pos_bound; lia].
      rewrite Z.add_mod_idemp_l by lia. f_equal. f_equal. lia.
    + intros H. apply andb_true_iff in H. destruct H as [Ha Hb].
      intros s Hs.
      destruct (Z.eq_dec s (Z.of_N n)) as [-> | Hne]; [exact Hb |].
      apply IH2; [exact Ha | lia].
Qed.

Lemma sweep_all : snd (sweep 233280) = true.
Proof. vm_cast_no_check (eq_refl true). Qed.

Lemma varied_all (s : Z) : 0 <= s < 233280 -> varied (orbit 12 s) = true.
Proof.
  intros Hs. destruct (sweep_spec 233280) as [_ H].
  specialize (H sweep_all s ltac:(lia)).
  now rewrite Z.mod_small in H by lia.
Qed.

End Sweep.

(* ================================================================== *)
(** * The rejection loop of generateImplicitMods                      *)
(* ================================================================== *)

Section Rejection.
Import Schema Rng Ext FragmentGenerator.

Lemma listed_spec (x : Z) (l : list Z) : listed x l = true <-> x ∈ l.
Proof.
  induction l as [| y l IH]; cbn [listed].
  - split; [discriminate | intros H; inversion H].
  - rewrite orb_true_iff, IH, Z.eqb_eq, elem_of_cons. reflexivity.
Qed.

Lemma distinct_spec (l : list Z) :
  forall seen need,
    distinct l seen need = true -> NoDup seen ->
    exists extra,
      length extra = need /\ NoDup (extra ++ seen) /\ forall x, x ∈ extra -> x ∈ l.
Proof.
  induction l as [| x l IH]; intros seen need H Hnd.
  - destruct need; [| discriminate H].
    exists []. split; [reflexivity |]. split; [exact Hnd |]. intros x Hx. inversion Hx.
  - destruct need as [| n].
    { exists []. split; [reflexivity |]. split; [exact Hnd |]. intros y Hy. inversion Hy. }
    cbn [distinct] in H. destruct (listed x seen) eqn:E.
    + destruct (IH seen (S n) H Hnd) as (extra & Hl & Hn & Hin).
      exists extra. split; [exact Hl |]. split; [exact Hn |].
      intros y Hy. right. now apply Hin.
    + assert (Hx : x ∉ seen).
      { intros Hx. apply listed_spec in Hx. congruence. }
      destruct (IH (x :: seen) n H) as (extra & Hl & Hn & Hin).
      { now constructor. }
      exists (extra ++ [x]). split; [rewrite length_app; cbn; lia |].
      split; [now rewrite <- app_assoc |].
      intros y Hy. apply elem_of_app in Hy. destruct Hy as [Hy | Hy].
      * right. now apply Hin.
      * apply list_elem_of_singleton in Hy. subst y. left.
Qed.

Lemma at_index_Some (pool : list string) (i : Z) :
  0 <= i < Z.of_nat (length pool) ->
  exists x, at_index pool i = Some x /\ x ∈ pool.
Proof.
  intros Hi. unfold at_index.
  destruct (Z.ltb_spec i 0); [lia |].
  destruct (pool !! Z.to_nat i) as [x |] eqn:E.
  - exists x. split; [reflexivity |]. eapply list_elem_of_lookup_2. exact E.
  - apply lookup_ge_None in E. lia.
Qed.

Lemma possibleMods_NoDup : NoDup possibleMods.
Proof. apply (bool_decide_unpack _). vm_compute. exact I. Qed.

Lemma at_index_inj (i j : Z) (x : string) :
  at_index possibleMods i = Some x -> at_index possibleMods j = Some x -> i = j.
Proof.
  unfold at_index. intros Hi Hj.
  destruct (Z.ltb_spec i 0); [discriminate |].
  destruct (Z.ltb_spec j 0); [discriminate |].
  pose proof (NoDup_lookup _ _ _ _ possibleMods_NoDup Hi Hj). lia.
Qed.

(** Among twelve successive draws of an index, one names a modifier that is
    not among three selected ones. *)
Lemma fresh_name (s : Z) (selectedMods : gset string) :
  0 <= s < 233280 ->
  (size selectedMods <= 3)%nat ->
  exists u x, u ∈ orbit 12 s /\ at_index possibleMods (decile u) = Some x /\
              x ∉ selectedMods.
Proof.
  intros Hs Hsize.
  pose proof (varied_all s Hs) as Hv. unfold varied in Hv.
  destruct (distinct_spec _ _ _ Hv (NoDup_nil_2 (A:=Z))) as (extra & Hl & Hn & Hin).
  rewrite app_nil_r in Hn.
  set (nameOf := fun d => default ""%string (at_index possibleMods d)).
  assert (Hname : forall d, d ∈ extra ->
            exists u, u ∈ orbit 12 s /\ d = decile u /\
                      at_index possibleMods d = Some (nameOf d)).
  { intros d Hd. apply Hin in Hd. apply list_elem_of_fmap in Hd.
    destruct Hd as (u & -> & Hu). exists u. split; [exact Hu |]. split; [reflexivity |].
    destruct (at_index_Some possibleMods (decile u)) as (x & Hx & _).
    { pose proof (decile_range u).
      change (Z.of_nat (length possibleMods)) with 10. lia. }
    unfold nameOf. now rewrite Hx. }
  destruct (decide (Forall (fun d => nameOf d ∈ selectedMods) extra)) as [Hall | Hnot].
  - exfalso.
    assert (Hnd : NoDup (nameOf <$> extra)).
    { apply NoDup_fmap_2_strong; [| exact Hn].
      intros d1 d2 H1 H2 Heq.
      destruct (Hname d1 H1) as (_ & _ & _ & E1).
      destruct (Hname d2 H2) as (_ & _ & _ & E2).
      rewrite Heq in E1. exact (at_index_inj _ _ _ E1 E2). }
    assert (Hsub : list_to_set (nameOf <$> extra) ⊆ selectedMods).
    { intros x Hx. apply elem_of_list_to_set in Hx. apply list_elem_of_fmap in Hx.
      destruct Hx as (d & -> & Hd). rewrite Forall_forall in Hall. now apply Hall. }
    apply subseteq_size in Hsub.
    rewrite size_list_to_set in Hsub by exact Hnd.
    rewrite length_fmap in Hsub. lia.
  - apply not_Forall_Exists in Hnot; [| intros d; apply _].
    apply Exists_exists in Hnot. destruct Hnot as (d & Hd & Hfresh).
    destruct (Hname d Hd) as (u & Hu & -> & E).
    exists u, (nameOf (decile u)). auto.
Qed.

Lemma orbit_prefix (k extra : nat) (s u : Z) :
  u ∈ orbit k s -> u ∈ orbit (k + extra) s.
Proof.
  revert s. induction k as [| k IH]; intros s H; [inversion H |].
  cbn [orbit Nat.add] in *. apply elem_of_cons in H. destruct H as [-> | H].
  - left.
  - right. now apply IH.
Qed.

Lemma pickIndex (g : VoidRNG) :
  0 <= seed g ->
  randomInt 0 (inject_Z (Z.of_nat (length possibleMods)) - 1) g
  = (decile (seed (snd (next g))), snd (next g)).
Proof.
  intros Hs. change (randomInt (inject_Z 0) (inject_Z 9) g = (decile (seed (snd (next g))), snd (next g))).
  rewrite randomInt_closed. f_equal.
  rewrite decile_div by (apply next_bounds; exact Hs).
  cbn. reflexivity.
Qed.

(** The rejection loop returns as soon as a drawn index names a modifier
    outside [selectedMods]. *)
Lemma pickMod_returns (fuel : nat) :
  forall (selectedMods : gset string) (g : VoidRNG),
    0 <= seed g ->
    (exists u x, u ∈ orbit fuel (seed (snd (next g))) /\
                 at_index possibleMods (decile u) = Some x /\ x ∉ selectedMods) ->
    exists modName g',
      pickMod fuel selectedMods g = Some (modName, g') /\
      (modName ∉ selectedMods) /\ (modName ∈ possibleMods) /\
      (0 <= seed g' < 233280).
Proof.
  induction fuel as [| fuel IH]; intros sel g Hs (u & x & Hu & Hx & Hfresh).
  - inversion Hu.
  - cbn [pickMod]. rewrite pickIndex by exact Hs.
    destruct (next_bounds g Hs) as (_ & _ & Hr).
    set (g1 := snd (next g)) in *.
    destruct (at_index_Some possibleMods (decile (seed g1))) as (y & Hy & Hin).
    { pose proof (decile_range (seed g1)).
      change (Z.of_nat (length possibleMods)) with 10. lia. }
    rewrite Hy. destruct (decide (y ∈ sel)) as [Hsel | Hsel].
    + apply IH; [lia |]. exists u, x. split; [| auto].
      cbn [orbit] in Hu. apply elem_of_cons in Hu. destruct Hu as [-> | Hu].
      * congruence.
      * now rewrite next_step.
    + exists y, g1. auto.
Qed.

End Rejection.

(* ================================================================== *)
(** * generateImplicitMods                                            *)
(* ================================================================== *)

Section Tables.
Import Schema Ext.

Lemma not_a_tier (x : string) :
  x <> "common"%string -> x <> "uncommon"%string -> x <> "rare"%string ->
  x <> "epic"%string -> x <> "legendary"%string -> x <> "mythic"%string ->
  x <> "void_touched"%string -> x ∉ GameLogic.rarityOrder.
Proof.
  intros H1 H2 H3 H4 H5 H6 H7 Hin. unfold GameLogic.rarityOrder in Hin.
  repeat (apply elem_of_cons in Hin; destruct Hin as [-> | Hin]; [congruence |]).
  inversion Hin.
Qed.

(** A property of a table is one of its seven rows and of its default. *)
Lemma byRarity_cases {A} (P : string -> A -> Prop) (c u r e l m v d : A) (x : string) :
  P "common"%string c -> P "uncommon"%string u -> P "rare"%string r ->
  P "epic"%string e -> P "legendary"%string l -> P "mythic"%string m ->
  P "void_touched"%string v ->
  (x ∉ GameLogic.rarityOrder -> P x d) ->
  P x (byRarity c u r e l m v d x).
Proof.
  intros Hc Hu Hr He Hl Hm Hv Hd. unfold byRarity.
  repeat (case_decide; [subst x; assumption |]).
  apply Hd. now apply not_a_tier.
Qed.

Lemma byRarity_other {A} (c u r e l m v d : A) (x : string) :
  x ∉ GameLogic.rarityOrder -> byRarity c u r e l m v d x = d.
Proof.
  intros Hx. now apply (byRarity_cases (fun y k => y ∉ GameLogic.rarityOrder -> k = d));
    try (intros H; exfalso; apply H; apply list_elem_of_In; cbn; tauto).
Qed.

(** A dictionary of the source with the seven rarities as its keys has no
    other key. *)
Lemma table_None {A} (l : list (string * A)) (x : string) :
  l.*1 = GameLogic.rarityOrder ->
  x ∉ GameLogic.rarityOrder ->
  (list_to_map l : gmap string A) !! x = None.
Proof. intros <- H. now apply not_elem_of_list_to_map_1. Qed.

Lemma multipliers_table (rarity : string) :
  JS.or_default (FragmentGenerator.multipliers !! rarity) 1 = statMultiplier rarity /\
  (1 <= statMultiplier rarity <= 20)%Q.
Proof.
  unfold statMultiplier.
  apply (byRarity_cases
           (fun x k => JS.or_default (FragmentGenerator.multipliers !! x) 1 = k /\
                       (1 <= k <= 20)%Q));
    try (split; [reflexivity | split; discriminate]).
  intros Hx. unfold FragmentGenerator.multipliers.
  rewrite table_None by (reflexivity || exact Hx). split; [reflexivity | split; discriminate].
Qed.

Lemma modCounts_table (rarity : string) :
  JS.or_default (fst <$> FragmentGenerator.rarityModCounts !! rarity) 1
    = inject_Z (fst (modCounts rarity)) /\
  JS.or_default (snd <$> FragmentGenerator.rarityModCounts !! rarity) 1
    = inject_Z (snd (modCounts rarity)) /\
  1 <= fst (modCounts rarity) /\
  fst (modCounts rarity) <= snd (modCounts rarity) /\
  snd (modCounts rarity) <= 4.
Proof.
  unfold modCounts.
  apply (byRarity_cases
           (fun x k =>
              JS.or_default (fst <$> FragmentGenerator.rarityModCounts !! x) 1
                = inject_Z (fst k) /\
              JS.or_default (snd <$> FragmentGenerator.rarityModCounts !! x) 1
                = inject_Z (snd k) /\
              1 <= fst k /\ fst k <= snd k /\ snd k <= 4));
    try (split; [reflexivity |]; split; [reflexivity |]; cbn; lia).
  intros Hx. unfold FragmentGenerator.rarityModCounts.
  rewrite table_None by (reflexivity || exact Hx).
  split; [reflexivity |]. split; [reflexivity |]. cbn. lia.
Qed.

Lemma modScale_table (rarity : string) :
  FragmentGenerator.valueScale rarity = modScale rarity /\ 1 <= modScale rarity <= 3.
Proof.
  unfold modScale.
  apply (byRarity_cases
           (fun x k => FragmentGenerator.valueScale x = k /\ 1 <= k <= 3));
    try (split; [reflexivity | lia]).
  intros Hx. unfold FragmentGenerator.valueScale.
  assert (H1 : rarity <> "void_touched"%string).
  { intros ->. apply Hx. unfold GameLogic.rarityOrder. set_solver. }
  assert (H2 : rarity <> "mythic"%string).
  { intros ->. apply Hx. unfold GameLogic.rarityOrder. set_solver. }
  repeat (case_decide; [contradiction |]). split; [reflexivity | lia].
Qed.

Lemma shatterWeight_table (r : string) :
  JS.or_default (GameLogic.shatterMultipliers !! r) 1 = inject_Z (shatterWeight r) /\
  1 <= shatterWeight r <= 300.
Proof.
  unfold shatterWeight.
  apply (byRarity_cases
           (fun x k => JS.or_default (GameLogic.shatterMultipliers !! x) 1 = inject_Z k /\
                       1 <= k <= 300));
    try (split; [reflexivity | lia]).
  intros Hx. unfold GameLogic.shatterMultipliers.
  rewrite table_None by (reflexivity || exact Hx). split; [reflexivity | lia].
Qed.

Lemma costWeight_table (r : string) :
  JS.or_default (GameLogic.costMultipliers !! r) 1 = inject_Z (costWeight r) /\
  1 <= costWeight r <= 64.
Proof.
  unfold costWeight.
  apply (byRarity_cases
           (fun x k => JS.or_default (GameLogic.costMultipliers !! x) 1 = inject_Z k /\
                       1 <= k <= 64));
    try (split; [reflexivity | lia]).
  intros Hx. unfold GameLogic.costMultipliers.
  rewrite table_None by (reflexivity || exact Hx). split; [reflexivity | lia].
Qed.

End Tables.

Section Generation.
Import Schema Rng Ext FragmentGenerator.

Lemma randomInt_draw (lo hi : Z) (g : VoidRNG) :
  0 <= seed g -> lo <= hi ->
  exists roll g',
    randomInt (inject_Z lo) (inject_Z hi) g = (roll, g') /\
    lo <= roll <= hi /\ g' = snd (next g) /\ 0 <= seed g' < 233280.
Proof.
  intros Hs Hle.
  destruct (randomInt_bounds lo hi g Hs Hle) as (Hb & Hg & _).
  destruct (randomInt (inject_Z lo) (inject_Z hi) g) as [roll g'] eqn:E.
  cbn [fst snd] in *. exists roll, g'. subst g'.
  split; [reflexivity |]. split; [exact Hb |]. split; [reflexivity |].
  apply next_bounds. exact Hs.
Qed.

Lemma valueScale_range (rarity : string) : 1 <= valueScale rarity <= 3.
Proof. destruct (modScale_table rarity) as [-> H]. exact H. Qed.

Lemma modsLoop_total (fuel : nat) (rarity : string) :
  (12 <= fuel)%nat ->
  forall (n : nat) (mods : list Mod) (selectedMods : gset string) (g : VoidRNG),
    0 <= seed g ->
    (forall x, x ∈ selectedMods <-> x ∈ mod_name <$> mods) ->
    NoDup (mod_name <$> mods) ->
    size selectedMods = length mods ->
    (length mods + n <= 4)%nat ->
    Forall (implicitModOk rarity) mods ->
    exists mods' g',
      modsLoop fuel n rarity mods selectedMods g = Some (mods', g') /\
      length mods' = (length mods + n)%nat /\
      NoDup (mod_name <$> mods') /\
      Forall (implicitModOk rarity) mods' /\
      0 <= seed g'.
Proof.
  intros Hfuel. induction n as [| n IH]; intros mods sel g Hs Hsel Hnd Hsize Hlen Hok.
  - exists mods, g. cbn [modsLoop]. rewrite Nat.add_0_r. auto.
  - cbn [modsLoop].
    destruct (next_bounds g Hs) as (_ & _ & Hr).
    destruct (fresh_name (seed (snd (next g))) sel Hr ltac:(lia)) as (u & x & Hu & Hx & Hfresh).
    destruct (pickMod_returns fuel sel g Hs) as (modName & g1 & -> & Hnew & Hpool & Hs1).
    { exists u, x. split; [| auto].
      replace fuel with (12 + (fuel - 12))%nat by lia. now apply orbit_prefix. }
    destruct (randomInt_draw 5 25 g1 ltac:(lia) ltac:(lia)) as (roll & g2 & E & Hroll & _ & Hs2).
    change (inject_Z 5) with 5%Q in E. change (inject_Z 25) with 25%Q in E.
    rewrite E.
    set (m := mkMod modName (inject_Z (roll * valueScale rarity))).
    destruct (IH (mods ++ [m]) ({[ modName ]} ∪ sel) g2) as (mods' & g' & Hrun & Hl & Hn & Hf & Hg).
    + lia.
    + intros y. rewrite fmap_app, elem_of_app, elem_of_union, elem_of_singleton, Hsel.
      cbn. rewrite list_elem_of_singleton. tauto.
    + rewrite fmap_app. apply NoDup_app. split; [exact Hnd |]. split.
      * intros y Hy Hy'. cbn in Hy'. apply list_elem_of_singleton in Hy'. subst y.
        apply Hnew. now apply Hsel.
      * cbn. apply NoDup_singleton.
    + rewrite size_union by (apply disjoint_singleton_l; exact Hnew).
      rewrite size_singleton, length_app. cbn. lia.
    + rewrite length_app. cbn. lia.
    + apply Forall_app. split; [exact Hok |]. constructor; [| constructor].
      split; [exact Hpool |]. exists (roll * valueScale rarity). split; [reflexivity |].
      destruct (modScale_table rarity) as [<- Hrange]. nia.
    + exists mods', g'. split; [exact Hrun |]. rewrite length_app in Hl. cbn in Hl.
      split; [lia |]. auto.
Qed.

Lemma modCount_table (rarity : string) :
  exists lo hi : Z,
    JS.or_default (fst <$> rarityModCounts !! rarity) 1 = inject_Z lo /\
    JS.or_default (snd <$> rarityModCounts !! rarity) 1 = inject_Z hi /\
    1 <= lo /\ lo <= hi /\ hi <= 4.
Proof.
  destruct (rarityModCounts !! rarity) as [[a b] |] eqn:E.
  - unfold rarityModCounts in E. apply elem_of_list_to_map_2 in E.
    repeat (apply elem_of_cons in E; destruct E as [E | E];
            [injection E as -> -> ->;
             eexists _, _; split; [reflexivity |]; split; [reflexivity |]; lia |]).
    inversion E.
  - exists 1, 1. split; [reflexivity |]. split; [reflexivity |]. lia.
Qed.

Lemma generateImplicitMods_total (fuel : nat) (rarity : string) (g : VoidRNG) :
  (12 <= fuel)%nat ->
  0 <= seed g ->
  exists mods g',
    generateImplicitMods fuel rarity g = Some (mods, g') /\
    (JS.or_default (fst <$> rarityModCounts !! rarity) 1
       <= inject_Z (Z.of_nat (length mods))
       <= JS.or_default (snd <$> rarityModCounts !! rarity) 1)%Q /\
    (1 <= length mods <= 4)%nat /\
    NoDup (mod_name <$> mods) /\
    Forall (implicitModOk rarity) mods /\
    0 <= seed g'.
Proof.
  intros Hfuel Hs. unfold generateImplicitMods.
  destruct (modCount_table rarity) as (lo & hi & -> & -> & H1 & H2 & H3).
  destruct (randomInt_draw lo hi g Hs H2) as (n & g1 & -> & Hn & _ & Hs1).
  destruct (modsLoop_total fuel rarity Hfuel (Z.to_nat n) [] ∅ g1)
    as (mods & g' & Hrun & Hl & Hnd & Hok & Hg).
  - lia.
  - intros x. cbn. rewrite elem_of_empty. split; [tauto | intros H; inversion H].
  - constructor.
  - apply size_empty.
  - cbn. lia.
  - constructor.
  - exists mods, g'. split; [exact Hrun |]. cbn in Hl.
    split; [| split; [lia | auto]].
    rewrite Hl, Z2Nat.id by lia. rewrite <- !Zle_Qle. lia.
Qed.

End Generation.

(* ================================================================== *)
(** * generateBaseStats and generateFragment                          *)
(* ================================================================== *)

Section Fragments.
Import Schema Rng Ext FragmentGenerator.

Lemma multiplier_range (rarity : string) :
  (1 <= JS.or_default (multipliers !! rarity) 1 <= 20)%Q.
Proof.
  unfold JS.or_default.
  destruct (multipliers !! rarity) as [q |] eqn:E; [| split; discriminate].
  unfold multipliers in E. apply elem_of_list_to_map_2 in E.
  repeat (apply elem_of_cons in E; destruct E as [E | E];
          [injection E as -> ->; split; discriminate |]).
  inversion E.
Qed.

Ltac stat_ok :=
  eexists; split; [reflexivity |];
  match goal with
  | |- context [statRange ?k] =>
      let v := eval vm_compute in (statRange k) in
      change (statRange k) with v
  end; cbn [fst snd]; lia.

Lemma generateBaseStats_shape (rarity type : string) (g : VoidRNG) :
  0 <= seed g ->
  dom (fst (generateBaseStats rarity type g)) = statKeys type /\
  map_Forall (statOk (JS.or_default (multipliers !! rarity) 1))
    (fst (generateBaseStats rarity type g)) /\
  0 <= seed (snd (generateBaseStats rarity type g)).
Proof.
  intros Hs. unfold generateBaseStats, statKeys.
  set (m := JS.or_default (multipliers !! rarity) 1).
  destruct (decide (type = "base_item"%string)) as [_ | _];
    [| destruct (decide (type = "component"%string)) as [_ | _];
       [| destruct (decide (type = "modifier"%string)) as [_ | _]]].
  - destruct (randomInt_draw 10 50 g Hs ltac:(lia)) as (p & g1 & E1 & Hp & _ & H1).
    destruct (randomInt_draw 5 25 g1 ltac:(lia) ltac:(lia)) as (d & g2 & E2 & Hd & _ & H2).
    destruct (randomInt_draw 1 10 g2 ltac:(lia) ltac:(lia)) as (s & g3 & E3 & Hsp & _ & H3).
    change (randomInt 10 50 g = (p, g1)) in E1.
    change (randomInt 5 25 g1 = (d, g2)) in E2.
    change (randomInt 1 10 g2 = (s, g3)) in E3.
    rewrite E1, E2, E3. cbn [fst snd].
    split; [| split; [| lia]].
    + set_solver.
    + do 3 (apply map_Forall_insert_2; [stat_ok |]).
      apply map_Forall_empty.
  - destruct (randomInt_draw 5 20 g Hs ltac:(lia)) as (e & g1 & E1 & He & _ & H1).
    change (randomInt 5 20 g = (e, g1)) in E1. rewrite E1. cbn [fst snd].
    split; [| split; [| lia]].
    + set_solver.
    + apply map_Forall_insert_2; [stat_ok |].
      apply map_Forall_empty.
  - destruct (randomInt_draw 1 15 g Hs ltac:(lia)) as (e & g1 & E1 & He & _ & H1).
    change (randomInt 1 15 g = (e, g1)) in E1. rewrite E1. cbn [fst snd].
    split; [| split; [| lia]].
    + set_solver.
    + apply map_Forall_insert_2; [stat_ok |].
      apply map_Forall_empty.
  - cbn [fst snd]. split; [apply dom_empty_L |]. split; [apply map_Forall_empty | exact Hs].
Qed.

Lemma rollRarity_cases (bonus : Q) (g : VoidRNG) :
  fst (rollRarity bonus g) ∈ GameLogic.rarityOrder /\
  snd (rollRarity bonus g) = snd (next g).
Proof.
  unfold rollRarity. destruct (next g) as [roll g']. cbn [snd].
  repeat match goal with
         | |- context [JS.gtb ?a ?t] => destruct (JS.gtb a t)
         end; (split; [| reflexivity]); cbn [fst]; unfold GameLogic.rarityOrder;
    set_solver.
Qed.

Lemma pick_total (pool : list string) (n : Z) (g : VoidRNG) :
  Z.of_nat (length pool) = n + 1 ->
  0 <= n ->
  0 <= seed g ->
  exists x g',
    (let (index, g) := randomInt (inject_Z 0) (inject_Z n) g in
     (at_index pool index, g)) = (Some x, g') /\
    x ∈ pool /\ 0 <= seed g'.
Proof.
  intros Hlen Hn Hs.
  destruct (randomInt_draw 0 n g Hs Hn) as (i & g1 & -> & Hi & _ & H1).
  destruct (at_index_Some pool i ltac:(lia)) as (x & -> & Hin).
  exists x, g1. split; [reflexivity |]. split; [exact Hin | lia].
Qed.

Lemma drawBaseName_total (type : string) (g : VoidRNG) :
  0 <= seed g ->
  exists baseName g',
    drawBaseName type g = (Some baseName, g') /\ 0 <= seed g'.
Proof.
  intros Hs. unfold drawBaseName.
  destruct (decide (type = "base_item"%string)) as [_ | _];
    [| destruct (decide (type = "component"%string)) as [_ | _];
       [| destruct (decide (type = "modifier"%string)) as [_ | _]]].
  - destruct (pick_total baseItemNames 9 g eq_refl ltac:(lia) Hs) as (x & g' & E & _ & Hg).
    exists x, g'. split; [exact E | exact Hg].
  - destruct (pick_total componentNames 5 g eq_refl ltac:(lia) Hs) as (x & g' & E & _ & Hg).
    exists x, g'. split; [exact E | exact Hg].
  - destruct (pick_total modifierNames 4 g eq_refl ltac:(lia) Hs) as (x & g' & E & _ & Hg).
    exists x, g'. split; [exact E | exact Hg].
  - exists "Mysterious Blueprint"%string, g. auto.
Qed.

Lemma typeWeights_choice (g : VoidRNG) :
  exists type,
    weightedChoice typeWeights g = (Some type, snd (next g)) /\ type ∈ fragmentTypes.
Proof.
  destruct (weightedChoice_cases typeWeights g) as (Hnone & Hsome & Hg).
  destruct (weightedChoice typeWeights g) as [[type |] g'] eqn:E; cbn [fst snd] in *.
  - exists type. subst g'. split; [reflexivity |].
    destruct (Hsome type eq_refl) as (it & Hin & <-).
    unfold typeWeights in Hin. unfold fragmentTypes.
    repeat (apply elem_of_cons in Hin; destruct Hin as [-> | Hin];
            [apply list_elem_of_In; cbn; tauto |]).
    inversion Hin.
  - exfalso. destruct Hnone as [Hnone _]. specialize (Hnone eq_refl). discriminate.
Qed.

Lemma generateFragment_total (fuel : nat) (gameState : GameState) (g : VoidRNG) :
  (12 <= fuel)%nat ->
  0 <= seed g ->
  exists f g',
    generateFragment fuel gameState g = Some (f, g') /\
    g_type f ∈ fragmentTypes /\
    g_rarity f ∈ GameLogic.rarityOrder /\
    dom (g_baseStats f) = statKeys (g_type f) /\
    map_Forall (statOk (JS.or_default (multipliers !! g_rarity f) 1)) (g_baseStats f) /\
    (1 <= length (g_implicitMods f) <= 4)%nat /\
    NoDup (mod_name <$> g_implicitMods f) /\
    Forall (implicitModOk (g_rarity f)) (g_implicitMods f) /\
    g_affixes f = [] /\ g_isCorrupted f = false /\ g_quantity f = 1 /\
    0 <= seed g'.
Proof.
  intros Hfuel Hs. unfold generateFragment.
  destruct (typeWeights_choice g) as (type & -> & Htype).
  destruct (next_bounds g Hs) as (_ & _ & Hs1).
  set (bonus := ((inject_Z (rarityOddsLevel gameState) - 1) * 0.0005)%Q).
  destruct (rollRarity_cases bonus (snd (next g))) as (Hrar & Hg2).
  destruct (rollRarity bonus (snd (next g))) as [rarity g2]. cbn [fst snd] in *.
  assert (Hs2 : 0 <= seed g2) by (subst g2; apply next_bounds; lia).
  destruct (generateBaseStats_shape rarity type g2 Hs2) as (Hdom & Hstats & Hs3).
  destruct (generateBaseStats rarity type g2) as [stats g3]. cbn [fst snd] in *.
  destruct (generateImplicitMods_total fuel rarity g3 Hfuel Hs3)
    as (mods & g4 & -> & _ & Hlen & Hnd & Hok & Hs4).
  destruct (drawBaseName_total type g4 Hs4) as (baseName & g5 & -> & Hs5).
  eexists _, g5. split; [reflexivity |]. cbn.
  repeat (split; [assumption || reflexivity || lia |]). exact Hs5.
Qed.

End Fragments.

(* ================================================================== *)
(** * Fuel, and the cut points of rollRarity                          *)
(* ================================================================== *)

Section Fuel.
Import Schema Rng Ext FragmentGenerator.

Lemma pickMod_more (fuel extra : nat) (selectedMods : gset string) :
  forall g r,
    pickMod fuel selectedMods g = Some r ->
    pickMod (fuel + extra) selectedMods g = Some r.
Proof.
  induction fuel as [| fuel IH]; intros g r H; [discriminate |].
  cbn [pickMod Nat.add] in *.
  destruct (randomInt 0 (inject_Z (Z.of_nat (length possibleMods)) - 1) g) as [index g1].
  destruct (at_index possibleMods index) as [modName |]; [| discriminate].
  destruct (decide (modName ∈ selectedMods)); [now apply IH | exact H].
Qed.

Lemma modsLoop_more (fuel extra : nat) (rarity : string) (n : nat) :
  forall mods selectedMods g r,
    modsLoop fuel n rarity mods selectedMods g = Some r ->
    modsLoop (fuel + extra) n rarity mods selectedMods g = Some r.
Proof.
  induction n as [| n IH]; intros mods sel g r H; [exact H |].
  cbn [modsLoop] in *.
  destruct (pickMod fuel sel g) as [[modName g1] |] eqn:E; [| discriminate].
  rewrite (pickMod_more _ extra _ _ _ E).
  destruct (randomInt 5 25 g1) as [roll g2]. now apply IH.
Qed.

Lemma generateImplicitMods_more (fuel extra : nat) (rarity : string) (g : VoidRNG) r :
  generateImplicitMods fuel rarity g = Some r ->
  generateImplicitMods (fuel + extra) rarity g = Some r.
Proof.
  unfold generateImplicitMods. destruct (randomInt _ _ g) as [modCount g1].
  apply modsLoop_more.
Qed.

Lemma generateFragment_more (fuel extra : nat) (gameState : GameState) (g : VoidRNG) r :
  generateFragment fuel gameState g = Some r ->
  generateFragment (fuel + extra) gameState g = Some r.
Proof.
  unfold generateFragment.
  destruct (weightedChoice typeWeights g) as [[type |] g1]; [| discriminate].
  destruct (rollRarity _ g1) as [rarity g2].
  destruct (generateBaseStats rarity type g2) as [stats g3].
  destruct (generateImplicitMods fuel rarity g3) as [[mods g4] |] eqn:E; [| discriminate].
  rewrite (generateImplicitMods_more _ extra _ _ _ E). tauto.
Qed.


End Fuel.

(* ================================================================== *)
(** * The draws of the generator in double arithmetic                   *)
(* ================================================================== *)

Section Draws64.
Import Rng Ext.
Local Open Scope Q_scope.

Lemma fl_int (z : Z) : (0 <= z <= 2 ^ 53)%Z -> F64.fl (inject_Z z) == inject_Z z.
Proof.
  intros Hz. pose proof (fl_dyadic z 0 Hz ltac:(lia)) as H.
  assert (E : inject_Z z * F64.pow2 0 == inject_Z z) by (change (F64.pow2 0) with 1; ring).
  rewrite <- (fl_comp _ _ E), H. exact E.
Qed.

(** A number with eighteen binary places and a numerator of at most 53 bits
    is a double. *)
Lemma fl_places (m : Z) :
  (0 <= m <= 2 ^ 53)%Z ->
  F64.fl (inject_Z m * F64.pow2 (-18)) == inject_Z m * F64.pow2 (-18).
Proof. intros Hm. apply fl_dyadic; [exact Hm | lia]. Qed.

Lemma rne_err (x : Q) :
  - (1 # 2) <= inject_Z (F64.rne x) - x <= 1 # 2.
Proof.
  pose proof (Qfloor_le x) as H1. pose proof (Qlt_floor x) as H2.
  rewrite inject_Z_plus in H2. change (inject_Z 1) with 1 in H2.
  destruct (rne_cases x) as [[-> H] | [-> H]].
  - lra.
  - rewrite inject_Z_plus. change (inject_Z 1) with 1. lra.
Qed.

(** The rounding error of a double: at most half a unit of the last place,
    which is [x * 2^-53] at most in the normal range and [2^-1075] below. *)
Lemma fl_err (x : Q) :
  0 <= x ->
  - (x * F64.pow2 (-53) + F64.pow2 (-60)) <= F64.fl x - x
    <= x * F64.pow2 (-53) + F64.pow2 (-60).
Proof.
  intros Hx. destruct (Qeq_dec x 0) as [H0 | H0].
  { rewrite (fl_zero _ H0), H0. vm_compute. split; discriminate. }
  assert (Hpos : 0 < x) by (destruct (Qlt_le_dec 0 x); [assumption | exfalso; apply H0; lra]).
  rewrite (fl_pos_eq _ Hpos).
  destruct (ulp_exp_spec x Hpos) as (He & _ & Hlo).
  set (e := F64.ulp_exp x) in *.
  pose proof (pow2_pos e) as Hp.
  pose proof (rne_err (x / F64.pow2 e)) as Hr.
  pose proof (div_pow2 x e) as Hd.
  set (y := x / F64.pow2 e) in *. set (m := inject_Z (F64.rne y)) in *.
  assert (Hu : F64.pow2 e * (1 # 2) <= x * F64.pow2 (-53) + F64.pow2 (-60)).
  { destruct (Z.eq_dec e (-1074)%Z) as [-> | Hne].
    - assert (F64.pow2 (-1074) * (1 # 2) <= F64.pow2 (-60)) by (vm_compute; discriminate).
      assert (0 < F64.pow2 (-53)) by apply pow2_pos. nra.
    - specialize (Hlo ltac:(lia)).
      assert (E : F64.pow2 (e + 52) * F64.pow2 (-53) == F64.pow2 e * (1 # 2)).
      { rewrite <- pow2_plus. replace (e + 52 + -53)%Z with (e + -1)%Z by lia.
        rewrite pow2_plus. reflexivity. }
      assert (0 < F64.pow2 (-53)) by apply pow2_pos.
      assert (0 < F64.pow2 (-60)) by apply pow2_pos.
      rewrite <- E. nra. }
  set (p := F64.pow2 e) in *.
  generalize dependent (x * F64.pow2 (-53) + F64.pow2 (-60)). intros b Hu.
  split; nra.
Qed.

(** The draw that leaves the seed [s]: a double of [0, 1 - 2^-18]. *)
Lemma draw_unit (s : Z) :
  (0 <= s < 233280)%Z ->
  0 <= inject_Z s / 233280 <= 1 - F64.pow2 (-18) /\
  0 <= F64.div (inject_Z s) 233280 <= 1 - F64.pow2 (-18).
Proof.
  intros Hr. unfold F64.div.
  assert (Hq : inject_Z s / 233280 == inject_Z s * (1 # 233280)) by field.
  assert (H0 : 0 <= inject_Z s).
  { change 0 with (inject_Z 0). rewrite <- Zle_Qle. lia. }
  assert (H1 : inject_Z s <= 233279).
  { change 233279 with (inject_Z 233279). rewrite <- Zle_Qle. lia. }
  assert (Hx : 0 <= inject_Z s / 233280 <= 1 - F64.pow2 (-18)).
  { rewrite Hq. change (F64.pow2 (-18)) with (1 # 262144). lra. }
  split; [exact Hx |]. split.
  - apply fl_nonneg. lra.
  - apply Qle_trans with (F64.fl (1 - F64.pow2 (-18))); [| now vm_compute].
    apply fl_le; lra.
Qed.

(** [lo + r * (max - lo)] in doubles, for an integer [lo], a [max] that is
    the integer [m] and a draw [r]: a double of [lo, m), and [lo] when
    [m = lo]. *)
Lemma scale64_range (lo m : Z) (M r : Q) :
  0 <= r <= 1 - F64.pow2 (-18) ->
  (0 <= lo)%Z -> (lo <= m)%Z -> (m <= 2 ^ 31)%Z ->
  M == inject_Z m ->
  inject_Z lo <= F64.add (inject_Z lo) (F64.mul r (F64.sub M (inject_Z lo)))
    <= inject_Z m - inject_Z (m - lo) * F64.pow2 (-18).
Proof.
  intros [Hr0 Hr1] Hlo Hle Hm HM.
  unfold F64.add, F64.mul, F64.sub.
  set (n := (m - lo)%Z).
  assert (Hn : 0 <= inject_Z n).
  { change 0 with (inject_Z 0). rewrite <- Zle_Qle. lia. }
  assert (HS : F64.fl (M - inject_Z lo) == inject_Z n).
  { assert (E : M - inject_Z lo == inject_Z n).
    { rewrite HM. unfold n, Z.sub. rewrite inject_Z_plus, inject_Z_opp. ring. }
    rewrite (fl_comp _ _ E). apply fl_int. lia. }
  set (S' := F64.fl (M - inject_Z lo)) in *.
  change (F64.pow2 (-18)) with (1 # 262144) in *.
  assert (HL : 0 <= inject_Z lo).
  { change 0 with (inject_Z 0). rewrite <- Zle_Qle. lia. }
  assert (HLd : F64.fl (inject_Z lo) == inject_Z lo) by (apply fl_int; lia).
  assert (HP0 : 0 <= F64.fl (r * S')) by (apply fl_nonneg; nra).
  assert (HP1 : F64.fl (r * S') <= inject_Z n * (1 - (1 # 262144))).
  { assert (D : F64.fl (inject_Z (n * 262143) * F64.pow2 (-18))
                == inject_Z (n * 262143) * F64.pow2 (-18)) by (apply fl_places; lia).
    assert (E : inject_Z (n * 262143) * F64.pow2 (-18)
                == inject_Z n * (1 - (1 # 262144))).
    { rewrite inject_Z_mult. change (F64.pow2 (-18)) with (1 # 262144).
      change (inject_Z 262143) with 262143. ring. }
    rewrite <- E, <- D. apply fl_le; [nra |]. rewrite E. nra. }
  set (P := F64.fl (r * S')) in *.
  split.
  - rewrite <- HLd at 1. apply fl_le; lra.
  - assert (D : F64.fl (inject_Z (lo * 262144 + n * 262143) * F64.pow2 (-18))
                == inject_Z (lo * 262144 + n * 262143) * F64.pow2 (-18))
      by (apply fl_places; lia).
    assert (E : inject_Z (lo * 262144 + n * 262143) * F64.pow2 (-18)
                == inject_Z m - inject_Z n * (1 # 262144)).
    { rewrite inject_Z_plus, !inject_Z_mult. change (F64.pow2 (-18)) with (1 # 262144).
      change (inject_Z 262143) with 262143. change (inject_Z 262144) with 262144.
      unfold n, Z.sub. rewrite inject_Z_plus, inject_Z_opp. ring. }
    rewrite <- E, <- D. apply fl_le; [lra |]. rewrite E.
    assert (Hn' : inject_Z n == inject_Z m - inject_Z lo).
    { unfold n, Z.sub. rewrite inject_Z_plus, inject_Z_opp. ring. }
    lra.
Qed.

Lemma add1_int (hi : Z) :
  (0 <= hi < 2 ^ 31)%Z -> F64.add (inject_Z hi) 1 == inject_Z (hi + 1).
Proof.
  intros Hhi. unfold F64.add.
  assert (E : inject_Z hi + 1 == inject_Z (hi + 1)) by (rewrite inject_Z_plus; reflexivity).
  rewrite (fl_comp _ _ E). apply fl_int. lia.
Qed.

Lemma floor_between (y : Q) (z : Z) :
  inject_Z z <= y -> y < inject_Z (z + 1) -> Qfloor y = z.
Proof.
  intros H1 H2. pose proof (Qfloor_le y) as Hf1. pose proof (Qlt_floor y) as Hf2.
  assert (Ha : inject_Z z < inject_Z (Qfloor y + 1)) by lra.
  assert (Hb : inject_Z (Qfloor y) < inject_Z (z + 1)) by lra.
  rewrite <- Zlt_Qlt in Ha, Hb. lia.
Qed.

(** Every double draw lies in its range. *)
Lemma draw64_bounds (lo hi s : Z) :
  (0 <= s < 233280)%Z -> (0 <= lo)%Z -> (lo <= hi)%Z -> (hi < 2 ^ 31)%Z ->
  (lo <= draw64 lo hi s <= hi)%Z.
Proof.
  intros Hs Hlo Hle Hhi. unfold draw64, JS.floor.
  destruct (draw_unit s Hs) as [_ Hr].
  pose proof (scale64_range lo (hi + 1) (F64.add (inject_Z hi) 1) _ Hr Hlo
                ltac:(lia) ltac:(lia) (add1_int hi ltac:(lia))) as [H1 H2].
  set (y := F64.add (inject_Z lo) _) in *.
  pose proof (Qfloor_le y) as Hf1. pose proof (Qlt_floor y) as Hf2.
  assert (Hn : 1 <= inject_Z (hi + 1 - lo)).
  { change 1 with (inject_Z 1). rewrite <- Zle_Qle. lia. }
  change (F64.pow2 (-18)) with (1 # 262144) in H2.
  split.
  - assert (H : inject_Z lo < inject_Z (Qfloor y + 1)) by lra.
    rewrite <- Zlt_Qlt in H. lia.
  - assert (H : inject_Z (Qfloor y) < inject_Z (hi + 1)) by lra.
    rewrite <- Zlt_Qlt in H. lia.
Qed.

(** The double [randomInt] floors lies within [2^-19] of the exact
    [lo + s * (hi + 1 - lo) / 233280]. *)
Lemma draw64_near (lo hi s : Z) :
  (0 <= s < 233280)%Z -> (0 <= lo)%Z -> (lo <= hi)%Z -> (hi < 2 ^ 31)%Z ->
  inject_Z lo + inject_Z (s * (hi + 1 - lo)) / 233280 - F64.pow2 (-19)
    <= F64.add (inject_Z lo)
         (F64.mul (F64.div (inject_Z s) 233280)
            (F64.sub (F64.add (inject_Z hi) 1) (inject_Z lo)))
    <= inject_Z lo + inject_Z (s * (hi + 1 - lo)) / 233280 + F64.pow2 (-19).
Proof.
  intros Hr Hlo Hle Hhi.
  destruct (draw_unit s Hr) as [[Hx0 Hx1] [Hr0 Hr1]].
  unfold F64.div in *.
  pose proof (add1_int hi ltac:(lia)) as HA.
  set (A := F64.add (inject_Z hi) 1) in *. clearbody A.
  unfold F64.add, F64.mul, F64.sub.
  set (n := (hi + 1 - lo)%Z).
  assert (HS : F64.fl (A - inject_Z lo) == inject_Z n).
  { assert (E : A - inject_Z lo == inject_Z n).
    { rewrite HA. unfold n, Z.sub. rewrite !inject_Z_plus, inject_Z_opp. ring. }
    rewrite (fl_comp _ _ E). apply fl_int. lia. }
  set (S' := F64.fl (A - inject_Z lo)) in *.
  set (r := inject_Z s / 233280) in *.
  assert (Hq : inject_Z (s * n) / 233280 == r * inject_Z n).
  { unfold r. rewrite inject_Z_mult. field. }
  rewrite Hq.
  pose proof (fl_err r Hx0) as E1.
  set (r' := F64.fl r) in *.
  assert (HN : 1 <= inject_Z n <= 2147483648).
  { change 1 with (inject_Z 1). change 2147483648 with (inject_Z (2 ^ 31)).
    rewrite <- !Zle_Qle. lia. }
  assert (HL : 0 <= inject_Z lo /\ inject_Z lo + inject_Z n <= 2147483648).
  { change 0 with (inject_Z 0). change 2147483648 with (inject_Z (2 ^ 31)).
    rewrite <- inject_Z_plus, <- !Zle_Qle. lia. }
  assert (Hr'S : 0 <= r' * S') by nra.
  pose proof (fl_err (r' * S') Hr'S) as E2.
  set (P := F64.fl (r' * S')) in *.
  assert (HP0 : 0 <= P) by (apply fl_nonneg; exact Hr'S).
  pose proof (fl_err (inject_Z lo + P) ltac:(lra)) as E3.
  set (Y := F64.fl (inject_Z lo + P)) in *.
  change (F64.pow2 (-53)) with (1 # 9007199254740992) in *.
  change (F64.pow2 (-60)) with (1 # 1152921504606846976) in *.
  change (F64.pow2 (-19)) with (1 # 524288).
  change (F64.pow2 (-18)) with (1 # 262144) in *.
  clearbody S' P r' r.
  set (N := inject_Z n) in *. clearbody N.
  set (L := inject_Z lo) in *. clearbody L.
  assert (Hb : - (N * (1 # 4503599627370496)) <= r' * S' - r * N
               <= N * (1 # 4503599627370496)).
  { rewrite HS. split; nra. }
  assert (Hc : r' * S' <= N) by (rewrite HS; nra).
  clearbody Y.
  set (X := r' * S') in *. clearbody X. set (Z0 := r * N) in *. clearbody Z0.
  split; lra.
Qed.

(** The double draw is the exact one, [lo + floor(s * (hi + 1 - lo) /
    233280)], unless the quotient is an integer, where it can be one less. *)
Lemma draw64_closed (lo hi s : Z) :
  (0 <= s < 233280)%Z -> (0 <= lo)%Z -> (lo <= hi)%Z -> (hi < 2 ^ 31)%Z ->
  (lo + s * (hi + 1 - lo) / 233280 - 1 <= draw64 lo hi s
     <= lo + s * (hi + 1 - lo) / 233280)%Z /\
  (((s * (hi + 1 - lo)) mod 233280 <> 0)%Z ->
   draw64 lo hi s = (lo + s * (hi + 1 - lo) / 233280)%Z).
Proof.
  intros Hs Hlo Hle Hhi.
  pose proof (draw64_near lo hi s Hs Hlo Hle Hhi) as Hnear.
  unfold draw64, JS.floor.
  set (y := F64.add (inject_Z lo) _) in *. clearbody y.
  set (a := (s * (hi + 1 - lo))%Z) in *.
  pose proof (Z.div_mod a 233280 ltac:(lia)) as Hdm.
  pose proof (Z.mod_pos_bound a 233280 ltac:(lia)) as Hmod.
  set (k := (a / 233280)%Z) in *. set (rho := (a mod 233280)%Z) in *.
  assert (Ha : inject_Z a / 233280 == inject_Z k + inject_Z rho * (1 # 233280)).
  { rewrite Hdm, inject_Z_plus, inject_Z_mult. change (inject_Z 233280) with 233280. field. }
  rewrite Ha in Hnear. change (F64.pow2 (-19)) with (1 # 524288) in Hnear.
  assert (Hrho : 0 <= inject_Z rho <= 233279).
  { change 0 with (inject_Z 0). change 233279 with (inject_Z 233279).
    rewrite <- !Zle_Qle. lia. }
  assert (Hc : inject_Z (lo + k) == inject_Z lo + inject_Z k)
    by (rewrite inject_Z_plus; reflexivity).
  pose proof (Qfloor_le y) as Hf1. pose proof (Qlt_floor y) as Hf2.
  rewrite inject_Z_plus in Hf2. change (inject_Z 1) with 1 in Hf2.
  split.
  - split.
    + assert (H : inject_Z (lo + k - 1) < inject_Z (Qfloor y + 1)).
      { unfold Z.sub. rewrite (inject_Z_plus (lo + k)), (inject_Z_plus (Qfloor y)),
          inject_Z_opp, Hc. change (inject_Z 1) with 1. lra. }
      rewrite <- Zlt_Qlt in H. lia.
    + assert (H : inject_Z (Qfloor y) < inject_Z (lo + k + 1)).
      { rewrite (inject_Z_plus (lo + k)), Hc. change (inject_Z 1) with 1. lra. }
      rewrite <- Zlt_Qlt in H. lia.
  - intros Hne.
    assert (Hrho1 : 1 <= inject_Z rho).
    { change 1 with (inject_Z 1). rewrite <- Zle_Qle. lia. }
    apply floor_between.
    + rewrite Hc. lra.
    + rewrite (inject_Z_plus (lo + k)), Hc. change (inject_Z 1) with 1. lra.
Qed.

Lemma boundary_seed (n s : Z) :
  (0 < n)%Z -> ((s * n) mod 233280 = 0)%Z ->
  exists j, (s = j * (233280 / Z.gcd n 233280))%Z.
Proof.
  intros Hn Hmod.
  set (gd := Z.gcd n 233280).
  assert (Hg : (0 < gd)%Z).
  { unfold gd. pose proof (Z.gcd_nonneg n 233280).
    destruct (Z.eq_dec (Z.gcd n 233280) 0%Z) as [E | E]; [| lia].
    apply Z.gcd_eq_0_l in E. lia. }
  destruct (Z.gcd_divide_l n 233280) as [n' Hn'].
  destruct (Z.gcd_divide_r n 233280) as [m' Hm'].
  fold gd in Hn', Hm'.
  assert (Hm : (233280 / gd = m')%Z) by (rewrite Hm' at 1; apply Z.div_mul; lia).
  rewrite Hm.
  assert (Hrel : Z.gcd m' n' = 1%Z).
  { assert (H : Z.gcd (n' * gd) (m' * gd) = gd) by (rewrite <- Hn', <- Hm' at 1; reflexivity).
    rewrite Z.gcd_mul_mono_r_nonneg in H by lia.
    rewrite Z.gcd_comm. nia. }
  assert (Hdiv : (m' | s * n')%Z).
  { apply Z.mod_divide in Hmod; [| lia]. destruct Hmod as [c Hc].
    exists c. rewrite Hn', Hm' in Hc at 1. nia. }
  rewrite Z.mul_comm in Hdiv.
  apply Z.gauss in Hdiv; [| exact Hrel].
  destruct Hdiv as [j Hj]. exists j. exact Hj.
Qed.

Lemma generatorDraws_boundary : forallb boundaryOk generatorDraws = true.
Proof. vm_compute. reflexivity. Qed.

(** On the ranges the generator draws from, the double draw is the exact
    one at every seed. *)
Lemma draw64_generator (lo hi s : Z) :
  (lo, hi) ∈ generatorDraws -> (0 <= s < 233280)%Z ->
  draw64 lo hi s = (lo + s * (hi + 1 - lo) / 233280)%Z.
Proof.
  intros Hin Hs.
  assert (Hrange : (0 <= lo)%Z /\ (lo <= hi)%Z /\ (hi < 2 ^ 31)%Z).
  { unfold generatorDraws in Hin.
    repeat (apply elem_of_cons in Hin; destruct Hin as [[= -> ->] | Hin]; [lia |]).
    inversion Hin. }
  destruct Hrange as (Hlo & Hle & Hhi).
  destruct (Z.eq_dec ((s * (hi + 1 - lo)) mod 233280) 0%Z) as [Hz | Hnz].
  - pose proof generatorDraws_boundary as Hb.
    rewrite forallb_forall in Hb. apply list_elem_of_In in Hin.
    specialize (Hb _ Hin). unfold boundaryOk in Hb. rewrite forallb_forall in Hb.
    destruct (boundary_seed (hi + 1 - lo) s ltac:(lia) Hz) as [j Hj].
    set (gd := Z.gcd (hi + 1 - lo) 233280) in *.
    assert (Hg : (0 < gd)%Z).
    { unfold gd. pose proof (Z.gcd_nonneg (hi + 1 - lo) 233280).
      destruct (Z.eq_dec (Z.gcd (hi + 1 - lo) 233280) 0%Z) as [E | E]; [| lia].
      apply Z.gcd_eq_0_l in E. lia. }
    destruct (Z.gcd_divide_r (hi + 1 - lo) 233280) as [m' Hm']. fold gd in Hm'.
    assert (Hm : (233280 / gd = m')%Z) by (rewrite Hm' at 1; apply Z.div_mul; lia).
    rewrite Hm in *.
    assert (Hj0 : (0 <= j < gd)%Z) by nia.
    specialize (Hb (Z.to_nat j)).
    rewrite Z2Nat.id in Hb by lia. rewrite <- Hj in Hb.
    apply Z.eqb_eq, Hb, in_seq. lia.
  - now apply draw64_closed.
Qed.

(** [randomInt] in doubles is the draw at the seed the call leaves. *)
Lemma randomInt64_draw (lo hi : Z) (g : VoidRNG) :
  Rng64.randomInt (inject_Z lo) (inject_Z hi) g
  = (draw64 lo hi (seed (snd (Rng64.next g))), snd (Rng64.next g)).
Proof. reflexivity. Qed.

(** [randomInt] on exact rationals is the closed form. *)
Lemma generator_randomInt (lo hi : Z) (g : VoidRNG) :
  (0 <= seed g)%Z -> (lo, hi) ∈ generatorDraws ->
  Rng64.randomInt (inject_Z lo) (inject_Z hi) g = randomInt (inject_Z lo) (inject_Z hi) g.
Proof.
  intros Hs Hin. rewrite randomInt64_draw, randomInt_closed.
  destruct (next_bounds g Hs) as (_ & _ & Hr).
  change (Rng64.next g).2 with (next g).2.
  now rewrite draw64_generator.
Qed.

End Draws64.

(* ================================================================== *)
(** * The generator: what every call returns                          *)
(* ================================================================== *)

Section GeneratorTheorems.
Import Schema Rng Ext FragmentGenerator.

(** X2.  From a seed that is not negative (and below [2^1010], so that its
    products are finite), [next()] answers a double of [0, 1), at most
    [1 - 2^-18], the quotient of the new seed by 233280 rounded to a double,
    and leaves a seed of [0, 233280); from a seed of that range on, the
    rounding of doubles plays no part in the seed: the new seed is
    [(seed * 9301 + 49297) mod 233280]. *)
Theorem next_unit_interval (g : VoidRNG) :
  0 <= seed g < 2 ^ 1010 ->
  (0 <= fst (Rng64.next g) < 1)%Q /\
  (fst (Rng64.next g) <= 1 - F64.pow2 (-18))%Q /\
  0 <= seed (snd (Rng64.next g)) < 233280 /\
  fst (Rng64.next g) = F64.fl (inject_Z (seed (snd (Rng64.next g))) / 233280) /\
  (seed g < 233280 -> seed (snd (Rng64.next g)) = (seed g * 9301 + 49297) mod 233280).
Proof.
  intros [Hs _]. destruct (next_bounds g Hs) as (_ & _ & Hr).
  change (Rng64.next g).2 with (next g).2.
  destruct (draw_unit (seed (next g).2) Hr) as [_ [H0 H1]].
  change (F64.div (inject_Z (seed (next g).2)) 233280) with (Rng64.next g).1 in H0, H1.
  split; [split; [exact H0 |] |].
  { eapply Qle_lt_trans; [exact H1 |]. reflexivity. }
  split; [exact H1 |]. split; [exact Hr |]. split; [reflexivity |].
  intros Hlt. now apply next_step.
Qed.

(** X3.  [randomInt(lo, hi)] in doubles, on integers [0 <= lo <= hi < 2^31]
    from a seed that is not negative: one [next()], and an answer of
    [lo, hi].  With [s] the seed the call leaves, the answer is the exact
    [lo + floor(s * (hi + 1 - lo) / 233280)] whenever that quotient is no
    integer, and never differs from it by more than one down; on each of
    the ranges the generator draws from it is the exact one at every seed.
    [random(lo, hi)] lies in [lo, hi) when [lo < hi]. *)
Theorem randomInt_within (lo hi : Z) (g : VoidRNG) :
  0 <= seed g < 2 ^ 1010 ->
  0 <= lo -> lo <= hi -> hi < 2 ^ 31 ->
  snd (Rng64.randomInt (inject_Z lo) (inject_Z hi) g) = snd (Rng64.next g) /\
  lo <= fst (Rng64.randomInt (inject_Z lo) (inject_Z hi) g) <= hi /\
  lo + seed (snd (Rng64.next g)) * (hi + 1 - lo) / 233280 - 1
    <= fst (Rng64.randomInt (inject_Z lo) (inject_Z hi) g)
    <= lo + seed (snd (Rng64.next g)) * (hi + 1 - lo) / 233280 /\
  ((seed (snd (Rng64.next g)) * (hi + 1 - lo)) mod 233280 <> 0 ->
   fst (Rng64.randomInt (inject_Z lo) (inject_Z hi) g)
     = lo + seed (snd (Rng64.next g)) * (hi + 1 - lo) / 233280) /\
  ((lo, hi) ∈ generatorDraws ->
   Rng64.randomInt (inject_Z lo) (inject_Z hi) g
     = randomInt (inject_Z lo) (inject_Z hi) g) /\
  (inject_Z lo <= fst (Rng64.random (inject_Z lo) (inject_Z hi) g))%Q /\
  (lo < hi -> (fst (Rng64.random (inject_Z lo) (inject_Z hi) g) < inject_Z hi)%Q).
Proof.
  intros [Hs _] Hlo Hle Hhi.
  destruct (next_bounds g Hs) as (_ & _ & Hr).
  rewrite randomInt64_draw. cbn [fst snd].
  change (Rng64.next g).2 with (next g).2.
  destruct (draw64_closed lo hi (seed (next g).2) Hr Hlo Hle Hhi) as [Hc1 Hc2].
  split; [reflexivity |].
  split; [now apply draw64_bounds |].
  split; [exact Hc1 |]. split; [exact Hc2 |].
  split.
  { intros Hin. rewrite <- (generator_randomInt lo hi g Hs Hin). apply randomInt64_draw. }
  destruct (draw_unit (seed (next g).2) Hr) as [_ Hu].
  pose proof (scale64_range lo hi (inject_Z hi) _ Hu Hlo Hle ltac:(lia) (Qeq_refl _))
    as [H1 H2].
  change (F64.add (inject_Z lo)
            (F64.mul (F64.div (inject_Z (seed (next g).2)) 233280)
               (F64.sub (inject_Z hi) (inject_Z lo))))
    with (Rng64.random (inject_Z lo) (inject_Z hi) g).1 in H1, H2.
  split; [exact H1 |]. intros Hlt.
  assert (Hn : (1 <= inject_Z (hi - lo))%Q).
  { change 1%Q with (inject_Z 1). rewrite <- Zle_Qle. lia. }
  change (F64.pow2 (-18)) with (1 # 262144)%Q in H2. lra.
Qed.

(** [randomInt(0, 44)] from seed 167795: the call leaves the seed 67392,
    [67392 * 45 / 233280] is 13 exactly, and the double product falls just
    below 13. *)
Example randomInt_one_below :
  Rng64.randomInt 0 44 (mkVoidRNG 167795) = (12, mkVoidRNG 67392) /\
  randomInt 0 44 (mkVoidRNG 167795) = (13, mkVoidRNG 67392) /\
  (67392 * 45) mod 233280 = 0.
Proof. vm_compute. repeat split. Qed.

(** X4.  [weightedChoice] makes one draw; on a list that is not empty it answers
    the item of one of its entries, whatever the weights; only the empty list
    makes it fail. *)
Theorem weightedChoice_listed {T} (items : list (Weighted T)) (g : VoidRNG) :
  items <> [] ->
  exists it,
    it ∈ items /\ weightedChoice items g = (Some (item it), snd (next g)).
Proof.
  intros Hne. destruct (weightedChoice_cases items g) as (Hnone & Hsome & Hg).
  destruct (weightedChoice items g) as [[x |] g'] eqn:E; cbn [fst snd] in *.
  - destruct (Hsome x eq_refl) as (it & Hin & <-). exists it. subst g'. auto.
  - exfalso. apply Hne. now apply Hnone.
Qed.


Lemma randomInt64_state (lo hi : Q) (g : VoidRNG) :
  snd (Rng64.randomInt lo hi g) = snd (next g).
Proof. reflexivity. Qed.

(** On the generator's ranges the exact [randomInt] answers the double
    draw. *)
Lemma generator_draw (lo hi : Z) (g : VoidRNG) :
  0 <= seed g -> (lo, hi) ∈ generatorDraws ->
  randomInt (inject_Z lo) (inject_Z hi) g
  = (fst (Rng64.randomInt (inject_Z lo) (inject_Z hi) g), snd (next g)).
Proof.
  intros Hs Hin. rewrite <- (generator_randomInt lo hi g Hs Hin). reflexivity.
Qed.

(** On the generator's ranges the exact [randomInt] answers the double
    draw. *)
Lemma generator_draw64 (lo hi : Z) (g : VoidRNG) :
  0 <= seed g -> (lo, hi) ∈ generatorDraws ->
  randomInt (inject_Z lo) (inject_Z hi) g
  = (fst (Rng64.randomInt (inject_Z lo) (inject_Z hi) g), snd (Rng64.next g)).
Proof. apply generator_draw. Qed.

Lemma next64_seed (g : VoidRNG) :
  0 <= seed g -> 0 <= seed (snd (Rng64.next g)) < 233280.
Proof. intros Hs. now apply next_bounds. Qed.

(** The draws of [generateBaseStats] are those of the double arithmetic. *)
Lemma generateBaseStats_draws (rarity type : string) (g : VoidRNG) :
  0 <= seed g ->
  generateBaseStats rarity type g =
    (if decide (type = "base_item"%string) then
       (<["speed"%string :=
            (inject_Z (fst (Rng64.randomInt 1 10 (snd (Rng64.next (snd (Rng64.next g))))))
             * statMultiplier rarity)%Q]>
          (<["defense"%string :=
               (inject_Z (fst (Rng64.randomInt 5 25 (snd (Rng64.next g))))
                * statMultiplier rarity)%Q]>
             (<["power"%string :=
                  (inject_Z (fst (Rng64.randomInt 10 50 g)) * statMultiplier rarity)%Q]> ∅)),
        snd (Rng64.next (snd (Rng64.next (snd (Rng64.next g))))))
     else if decide (type = "component"%string) then
       (<["enhancement"%string :=
            (inject_Z (fst (Rng64.randomInt 5 20 g)) * statMultiplier rarity)%Q]> ∅,
        snd (Rng64.next g))
     else if decide (type = "modifier"%string) then
       (<["modifier"%string :=
            (inject_Z (fst (Rng64.randomInt 1 15 g)) * statMultiplier rarity)%Q]> ∅,
        snd (Rng64.next g))
     else (∅, g)).
Proof.
  intros Hs. unfold generateBaseStats. cbv zeta.
  destruct (multipliers_table rarity) as [-> _].
  pose proof (next64_seed g Hs) as Hs1.
  pose proof (next64_seed (snd (Rng64.next g)) ltac:(lia)) as Hs2.
  generalize dependent (statMultiplier rarity). intros m.
  repeat case_decide; try reflexivity.
  - change (randomInt 10 50 g) with (randomInt (inject_Z 10) (inject_Z 50) g).
    rewrite (generator_draw64 10 50 g Hs) by (apply list_elem_of_In; cbn; tauto).
    change (randomInt 5 25 (snd (Rng64.next g)))
      with (randomInt (inject_Z 5) (inject_Z 25) (snd (Rng64.next g))).
    rewrite (generator_draw64 5 25 (snd (Rng64.next g)))
      by first [lia | apply list_elem_of_In; cbn; tauto].
    change (randomInt 1 10 (snd (Rng64.next (snd (Rng64.next g)))))
      with (randomInt (inject_Z 1) (inject_Z 10) (snd (Rng64.next (snd (Rng64.next g))))).
    rewrite (generator_draw64 1 10 (snd (Rng64.next (snd (Rng64.next g)))))
      by first [lia | apply list_elem_of_In; cbn; tauto].
    reflexivity.
  - change (randomInt 5 20 g) with (randomInt (inject_Z 5) (inject_Z 20) g).
    rewrite (generator_draw64 5 20 g Hs) by (apply list_elem_of_In; cbn; tauto).
    reflexivity.
  - change (randomInt 1 15 g) with (randomInt (inject_Z 1) (inject_Z 15) g).
    rewrite (generator_draw64 1 15 g Hs) by (apply list_elem_of_In; cbn; tauto).
    reflexivity.
Qed.

(** X6.  [generateBaseStats] for a rarity that is no inherited property name,
    from a seed that is not negative: the stats are the integer draws of the
    double arithmetic, in the order power, defense, speed for a base item,
    one draw for a component and for a modifier, none otherwise, each times
    the multiplier of the rarity: 1, 1.5, 2.5, 4, 7, 12 and 20 for the seven
    tiers and 1 for any other rarity.  The keys are fixed by the type and
    every draw lies in the range of its key. *)
Theorem generateBaseStats_stats (rarity type : string) (g : VoidRNG) :
  0 <= seed g < 2 ^ 1010 ->
  rarity ∉ JS.inherited ->
  generateBaseStats rarity type g =
    (if decide (type = "base_item"%string) then
       (<["speed"%string :=
            (inject_Z (fst (Rng64.randomInt 1 10 (snd (Rng64.next (snd (Rng64.next g))))))
             * statMultiplier rarity)%Q]>
          (<["defense"%string :=
               (inject_Z (fst (Rng64.randomInt 5 25 (snd (Rng64.next g))))
                * statMultiplier rarity)%Q]>
             (<["power"%string :=
                  (inject_Z (fst (Rng64.randomInt 10 50 g)) * statMultiplier rarity)%Q]> ∅)),
        snd (Rng64.next (snd (Rng64.next (snd (Rng64.next g))))))
     else if decide (type = "component"%string) then
       (<["enhancement"%string :=
            (inject_Z (fst (Rng64.randomInt 5 20 g)) * statMultiplier rarity)%Q]> ∅,
        snd (Rng64.next g))
     else if decide (type = "modifier"%string) then
       (<["modifier"%string :=
            (inject_Z (fst (Rng64.randomInt 1 15 g)) * statMultiplier rarity)%Q]> ∅,
        snd (Rng64.next g))
     else (∅, g)) /\
  statMultiplier <$> GameLogic.rarityOrder = [1; 1.5; 2.5; 4; 7; 12; 20]%Q /\
  (rarity ∉ GameLogic.rarityOrder -> statMultiplier rarity = 1%Q) /\
  dom (fst (generateBaseStats rarity type g)) = statKeys type /\
  map_Forall (statOk (statMultiplier rarity)) (fst (generateBaseStats rarity type g)) /\
  (statKeys type = ∅ -> generateBaseStats rarity type g = (∅, g)) /\
  0 <= seed (snd (generateBaseStats rarity type g)).
Proof.
  intros [Hs _] _.
  destruct (generateBaseStats_shape rarity type g Hs) as (Hd & Hf & Hg).
  destruct (multipliers_table rarity) as [Hm _].
  split.
  { exact (generateBaseStats_draws rarity type g Hs). }
  split; [reflexivity |]. split.
  { intros Hr. now apply byRarity_other. }
  split; [exact Hd |]. split; [now rewrite <- Hm |]. split; [| exact Hg].
  unfold statKeys, generateBaseStats.
  repeat case_decide; intros He; try reflexivity; exfalso; set_solver.
Qed.

(** X7.  The rejection loop of [generateImplicitMods] ends: with at most three
    names selected it returns within twelve rounds, for every seed that is
    not negative, a name of the pool that is not selected yet.  More fuel
    does not change the answer. *)
Theorem pickMod_terminates (selectedMods : gset string) (g : VoidRNG) :
  0 <= seed g ->
  (size selectedMods <= 3)%nat ->
  exists modName g',
    (forall fuel, (12 <= fuel)%nat -> pickMod fuel selectedMods g = Some (modName, g')) /\
    (modName ∉ selectedMods) /\ (modName ∈ possibleMods).
Proof.
  intros Hs Hsize. destruct (next_bounds g Hs) as (_ & _ & Hr).
  destruct (fresh_name (seed (snd (next g))) selectedMods Hr Hsize)
    as (u & x & Hu & Hx & Hfresh).
  destruct (pickMod_returns 12 selectedMods g Hs) as (modName & g' & E & Hnew & Hpool & _).
  { exists u, x. auto. }
  exists modName, g'. split; [| auto].
  intros fuel Hfuel. replace fuel with (12 + (fuel - 12))%nat by lia.
  now apply pickMod_more.
Qed.

Lemma modsLoop_length (fuel : nat) (rarity : string) (n : nat) :
  forall (mods : list Mod) (selectedMods : gset string) (g : VoidRNG) mods' g',
    modsLoop fuel n rarity mods selectedMods g = Some (mods', g') ->
    length mods' = (length mods + n)%nat.
Proof.
  induction n as [| n IH]; intros mods sel g mods' g' H; cbn [modsLoop] in H.
  - injection H as <- _. lia.
  - destruct (pickMod fuel sel g) as [[modName g1] |]; [| discriminate].
    destruct (randomInt 5 25 g1) as [roll g2].
    apply IH in H. rewrite length_app in H. cbn in H. lia.
Qed.

Lemma modCounts_listed (rarity : string) :
  (fst (modCounts rarity), snd (modCounts rarity)) ∈ generatorDraws.
Proof.
  unfold modCounts.
  apply (byRarity_cases (fun _ k => (fst k, snd k) ∈ generatorDraws));
    intros; apply list_elem_of_In; cbn; tauto.
Qed.

(** The number of modifiers is the double draw between the two counts of the
    rarity. *)
Lemma generateImplicitMods_count (fuel : nat) (rarity : string) (g : VoidRNG) mods g' :
  0 <= seed g ->
  generateImplicitMods fuel rarity g = Some (mods, g') ->
  Z.of_nat (length mods)
  = fst (Rng64.randomInt (inject_Z (fst (modCounts rarity)))
           (inject_Z (snd (modCounts rarity))) g).
Proof.
  intros Hs H. unfold generateImplicitMods in H.
  destruct (modCounts_table rarity) as (E1 & E2 & H1 & H2 & H3).
  rewrite E1, E2 in H.
  rewrite (generator_draw _ _ g Hs (modCounts_listed rarity)) in H.
  apply modsLoop_length in H. cbn [length] in H. rewrite H, Nat.add_0_l.
  apply Z2Nat.id.
  destruct (next_bounds g Hs) as (_ & _ & Hr).
  rewrite randomInt64_draw. cbn [fst].
  pose proof (draw64_bounds (fst (modCounts rarity)) (snd (modCounts rarity))
                (seed (snd (Rng64.next g))) Hr ltac:(lia) H2 ltac:(lia)). lia.
Qed.

(** X8.  [generateImplicitMods] returns for every rarity string and every seed
    that is not negative: the number of modifiers is the double draw between
    the two counts of the rarity, which are (1,1), (1,2), (2,2), (2,3), (3,3),
    (3,4) and (4,4) for the seven tiers and (1,1) for any other rarity; the
    names are different names of the pool; the values are integers between
    5 and 25 times the scale of the rarity, which is 3 for void_touched, 2
    for mythic and 1 otherwise. *)
Theorem generateImplicitMods_terminates (rarity : string) (g : VoidRNG) :
  0 <= seed g < 2 ^ 1010 ->
  exists mods g',
    (forall fuel, (12 <= fuel)%nat ->
                  generateImplicitMods fuel rarity g = Some (mods, g')) /\
    Z.of_nat (length mods)
      = fst (Rng64.randomInt (inject_Z (fst (modCounts rarity)))
               (inject_Z (snd (modCounts rarity))) g) /\
    fst (modCounts rarity) <= Z.of_nat (length mods) <= snd (modCounts rarity) /\
    modCounts <$> GameLogic.rarityOrder
      = [(1, 1); (1, 2); (2, 2); (2, 3); (3, 3); (3, 4); (4, 4)] /\
    modScale <$> GameLogic.rarityOrder = [1; 1; 1; 1; 1; 2; 3] /\
    (rarity ∉ GameLogic.rarityOrder -> modCounts rarity = (1, 1) /\ modScale rarity = 1) /\
    (1 <= length mods <= 4)%nat /\
    NoDup (mod_name <$> mods) /\
    Forall (implicitModOk rarity) mods /\
    0 <= seed g'.
Proof.
  intros [Hs _].
  destruct (generateImplicitMods_total 12 rarity g (Nat.le_refl _) Hs)
    as (mods & g' & E & Hcount & Hlen & Hnd & Hok & Hg).
  exists mods, g'. split.
  { intros fuel Hfuel. replace fuel with (12 + (fuel - 12))%nat by lia.
    now apply generateImplicitMods_more. }
  split; [exact (generateImplicitMods_count 12 rarity g mods g' Hs E) |].
  split.
  { destruct (modCounts_table rarity) as (E1 & E2 & _).
    rewrite E1, E2, <- !Zle_Qle in Hcount. exact Hcount. }
  split; [reflexivity |]. split; [reflexivity |]. split.
  { intros Hr. split; now apply byRarity_other. }
  auto.
Qed.

(** X9.  [generateFragment] returns for every game state and every seed that is
    not negative: the type is one of the four, the rarity one of the seven,
    the base stats are those of the type, there are one to four implicit
    modifiers with different names, no affix, quantity 1, not corrupted. *)
Theorem generateFragment_terminates (gameState : GameState) (g : VoidRNG) :
  0 <= seed g ->
  exists f g',
    (forall fuel, (12 <= fuel)%nat ->
                  generateFragment fuel gameState g = Some (f, g')) /\
    g_type f ∈ fragmentTypes /\
    g_rarity f ∈ GameLogic.rarityOrder /\
    dom (g_baseStats f) = statKeys (g_type f) /\
    map_Forall (statOk (JS.or_default (multipliers !! g_rarity f) 1)) (g_baseStats f) /\
    (1 <= length (g_implicitMods f) <= 4)%nat /\
    NoDup (mod_name <$> g_implicitMods f) /\
    Forall (implicitModOk (g_rarity f)) (g_implicitMods f) /\
    g_affixes f = [] /\ g_isCorrupted f = false /\ g_quantity f = 1 /\
    0 <= seed g'.
Proof.
  intros Hs.
  destruct (generateFragment_total 12 gameState g (Nat.le_refl _) Hs)
    as (f & g' & E & H).
  exists f, g'. split; [| exact H].
  intros fuel Hfuel. replace fuel with (12 + (fuel - 12))%nat by lia.
  now apply generateFragment_more.
Qed.

(** X10.  The spin handler fed by the generator always answers.  Short of flux it
    refuses and leaves the world and the generator as they are; otherwise it
    stores one new fragment under the new id for this game state (quantity 1,
    no affix, not corrupted), takes the price of the spin and counts the
    spin. *)
Theorem spin_generates (newId : string) (w : Routes.World) (rng : VoidRNG) :
  0 <= seed rng ->
  exists w' response rng',
    (forall fuel, (12 <= fuel)%nat ->
                  spin fuel newId w rng = Some (w', response, rng')) /\
    (flux (Routes.gameState w) < spinCost (Routes.gameState w) ->
     w' = w /\ rng' = rng /\ response = Routes.Error 400 "Insufficient flux") /\
    (spinCost (Routes.gameState w) <= flux (Routes.gameState w) ->
     exists f,
       response = Routes.SpinOk f (spinCost (Routes.gameState w)) /\
       Routes.fragments w' = Routes.fragments w ++ [f] /\
       Routes.listings w' = Routes.listings w /\
       id f = newId /\ gameStateId f = gs_id (Routes.gameState w) /\
       type f ∈ fragmentTypes /\ rarity f ∈ GameLogic.rarityOrder /\
       affixes f = [] /\ isCorrupted f = false /\ quantity f = 1 /\
       flux (Routes.gameState w')
         = flux (Routes.gameState w) - spinCost (Routes.gameState w) /\
       totalSpins (Routes.gameState w') = totalSpins (Routes.gameState w) + 1 /\
       0 <= seed rng').
Proof.
  intros Hs. unfold spin, spinCost.
  set (cost := Z.max (25 - (fluxCostLevel (Routes.gameState w) - 1) * 5) 5).
  destruct (generateFragment_total 12 (Routes.gameState w) rng (Nat.le_refl _) Hs)
    as (f & g' & Hrun & Htype & Hrar & _ & _ & _ & _ & _ & _ & _ & _ & Hg).
  destruct (bool_decide (flux (Routes.gameState w) < cost)) eqn:E.
  - apply bool_decide_eq_true in E.
    exists w, (Routes.Error 400 "Insufficient flux"), rng.
    split; [reflexivity |]. split; [auto | lia].
  - apply bool_decide_eq_false in E.
    exists (fst (Routes.spin (toDraft f) newId w)), (snd (Routes.spin (toDraft f) newId w)), g'.
    split; [| split; [lia |]].
    + intros fuel Hfuel. replace fuel with (12 + (fuel - 12))%nat by lia.
      rewrite (generateFragment_more _ _ _ _ _ Hrun).
      now destruct (Routes.spin (toDraft f) newId w).
    + intros _. unfold Routes.spin. fold cost.
      rewrite (bool_decide_eq_false_2 _ E). cbn.
      eexists. split; [reflexivity |]. cbn.
      repeat (split; [reflexivity || assumption |]). exact Hg.
Qed.

End GeneratorTheorems.

(* ================================================================== *)
(** * Shatter value and mutation cost as integers                     *)
(* ================================================================== *)

Section Economy.
Import Schema GameLogic Ext.

Lemma tier_cases (r : string) (t : nat) :
  tier r = Some t ->
  (r, t) ∈ [("common"%string, 0%nat); ("uncommon"%string, 1%nat); ("rare"%string, 2%nat);
            ("epic"%string, 3%nat); ("legendary"%string, 4%nat);
            ("mythic"%string, 5%nat); ("void_touched"%string, 6%nat)].
Proof.
  unfold tier, rarityOrder. cbn [indexOf].
  repeat (case_decide; [subst r; intros [= <-]; cbn; set_solver |]).
  discriminate.
Qed.

Lemma tier_None (r : string) : tier r = None <-> r ∉ rarityOrder.
Proof.
  unfold tier, rarityOrder. cbn [indexOf]. split.
  - repeat (case_decide; [discriminate |]). intros _ Hin.
    repeat (apply elem_of_cons in Hin; destruct Hin as [Hin | Hin]; [congruence |]).
    inversion Hin.
  - intros Hin. repeat (case_decide; [exfalso; apply Hin; subst r; set_solver |]).
    reflexivity.
Qed.

Lemma Qfloor_inject (x : Q) (z : Z) : (x == inject_Z z)%Q -> Qfloor x = z.
Proof. intros H. rewrite (Qfloor_comp _ _ H). apply Qfloor_Z. Qed.

Lemma calculateShatterValue_weight (f : Fragment) :
  calculateShatterValue f = 5 * shatterWeight (rarity f) * quantity f.
Proof.
  unfold calculateShatterValue, JS.floor.
  destruct (shatterWeight_table (rarity f)) as [-> _].
  apply Qfloor_inject. rewrite !inject_Z_mult. reflexivity.
Qed.

Lemma weights_monotone (r r' : string) (t t' : nat) :
  tier r = Some t -> tier r' = Some t' -> (t <= t')%nat ->
  shatterWeight r <= shatterWeight r' /\ costWeight r <= costWeight r'.
Proof.
  intros H H' Hle. apply tier_cases in H. apply tier_cases in H'.
  repeat (apply elem_of_cons in H; destruct H as [H | H];
          [injection H as -> -> |]); [.. | inversion H];
    repeat (apply elem_of_cons in H'; destruct H' as [H' | H'];
            [injection H' as -> -> |]); try (inversion H'; fail);
    first [ exfalso; lia | split; vm_compute; discriminate ].
Qed.

(** X11.  For a rarity that is no inherited property name and a quantity of
    32-bit size, shattering pays [5 * weight * quantity] exactly, [Math.floor]
    changing nothing; the weights of the seven tiers are 1, 3, 8, 20, 50, 125
    and 300, any other rarity weighs 1, and a higher tier never pays less. *)
Theorem calculateShatterValue_exact (f : Fragment) :
  rarity f ∉ JS.inherited ->
  Z.abs (quantity f) < 2 ^ 31 ->
  calculateShatterValue f = 5 * shatterWeight (rarity f) * quantity f /\
  shatterWeight <$> rarityOrder = [1; 3; 8; 20; 50; 125; 300] /\
  (rarity f ∉ rarityOrder -> shatterWeight (rarity f) = 1) /\
  1 <= shatterWeight (rarity f) <= 300 /\
  (forall f' t t',
      tier (rarity f) = Some t -> tier (rarity f') = Some t' -> (t <= t')%nat ->
      quantity f' = quantity f -> 0 <= quantity f ->
      calculateShatterValue f <= calculateShatterValue f').
Proof.
  intros _ _.
  split; [apply calculateShatterValue_weight |].
  split; [reflexivity |]. split; [| split; [apply shatterWeight_table |]].
  - intros Hr. now apply byRarity_other.
  - intros f' t t' Ht Ht' Hle Hq Hpos.
    rewrite !calculateShatterValue_weight, Hq.
    destruct (weights_monotone _ _ _ _ Ht Ht' Hle) as [Hw _]. nia.
Qed.

Lemma fold_cost (cs : list Fragment) :
  forall (t0 : Q) (z0 : Z),
    (t0 == inject_Z z0)%Q ->
    (fold_left
       (fun totalCost component =>
          totalCost + 100 * 0.5 * JS.or_default (costMultipliers !! rarity component) 1)%Q
       cs t0
     == inject_Z (z0 + 50 * sumZ ((fun c => costWeight (rarity c)) <$> cs)))%Q.
Proof.
  unfold sumZ.
  induction cs as [| c cs IH]; intros t0 z0 H0; cbn [fold_left fmap list_fmap fold_right].
  - rewrite H0. now rewrite Z.mul_0_r, Z.add_0_r.
  - rewrite (IH _ (z0 + 50 * costWeight (rarity c))).
    + apply inject_Z_injective. lia.
    + destruct (costWeight_table (rarity c)) as [-> _]. rewrite H0.
      rewrite inject_Z_plus, inject_Z_mult. change (inject_Z 50) with 50%Q. lra.
Qed.

Lemma calculateMutationCost_weight (b : Fragment) (cs : list Fragment) :
  calculateMutationCost b cs
  = 100 + 100 * costWeight (rarity b) + 50 * sumZ ((fun c => costWeight (rarity c)) <$> cs).
Proof.
  unfold calculateMutationCost. cbv zeta. unfold JS.floor.
  apply Qfloor_inject.
  rewrite (fold_cost cs _ (100 + 100 * costWeight (rarity b))).
  - apply inject_Z_injective. lia.
  - destruct (costWeight_table (rarity b)) as [-> _].
    rewrite inject_Z_plus, inject_Z_mult. reflexivity.
Qed.

Lemma sumZ_weights_ge (cs : list Fragment) :
  Z.of_nat (length cs) <= sumZ ((fun c => costWeight (rarity c)) <$> cs).
Proof.
  unfold sumZ. induction cs as [| c cs IH]; [reflexivity |].
  cbn [fmap list_fmap fold_right length] in *.
  destruct (costWeight_table (rarity c)) as [_ H]. lia.
Qed.

Lemma sumZ_Permutation (l l' : list Z) : l ≡ₚ l' -> sumZ l = sumZ l'.
Proof.
  unfold sumZ. induction 1; cbn [fold_right] in *; lia.
Qed.

(** X12.  For rarities that are no inherited property names, the mutation
    cost is [100 + 100 * weight(base) + 50 * (sum of the components'
    weights)] exactly; the weights of the seven tiers are 1, 2, 4, 8, 16, 32
    and 64, any other rarity weighs 1; the cost is at least [200 + 50 * n]
    for [n] components, and the order of the components does not matter. *)
Theorem calculateMutationCost_exact (b : Fragment) (cs : list Fragment) :
  rarity b ∉ JS.inherited ->
  Forall (fun c => rarity c ∉ JS.inherited) cs ->
  calculateMutationCost b cs
    = 100 + 100 * costWeight (rarity b)
      + 50 * sumZ ((fun c => costWeight (rarity c)) <$> cs) /\
  costWeight <$> rarityOrder = [1; 2; 4; 8; 16; 32; 64] /\
  (forall r, r ∉ rarityOrder -> costWeight r = 1) /\
  200 + 50 * Z.of_nat (length cs) <= calculateMutationCost b cs /\
  (forall cs', cs ≡ₚ cs' -> calculateMutationCost b cs' = calculateMutationCost b cs).
Proof.
  intros _ _.
  split; [apply calculateMutationCost_weight |].
  split; [reflexivity |]. split; [| split].
  - intros r Hr. now apply byRarity_other.
  - rewrite calculateMutationCost_weight.
    pose proof (sumZ_weights_ge cs). destruct (costWeight_table (rarity b)) as [_ H']. lia.
  - intros cs' Hp. rewrite !calculateMutationCost_weight.
    rewrite (sumZ_Permutation _ ((fun c => costWeight (rarity c)) <$> cs)); [reflexivity |].
    apply fmap_Permutation. now symmetry.
Qed.

End Economy.

(* ================================================================== *)
(** * Upgrade costs                                                   *)
(* ================================================================== *)

Section Upgrades.
Import Schema GameLogic Ext.
Local Open Scope Q_scope.

Lemma power_succ (n : Z) : (0 <= n)%Z -> Qpower 1.5 (n + 1) == Qpower 1.5 n * 1.5.
Proof.
  intros Hn. rewrite Qpower_plus by discriminate. reflexivity.
Qed.

Lemma power_ge_1 (n : Z) : (0 <= n)%Z -> 1 <= Qpower 1.5 n.
Proof.
  intros Hn. pattern n. apply natlike_ind; [discriminate | | exact Hn].
  intros k Hk IH. unfold Z.succ. rewrite power_succ by exact Hk. nra.
Qed.

Lemma baseCost_range (upgradeType : string) :
  500 <= JS.or_default (baseCosts !! upgradeType) 500 <= 2500.
Proof.
  unfold JS.or_default.
  destruct (baseCosts !! upgradeType) as [q |] eqn:E; [| split; discriminate].
  unfold baseCosts in E. apply elem_of_list_to_map_2 in E.
  repeat (apply elem_of_cons in E; destruct E as [E | E];
          [injection E as -> ->; split; discriminate |]).
  inversion E.
Qed.

Lemma Qfloor_shift (x : Q) (k : Z) : (Qfloor x + k)%Z = Qfloor (x + inject_Z k).
Proof.
  symmetry. apply Z.le_antisymm.
  - assert (H : inject_Z (Qfloor (x + inject_Z k) - k) <= x).
    { unfold Z.sub. rewrite inject_Z_plus, inject_Z_opp.
      pose proof (Qfloor_le (x + inject_Z k)). lra. }
    pose proof (Qlt_floor x) as Hx.
    assert (Hlt : inject_Z (Qfloor (x + inject_Z k) - k) < inject_Z (Qfloor x + 1)) by lra.
    rewrite <- Zlt_Qlt in Hlt. lia.
  - assert (H : inject_Z (Qfloor x + k) <= x + inject_Z k).
    { rewrite inject_Z_plus. pose proof (Qfloor_le x). lra. }
    pose proof (Qlt_floor (x + inject_Z k)) as Hx.
    assert (Hlt : inject_Z (Qfloor x + k) < inject_Z (Qfloor (x + inject_Z k) + 1)) by lra.
    rewrite <- Zlt_Qlt in Hlt. lia.
Qed.

Lemma upgradeCost_growth (gameState gameState' : GameState) (upgradeType : string) :
  (1 <= currentLevel gameState upgradeType)%Z ->
  currentLevel gameState' upgradeType = (currentLevel gameState upgradeType + 1)%Z ->
  (500 <= calculateDeviceUpgradeCost gameState upgradeType)%Z /\
  (calculateDeviceUpgradeCost gameState upgradeType + 250
   <= calculateDeviceUpgradeCost gameState' upgradeType)%Z.
Proof.
  intros Hl Hnext. unfold calculateDeviceUpgradeCost, JS.floor. cbv zeta. rewrite Hnext.
  set (b := JS.or_default (baseCosts !! upgradeType) 500).
  pose proof (baseCost_range upgradeType) as Hb. fold b in Hb.
  set (n := (currentLevel gameState upgradeType - 1)%Z).
  replace (currentLevel gameState upgradeType + 1 - 1)%Z with (n + 1)%Z by (unfold n; lia).
  assert (Hn : (0 <= n)%Z) by (unfold n; lia).
  pose proof (power_ge_1 n Hn) as Hp.
  pose proof (power_succ n Hn) as Hs.
  set (p := Qpower 1.5 n) in *. set (p' := Qpower 1.5 (n + 1)) in *.
  split.
  - change 500%Z with (Qfloor 500). apply Qfloor_resp_le. nra.
  - rewrite Qfloor_shift. apply Qfloor_resp_le.
    change (inject_Z 250) with 250. rewrite Hs. nra.
Qed.

End Upgrades.

(* ================================================================== *)
(** * The upgrade handler; the success rate                           *)
(* ================================================================== *)

Section UpgradeHandler.
Import Schema Routes GameLogic Ext.

Lemma cost_by_level (g g' : GameState) (upgradeType : string) :
  currentLevel g' upgradeType = currentLevel g upgradeType ->
  calculateDeviceUpgradeCost g' upgradeType = calculateDeviceUpgradeCost g upgradeType.
Proof. intros H. unfold calculateDeviceUpgradeCost. now rewrite H. Qed.

Lemma upgrade_valid (upgradeType : string) (w : World) :
  upgradeType ∈ upgradeTypes ->
  calculateDeviceUpgradeCost (gameState w) upgradeType <= flux (gameState w) ->
  snd (upgrade upgradeType w) = UpgradeOk (gameState (fst (upgrade upgradeType w))) /\
  flux (gameState (fst (upgrade upgradeType w)))
    = flux (gameState w) - calculateDeviceUpgradeCost (gameState w) upgradeType /\
  currentLevel (gameState (fst (upgrade upgradeType w))) upgradeType
    = currentLevel (gameState w) upgradeType + 1 /\
  (forall other, other <> upgradeType ->
     currentLevel (gameState (fst (upgrade upgradeType w))) other
       = currentLevel (gameState w) other) /\
  totalSpins (gameState (fst (upgrade upgradeType w))) = totalSpins (gameState w) /\
  fragments (fst (upgrade upgradeType w)) = fragments w /\
  listings (fst (upgrade upgradeType w)) = listings w.
Proof.
  intros Hin Hflux. unfold upgrade. cbv zeta.
  rewrite bool_decide_eq_false_2 by lia.
  unfold upgradeTypes in Hin.
  repeat (apply elem_of_cons in Hin; destruct Hin as [-> | Hin]);
    [.. | inversion Hin];
    repeat (case_decide; try congruence);
    cbn [fst snd]; unfold updateGameState, applyUpdates;
    cbn [gameState fragments listings flux totalSpins spinSpeedLevel rarityOddsLevel
         fluxCostLevel mutationSlotsLevel default from_option u_flux u_totalSpins
         u_spinSpeedLevel u_rarityOddsLevel u_fluxCostLevel u_mutationSlotsLevel];
    (split; [reflexivity |]); (split; [reflexivity |]);
    (split; [reflexivity |]);
    (split; [| split; [reflexivity | split; reflexivity]]);
    intros other Hother; unfold currentLevel;
    cbn [spinSpeedLevel rarityOddsLevel fluxCostLevel mutationSlotsLevel];
    repeat (case_decide; [congruence || reflexivity |]); reflexivity.
Qed.

Lemma upgrade_error (upgradeType : string) (w : World) :
  (bool_decide (calculateDeviceUpgradeCost (gameState w) upgradeType <= flux (gameState w))
     = false <->
   snd (upgrade upgradeType w) = Error 400 "Insufficient flux") /\
  (upgradeType ∉ upgradeTypes ->
   calculateDeviceUpgradeCost (gameState w) upgradeType = 500 /\
   (500 <= flux (gameState w) ->
    snd (upgrade upgradeType w) = Error 400 "Invalid upgrade type")) /\
  (forall status message,
     snd (upgrade upgradeType w) = Error status message -> fst (upgrade upgradeType w) = w).
Proof.
  unfold upgrade. cbv zeta. split; [| split].
  - destruct (bool_decide (flux (gameState w) < _)) eqn:E.
    + apply bool_decide_eq_true in E. cbn [snd]. split; [reflexivity | intros _].
      apply bool_decide_eq_false. lia.
    + apply bool_decide_eq_false in E. split.
      * intros H. apply bool_decide_eq_false in H. lia.
      * repeat (case_decide; [discriminate |]). discriminate.
  - intros Hnot.
    assert (H1 : upgradeType <> "spinSpeed"%string) by (intros ->; apply Hnot; set_solver).
    assert (H2 : upgradeType <> "rarityOdds"%string) by (intros ->; apply Hnot; set_solver).
    assert (H3 : upgradeType <> "fluxCost"%string) by (intros ->; apply Hnot; set_solver).
    assert (H4 : upgradeType <> "mutationSlots"%string) by (intros ->; apply Hnot; set_solver).
    assert (Hc : calculateDeviceUpgradeCost (gameState w) upgradeType = 500).
    { unfold calculateDeviceUpgradeCost, currentLevel, JS.or_default.
      repeat (case_decide; [congruence |]).
      destruct (baseCosts !! upgradeType) as [q |] eqn:E; [| reflexivity].
      exfalso. unfold baseCosts in E. apply elem_of_list_to_map_2 in E.
      repeat (apply elem_of_cons in E; destruct E as [E | E];
              [injection E as E _; congruence |]).
      inversion E. }
    split; [exact Hc |]. intros Hflux. rewrite Hc.
    rewrite bool_decide_eq_false_2 by lia.
    repeat (case_decide; [congruence |]). reflexivity.
  - intros status message. destruct (bool_decide _); [reflexivity |].
    repeat (case_decide; [discriminate |]). reflexivity.
Qed.

Lemma costs_are_doubles :
  forallb (fun t => forallb (fun k => costIsDouble t (Z.of_nat k)) (seq 0 28)) upgradeTypes
  = true.
Proof. vm_compute. reflexivity. Qed.

Lemma costIsDouble_level (upgradeType : string) (k : Z) :
  upgradeType ∈ upgradeTypes -> 0 <= k <= 27 -> costIsDouble upgradeType k = true.
Proof.
  intros Hin Hk. pose proof costs_are_doubles as H.
  rewrite forallb_forall in H. apply list_elem_of_In in Hin.
  specialize (H _ Hin). cbv beta in H. rewrite forallb_forall in H.
  specialize (H (Z.to_nat k)). rewrite Z2Nat.id in H by lia.
  apply H, in_seq. lia.
Qed.

Lemma baseCosts_table (upgradeType : string) :
  JS.or_default (baseCosts !! upgradeType) 500 = inject_Z (trackCost upgradeType).
Proof.
  unfold trackCost, JS.or_default.
  repeat (case_decide; [subst upgradeType; reflexivity |]).
  unfold baseCosts. rewrite not_elem_of_list_to_map_1; [reflexivity |].
  cbn. intros Hin.
  repeat (apply elem_of_cons in Hin; destruct Hin as [-> | Hin]; [congruence |]).
  inversion Hin.
Qed.

Lemma upgradeCost_formula (gameState : GameState) (upgradeType : string) :
  calculateDeviceUpgradeCost gameState upgradeType
  = Qfloor (inject_Z (trackCost upgradeType)
            * Qpower 1.5 (currentLevel gameState upgradeType - 1)).
Proof. unfold calculateDeviceUpgradeCost. now rewrite baseCosts_table. Qed.

(** X13.  An upgrade of one of the four tracks, at a level up to 27, that the
    player can pay: flux goes down by the cost, which is the floor of the
    base cost of the track (500, 1200, 800 or 2500) times [1.5^(level - 1)],
    a product that doubles compute exactly at these levels; the level of
    that track goes up by one and no other level moves; the next upgrade of
    the track costs at least 250 more, and the other tracks cost what they
    did. *)
Theorem upgrade_effect (upgradeType : string) (w : World) :
  upgradeType ∈ upgradeTypes ->
  1 <= currentLevel (gameState w) upgradeType <= 27 ->
  calculateDeviceUpgradeCost (gameState w) upgradeType <= flux (gameState w) ->
  snd (upgrade upgradeType w) = UpgradeOk (gameState (fst (upgrade upgradeType w))) /\
  flux (gameState (fst (upgrade upgradeType w)))
    = flux (gameState w) - calculateDeviceUpgradeCost (gameState w) upgradeType /\
  calculateDeviceUpgradeCost (gameState w) upgradeType
    = Qfloor (inject_Z (trackCost upgradeType)
              * Qpower 1.5 (currentLevel (gameState w) upgradeType - 1)) /\
  trackCost <$> upgradeTypes = [500; 1200; 800; 2500] /\
  costIsDouble upgradeType (currentLevel (gameState w) upgradeType - 1) = true /\
  costIsDouble upgradeType (currentLevel (gameState w) upgradeType) = true /\
  currentLevel (gameState (fst (upgrade upgradeType w))) upgradeType
    = currentLevel (gameState w) upgradeType + 1 /\
  (forall other, other ∈ upgradeTypes -> other <> upgradeType ->
     currentLevel (gameState (fst (upgrade upgradeType w))) other
       = currentLevel (gameState w) other /\
     calculateDeviceUpgradeCost (gameState (fst (upgrade upgradeType w))) other
       = calculateDeviceUpgradeCost (gameState w) other) /\
  500 <= calculateDeviceUpgradeCost (gameState w) upgradeType /\
  calculateDeviceUpgradeCost (gameState w) upgradeType + 250
    <= calculateDeviceUpgradeCost (gameState (fst (upgrade upgradeType w))) upgradeType /\
  totalSpins (gameState (fst (upgrade upgradeType w))) = totalSpins (gameState w) /\
  fragments (fst (upgrade upgradeType w)) = fragments w /\
  listings (fst (upgrade upgradeType w)) = listings w.
Proof.
  intros Hin Hlevel Hflux.
  destruct (upgrade_valid upgradeType w Hin Hflux) as (Hr & Hf & Hl & Ho & Ht & Hfr & Hli).
  destruct (upgradeCost_growth (gameState w) (gameState (fst (upgrade upgradeType w)))
              upgradeType ltac:(lia) Hl) as [Hbase Hgrow].
  split; [exact Hr |]. split; [exact Hf |].
  split; [apply upgradeCost_formula |]. split; [reflexivity |].
  split; [apply costIsDouble_level; [exact Hin | lia] |].
  split; [apply costIsDouble_level; [exact Hin | lia] |].
  split; [exact Hl |]. split.
  { intros other _ Hother. split; [now apply Ho |]. apply cost_by_level. now apply Ho. }
  auto 10.
Qed.

(** X14.  For a track name that is no inherited property name, the upgrade
    button and the handler agree: the handler answers "Insufficient flux"
    exactly when the client's [canAfford] is false; a track that does not
    exist costs 500 at any level and is refused; a refused upgrade leaves
    the world as it is. *)
Theorem upgrade_refusal (upgradeType : string) (w : World) :
  upgradeType ∉ JS.inherited ->
  (Controls.canAfford (gameState w) upgradeType = false <->
   snd (upgrade upgradeType w) = Error 400 "Insufficient flux") /\
  (upgradeType ∉ upgradeTypes ->
   calculateDeviceUpgradeCost (gameState w) upgradeType = 500 /\
   (flux (gameState w) < 500 ->
    snd (upgrade upgradeType w) = Error 400 "Insufficient flux") /\
   (500 <= flux (gameState w) ->
    snd (upgrade upgradeType w) = Error 400 "Invalid upgrade type")) /\
  (forall status message,
     snd (upgrade upgradeType w) = Error status message -> fst (upgrade upgradeType w) = w).
Proof.
  intros _. destruct (upgrade_error upgradeType w) as (H1 & H2 & H3).
  split; [exact H1 |]. split; [| exact H3].
  intros Hnot. destruct (H2 Hnot) as [Hc Hinv].
  split; [exact Hc |]. split; [| exact Hinv].
  intros Hlt. apply H1. apply bool_decide_eq_false. lia.
Qed.

End UpgradeHandler.

Section Rates.
Import Schema GameLogic Ext.
Local Open Scope Q_scope.

(** X15.  More components never raise the success rate of a mutation, and a higher
    level of the mutation slots never lowers it, for any base fragment. *)
Theorem calculateMutationSuccessRate_monotone
    (b : Fragment) (cs cs' : list Fragment) (g g' : GameState) :
  (length cs <= length cs')%nat ->
  (mutationSlotsLevel g' <= mutationSlotsLevel g)%Z ->
  calculateMutationSuccessRate b cs' g' <= calculateMutationSuccessRate b cs g.
Proof.
  intros Hlen Hlevel. unfold calculateMutationSuccessRate, JS.min, JS.max. cbv zeta.
  set (rate := JS.or_default (raritySuccessRates !! rarity b) 0.5).
  assert (Hn : inject_Z (Z.of_nat (length cs)) <= inject_Z (Z.of_nat (length cs'))).
  { rewrite <- Zle_Qle. lia. }
  assert (Hl : inject_Z (mutationSlotsLevel g') <= inject_Z (mutationSlotsLevel g)).
  { now rewrite <- Zle_Qle. }
  apply Q.min_le_compat_r. apply Qplus_le_compat; [| lra].
  apply Q.max_le_compat_r. lra.
Qed.

End Rates.

(* ================================================================== *)
(** * The client's controls against the handlers                      *)
(* ================================================================== *)

Section ClientControls.
Import Schema Routes GameLogic Ext.

Lemma fluxCost_spinCost (g : GameState) :
  (Client.fluxCost (Client.getDeviceStats g) == inject_Z (spinCost g))%Q.
Proof.
  unfold Client.getDeviceStats, spinCost, JS.max. cbn [Client.fluxCost].
  destruct (Z.max_spec (25 - (fluxCostLevel g - 1) * 5) 5) as [[Hlt ->] | [Hle ->]].
  - rewrite Q.max_r; [reflexivity |].
    rewrite Zlt_Qlt in Hlt. unfold Z.sub in Hlt.
    rewrite inject_Z_plus, inject_Z_opp, inject_Z_mult, inject_Z_plus in Hlt.
    change (inject_Z 25) with 25%Q in Hlt. change (inject_Z 5) with 5%Q in Hlt.
    change (inject_Z (-(1))) with (-1)%Q in Hlt. lra.
  - rewrite Q.max_l.
    + unfold Z.sub. rewrite inject_Z_plus, inject_Z_opp, inject_Z_mult, inject_Z_plus.
      change (inject_Z 25) with 25%Q. change (inject_Z 5) with 5%Q.
      change (inject_Z (-(1))) with (-1)%Q. lra.
    + rewrite Zle_Qle in Hle. unfold Z.sub in Hle.
      rewrite inject_Z_plus, inject_Z_opp, inject_Z_mult, inject_Z_plus in Hle.
      change (inject_Z 25) with 25%Q in Hle. change (inject_Z 5) with 5%Q in Hle.
      change (inject_Z (-(1))) with (-1)%Q in Hle. lra.
Qed.

(** X16.  The spin button and the spin handler agree: the price the client shows
    is the price the handler takes, between 5 and 25 from level 1 on, and an
    idle device lets the player spin exactly when the handler accepts the
    spin. *)
Theorem canSpin_agrees (fragment : FragmentDraft) (newId : string) (w : World) :
  (Client.fluxCost (Client.getDeviceStats (gameState w))
     == inject_Z (spinCost (gameState w)))%Q /\
  (1 <= fluxCostLevel (gameState w) -> 5 <= spinCost (gameState w) <= 25) /\
  Controls.canSpin (gameState w) true = false /\
  (Controls.canSpin (gameState w) false = true <->
   exists created, snd (spin fragment newId w) = SpinOk created (spinCost (gameState w))) /\
  (Controls.canSpin (gameState w) false = false <->
   spin fragment newId w = (w, Error 400 "Insufficient flux")).
Proof.
  pose proof (fluxCost_spinCost (gameState w)) as Hc.
  split; [exact Hc |]. split; [unfold spinCost; lia |].
  split; [unfold Controls.canSpin; apply andb_false_r |].
  assert (Hcan : Controls.canSpin (gameState w) false = true
                 <-> spinCost (gameState w) <= flux (gameState w)).
  { unfold Controls.canSpin. rewrite andb_true_r, leb_spec, Hc, <- Zle_Qle. reflexivity. }
  unfold spin. fold (spinCost (gameState w)).
  destruct (bool_decide (flux (gameState w) < spinCost (gameState w))) eqn:E.
  - apply bool_decide_eq_true in E. split.
    + rewrite Hcan. split; [lia | intros [created H]; discriminate H].
    + split; [reflexivity | intros _].
      apply not_true_is_false. intros E'. apply Hcan in E'. lia.
  - apply bool_decide_eq_false in E. cbn [createFragment snd]. split.
    + rewrite Hcan. split; [eauto | lia].
    + split; [| discriminate].
      intros H. exfalso.
      assert (Hn : ~ spinCost (gameState w) <= flux (gameState w)).
      { rewrite <- Hcan. rewrite H. discriminate. }
      lia.
Qed.

Lemma clientBaseCost_le (b : Fragment) :
  (if decide (rarity b = "rare"%string) then 400
   else if decide (rarity b = "uncommon"%string) then 200 else 100)
  <= 100 * costWeight (rarity b) /\
  (costWeight (rarity b) <= 4 ->
   (if decide (rarity b = "rare"%string) then 400
    else if decide (rarity b = "uncommon"%string) then 200 else 100)
   = 100 * costWeight (rarity b)).
Proof.
  destruct (costWeight_table (rarity b)) as [_ Hw].
  destruct (decide (rarity b = "rare"%string)) as [-> | Hr];
    [split; [vm_compute; discriminate | reflexivity] |].
  destruct (decide (rarity b = "uncommon"%string)) as [-> | Hu];
    [split; [vm_compute; discriminate | reflexivity] |].
  split; [lia |]. intros Hle.
  clear Hw. unfold costWeight, byRarity in *.
  repeat case_decide; first [congruence | lia].
Qed.

Lemma sumZ_ones (cs : list Fragment) :
  Forall (fun c => costWeight (rarity c) = 1) cs ->
  sumZ ((fun c => costWeight (rarity c)) <$> cs) = Z.of_nat (length cs).
Proof.
  unfold sumZ. induction 1 as [| c cs Hc _ IH]; [reflexivity |].
  cbn [fmap list_fmap fold_right length] in *. lia.
Qed.

(** X17.  The cost the crafting panel shows never exceeds the cost the handler
    takes, so a button disabled for lack of flux is never wrong; the two are
    equal when the base is at most rare and every component has weight 1. *)
Theorem estimatedCost_below (b : Fragment) (cs : list Fragment) :
  Controls.canMutate (Some b) cs = true ->
  Controls.estimatedCost (Some b) cs <= calculateMutationCost b cs /\
  (costWeight (rarity b) <= 4 ->
   Forall (fun c => costWeight (rarity c) = 1) cs ->
   Controls.estimatedCost (Some b) cs = calculateMutationCost b cs) /\
  (forall g isPending,
      flux g < Controls.estimatedCost (Some b) cs ->
      Controls.mutateDisabled g (Some b) cs isPending = true /\
      flux g < calculateMutationCost b cs).
Proof.
  intros Hcan. unfold Controls.mutateDisabled, Controls.estimatedCost. rewrite Hcan.
  rewrite calculateMutationCost_weight.
  destruct (clientBaseCost_le b) as [Hle Heq].
  pose proof (sumZ_weights_ge cs) as Hsum.
  split; [lia |]. split.
  - intros Hw Hones. rewrite (Heq Hw), (sumZ_ones cs Hones). lia.
  - intros g isPending Hflux. split; [| lia].
    rewrite (bool_decide_eq_true_2 _ Hflux). now rewrite orb_true_r.
Qed.

End ClientControls.

(* ================================================================== *)
(** * The success rate the crafting panel shows                       *)
(* ================================================================== *)

Section Estimates.
Import Schema Routes GameLogic Ext.

Lemma round_inject (x : Q) (z : Z) : (x == inject_Z z)%Q -> JS.round x = z.
Proof.
  intros H. unfold JS.round. rewrite (Qfloor_comp _ (inject_Z z + (1 # 2))%Q) by (now rewrite H).
  apply Z.le_antisymm.
  - pose proof (Qfloor_le (inject_Z z + (1 # 2))) as Hle.
    assert (Hlt : (inject_Z (Qfloor (inject_Z z + (1 # 2))) < inject_Z (z + 1))%Q).
    { rewrite inject_Z_plus. change (inject_Z 1) with 1%Q. lra. }
    rewrite <- Zlt_Qlt in Hlt. lia.
  - pose proof (Qlt_floor (inject_Z z + (1 # 2))) as Hlt.
    assert (Hlt' : (inject_Z z < inject_Z (Qfloor (inject_Z z + (1 # 2)) + 1))%Q) by lra.
    rewrite <- Zlt_Qlt in Hlt'. lia.
Qed.

Lemma percent_level1 (r : Q) (p n : Z) :
  (r * 100 == inject_Z p)%Q -> p <= 95 -> 1 <= n ->
  (Qmin (Qmax (r - (inject_Z n - 1) * 0.1) 0.05 + (inject_Z 1 - 1) * 0.05) 0.95 * 100
   == inject_Z (Z.max (p - (n - 1) * 10) 5))%Q.
Proof.
  intros Hr Hp Hn.
  assert (Hp' : (inject_Z p <= 95)%Q) by (now rewrite (Zle_Qle p 95) in Hp).
  assert (Hz : (inject_Z (p - (n - 1) * 10) == inject_Z p - (inject_Z n - 1) * 10)%Q).
  { unfold Z.sub. rewrite !inject_Z_plus, inject_Z_opp, inject_Z_mult, inject_Z_plus.
    change (inject_Z (-(1))) with (-1)%Q. change (inject_Z 10) with 10%Q. ring. }
  assert (Hn' : (1 <= inject_Z n)%Q) by (now rewrite (Zle_Qle 1 n) in Hn).
  change (inject_Z 1) with 1%Q.
  destruct (Z.max_spec (p - (n - 1) * 10) 5) as [[Hlt ->] | [Hle ->]].
  - rewrite Zlt_Qlt, Hz in Hlt. change (inject_Z 5) with 5%Q in *.
    rewrite Q.max_r by lra. rewrite Q.min_l by lra. lra.
  - rewrite Zle_Qle, Hz in Hle. change (inject_Z 5) with 5%Q in *.
    rewrite Q.max_l by lra. rewrite Q.min_l by lra. rewrite Hz. lra.
Qed.

(** X18.  At level 1 of the mutation slots and for a base that is common, uncommon
    or rare, the success rate the crafting panel shows is the percentage the
    handler reports. *)
Theorem estimatedSuccessRate_agrees (b : Fragment) (cs : list Fragment) (g : GameState) :
  Controls.canMutate (Some b) cs = true ->
  mutationSlotsLevel g = 1 ->
  rarity b ∈ ["common"; "uncommon"; "rare"]%string ->
  JS.round (calculateMutationSuccessRate b cs g * 100)
    = Controls.estimatedSuccessRate (Some b) cs.
Proof.
  intros Hcan Hlevel Hr. unfold Controls.estimatedSuccessRate. rewrite Hcan.
  assert (Hn : 1 <= Z.of_nat (length cs)).
  { unfold Controls.canMutate in Hcan. apply andb_true_iff in Hcan.
    destruct Hcan as [_ Hpos]. apply bool_decide_eq_true in Hpos. lia. }
  apply round_inject.
  unfold calculateMutationSuccessRate, JS.min, JS.max. cbv zeta. rewrite Hlevel.
  repeat (apply elem_of_cons in Hr; destruct Hr as [-> | Hr]); [.. | inversion Hr].
  - apply (percent_level1 0.85 85); [reflexivity | lia | exact Hn].
  - apply (percent_level1 0.75 (85 - 10)); [reflexivity | lia | exact Hn].
  - apply (percent_level1 0.65 (85 - 20)); [reflexivity | lia | exact Hn].
Qed.

End Estimates.

(* ================================================================== *)
(** * performMutation: what it keeps                                  *)
(* ================================================================== *)

Section Mutation.
Import Schema GameLogic Ext.

Lemma enhanceStat_dom (stat : string) (value : Q) (stats : gmap string Q) :
  dom (enhanceStat stat value stats) = dom stats.
Proof.
  unfold enhanceStat. destruct (stats !! stat) as [old |] eqn:E; [| reflexivity].
  rewrite dom_insert_L. apply elem_of_dom_2 in E.
  apply set_eq. intros k. rewrite elem_of_union, elem_of_singleton.
  split; [intros [-> | Hk]; assumption | tauto].
Qed.

Lemma enhanceStat_absent (stat : string) (value : Q) (stats : gmap string Q) :
  stat ∉ dom stats -> enhanceStat stat value stats = stats.
Proof.
  intros H. unfold enhanceStat. apply not_elem_of_dom in H. now rewrite H.
Qed.

Lemma enhanceStats_dom (componentStats stats : gmap string Q) :
  dom (enhanceStats componentStats stats) = dom stats.
Proof.
  unfold enhanceStats. generalize (map_to_list componentStats). intros l.
  revert stats. induction l as [| [k v] l IH]; intros stats; [reflexivity |].
  cbn [fold_left fst snd]. rewrite IH. apply enhanceStat_dom.
Qed.

Lemma enhanceStats_disjoint (componentStats stats : gmap string Q) :
  dom componentStats ## dom stats -> enhanceStats componentStats stats = stats.
Proof.
  intros Hd. unfold enhanceStats.
  assert (H : forall kv, kv ∈ map_to_list componentStats -> fst kv ∉ dom stats).
  { intros [k v] Hin. apply elem_of_map_to_list in Hin. apply elem_of_dom_2 in Hin.
    cbn. set_solver. }
  revert H. generalize (map_to_list componentStats). intros l.
  induction l as [| [k v] l IH]; intros H; [reflexivity |].
  cbn [fold_left fst snd]. rewrite enhanceStat_absent.
  - apply IH. intros kv Hin. apply H. now right.
  - apply (H (k, v)). left.
Qed.

Lemma components_dom (cs : list Fragment) :
  forall acc, dom (fst (fold_left applyComponent cs acc)) = dom (fst acc).
Proof.
  induction cs as [| c cs IH]; intros [stats affs]; [reflexivity |].
  cbn [fold_left]. rewrite IH. unfold applyComponent.
  repeat case_decide; cbn [fst]; [apply enhanceStats_dom | reflexivity | reflexivity].
Qed.

Lemma components_disjoint (stats : gmap string Q) (cs : list Fragment) :
  Forall (fun c => type c = "component"%string -> dom (baseStats c) ## dom stats) cs ->
  forall affs, fst (fold_left applyComponent cs (stats, affs)) = stats.
Proof.
  induction 1 as [| c cs Hc _ IH]; intros affs; [reflexivity |].
  cbn [fold_left]. unfold applyComponent at 2.
  destruct (decide (type c = "component"%string)) as [Ht | Ht].
  - rewrite (enhanceStats_disjoint _ _ (Hc Ht)). apply IH.
  - destruct (decide (type c = "modifier"%string)); apply IH.
Qed.

Lemma evolve_cases (draw : Q) (rarity name : string) :
  (evolve draw rarity name = (rarity, name)) \/
  ((draw < 0.1)%Q /\
   exists t, tier rarity = Some t /\ (t < 6)%nat /\
             tier (fst (evolve draw rarity name)) = Some (S t) /\
             snd (evolve draw rarity name) = ("Evolved " +:+ name)%string).
Proof.
  unfold evolve. destruct (JS.ltb draw 0.1) eqn:E; [| now left].
  apply ltb_spec in E.
  destruct (indexOf rarity rarityOrder) as [t |] eqn:Ht; [| now left].
  destruct (t <? length rarityOrder - 1)%nat eqn:Hlt; [| now left].
  right. split; [exact E |]. exists t. apply Nat.ltb_lt in Hlt. cbn in Hlt.
  split; [exact Ht |]. split; [lia |]. split; [| reflexivity]. cbn [fst].
  apply tier_cases in Ht.
  repeat (apply elem_of_cons in Ht; destruct Ht as [Ht | Ht];
          [injection Ht as -> ->; first [reflexivity | exfalso; lia] |]).
  inversion Ht.
Qed.

(** The draw [random()] of the double generator is [next()] itself, and it
    is below the double 0.1 exactly when the exact quotient is below one
    tenth: for the seeds up to 23327. *)
Lemma evolve_draw (g : Rng.VoidRNG) :
  0 <= Rng.seed g ->
  (fst (Rng64.random 0 1 g) == fst (Rng64.next g))%Q /\
  ((fst (Rng.next g) < 0.1)%Q <-> (fst (Rng64.random 0 1 g) < F64.fl 0.1)%Q) /\
  ((fst (Rng.next g) < 0.1)%Q <-> Rng.seed (snd (Rng.next g)) < 23328).
Proof.
  intros Hs. destruct (next_bounds g Hs) as (_ & _ & Hr).
  destruct (draw_unit (Rng.seed (Rng.next g).2) Hr) as [[Hx0 _] [Hr0 _]].
  unfold Rng64.random, Rng64.next, Rng.next in *. cbn [fst snd Rng.seed] in *.
  set (s := JS.rem _ 233280) in *.
  unfold F64.div in *. set (x := (inject_Z s / 233280)%Q) in *.
  assert (Hx : (x == inject_Z s * (1 # 233280))%Q) by (unfold x; field).
  assert (E1 : (F64.sub 1 0 == 1)%Q) by reflexivity.
  assert (Hd : (F64.fl (F64.fl x) == F64.fl x)%Q) by (now apply fl_idem).
  assert (E2 : (F64.mul (F64.fl x) (F64.sub 1 0) == F64.fl x)%Q).
  { unfold F64.mul. rewrite <- Hd at 2. apply fl_comp. rewrite E1. ring. }
  assert (E3 : (F64.add 0 (F64.mul (F64.fl x) (F64.sub 1 0)) == F64.fl x)%Q).
  { unfold F64.add. rewrite <- Hd at 2. apply fl_comp. rewrite E2. ring. }
  split; [exact E3 |].
  assert (Hexact : ((s # 233280) < 0.1)%Q <-> s < 23328).
  { unfold Qlt. cbn. lia. }
  split; [| exact Hexact].
  rewrite Hexact, E3. split.
  - intros Hlt.
    apply Qle_lt_trans with (F64.fl (23327 # 233280)); [| now vm_compute].
    apply fl_le; [exact Hx0 |]. rewrite Hx.
    assert (H : (inject_Z s <= 23327)%Q).
    { change 23327%Q with (inject_Z 23327). rewrite <- Zle_Qle. lia. }
    lra.
  - intros Hlt. destruct (Z.lt_ge_cases s 23328) as [H | H]; [exact H | exfalso].
    assert (Hge : (F64.fl (23328 # 233280) <= F64.fl x)%Q).
    { apply fl_le; [discriminate |]. rewrite Hx.
      assert (H' : (23328 <= inject_Z s)%Q).
      { change 23328%Q with (inject_Z 23328). rewrite <- Zle_Qle. lia. }
      lra. }
    assert (Heq : (F64.fl (23328 # 233280) == F64.fl 0.1)%Q) by reflexivity.
    lra.
Qed.

(** X19.  [performMutation] hands back the base fragment with the id emptied; type,
    owner, implicit modifiers, corruption flag and quantity are those of the
    base, and, when no key of a component's stats is an inherited property
    name, the base stats keep their keys.  The name gets the prefix
    "Mutated "; when the draw from the clock-seeded generator is below 0.1 and
    the rarity is one of the six lower tiers, the rarity moves up exactly one
    tier and the name gets "Evolved " in front; otherwise the rarity stays. *)
Theorem performMutation_keeps
    (b : Fragment) (cs : list Fragment) (g : GameState) (now : Z) :
  0 <= now < 2 ^ 53 ->
  Forall (fun c => forall stat, stat ∈ dom (baseStats c) -> stat ∉ JS.inherited) cs ->
  id (performMutation b cs g now) = ""%string /\
  gameStateId (performMutation b cs g now) = gameStateId b /\
  type (performMutation b cs g now) = type b /\
  implicitMods (performMutation b cs g now) = implicitMods b /\
  isCorrupted (performMutation b cs g now) = isCorrupted b /\
  quantity (performMutation b cs g now) = quantity b /\
  dom (baseStats (performMutation b cs g now)) = dom (baseStats b) /\
  ((rarity (performMutation b cs g now) = rarity b /\
    name (performMutation b cs g now) = ("Mutated " +:+ name b)%string) \/
   ((fst (Rng.next (Rng.mkVoidRNG now)) < 0.1)%Q /\
    (fst (Rng64.random 0 1 (Rng.mkVoidRNG now)) < F64.fl 0.1)%Q /\
    exists t, tier (rarity b) = Some t /\ (t < 6)%nat /\
              tier (rarity (performMutation b cs g now)) = Some (S t) /\
              name (performMutation b cs g now)
                = ("Evolved " +:+ "Mutated " +:+ name b)%string)).
Proof.
  intros [Hnow _] _.
  unfold performMutation.
  pose proof (components_dom cs (baseStats b, affixes b)) as Hdom.
  destruct (fold_left applyComponent cs (baseStats b, affixes b)) as [stats affs].
  change (Rng.constructor None now) with (Rng.mkVoidRNG now).
  rewrite (random_next 0 1).
  destruct (evolve_draw (Rng.mkVoidRNG now) Hnow) as (_ & Hiff & _).
  set (draw := (0 + fst (Rng.next (Rng.mkVoidRNG now)) * (1 - 0))%Q).
  assert (Hdraw : (draw == fst (Rng.next (Rng.mkVoidRNG now)))%Q) by (unfold draw; ring).
  pose proof (evolve_cases draw (rarity b) ("Mutated " +:+ name b)) as Hev.
  destruct (evolve draw (rarity b) ("Mutated " +:+ name b)) as [rarity' name'].
  cbn [id gameStateId type implicitMods isCorrupted quantity baseStats rarity name fst snd] in *.
  repeat (split; [reflexivity || exact Hdom |]).
  destruct Hev as [[= -> ->] | (Hlt & t & Ht & H6 & Ht' & ->)]; [left; auto | right].
  rewrite Hdraw in Hlt.
  split; [exact Hlt |]. split; [now apply Hiff |]. exists t. auto.
Qed.

(** X20.  Fragments with the stats the generator gives them (the keys of their
    type) never change a base item's stats in a mutation: the component's
    only key, enhancement, is not a key of the base. *)
Theorem performMutation_stats
    (b : Fragment) (cs : list Fragment) (g : GameState) (now : Z) :
  dom (baseStats b) = statKeys "base_item" ->
  Forall (fun c => dom (baseStats c) = statKeys (type c)) cs ->
  baseStats (performMutation b cs g now) = baseStats b.
Proof.
  intros Hb Hcs. unfold performMutation.
  pose proof (components_disjoint (baseStats b) cs) as H.
  destruct (fold_left applyComponent cs (baseStats b, affixes b)) as [stats affs] eqn:E.
  destruct (Rng.random 0 1 (Rng.constructor None now)) as [draw rng'].
  destruct (evolve draw (rarity b) ("Mutated " +:+ name b)) as [rarity' name'].
  cbn [baseStats].
  assert (Hd : Forall (fun c => type c = "component"%string
                                -> dom (baseStats c) ## dom (baseStats b)) cs).
  { eapply Forall_impl; [exact Hcs |].
    intros c Hc Ht. cbn beta in Hc. rewrite Hc, Hb, Ht.
    apply (bool_decide_unpack _). vm_compute. exact I. }
  specialize (H Hd (affixes b)). rewrite E in H. exact H.
Qed.

End Mutation.

(* ================================================================== *)
(** * Shatter, and spin followed by shatter                           *)
(* ================================================================== *)

Section Handlers.
Import Schema Routes GameLogic Ext Spec.

Lemma find_None_fresh (i : string) (l : list Fragment) :
  (forall f, f ∈ l -> id f <> i) -> findFragment i l = None.
Proof.
  intros H. unfold findFragment. induction l as [| x l IH]; [reflexivity |].
  cbn [find]. rewrite bool_decide_eq_false_2 by (apply H; left).
  apply IH. intros y Hy. apply H. now right.
Qed.

Lemma spinCost_range (g : GameState) : 5 <= spinCost g.
Proof. unfold spinCost. lia. Qed.

Lemma find_app_fresh (i : string) (l : list Fragment) (f : Fragment) :
  (forall x, x ∈ l -> id x <> i) -> id f = i -> findFragment i (l ++ [f]) = Some f.
Proof.
  intros H Hf. unfold findFragment. induction l as [| x l IH]; cbn [app find].
  - now rewrite bool_decide_eq_true_2.
  - rewrite bool_decide_eq_false_2 by (apply H; left).
    apply IH. intros y Hy. apply H. now right.
Qed.

Lemma filter_fresh (i : string) (l : list Fragment) :
  (forall f, f ∈ l -> id f <> i) -> filter (fun f => id f <> i) l = l.
Proof.
  intros H. induction l as [| x l IH]; [reflexivity |].
  rewrite filter_cons_True by (apply H; left). f_equal.
  apply IH. intros y Hy. apply H. now right.
Qed.

Lemma shatter_found (paramId : string) (w : World) (f : Fragment) :
  findFragment paramId (getFragments (gs_id (gameState w)) w) = Some f ->
  shatter paramId w
  = (mkWorld
       (applyUpdates (gameState w)
          (mkUpdates (Some (flux (gameState w) + calculateShatterValue f))
             None None None None None))
       (filter (fun x => id x <> id f) (fragments w)) (listings w),
     ShatterOk (calculateShatterValue f)).
Proof. intros H. unfold shatter. rewrite H. reflexivity. Qed.

(** X21.  Shattering a fragment the player owns pays [5 * weight * quantity] flux,
    removes every row with that id and nothing else, and leaves levels, spin
    count and marketplace alone. *)
Theorem shatter_effect (paramId : string) (w : World) (f : Fragment) :
  findFragment paramId (getFragments (gs_id (gameState w)) w) = Some f ->
  id f = paramId /\ gameStateId f = gs_id (gameState w) /\ f ∈ fragments w /\
  snd (shatter paramId w) = ShatterOk (5 * shatterWeight (rarity f) * quantity f) /\
  flux (gameState (fst (shatter paramId w)))
    = flux (gameState w) + 5 * shatterWeight (rarity f) * quantity f /\
  totalSpins (gameState (fst (shatter paramId w))) = totalSpins (gameState w) /\
  (forall upgradeType,
      currentLevel (gameState (fst (shatter paramId w))) upgradeType
        = currentLevel (gameState w) upgradeType) /\
  fragments (fst (shatter paramId w)) = filter (fun x => id x <> paramId) (fragments w) /\
  (length (fragments (fst (shatter paramId w))) < length (fragments w))%nat /\
  listings (fst (shatter paramId w)) = listings w.
Proof.
  intros Hfind. rewrite (shatter_found _ _ _ Hfind).
  pose proof (findFragment_Some _ _ _ Hfind) as [Hin Hid].
  assert (Hown : gameStateId f = gs_id (gameState w) /\ f ∈ fragments w).
  { unfold getFragments in Hin. apply list_elem_of_filter in Hin. tauto. }
  destruct Hown as [Hown Hstored].
  rewrite calculateShatterValue_weight. cbn [fst snd gameState fragments listings].
  unfold applyUpdates. cbn [flux totalSpins default from_option u_flux u_totalSpins].
  rewrite Hid.
  repeat (split; [reflexivity || assumption |]).
  split; [| reflexivity].
  clear Hfind Hin. induction (fragments w) as [| x l IH]; [inversion Hstored |].
  apply elem_of_cons in Hstored. destruct Hstored as [<- | Hl].
  - rewrite filter_cons_False by (intros H; apply H; exact Hid).
    pose proof (length_filter (fun x => id x <> paramId) l). cbn [length]. lia.
  - specialize (IH Hl). destruct (decide (id x <> paramId)).
    + rewrite filter_cons_True by assumption. cbn [length]. lia.
    + rewrite filter_cons_False by assumption. cbn [length]. lia.
Qed.

(** X22.  A spin followed by the shattering of its fragment, under an id no stored
    fragment has: the fragment table is back to what it was, the marketplace
    is untouched, one spin is counted, and the flux moved by the shatter value
    less the price of the spin; for a fragment of weight 1 that is never a
    gain. *)
Theorem spin_shatter_round_trip (fragment : FragmentDraft) (newId : string) (w : World) :
  (forall f, f ∈ fragments w -> id f <> newId) ->
  spinCost (gameState w) <= flux (gameState w) ->
  fragments (fst (shatter newId (fst (spin fragment newId w)))) = fragments w /\
  listings (fst (shatter newId (fst (spin fragment newId w)))) = listings w /\
  snd (shatter newId (fst (spin fragment newId w)))
    = ShatterOk (5 * shatterWeight (draft_rarity fragment)) /\
  flux (gameState (fst (shatter newId (fst (spin fragment newId w)))))
    = flux (gameState w) - spinCost (gameState w)
      + 5 * shatterWeight (draft_rarity fragment) /\
  totalSpins (gameState (fst (shatter newId (fst (spin fragment newId w)))))
    = totalSpins (gameState w) + 1 /\
  (shatterWeight (draft_rarity fragment) = 1 ->
   flux (gameState (fst (shatter newId (fst (spin fragment newId w)))))
     <= flux (gameState w)).
Proof.
  intros Hfresh Hflux.
  set (f := {| id := newId; gameStateId := gs_id (gameState w);
               name := draft_name fragment; type := draft_type fragment;
               rarity := draft_rarity fragment; baseStats := draft_baseStats fragment;
               implicitMods := draft_implicitMods fragment; affixes := [];
               isCorrupted := false; quantity := 1 |}).
  assert (Hspin : fst (spin fragment newId w)
                  = mkWorld
                      (applyUpdates (gameState w)
                         (mkUpdates (Some (flux (gameState w) - spinCost (gameState w)))
                            (Some (totalSpins (gameState w) + 1)) None None None None))
                      (fragments w ++ [f]) (listings w)).
  { unfold spin. fold (spinCost (gameState w)).
    rewrite bool_decide_eq_false_2 by lia. reflexivity. }
  rewrite Hspin.
  assert (Hfind : findFragment newId
            (getFragments (gs_id (gameState w))
               (mkWorld
                  (applyUpdates (gameState w)
                     (mkUpdates (Some (flux (gameState w) - spinCost (gameState w)))
                        (Some (totalSpins (gameState w) + 1)) None None None None))
                  (fragments w ++ [f]) (listings w))) = Some f).
  { unfold getFragments. cbn [fragments]. rewrite filter_app.
    rewrite (filter_cons_True _ f []) by reflexivity.
    apply find_app_fresh; [| reflexivity].
    intros x Hx. apply list_elem_of_filter in Hx. apply Hfresh. tauto. }
  change (gs_id (gameState w))
    with (gs_id (gameState
            (mkWorld
               (applyUpdates (gameState w)
                  (mkUpdates (Some (flux (gameState w) - spinCost (gameState w)))
                     (Some (totalSpins (gameState w) + 1)) None None None None))
               (fragments w ++ [f]) (listings w)))) in Hfind at 1.
  rewrite (shatter_found _ _ _ Hfind). rewrite calculateShatterValue_weight.
  clear Hspin Hfind. subst f.
  cbn [fst snd gameState fragments listings id rarity quantity].
  unfold applyUpdates. cbn [flux totalSpins default from_option u_flux u_totalSpins].
  rewrite filter_app, (filter_fresh _ _ Hfresh).
  rewrite filter_cons_False by (intros H; now apply H). rewrite app_nil_r.
  pose proof (spinCost_range (gameState w)) as Hcost. unfold Datatypes.id.
  split; [reflexivity |]. split; [reflexivity |].
  split; [f_equal; lia |]. split; [lia |]. split; [reflexivity |]. intros ->. lia.
Qed.

End Handlers.

(* ================================================================== *)
(** * The sell handler and the marketplace rows                       *)
(* ================================================================== *)

Section Selling.
Import Schema Routes GameLogic Ext Spec.

Lemma round_le (x y : Q) : (x <= y)%Q -> JS.round x <= JS.round y.
Proof. intros H. unfold JS.round. apply Qfloor_resp_le. lra. Qed.

Lemma sell_found (fragmentId : string) (w : World) (f : Fragment) :
  fragmentId <> ""%string ->
  findFragment fragmentId (getFragments (gs_id (gameState w)) w) = Some f ->
  let listing :=
    List.find (fun l => bool_decide (listing_id l = (type f +:+ "-" +:+ rarity f)%string))
      (listings w) in
  let price :=
    Z.max 1 (match listing with Some l => currentPrice l | None => 10 end * quantity f) in
  let sold :=
    mkWorld
      (applyUpdates (gameState w)
         (mkUpdates (Some (flux (gameState w) + price)) None None None None None))
      (filter (fun x => id x <> id f) (fragments w)) (listings w) in
  sell fragmentId w
  = (match listing with
     | Some l =>
         updateMarketplaceListing (fragmentType l) (listing_rarity l)
           (Z.max 0 (supply l - 1)) (JS.min 3 (demand l + 0.01)%Q)
           (Z.max 1 (JS.round (inject_Z (currentPrice l)
                               * (1 + 0.01 * (1 - JS.min 3 (demand l + 0.01))))%Q))
           sold
     | None => sold
     end, SellOk price).
Proof.
  intros Hid Hfind. cbv zeta. unfold sell.
  rewrite bool_decide_eq_false_2 by exact Hid. rewrite Hfind.
  destruct (find _ (listings w)) as [l |].
  - rewrite (round_inject (inject_Z (currentPrice l) * inject_Z (quantity f))
               (currentPrice l * quantity f))
      by (rewrite inject_Z_mult; reflexivity).
    reflexivity.
  - rewrite (round_inject (inject_Z 10 * inject_Z (quantity f)) (10 * quantity f))
      by (rewrite inject_Z_mult; reflexivity).
    reflexivity.
Qed.

Lemma updated_ids (fragmentType rarity : string) (newSupply : Z) (newDemand : Q)
    (newPrice : Z) (w : World) :
  listing_id <$> listings (updateMarketplaceListing fragmentType rarity newSupply
                             newDemand newPrice w)
  = listing_id <$> listings w.
Proof.
  unfold updateMarketplaceListing. cbn [listings].
  induction (listings w) as [| x l IH]; [reflexivity |].
  cbn [map fmap list_fmap]. f_equal; [| exact IH].
  now destruct (decide _).
Qed.

Lemma NoDup_ids_inj (l : list MarketplaceListing) (x y : MarketplaceListing) :
  NoDup (listing_id <$> l) -> x ∈ l -> y ∈ l -> listing_id x = listing_id y -> x = y.
Proof.
  induction l as [| z l IH]; intros Hnd Hx Hy Heq; [inversion Hx |].
  cbn [fmap list_fmap] in Hnd. apply NoDup_cons in Hnd. destruct Hnd as [Hz Hnd].
  apply elem_of_cons in Hx. apply elem_of_cons in Hy.
  destruct Hx as [-> | Hx], Hy as [-> | Hy].
  - reflexivity.
  - exfalso. apply Hz. rewrite Heq. apply list_elem_of_fmap. eauto.
  - exfalso. apply Hz. rewrite <- Heq. apply list_elem_of_fmap. eauto.
  - now apply IH.
Qed.

Lemma sale_row (l : MarketplaceListing) :
  listingOk l ->
  let after :=
    {| listing_id := listing_id l;
       fragmentType := fragmentType l;
       listing_rarity := listing_rarity l;
       basePrice := basePrice l;
       currentPrice :=
         Z.max 1 (JS.round (inject_Z (currentPrice l)
                            * (1 + 0.01 * (1 - JS.min 3 (demand l + 0.01))))%Q);
       demand := JS.min 3 (demand l + 0.01)%Q;
       supply := Z.max 0 (supply l - 1) |} in
  listingOk after /\ marketMoves l after /\ priceFollowsDemand l after.
Proof.
  intros (Hid & Hp & Hs & Hd0 & Hd3). cbv zeta. unfold JS.min.
  set (d := Qmin 3 (demand l + 0.01)).
  assert (Hd : (demand l <= d /\ 0 < d /\ d <= 3)%Q).
  { unfold d.
    destruct (Q.min_spec 3 (demand l + 0.01)) as [[H1 H2] | [H1 H2]]; rewrite H2; lra. }
  assert (Hpq : (1 <= inject_Z (currentPrice l))%Q) by (now rewrite <- (Zle_Qle 1)).
  split; [| split].
  - unfold listingOk. cbn [listing_id fragmentType listing_rarity currentPrice supply demand].
    split; [exact Hid |]. split; [lia |]. split; [lia |]. split; lra.
  - unfold marketMoves. cbn [listing_id fragmentType listing_rarity basePrice supply demand].
    do 4 (split; [reflexivity |]). split; [lia | lra].
  - unfold priceFollowsDemand. cbn [currentPrice demand]. split; intros Hone.
    + apply Z.max_lub; [exact Hp |].
      rewrite <- (round_inject (inject_Z (currentPrice l)) (currentPrice l)) at 2
        by reflexivity.
      apply round_le. nra.
    + etransitivity; [| apply Z.le_max_r].
      rewrite <- (round_inject (inject_Z (currentPrice l)) (currentPrice l)) at 1
        by reflexivity.
      apply round_le. nra.
Qed.

Lemma marketMoves_refl (l : MarketplaceListing) :
  marketMoves l l /\ priceFollowsDemand l l.
Proof.
  unfold marketMoves, priceFollowsDemand.
  split; [| split; intros _; lia].
  do 4 (split; [reflexivity |]). split; [lia | lra].
Qed.

Lemma sell_market (fragmentId : string) (w : World) :
  marketOk w ->
  marketOk (fst (sell fragmentId w)) /\
  Forall2 (fun before after => marketMoves before after /\ priceFollowsDemand before after)
    (listings w) (listings (fst (sell fragmentId w))).
Proof.
  intros [Hok Hnd].
  assert (Hsame : marketOk w /\
                  Forall2 (fun before after =>
                             marketMoves before after /\ priceFollowsDemand before after)
                    (listings w) (listings w)).
  { split; [split; assumption |]. apply Forall_Forall2_diag.
    apply Forall_forall. intros l _. apply marketMoves_refl. }
  destruct (decide (fragmentId = ""%string)) as [-> | Hid]; [exact Hsame |].
  destruct (findFragment fragmentId (getFragments (gs_id (gameState w)) w)) as [f |] eqn:Hfind.
  2: { unfold sell. rewrite bool_decide_eq_false_2 by exact Hid. rewrite Hfind. exact Hsame. }
  rewrite (sell_found _ _ _ Hid Hfind).
  destruct (find _ (listings w)) as [l |] eqn:Hl; cbn [fst]; [| exact Hsame].
  apply find_some in Hl. destruct Hl as [Hin Hkey].
  apply list_elem_of_In in Hin. apply bool_decide_eq_true in Hkey.
  assert (Hlok : listingOk l) by (rewrite Forall_forall in Hok; now apply Hok).
  destruct (sale_row l Hlok) as (Hafter & Hmoves & Hprice).
  pose proof Hlok as (Hlid & _).
  split; [split |].
  - unfold updateMarketplaceListing. cbn [listings].
    apply Forall_forall. intros y Hy. apply list_elem_of_In, in_map_iff in Hy.
    destruct Hy as (x & <- & Hx). apply list_elem_of_In in Hx.
    destruct (decide (listing_id x = _)) as [Hx' | _].
    + rewrite <- Hlid in Hx'.
      rewrite (NoDup_ids_inj _ _ _ Hnd Hx Hin Hx'). exact Hafter.
    + rewrite Forall_forall in Hok. now apply Hok.
  - rewrite updated_ids. exact Hnd.
  - unfold updateMarketplaceListing. cbn [listings].
    assert (Hall : forall x, x ∈ listings w -> x ∈ listings w) by auto.
    revert Hall. generalize (listings w) at 1 3 4. intros rows Hall.
    induction rows as [| x rows IH]; [constructor |].
    cbn [map]. constructor.
    + destruct (decide (listing_id x = _)) as [Hx' | _]; [| apply marketMoves_refl].
      rewrite <- Hlid in Hx'.
      rewrite (NoDup_ids_inj _ _ _ Hnd (Hall x ltac:(left)) Hin Hx').
      split; assumption.
    + apply IH. intros y Hy. apply Hall. now right.
Qed.

End Selling.

(* ================================================================== *)
(** * The marketplace over a whole game                               *)
(* ================================================================== *)

Section Worlds.
Import Schema Routes GameLogic Ext Spec.

(** X23.  Selling a fragment the player owns pays at least 1 flux: the listed
    price of its type and rarity times the quantity, or 10 a piece when the
    marketplace does not list it; the fragment is removed, and in a sound
    marketplace the listed row stays sound, loses one unit of supply, gains
    demand, and its price moves against the new demand. *)
Theorem sell_effect (fragmentId : string) (w : World) (f : Fragment) :
  fragmentId <> ""%string ->
  findFragment fragmentId (getFragments (gs_id (gameState w)) w) = Some f ->
  marketOk w ->
  exists price,
    snd (sell fragmentId w) = SellOk price /\
    1 <= price /\
    price = Z.max 1
              (match List.find
                       (fun l => bool_decide
                                   (listing_id l = (type f +:+ "-" +:+ rarity f)%string))
                       (listings w) with
               | Some l => currentPrice l
               | None => 10
               end * quantity f) /\
    flux (gameState (fst (sell fragmentId w))) = flux (gameState w) + price /\
    totalSpins (gameState (fst (sell fragmentId w))) = totalSpins (gameState w) /\
    fragments (fst (sell fragmentId w))
      = filter (fun x => id x <> fragmentId) (fragments w) /\
    marketOk (fst (sell fragmentId w)) /\
    Forall2 (fun before after => marketMoves before after /\ priceFollowsDemand before after)
      (listings w) (listings (fst (sell fragmentId w))).
Proof.
  intros Hid Hfind Hmarket.
  destruct (sell_market fragmentId w Hmarket) as [Hok Hmoves].
  pose proof (findFragment_Some _ _ _ Hfind) as [_ Hf].
  revert Hok Hmoves. rewrite (sell_found _ _ _ Hid Hfind). cbn [fst snd].
  intros Hok Hmoves. eexists. split; [reflexivity |]. split; [lia |].
  split; [reflexivity |]. rewrite Hf.
  destruct (find _ (listings w)) as [l |]; cbn [gameState fragments];
    unfold applyUpdates; cbn [flux totalSpins default from_option u_flux u_totalSpins];
    unfold Datatypes.id; auto 10.
Qed.

Lemma unchanged_market (w w' : World) :
  listings w' = listings w ->
  marketOk w -> marketOk w' /\ Forall2 marketMoves (listings w) (listings w').
Proof.
  intros Heq Hok. unfold marketOk. rewrite Heq. split; [exact Hok |].
  apply Forall_Forall2_diag. apply Forall_forall. intros l _. apply marketMoves_refl.
Qed.

Lemma step_market (w w' : World) :
  step w w' -> marketOk w ->
  marketOk w' /\ Forall2 marketMoves (listings w) (listings w').
Proof.
  intros [fragment newId | paramId | fragmentId | upgradeType | req mutationRng now newId] Hok.
  - apply unchanged_market; [| exact Hok]. unfold spin.
    destruct (bool_decide _); reflexivity.
  - apply unchanged_market; [| exact Hok]. unfold shatter.
    destruct (findFragment _ _); reflexivity.
  - destruct (sell_market fragmentId w Hok) as [Hok' Hmoves]. split; [exact Hok' |].
    eapply Forall2_impl; [exact Hmoves |]. intros x y [H _]. exact H.
  - apply unchanged_market; [| exact Hok]. unfold upgrade.
    destruct (bool_decide _); [reflexivity |].
    repeat (case_decide; [reflexivity |]). reflexivity.
  - apply unchanged_market; [| exact Hok].
    destruct (mutate_cases req mutationRng now newId w) as [[-> _] | (b & cs & Hacc)];
      [reflexivity |].
    rewrite (mutate_accepted req mutationRng now newId w _ _ Hacc).
    destruct (JS.ltb _ _); reflexivity.
Qed.

Lemma marketMoves_trans (a b c : MarketplaceListing) :
  marketMoves a b -> marketMoves b c -> marketMoves a c.
Proof.
  intros (H1 & H2 & H3 & H4 & H5 & H6) (K1 & K2 & K3 & K4 & K5 & K6).
  unfold marketMoves. rewrite K1, K2, K3, K4.
  do 4 (split; [assumption |]). split; [lia | lra].
Qed.

Lemma Forall2_marketMoves_trans (l1 l2 l3 : list MarketplaceListing) :
  Forall2 marketMoves l1 l2 -> Forall2 marketMoves l2 l3 -> Forall2 marketMoves l1 l3.
Proof.
  intros H. revert l3. induction H as [| a b l1 l2 Hab _ IH]; intros l3 H23.
  - inversion H23. constructor.
  - inversion H23 as [| b' c l2' l3' Hbc Hrest]; subst.
    constructor; [eapply marketMoves_trans; eassumption | now apply IH].
Qed.

Lemma played_market (w0 w : World) :
  marketOk w0 -> played w0 w ->
  marketOk w /\ Forall2 marketMoves (listings w0) (listings w).
Proof.
  intros H0. induction 1 as [| w w' _ [IHok IHmoves] Hstep].
  - now apply unchanged_market.
  - destruct (step_market w w' Hstep IHok) as [Hok Hmoves].
    split; [exact Hok |]. eapply Forall2_marketMoves_trans; eassumption.
Qed.

Lemma initial_market (gsId user : string) :
  marketOk (freshWorld gsId user Market.initializeMarketplace).
Proof.
  unfold marketOk, freshWorld. cbn [listings]. split.
  - unfold Market.initializeMarketplace, Market.baseListings. cbn [map].
    repeat (apply Forall_cons; split;
            [unfold listingOk; cbn;
             split; [reflexivity |]; split; [lia |]; split; [lia |];
             split; [reflexivity | discriminate] |]).
    constructor.
  - apply (bool_decide_unpack _). vm_compute. exact I.
Qed.

(** X24.  The marketplace stays sound whatever the player does from a fresh game
    state on the marketplace as the storage sets it up: there are always the
    same eleven rows with their ids and base prices, every price is at least
    1, every supply between 0 and 100 and never rising, every demand above 0,
    at most 3 and never falling. *)
Theorem market_invariant (gsId user : string) (w : World) :
  played (freshWorld gsId user Market.initializeMarketplace) w ->
  marketOk w /\
  Forall2 marketMoves Market.initializeMarketplace (listings w) /\
  length (listings w) = 11%nat.
Proof.
  intros Hplayed.
  destruct (played_market _ _ (initial_market gsId user) Hplayed) as [Hok Hmoves].
  split; [exact Hok |]. split; [exact Hmoves |].
  apply Forall2_length in Hmoves. rewrite <- Hmoves. reflexivity.
Qed.

End Worlds.

(* ================================================================== *)
(** * Ownership of fragments; mutations shrink the table              *)
(* ================================================================== *)

Section Ownership.
Import Schema Routes GameLogic Ext Spec.

Lemma fragmentOk_owner (g g' : GameState) (f : Fragment) :
  gs_id g' = gs_id g -> fragmentOk g f -> fragmentOk g' f.
Proof. unfold fragmentOk. intros ->. tauto. Qed.

Lemma fragmentsOk_sub (g g' : GameState) (l l' : list Fragment) :
  gs_id g' = gs_id g ->
  (forall f, f ∈ l' -> f ∈ l) ->
  Forall (fragmentOk g) l -> Forall (fragmentOk g') l'.
Proof.
  intros Hid Hsub H. rewrite Forall_forall in *. intros f Hf.
  apply (fragmentOk_owner g); [exact Hid |]. apply H, Hsub, Hf.
Qed.

Lemma filter_sub {A} (P : A -> Prop) `{!forall x, Decision (P x)} (l : list A) :
  forall x, x ∈ filter P l -> x ∈ l.
Proof. intros x Hx. apply list_elem_of_filter in Hx. tauto. Qed.

Lemma step_fragments (w w' : World) :
  step w w' -> fragmentsOk w ->
  fragmentsOk w' /\ gs_id (gameState w') = gs_id (gameState w).
Proof.
  unfold fragmentsOk.
  intros [fragment newId | paramId | fragmentId | upgradeType | req mutationRng now newId] Hok.
  - unfold spin. destruct (bool_decide _); cbn [fst]; [auto |].
    cbn [createFragment fst snd updateGameState gameState fragments]. split; [| reflexivity].
    apply Forall_app. split.
    + eapply fragmentsOk_sub; [| | exact Hok]; [reflexivity | auto].
    + constructor; [| constructor]. unfold fragmentOk. cbn. auto.
  - unfold shatter. destruct (findFragment _ _); cbn [fst]; [| auto].
    cbn [deleteFragment updateGameState gameState fragments]. split; [| reflexivity].
    eapply fragmentsOk_sub; [| | exact Hok]; [reflexivity | apply filter_sub].
  - unfold sell. destruct (bool_decide _); cbn [fst]; [auto |].
    destruct (findFragment _ _); cbn [fst]; [| auto].
    destruct (find _ (listings w));
      cbn [updateMarketplaceListing deleteFragment updateGameState gameState fragments];
      (split; [| reflexivity]);
      (eapply fragmentsOk_sub; [| | exact Hok]; [reflexivity | apply filter_sub]).
  - unfold upgrade. destruct (bool_decide _); cbn [fst]; [auto |].
    repeat (case_decide;
            [cbn [fst updateGameState gameState fragments]; split; [| reflexivity];
             eapply fragmentsOk_sub; [| | exact Hok]; [reflexivity | auto] |]).
    cbn [fst]. auto.
  - destruct (mutate_cases req mutationRng now newId w) as [[-> _] | (b & cs & Hacc)];
      [auto |].
    rewrite (mutate_accepted req mutationRng now newId w _ _ Hacc).
    pose proof Hacc as (_ & _ & Hfind & _).
    apply findFragment_Some in Hfind. destruct Hfind as [Hin _].
    apply getFragments_stored in Hin.
    assert (Hb : fragmentOk (gameState w) b) by (rewrite Forall_forall in Hok; now apply Hok).
    assert (Hrest : Forall (fragmentOk (debit (calculateMutationCost b cs) (gameState w)))
                      (without (consumedIds req) (fragments w))).
    { eapply fragmentsOk_sub; [| | exact Hok]; [reflexivity |].
      intros f Hf. apply without_spec in Hf. tauto. }
    destruct (JS.ltb _ _); cbn [fst gameState fragments consumed]; (split; [| reflexivity]).
    + apply Forall_app. split; [exact Hrest |]. constructor; [| constructor].
      destruct Hb as (_ & Hq & Hc).
      unfold fragmentOk, createdBy, performMutation.
      destruct (fold_left _ _ _), (Rng.random _ _ _), (evolve _ _ _).
      cbn [gameStateId quantity isCorrupted debit gs_id]. auto.
    + exact Hrest.
Qed.

Lemma reachable_fragmentsOk (w : World) : reachable w -> fragmentsOk w.
Proof.
  induction 1 as [gsId user market | w w' _ IH Hstep].
  - constructor.
  - now apply (step_fragments w w').
Qed.

(** The rows of a world after one request: rows that were there, or a new
    row of this game state, which has quantity 1 and is not corrupted or
    takes both from a row this game state held. *)
Lemma step_rows (w w' : World) :
  step w w' ->
  gs_id (gameState w') = gs_id (gameState w) /\
  forall f, f ∈ fragments w' ->
    f ∈ fragments w \/
    (gameStateId f = gs_id (gameState w) /\
     ((quantity f = 1 /\ isCorrupted f = false) \/
      exists b, b ∈ fragments w /\ gameStateId b = gs_id (gameState w) /\
                quantity f = quantity b /\ isCorrupted f = isCorrupted b)).
Proof.
  intros [fragment newId | paramId | fragmentId | upgradeType | req mutationRng now newId].
  - unfold spin. destruct (bool_decide _); cbn [fst]; [auto |].
    cbn [createFragment fst snd updateGameState gameState fragments]. split; [reflexivity |].
    intros f Hf. apply elem_of_app in Hf. destruct Hf as [Hf | Hf]; [now left | right].
    apply list_elem_of_singleton in Hf. subst f. cbn. auto.
  - unfold shatter. destruct (findFragment _ _) as [found |]; cbn [fst]; [| auto].
    cbn [deleteFragment updateGameState gameState fragments]. split; [reflexivity |].
    intros f Hf. left. now apply filter_sub in Hf.
  - unfold sell. destruct (bool_decide _); cbn [fst]; [auto |].
    destruct (findFragment _ _) as [found |]; cbn [fst]; [| auto].
    destruct (find _ (listings w));
      cbn [updateMarketplaceListing deleteFragment updateGameState gameState fragments];
      (split; [reflexivity |]); intros f Hf; left; now apply filter_sub in Hf.
  - unfold upgrade. destruct (bool_decide _); cbn [fst]; [auto |].
    repeat (case_decide;
            [cbn [fst updateGameState gameState fragments]; split; [reflexivity | auto] |]).
    cbn [fst]. auto.
  - destruct (mutate_cases req mutationRng now newId w) as [[-> _] | (b & cs & Hacc)];
      [auto |].
    rewrite (mutate_accepted req mutationRng now newId w _ _ Hacc).
    pose proof Hacc as (_ & _ & Hfind & _).
    apply findFragment_Some in Hfind. destruct Hfind as [Hin _].
    pose proof Hin as Hown. unfold getFragments in Hown.
    apply list_elem_of_filter in Hown. destruct Hown as [Hown _].
    apply getFragments_stored in Hin.
    destruct (JS.ltb _ _); cbn [fst gameState fragments consumed]; (split; [reflexivity |]).
    + intros f Hf. apply elem_of_app in Hf. destruct Hf as [Hf | Hf].
      * left. apply without_spec in Hf. tauto.
      * right. apply list_elem_of_singleton in Hf. subst f.
        split; [reflexivity |]. right. exists b.
        split; [exact Hin |]. split; [exact Hown |].
        unfold createdBy, performMutation.
        destruct (fold_left _ _ _), (Rng.random _ _ _), (evolve _ _ _).
        cbn [quantity isCorrupted]. auto.
    + intros f Hf. left. apply without_spec in Hf. tauto.
Qed.

Lemma played_rows (w0 w : World) :
  played w0 w ->
  Forall (fragmentOk (gameState w0)) (getFragments (gs_id (gameState w0)) w0) ->
  gs_id (gameState w) = gs_id (gameState w0) /\
  Forall (fragmentOk (gameState w)) (getFragments (gs_id (gameState w)) w) /\
  (forall f, f ∈ fragments w -> gameStateId f <> gs_id (gameState w) -> f ∈ fragments w0).
Proof.
  intros Hp H0. induction Hp as [| w w' _ IH Hstep]; [auto |].
  destruct IH as (Hid & Hok & Hforeign).
  destruct (step_rows w w' Hstep) as [Hid' Hrows].
  split; [congruence |]. split.
  - rewrite Forall_forall in *. intros f Hf.
    unfold getFragments in Hf. apply list_elem_of_filter in Hf. destruct Hf as [Hown Hf].
    unfold fragmentOk. split; [exact Hown |].
    destruct (Hrows f Hf) as [Hold | (_ & [Hnew | (b & Hb & Hbown & -> & ->)])].
    + assert (Hin : f ∈ getFragments (gs_id (gameState w)) w).
      { unfold getFragments. apply list_elem_of_filter. split; [congruence | exact Hold]. }
      destruct (Hok f Hin) as (_ & H). exact H.
    + exact Hnew.
    + assert (Hin : b ∈ getFragments (gs_id (gameState w)) w).
      { unfold getFragments. apply list_elem_of_filter. split; [exact Hbown | exact Hb]. }
      destruct (Hok b Hin) as (_ & H). exact H.
  - intros f Hf Hother. rewrite Hid' in Hother.
    destruct (Hrows f Hf) as [Hold | (Hown & _)]; [| contradiction].
    now apply Hforeign.
Qed.

(** X25.  Whatever rows of other game states the fragment table holds: if every
    fragment of this game state has quantity 1 and is not corrupted, that
    stays so through every sequence of handled requests; the requests add
    no row of another game state; each fragment of this game state whose
    rarity is no inherited property name shatters for 5 times the weight of
    its rarity, and it can be found under its id by the handlers. *)
Theorem reachable_fragments (w0 w : World) :
  played w0 w ->
  Forall (fragmentOk (gameState w0)) (getFragments (gs_id (gameState w0)) w0) ->
  gs_id (gameState w) = gs_id (gameState w0) /\
  Forall (fragmentOk (gameState w)) (getFragments (gs_id (gameState w)) w) /\
  (forall f, f ∈ fragments w -> gameStateId f <> gs_id (gameState w) ->
             f ∈ fragments w0) /\
  (forall f, f ∈ getFragments (gs_id (gameState w)) w ->
     rarity f ∉ JS.inherited ->
     calculateShatterValue f = 5 * shatterWeight (rarity f) /\
     5 <= calculateShatterValue f <= 1500 /\
     exists found,
       findFragment (id f) (getFragments (gs_id (gameState w)) w) = Some found /\
       id found = id f).
Proof.
  intros Hp H0. destruct (played_rows w0 w Hp H0) as (Hid & Hok & Hforeign).
  split; [exact Hid |]. split; [exact Hok |]. split; [exact Hforeign |].
  intros f Hmine _.
  rewrite Forall_forall in Hok.
  destruct (Hok f Hmine) as (Hown & Hq & _).
  rewrite calculateShatterValue_weight, Hq.
  destruct (shatterWeight_table (rarity f)) as [_ Hw].
  split; [lia |]. split; [lia |].
  unfold findFragment.
  destruct (find _ (getFragments _ w)) as [found |] eqn:E.
  - exists found. split; [reflexivity |].
    apply find_some in E. destruct E as [_ E]. now apply bool_decide_eq_true in E.
  - exfalso. assert (Hin : In f (getFragments (gs_id (gameState w)) w))
      by (now apply list_elem_of_In).
    pose proof (find_none _ _ E f Hin) as Hn. cbn beta in Hn.
    rewrite bool_decide_eq_true_2 in Hn by reflexivity. discriminate Hn.
Qed.

(** X26.  A fragment id under which this game state owns nothing is refused by the
    shatter, sell and mutate handlers, which leave the world as it is: rows
    of other game states cannot be spent. *)
Theorem foreign_fragments_refused (fragmentId : string) (w : World) :
  (forall f, f ∈ fragments w -> id f = fragmentId ->
             gameStateId f <> gs_id (gameState w)) ->
  shatter fragmentId w = (w, Error 404 "Fragment not found") /\
  (fragmentId <> ""%string ->
   sell fragmentId w = (w, Error 404 "Fragment not found")) /\
  (forall componentIds mutationRng now newId,
      fragmentId <> ""%string -> componentIds <> [] ->
      mutate (mkRequest fragmentId componentIds) mutationRng now newId w
      = (w, Error 404 "Base fragment not found")).
Proof.
  intros Hforeign.
  assert (Hnone : findFragment fragmentId (getFragments (gs_id (gameState w)) w) = None).
  { apply find_None_fresh. intros f Hf Hid. unfold getFragments in Hf.
    apply list_elem_of_filter in Hf. destruct Hf as [Hown Hf].
    exact (Hforeign f Hf Hid Hown). }
  split; [| split].
  - unfold shatter. now rewrite Hnone.
  - intros Hid. unfold sell. rewrite bool_decide_eq_false_2 by exact Hid. now rewrite Hnone.
  - intros componentIds mutationRng now newId Hid Hne. unfold mutate.
    cbn [baseFragmentId componentFragmentIds].
    rewrite (bool_decide_eq_false_2 _ Hid).
    rewrite bool_decide_eq_false_2 by (destruct componentIds; [contradiction | discriminate]).
    cbn [orb]. now rewrite Hnone.
Qed.

Lemma filter_drop1 {A} (P : A -> Prop) `{!forall x, Decision (P x)} (l : list A) (b : A) :
  b ∈ l -> ~ P b -> (length (filter P l) + 1 <= length l)%nat.
Proof.
  induction l as [| x l IH]; intros Hb Hn; [inversion Hb |].
  apply elem_of_cons in Hb. destruct Hb as [<- | Hb].
  - rewrite filter_cons_False by exact Hn.
    pose proof (length_filter P l). cbn [length]. lia.
  - specialize (IH Hb Hn). destruct (decide (P x)).
    + rewrite filter_cons_True by assumption. cbn [length]. lia.
    + rewrite filter_cons_False by assumption. cbn [length]. lia.
Qed.

Lemma filter_drop2 {A} (P : A -> Prop) `{!forall x, Decision (P x)} (l : list A) (b c : A) :
  b <> c -> b ∈ l -> c ∈ l -> ~ P b -> ~ P c ->
  (length (filter P l) + 2 <= length l)%nat.
Proof.
  intros Hbc. induction l as [| x l IH]; intros Hb Hc Hnb Hnc; [inversion Hb |].
  apply elem_of_cons in Hb. apply elem_of_cons in Hc.
  destruct Hb as [<- | Hb].
  - destruct Hc as [Hc | Hc]; [congruence |].
    rewrite filter_cons_False by exact Hnb.
    pose proof (filter_drop1 P l c Hc Hnc). cbn [length]. lia.
  - destruct Hc as [<- | Hc].
    + rewrite filter_cons_False by exact Hnc.
      pose proof (filter_drop1 P l b Hb Hnb). cbn [length]. lia.
    + specialize (IH Hb Hc Hnb Hnc). destruct (decide (P x)).
      * rewrite filter_cons_True by assumption. cbn [length]. lia.
      * rewrite filter_cons_False by assumption. cbn [length]. lia.
Qed.

(** X27.  An accepted mutation always shrinks the fragment table: the base and at
    least one component go, and at most one fragment comes back.  The table
    loses at least one row when the mutation succeeds and at least two when
    it fails, and every row it holds afterwards was there before or is the
    one the mutation created. *)
Theorem mutate_shrinks
    (req : MutationRequest) (mutationRng : Q) (now : Z) (newId : string) (w : World)
    (baseFragment : Fragment) (components : list Fragment) :
  accepted req w baseFragment components ->
  (length (fragments (fst (mutate req mutationRng now newId w))) + 1
   <= length (fragments w))%nat /\
  (JS.ltb mutationRng
     (calculateMutationSuccessRate baseFragment components (gameState w)) = false ->
   (length (fragments (fst (mutate req mutationRng now newId w))) + 2
    <= length (fragments w))%nat) /\
  (forall f, f ∈ fragments (fst (mutate req mutationRng now newId w)) ->
     f ∈ fragments w \/
     f = createdBy baseFragment components (gameState w) now newId).
Proof.
  intros Hacc.
  rewrite (mutate_accepted req mutationRng now newId w _ _ Hacc).
  destruct Hacc as (_ & Hne & Hfind & Hty & Hres & Hlen & Hall & _).
  apply findFragment_Some in Hfind. destruct Hfind as [Hb Hbid].
  apply getFragments_stored in Hb.
  assert (Hc : exists c, c ∈ components).
  { destruct components as [| c cs]; [| exists c; left].
    destruct (componentFragmentIds req); [contradiction | discriminate Hlen]. }
  destruct Hc as [c Hc].
  assert (Hcin : c ∈ fragments w /\ id c ∈ componentFragmentIds req).
  { rewrite Hres in Hc. unfold resolve in Hc. apply list_elem_of_omap in Hc.
    destruct Hc as (i & Hi & Hfind). apply findFragment_Some in Hfind.
    destruct Hfind as [Hin Hid]. apply getFragments_stored in Hin.
    split; [exact Hin | now rewrite Hid]. }
  destruct Hcin as [Hcw Hcid].
  assert (Hbc : baseFragment <> c).
  { intros ->. rewrite Forall_forall in Hall. specialize (Hall c Hc).
    unfold isComponent in Hall. rewrite Hty in Hall. destruct Hall; discriminate. }
  assert (Hdrop : (length (without (consumedIds req) (fragments w)) + 2
                   <= length (fragments w))%nat).
  { unfold without. apply (filter_drop2 _ _ baseFragment c Hbc Hb Hcw).
    - intros H. apply H. unfold consumedIds. rewrite Hbid. left.
    - intros H. apply H. unfold consumedIds. now right. }
  destruct (JS.ltb _ _); cbn [fst fragments consumed].
  - rewrite length_app. cbn [length]. split; [lia |]. split; [discriminate |].
    intros f Hf. apply elem_of_app in Hf. destruct Hf as [Hf | Hf].
    + left. apply without_spec in Hf. tauto.
    + right. now apply list_elem_of_singleton in Hf.
  - split; [lia |]. split; [intros _; exact Hdrop |].
    intros f Hf. left. apply without_spec in Hf. tauto.
Qed.

End Ownership.

(* ================================================================== *)
(** * The generator properties at sample inputs                       *)
(* ================================================================== *)

(** X2 from seed 1. *)
Lemma next_unit_interval_witness :
  (0 <= fst (Rng64.next (Rng.mkVoidRNG 1)) < 1)%Q /\
  (fst (Rng64.next (Rng.mkVoidRNG 1)) <= 1 - F64.pow2 (-18))%Q /\
  0 <= Rng.seed (snd (Rng64.next (Rng.mkVoidRNG 1))) < 233280 /\
  fst (Rng64.next (Rng.mkVoidRNG 1))
    = F64.fl (inject_Z (Rng.seed (snd (Rng64.next (Rng.mkVoidRNG 1)))) / 233280) /\
  (Rng.seed (Rng.mkVoidRNG 1) < 233280 ->
   Rng.seed (snd (Rng64.next (Rng.mkVoidRNG 1)))
     = (Rng.seed (Rng.mkVoidRNG 1) * 9301 + 49297) mod 233280).
Proof. apply (next_unit_interval (Rng.mkVoidRNG 1)). cbn. lia. Defined.

(** X3 for [randomInt(5, 25)] from seed 1. *)
Lemma randomInt_within_witness :
  snd (Rng64.randomInt (inject_Z 5) (inject_Z 25) (Rng.mkVoidRNG 1))
    = snd (Rng64.next (Rng.mkVoidRNG 1)) /\
  5 <= fst (Rng64.randomInt (inject_Z 5) (inject_Z 25) (Rng.mkVoidRNG 1)) <= 25 /\
  5 + Rng.seed (snd (Rng64.next (Rng.mkVoidRNG 1))) * (25 + 1 - 5) / 233280 - 1
    <= fst (Rng64.randomInt (inject_Z 5) (inject_Z 25) (Rng.mkVoidRNG 1))
    <= 5 + Rng.seed (snd (Rng64.next (Rng.mkVoidRNG 1))) * (25 + 1 - 5) / 233280 /\
  ((Rng.seed (snd (Rng64.next (Rng.mkVoidRNG 1))) * (25 + 1 - 5)) mod 233280 <> 0 ->
   fst (Rng64.randomInt (inject_Z 5) (inject_Z 25) (Rng.mkVoidRNG 1))
     = 5 + Rng.seed (snd (Rng64.next (Rng.mkVoidRNG 1))) * (25 + 1 - 5) / 233280) /\
  ((5, 25) ∈ Ext.generatorDraws ->
   Rng64.randomInt (inject_Z 5) (inject_Z 25) (Rng.mkVoidRNG 1)
     = Rng.randomInt (inject_Z 5) (inject_Z 25) (Rng.mkVoidRNG 1)) /\
  (inject_Z 5 <= fst (Rng64.random (inject_Z 5) (inject_Z 25) (Rng.mkVoidRNG 1)))%Q /\
  (5 < 25 ->
   (fst (Rng64.random (inject_Z 5) (inject_Z 25) (Rng.mkVoidRNG 1)) < inject_Z 25)%Q).
Proof. apply (randomInt_within 5 25 (Rng.mkVoidRNG 1)); cbn; lia. Defined.

(** X4 at the type weights of [generateFragment]. *)
Lemma weightedChoice_listed_witness :
  exists it,
    it ∈ FragmentGenerator.typeWeights /\
    Rng.weightedChoice FragmentGenerator.typeWeights (Rng.mkVoidRNG 1)
      = (Some (Rng.item it), snd (Rng.next (Rng.mkVoidRNG 1))).
Proof.
  apply (weightedChoice_listed FragmentGenerator.typeWeights (Rng.mkVoidRNG 1)).
  discriminate.
Defined.

(** X6 for a rare component, from seed 42. *)
Lemma generateBaseStats_stats_witness :
  FragmentGenerator.generateBaseStats "rare" "component" (Rng.mkVoidRNG 42)
    = (<["enhancement"%string :=
           (inject_Z (fst (Rng64.randomInt 5 20 (Rng.mkVoidRNG 42)))
            * Ext.statMultiplier "rare")%Q]> ∅,
       snd (Rng64.next (Rng.mkVoidRNG 42))) /\
  dom (fst (FragmentGenerator.generateBaseStats "rare" "component" (Rng.mkVoidRNG 42)))
    = Ext.statKeys "component" /\
  map_Forall (Ext.statOk (Ext.statMultiplier "rare"))
    (fst (FragmentGenerator.generateBaseStats "rare" "component" (Rng.mkVoidRNG 42))).
Proof.
  destruct (generateBaseStats_stats "rare" "component" (Rng.mkVoidRNG 42))
    as (H1 & _ & _ & H2 & H3 & _).
  - cbn. lia.
  - apply (bool_decide_unpack _). vm_compute. exact I.
  - split; [exact H1 |]. split; [exact H2 | exact H3].
Defined.

(** X7 with two names selected, from seed 42. *)
Lemma pickMod_terminates_witness :
  exists modName g',
    (forall fuel, (12 <= fuel)%nat ->
       FragmentGenerator.pickMod fuel
         {[ "Increased Damage"%string; "Void Affinity"%string ]} (Rng.mkVoidRNG 42)
       = Some (modName, g')) /\
    (modName ∉ ({[ "Increased Damage"%string; "Void Affinity"%string ]} : gset string)) /\
    (modName ∈ FragmentGenerator.possibleMods).
Proof.
  apply (pickMod_terminates {[ "Increased Damage"%string; "Void Affinity"%string ]}
           (Rng.mkVoidRNG 42)).
  - cbn. lia.
  - vm_compute. lia.
Defined.

(** X8 for a mythic fragment, from seed 42. *)
Lemma generateImplicitMods_terminates_witness :
  exists mods g',
    (forall fuel, (12 <= fuel)%nat ->
       FragmentGenerator.generateImplicitMods fuel "mythic" (Rng.mkVoidRNG 42)
       = Some (mods, g')) /\
    3 <= Z.of_nat (length mods) <= 4 /\
    NoDup (Schema.mod_name <$> mods) /\
    Forall (Ext.implicitModOk "mythic") mods.
Proof.
  destruct (generateImplicitMods_terminates "mythic" (Rng.mkVoidRNG 42))
    as (mods & g' & Hrun & _ & Hcount & _ & _ & _ & _ & Hnd & Hok & _); [cbn; lia |].
  exists mods, g'. split; [exact Hrun |]. split; [exact Hcount |].
  split; [exact Hnd | exact Hok].
Defined.

(** X9 for the sample player, from seed 42. *)
Lemma generateFragment_terminates_witness :
  exists f g',
    (forall fuel, (12 <= fuel)%nat ->
       FragmentGenerator.generateFragment fuel Sample.player (Rng.mkVoidRNG 42)
       = Some (f, g')) /\
    FragmentGenerator.g_type f ∈ Ext.fragmentTypes /\
    FragmentGenerator.g_rarity f ∈ GameLogic.rarityOrder /\
    FragmentGenerator.g_quantity f = 1.
Proof.
  destruct (generateFragment_terminates Sample.player (Rng.mkVoidRNG 42))
    as (f & g' & Hrun & Ht & Hr & _ & _ & _ & _ & _ & _ & _ & Hq & _); [cbn; lia |].
  exists f, g'. auto.
Defined.

(** X10 in the sample world, from seed 42. *)
Lemma spin_generates_witness :
  exists w' response rng',
    forall fuel, (12 <= fuel)%nat ->
      FragmentGenerator.spin fuel "f-9" Sample.world (Rng.mkVoidRNG 42)
      = Some (w', response, rng').
Proof.
  destruct (spin_generates "f-9" Sample.world (Rng.mkVoidRNG 42))
    as (w' & response & rng' & Hrun & _); [cbn; lia |].
  exists w', response, rng'. exact Hrun.
Defined.

(* ================================================================== *)
(** * The economy and handler properties at sample inputs             *)
(* ================================================================== *)

(** X11 for the sample sword. *)
Lemma calculateShatterValue_exact_witness :
  GameLogic.calculateShatterValue Sample.sword
    = 5 * Ext.shatterWeight (Schema.rarity Sample.sword) * Schema.quantity Sample.sword /\
  Ext.shatterWeight <$> GameLogic.rarityOrder = [1; 3; 8; 20; 50; 125; 300].
Proof.
  destruct (calculateShatterValue_exact Sample.sword) as (H1 & H2 & _).
  - apply (bool_decide_unpack _). vm_compute. exact I.
  - vm_compute. reflexivity.
  - split; [exact H1 | exact H2].
Defined.

(** X12 for the sample sword with the void iron and the essence. *)
Lemma calculateMutationCost_exact_witness :
  GameLogic.calculateMutationCost Sample.sword [Sample.voidIron; Sample.essence]
    = 100 + 100 * Ext.costWeight (Schema.rarity Sample.sword)
      + 50 * Ext.sumZ ((fun c => Ext.costWeight (Schema.rarity c))
                         <$> [Sample.voidIron; Sample.essence]) /\
  Ext.costWeight <$> GameLogic.rarityOrder = [1; 2; 4; 8; 16; 32; 64].
Proof.
  destruct (calculateMutationCost_exact Sample.sword [Sample.voidIron; Sample.essence])
    as (H1 & H2 & _).
  - apply (bool_decide_unpack _). vm_compute. exact I.
  - repeat constructor; apply (bool_decide_unpack _); vm_compute; exact I.
  - split; [exact H1 | exact H2].
Defined.

(** X13 for the spin speed of the sample player. *)
Lemma upgrade_effect_witness :
  Schema.flux (Routes.gameState (fst (Routes.upgrade "spinSpeed" Sample.world)))
    = Schema.flux (Routes.gameState Sample.world)
      - GameLogic.calculateDeviceUpgradeCost (Routes.gameState Sample.world) "spinSpeed" /\
  GameLogic.calculateDeviceUpgradeCost (Routes.gameState Sample.world) "spinSpeed"
    = Qfloor (inject_Z (Ext.trackCost "spinSpeed")
              * Qpower 1.5
                  (GameLogic.currentLevel (Routes.gameState Sample.world) "spinSpeed" - 1)) /\
  GameLogic.currentLevel (Routes.gameState (fst (Routes.upgrade "spinSpeed" Sample.world)))
      "spinSpeed"
    = GameLogic.currentLevel (Routes.gameState Sample.world) "spinSpeed" + 1 /\
  GameLogic.calculateDeviceUpgradeCost (Routes.gameState Sample.world) "spinSpeed" + 250
    <= GameLogic.calculateDeviceUpgradeCost
         (Routes.gameState (fst (Routes.upgrade "spinSpeed" Sample.world))) "spinSpeed".
Proof.
  destruct (upgrade_effect "spinSpeed" Sample.world)
    as (_ & Hf & Hc & _ & _ & _ & Hl & _ & _ & Hg & _).
  - left.
  - vm_compute. split; discriminate.
  - vm_compute. discriminate.
  - auto.
Defined.

(** X14 for a track that does not exist, in the sample world. *)
Lemma upgrade_refusal_witness :
  GameLogic.calculateDeviceUpgradeCost (Routes.gameState Sample.world) "teleport" = 500 /\
  snd (Routes.upgrade "teleport" Sample.world) = Routes.Error 400 "Invalid upgrade type" /\
  fst (Routes.upgrade "teleport" Sample.world) = Sample.world.
Proof.
  destruct (upgrade_refusal "teleport" Sample.world) as (_ & H2 & H3).
  - apply (bool_decide_unpack _). vm_compute. exact I.
  - destruct H2 as (Hc & _ & Hinv).
    + apply (bool_decide_unpack _). vm_compute. exact I.
    + split; [exact Hc |]. split.
      * apply Hinv. vm_compute. discriminate.
      * eapply H3. apply Hinv. vm_compute. discriminate.
Defined.

(** X15 for the sample sword with one
    and with two components. *)
Lemma calculateMutationSuccessRate_monotone_witness :
  (GameLogic.calculateMutationSuccessRate Sample.sword [Sample.voidIron; Sample.essence]
     Sample.player
   <= GameLogic.calculateMutationSuccessRate Sample.sword [Sample.voidIron] Sample.player)%Q.
Proof.
  apply (calculateMutationSuccessRate_monotone Sample.sword [Sample.voidIron]
           [Sample.voidIron; Sample.essence] Sample.player Sample.player).
  - cbn. lia.
  - lia.
Defined.

(** X17 for the sample sword with the void iron. *)
Lemma estimatedCost_below_witness :
  Controls.estimatedCost (Some Sample.sword) [Sample.voidIron]
    <= GameLogic.calculateMutationCost Sample.sword [Sample.voidIron].
Proof.
  destruct (estimatedCost_below Sample.sword [Sample.voidIron]) as [H _];
    [reflexivity | exact H].
Defined.

(** X18 for the sample sword with the void iron. *)
Lemma estimatedSuccessRate_agrees_witness :
  JS.round (GameLogic.calculateMutationSuccessRate Sample.sword [Sample.voidIron]
              Sample.player * 100)
    = Controls.estimatedSuccessRate (Some Sample.sword) [Sample.voidIron].
Proof.
  apply (estimatedSuccessRate_agrees Sample.sword [Sample.voidIron] Sample.player).
  - reflexivity.
  - reflexivity.
  - left.
Defined.

(** X19 for the sample sword with the void iron and the essence. *)
Lemma performMutation_keeps_witness :
  Schema.type (GameLogic.performMutation Sample.sword [Sample.voidIron; Sample.essence]
                 Sample.player 1700000000000)
    = Schema.type Sample.sword /\
  dom (Schema.baseStats
         (GameLogic.performMutation Sample.sword [Sample.voidIron; Sample.essence]
            Sample.player 1700000000000))
    = dom (Schema.baseStats Sample.sword).
Proof.
  destruct (performMutation_keeps Sample.sword [Sample.voidIron; Sample.essence]
              Sample.player 1700000000000)
    as (_ & _ & Ht & _ & _ & _ & Hd & _).
  - lia.
  - assert (H : forall m : gmap string Q,
                 dom m ## (list_to_set JS.inherited : gset string) ->
                 forall stat, stat ∈ dom m -> stat ∉ JS.inherited).
    { intros m Hm stat Hs Hin. apply (Hm stat Hs). now apply elem_of_list_to_set. }
    repeat (constructor; [apply H; apply (bool_decide_unpack _); vm_compute; exact I |]).
    constructor.
  - split; [exact Ht | exact Hd].
Defined.

(** X20 for the sample sword with the void iron and the
    essence. *)
Lemma performMutation_stats_witness :
  Schema.baseStats
    (GameLogic.performMutation Sample.sword [Sample.voidIron; Sample.essence]
       Sample.player 1700000000000)
  = Schema.baseStats Sample.sword.
Proof.
  apply (performMutation_stats Sample.sword [Sample.voidIron; Sample.essence]
           Sample.player 1700000000000).
  - apply (bool_decide_unpack _). vm_compute. exact I.
  - repeat constructor; apply (bool_decide_unpack _); vm_compute; exact I.
Defined.

(** X21 for the sword of the sample world. *)
Lemma shatter_effect_witness :
  snd (Routes.shatter "f-1" Sample.world)
    = Routes.ShatterOk (5 * Ext.shatterWeight (Schema.rarity Sample.sword)
                        * Schema.quantity Sample.sword) /\
  Routes.fragments (fst (Routes.shatter "f-1" Sample.world))
    = filter (fun x => Schema.id x <> "f-1"%string) (Routes.fragments Sample.world).
Proof.
  destruct (shatter_effect "f-1" Sample.world Sample.sword)
    as (_ & _ & _ & Hr & _ & _ & _ & Hf & _); [reflexivity |].
  split; [exact Hr | exact Hf].
Defined.

(** X22 in the sample world under the new id f-9. *)
Lemma spin_shatter_round_trip_witness :
  Routes.fragments
    (fst (Routes.shatter "f-9" (fst (Routes.spin Sample.draft "f-9" Sample.world))))
    = Routes.fragments Sample.world /\
  Schema.flux (Routes.gameState
    (fst (Routes.shatter "f-9" (fst (Routes.spin Sample.draft "f-9" Sample.world)))))
    = Schema.flux (Routes.gameState Sample.world) - Ext.spinCost (Routes.gameState Sample.world)
      + 5 * Ext.shatterWeight (Routes.draft_rarity Sample.draft).
Proof.
  destruct (spin_shatter_round_trip Sample.draft "f-9" Sample.world)
    as (Hf & _ & _ & Hflux & _).
  - intros f Hf.
    repeat (apply elem_of_cons in Hf; destruct Hf as [-> | Hf]; [discriminate |]).
    inversion Hf.
  - vm_compute. discriminate.
  - split; [exact Hf | exact Hflux].
Defined.

(** X23 for the void iron on the initial marketplace. *)
Lemma sell_effect_witness :
  exists price,
    snd (Routes.sell "f-2" Scenes.stall) = Routes.SellOk price /\
    1 <= price /\
    Ext.marketOk (fst (Routes.sell "f-2" Scenes.stall)).
Proof.
  destruct (sell_effect "f-2" Scenes.stall Sample.voidIron)
    as (price & Hr & Hp & _ & _ & _ & _ & Hok & _).
  - discriminate.
  - reflexivity.
  - exact (initial_market "gs-1" "u-1").
  - exists price. auto.
Defined.

(** X24 after a spin and the sale of its fragment. *)
Lemma market_invariant_witness :
  Ext.marketOk Scenes.afterSpinAndSell /\
  Forall2 Ext.marketMoves Market.initializeMarketplace
    (Routes.listings Scenes.afterSpinAndSell) /\
  length (Routes.listings Scenes.afterSpinAndSell) = 11%nat.
Proof.
  apply (market_invariant "gs-1" "u-1" Scenes.afterSpinAndSell).
  unfold Scenes.afterSpinAndSell.
  eapply Ext.played_step; [| apply Routes.step_sell].
  eapply Ext.played_step; [| apply Routes.step_spin].
  apply Ext.played_start.
Defined.

(** X25 for the second game state, whose table holds the sword of the first,
    after one spin. *)
Lemma reachable_fragments_witness :
  Schema.gs_id (Routes.gameState (fst (Routes.spin Sample.draft "f-7" Scenes.visitor)))
    = Schema.gs_id (Routes.gameState Scenes.visitor) /\
  Forall (Ext.fragmentOk (Routes.gameState (fst (Routes.spin Sample.draft "f-7" Scenes.visitor))))
    (Routes.getFragments
       (Schema.gs_id (Routes.gameState (fst (Routes.spin Sample.draft "f-7" Scenes.visitor))))
       (fst (Routes.spin Sample.draft "f-7" Scenes.visitor))) /\
  Sample.sword ∈ Routes.fragments (fst (Routes.spin Sample.draft "f-7" Scenes.visitor)).
Proof.
  destruct (reachable_fragments Scenes.visitor
              (fst (Routes.spin Sample.draft "f-7" Scenes.visitor)))
    as (H1 & H2 & _).
  - eapply Ext.played_step; [| apply Routes.step_spin]. apply Ext.played_start.
  - vm_compute. constructor.
  - split; [exact H1 |]. split; [exact H2 |]. vm_compute. left.
Defined.

(** X26 for the second game state and the sword of
    the first. *)
Lemma foreign_fragments_refused_witness :
  Routes.shatter "f-1" Scenes.visitor
    = (Scenes.visitor, Routes.Error 404 "Fragment not found") /\
  Routes.sell "f-1" Scenes.visitor
    = (Scenes.visitor, Routes.Error 404 "Fragment not found").
Proof.
  destruct (foreign_fragments_refused "f-1" Scenes.visitor) as (H1 & H2 & _).
  - intros f Hf _.
    apply elem_of_cons in Hf. destruct Hf as [-> | Hf]; [discriminate | inversion Hf].
  - split; [exact H1 | apply H2; discriminate].
Defined.

(** X27 for the sample request with a passing draw. *)
Lemma mutate_shrinks_witness :
  (length (Routes.fragments
             (fst (Routes.mutate Sample.goodRequest 0 1700000000000 "f-9" Sample.world)))
   + 1 <= length (Routes.fragments Sample.world))%nat.
Proof.
  destruct (mutate_shrinks Sample.goodRequest 0 1700000000000 "f-9" Sample.world
              Sample.sword [Sample.voidIron; Sample.essence] sample_accepted)
    as [H _].
  exact H.
Defined.
